(** * Row-processing pipeline: checkpointed retry and growing CSV schema

    A shallow embedding of [common.py], [phase1_discovery.py],
    [phase2_contacts.py], [utils_csv.py], [main.py] and [get_row_count] of
    [api_server.py], and the properties of the pipeline proved over it.

    Conventions of the embedding.
    - A Python [str] is a [list ascii]; a character is its code point, so the
      text covered is the range 0..255.  Character classes ([str.isspace],
      [\d], [str.lower], the line boundaries of [str.splitlines]) are
      Python's, restricted to that range.
    - A [float] is a rational ([Q]): the retry delays and the confidence score
      are computed exactly, without rounding.
    - A Python list mutated in place is passed in and returned.
    - An exception is a [Raise] result; [try]/[except Exception] is
      [try_except].  File operations thread a [world] holding the files and a
      schedule of injected I/O faults.
    - The browser agent and [random.uniform] are scripted: [agent i k] is what
      attempt [k] on data row [i] yields, [rand i k] the number drawn from
      [[0,1)] for it.
    - [csv.Sniffer], [json.loads], [json.dumps], the regular expressions of
      [extract_company_from_address] and the prompt text are library or
      opaque code: they are parameters of the sections that use them.  So
      are [int], [float] and [str] on the values of the environment, and
      what python-dotenv reads from the [.env] file.
    - The regular expressions of [common.py] are embedded on their own,
      character class by character class, in [_normalize_header_cell] and
      [extract_company_from_address]; [run_all] of [main.py] runs phase 1
      with the latter.
    - [os.environ] is a map passed in and returned; the module code of a
      phase is a function run at its import.
    - [csv.writer] and [csv.reader] follow CPython's [_csv] module for the
      dialects this program builds: no escape character, not strict,
      [QUOTE_MINIMAL]. *)

From Stdlib Require Import ZArith QArith Qminmax Ascii String Lia Lqa.
From stdpp Require Import base list gmap strings pretty.

Set Default Proof Using "Type".

(** ** Python values *)

Abbreviation str := (list ascii) (only parsing).

Definition lit (s : string) : str := list_ascii_of_string s.
Arguments lit : simpl never.

Definition ord (c : ascii) : N := N_of_ascii c.

(** [str.isspace] on one character. *)
Definition isspace (c : ascii) : bool :=
  let n := ord c in
  ((9 <=? n) && (n <=? 13) || (28 <=? n) && (n <=? 32)
   || (n =? 133) || (n =? 160))%N.

(** The class [\d] of [re]. *)
Definition isdigit (c : ascii) : bool :=
  let n := ord c in ((48 <=? n) && (n <=? 57))%N.

(** [[A-Za-z]]. *)
Definition isalpha_ascii (c : ascii) : bool :=
  let n := ord c in
  ((65 <=? n) && (n <=? 90) || (97 <=? n) && (n <=? 122))%N.

Definition lower_char (c : ascii) : ascii :=
  let n := ord c in
  if ((65 <=? n) && (n <=? 90)
      || (192 <=? n) && (n <=? 222) && negb (n =? 215))%N
  then ascii_of_N (n + 32) else c.

(** [s.lower()]. *)
Definition lower (s : str) : str := map lower_char s.

Fixpoint lstrip_chars (p : ascii → bool) (s : str) : str :=
  match s with
  | [] => []
  | c :: s' => if p c then lstrip_chars p s' else s
  end.

Definition rstrip_chars (p : ascii → bool) (s : str) : str :=
  reverse (lstrip_chars p (reverse s)).

Definition strip_chars (p : ascii → bool) (s : str) : str :=
  rstrip_chars p (lstrip_chars p s).

(** [s.strip()]. *)
Definition strip (s : str) : str := strip_chars isspace s.

(** [s.strip(chars)]. *)
Definition strip_set (chars : str) (s : str) : str :=
  strip_chars (λ c, bool_decide (c ∈ chars)) s.

(** Truth value of a string: non-empty. *)
Definition truthy (s : str) : bool :=
  match s with [] => false | _ => true end.

(** Truth value of an [Optional[str]]. *)
Definition truthy_opt (o : option str) : bool :=
  match o with Some s => truthy s | None => false end.

(** [a or b] on strings. *)
Definition str_or (a b : str) : str := if truthy a then a else b.

(** [o or b] where [o] is an [Optional[str]]. *)
Definition opt_or (o : option str) (b : str) : str :=
  match o with Some s => str_or s b | None => b end.

(** [sep.join(items)]. *)
Fixpoint join (sep : str) (items : list str) : str :=
  match items with
  | [] => []
  | [x] => x
  | x :: rest => x ++ sep ++ join sep rest
  end.

(** [str(n)] for an [int]. *)
Definition str_of_Z (z : Z) : str := lit (pretty z).
Definition str_of_nat (n : nat) : str := lit (pretty n).

(** [s[:n]]. *)
Definition slice_to (n : nat) (s : str) : str := take n s.

(** ** Exceptions *)

Inductive exn :=
  | IndexError | ValueError | NameError | AttributeError | TypeError
  | KeyError | OSError | FileNotFoundError | CsvError | RuntimeError
  | JSONDecodeError.

Inductive res (A : Type) :=
  | Ok (a : A)
  | Raise (e : exn).
Arguments Ok {A} a.
Arguments Raise {A} e.

Global Instance res_ret : MRet res := λ A a, Ok a.
Global Instance res_bind : MBind res := λ A B f m,
  match m with Ok a => f a | Raise e => Raise e end.

Definition is_ok {A} (r : res A) : bool :=
  match r with Ok _ => true | Raise _ => false end.

(** [row[i]]: an index past the end raises. *)
Definition get_item (row : list str) (i : nat) : res str :=
  match row !! i with Some c => Ok c | None => Raise IndexError end.

(** [row[i] = v]: an index past the end raises. *)
Definition set_item (row : list str) (i : nat) (v : str) : res (list str) :=
  if decide (i < length row) then Ok (<[i:=v]> row) else Raise IndexError.

(** [header.index(name)] when [name in header]. *)
Fixpoint index_of (name : str) (header : list str) : option nat :=
  match header with
  | [] => None
  | h :: rest =>
      if decide (h = name) then Some 0 else S <$> index_of name rest
  end.

(** [name in header]. *)
Definition contains (header : list str) (name : str) : bool :=
  match index_of name header with Some _ => true | None => false end.

(** [header.index(name)]: raises when [name] is absent. *)
Definition index (header : list str) (name : str) : res nat :=
  match index_of name header with Some i => Ok i | None => Raise ValueError end.

(** ** common.py *)

Definition OUT_COL_ADDRESS : str := lit "ADDRESS".
Definition OUT_COL_POSTCODE : str := lit "POSTCODE".
Definition OUT_COL_COMPANY_NAME : str := lit "COMPANY NAME".
Definition OUT_COL_WEBSITE : str := lit "WEBSITE".
Definition OUT_COL_EMAIL : str := lit "GENERAL EMAIL".
Definition OUT_COL_PHONE : str := lit "PHONE NUMBER".
Definition OUT_COL_CONTACT_NAME : str := lit "DIRECT CONTACT".
Definition OUT_COL_CONTACT_TITLE : str := lit "JOBTITLE".
Definition OUT_COL_CONTACT_LINKEDIN : str := lit "LINKEDIN".
Definition OUT_COL_CONTACT_EMAIL : str := lit "EMAIL".
Definition OUT_COL_GOVUK_URL : str := lit "GOV.UK URL".
Definition OUT_COL_SOURCE_URL : str := lit "source_url".
Definition OUT_COL_CONFIDENCE : str := lit "confidence".
Definition OUT_COL_NOTES : str := lit "notes".
Definition OUT_COL_CONTACT_SOURCE_URL : str := lit "contact_source_url".

(** [_phone_clean_re.sub('', (p or '').strip())]: the pattern is
    [[^\d+]], every character that is neither a digit nor a plus. *)
Definition keeps_phone_char (c : ascii) : bool :=
  isdigit c || bool_decide (c = "+"%char).

Definition clean_phone (p : str) : str :=
  filter (λ c, keeps_phone_char c = true) (strip p).

(** [dedupe_keep_order]: the loop over [items] with its [seen] set and its
    [out] list. *)
Fixpoint dedupe_loop (seen : gset str) (out : list str) (items : list str)
  : list str :=
  match items with
  | [] => out
  | x :: rest =>
      if negb (truthy x) then dedupe_loop seen out rest
      else if decide (x ∉ seen)
           then dedupe_loop ({[x]} ∪ seen) (out ++ [x]) rest
           else dedupe_loop seen out rest
  end.

Definition dedupe_keep_order (items : list str) : list str :=
  dedupe_loop ∅ [] items.

(** [ensure_col_exact]: the header after the call and the index returned. *)
Definition ensure_col_exact (header : list str) (name : str)
  : list str * nat :=
  match index_of name header with
  | Some i => (header, i)
  | None => (header ++ [name], length header)
  end.

(** [f"{OUT_COL_PHONE} {k}"]. *)
Definition phone_col (k : nat) : str :=
  OUT_COL_PHONE ++ lit " " ++ str_of_nat k.

Definition append_if_absent (header : list str) (name : str) : list str :=
  if contains header name then header else header ++ [name].

(** [ensure_phone_cols]: [range(2, max_phones + 1)] is [seq 2 (max_phones - 1)]. *)
Definition ensure_phone_cols (header : list str) (max_phones : nat)
  : list str :=
  let header := append_if_absent header OUT_COL_PHONE in
  if decide (1 < max_phones)
  then foldl (λ h k, append_if_absent h (phone_col k)) header
             (seq 2 (max_phones - 1))
  else header.

(** One round of the loop of [fill_phone_cols] on [(k, val)]. *)
Definition fill_phone_step (number_base_idx : nat)
    (st : list str * list str * nat) (k : nat) (val : str)
  : res (list str * list str * nat) :=
  let '(row, header, max_phones) := st in
  match k with
  | 0 =>
      cur ← get_item row number_base_idx;
      row ← set_item row number_base_idx (str_or cur val);
      mret (row, header, max_phones)
  | S _ =>
      let col := phone_col (k + 1) in
      let header := append_if_absent header col in
      idx ← index header col;
      let row :=
        if decide (length row ≤ idx)
        then row ++ replicate (idx + 1 - length row) []
        else row in
      row ← set_item row idx val;
      mret (row, header, max_phones `max` (k + 1))
  end.

Fixpoint fill_phone_loop (number_base_idx : nat)
    (st : list str * list str * nat) (k : nat) (numbers : list str)
  : res (list str * list str * nat) :=
  match numbers with
  | [] => Ok st
  | val :: rest =>
      st ← fill_phone_step number_base_idx st k val;
      fill_phone_loop number_base_idx st (S k) rest
  end.

(** [fill_phone_cols]: the row and the header after the call. *)
Definition fill_phone_cols (row header : list str) (numbers : list str)
  : res (list str * list str) :=
  number_base_idx ← index header OUT_COL_PHONE;
  '(row, header, max_phones) ←
    fill_phone_loop number_base_idx (row, header, 1) 0 numbers;
  mret (row, ensure_phone_cols header max_phones).

(** *** Dialects and the csv writer *)

(** The attributes of a [csv.Dialect] this program reads or sets.  Every
    dialect it builds has [quoting = QUOTE_MINIMAL], no [escapechar] and is
    not strict. *)
Record Dialect := {
  delimiter : ascii;
  quotechar : ascii;
  doublequote : bool;
  skipinitialspace : bool;
  lineterminator : str;
}.

Definition LF : ascii := ascii_of_N 10.
Definition CR : ascii := ascii_of_N 13.
Definition TAB : ascii := ascii_of_N 9.
Definition DQUOTE : ascii := ascii_of_N 34.
Definition COMMA : ascii := ascii_of_N 44.
Definition SPACE : ascii := ascii_of_N 32.

(** A field is quoted when it holds the delimiter, the quote character or a
    character of the line terminator. *)
Definition special_char (delim quote : ascii) (lt : str) (c : ascii) : bool :=
  bool_decide (c = delim) || bool_decide (c = quote) || bool_decide (c ∈ lt).

Definition needs_quote (delim quote : ascii) (lt : str) (field : str) : bool :=
  existsb (special_char delim quote lt) field.

(** [doublequote=True]: a quote character inside a field is written twice. *)
Fixpoint double_quotes (quote : ascii) (field : str) : str :=
  match field with
  | [] => []
  | c :: rest =>
      if decide (c = quote) then quote :: quote :: double_quotes quote rest
      else c :: double_quotes quote rest
  end.

Definition write_field (delim quote : ascii) (lt : str) (field : str) : str :=
  if needs_quote delim quote lt field
  then quote :: double_quotes quote field ++ [quote]
  else field.

(** [writer.writerow(row)] with [QUOTE_MINIMAL] and [doublequote=True]: a
    record of one empty field is written as two quote characters. *)
Definition writerow (delim quote : ascii) (lt : str) (row : list str) : str :=
  let rec := join [delim] (map (write_field delim quote lt) row) in
  let rec :=
    if bool_decide (row ≠ []) && bool_decide (rec = [])
    then [quote; quote] else rec in
  rec ++ lt.

Definition writerows (delim quote : ascii) (lt : str) (rows : list (list str))
  : str :=
  concat (map (writerow delim quote lt) rows).

(** *** The csv reader *)

Inductive ParserState :=
  | START_RECORD | START_FIELD | IN_FIELD | IN_QUOTED_FIELD
  | QUOTE_IN_QUOTED_FIELD | EAT_CRNL.

Global Instance ParserState_eq_dec : EqDecision ParserState.
Proof. solve_decision. Defined.

Record Reader := {
  state : ParserState;
  fields : list str;
  field : str;
}.

Definition parse_reset : Reader :=
  {| state := START_RECORD; fields := []; field := [] |}.

Definition set_state (r : Reader) (s : ParserState) : Reader :=
  {| state := s; fields := fields r; field := field r |}.

(** [csv.field_size_limit()], never changed by this program. *)
Definition field_limit : N := 131072.

Definition parse_add_char (r : Reader) (c : ascii) : res Reader :=
  if (field_limit <=? N.of_nat (length (field r)))%N then Raise CsvError
  else Ok {| state := state r; fields := fields r; field := field r ++ [c] |}.

Definition parse_save_field (r : Reader) : Reader :=
  {| state := state r; fields := fields r ++ [field r]; field := [] |}.

Definition is_newline (c : ascii) : bool :=
  bool_decide (c = LF) || bool_decide (c = CR).

(** [parse_process_char]: [None] is the end-of-line signal. *)
Definition parse_process_char (d : Dialect) (r : Reader) (c : option ascii)
  : res Reader :=
  let start_field (r : Reader) : res Reader :=
    match c with
    | None => Ok (set_state (parse_save_field r) START_RECORD)
    | Some c =>
        if is_newline c then Ok (set_state (parse_save_field r) EAT_CRNL)
        else if decide (c = quotechar d) then Ok (set_state r IN_QUOTED_FIELD)
        else if bool_decide (c = SPACE) && skipinitialspace d then Ok r
        else if decide (c = delimiter d) then Ok (parse_save_field r)
        else r ← parse_add_char r c; mret (set_state r IN_FIELD)
    end in
  match state r with
  | START_RECORD =>
      match c with
      | None => Ok r
      | Some c' =>
          if is_newline c' then Ok (set_state r EAT_CRNL)
          else start_field (set_state r START_FIELD)
      end
  | START_FIELD => start_field r
  | IN_FIELD =>
      match c with
      | None => Ok (set_state (parse_save_field r) START_RECORD)
      | Some c =>
          if is_newline c then Ok (set_state (parse_save_field r) EAT_CRNL)
          else if decide (c = delimiter d)
               then Ok (set_state (parse_save_field r) START_FIELD)
          else parse_add_char r c
      end
  | IN_QUOTED_FIELD =>
      match c with
      | None => Ok r
      | Some c =>
          if decide (c = quotechar d)
          then if doublequote d then Ok (set_state r QUOTE_IN_QUOTED_FIELD)
               else Ok (set_state r IN_FIELD)
          else parse_add_char r c
      end
  | QUOTE_IN_QUOTED_FIELD =>
      match c with
      | None => Ok (set_state (parse_save_field r) START_RECORD)
      | Some c =>
          if decide (c = quotechar d)
          then r ← parse_add_char r c; mret (set_state r IN_QUOTED_FIELD)
          else if decide (c = delimiter d)
               then Ok (set_state (parse_save_field r) START_FIELD)
          else if is_newline c
               then Ok (set_state (parse_save_field r) EAT_CRNL)
          else r ← parse_add_char r c; mret (set_state r IN_FIELD)
      end
  | EAT_CRNL =>
      match c with
      | None => Ok (set_state r START_RECORD)
      | Some c => if is_newline c then Ok r else Raise CsvError
      end
  end.

Fixpoint parse_chars (d : Dialect) (r : Reader) (line : str) : res Reader :=
  match line with
  | [] => Ok r
  | c :: rest => r ← parse_process_char d r (Some c); parse_chars d r rest
  end.

(** One line of the input: its characters, then the end-of-line signal. *)
Definition parse_line (d : Dialect) (r : Reader) (line : str) : res Reader :=
  r ← parse_chars d r line; parse_process_char d r None.

(** The input ends: a record that was begun yields what was read so far. *)
Definition end_of_input (r : Reader) : res (list (list str)) :=
  if bool_decide (field r ≠ []) || bool_decide (state r = IN_QUOTED_FIELD)
  then Ok [fields (parse_save_field r)]
  else Ok [].

(** The records of [csv.reader] over the lines of its input.  A record ends
    with the line that leaves the parser in [START_RECORD]. *)
Fixpoint reader_loop (d : Dialect) (r : Reader) (lines : list str)
  : res (list (list str)) :=
  match lines with
  | [] => end_of_input r
  | line :: rest =>
      r ← parse_line d r line;
      if decide (state r = START_RECORD)
      then rows ← reader_loop d parse_reset rest; mret (fields r :: rows)
      else reader_loop d r rest
  end.

(** The lines of a file opened with [newline='']: a line ends after a line
    feed, after a carriage return and line feed, or after a lone carriage
    return, and keeps its ending. *)
Fixpoint file_lines_from (cur : str) (text : str) : list str :=
  match text with
  | [] => if truthy cur then [cur] else []
  | c :: rest =>
      if decide (c = LF) then (cur ++ [c]) :: file_lines_from [] rest
      else if decide (c = CR) then
        match rest with
        | c' :: rest' =>
            if decide (c' = LF)
            then (cur ++ [c; c']) :: file_lines_from [] rest'
            else (cur ++ [c]) :: file_lines_from [] rest
        | [] => [cur ++ [c]]
        end
      else file_lines_from (cur ++ [c]) rest
  end.

Definition file_lines (text : str) : list str := file_lines_from [] text.

(** [csv.reader(f, dialect)] read to the end. *)
Definition csv_reader (d : Dialect) (text : str) : res (list (list str)) :=
  reader_loop d parse_reset (file_lines text).

(** *** Files *)

(** The files, by path, each with its text, and the faults still to come:
    every [open] takes the next flag, and fails when it is set. *)
Record world := {
  files : gmap str str;
  faults : list bool;
}.

Definition IO (A : Type) : Type := world → res A * world.

Global Instance IO_ret : MRet IO := λ A a w, (Ok a, w).
Global Instance IO_bind : MBind IO := λ A B f m w,
  match m w with
  | (Ok a, w') => f a w'
  | (Raise e, w') => (Raise e, w')
  end.

Definition raise {A} (e : exn) : IO A := λ w, (Raise e, w).

Definition lift {A} (r : res A) : IO A := λ w, (r, w).

(** [try: body / except Exception: handler]. *)
Definition try_except {A} (body handler : IO A) : IO A := λ w,
  match body w with
  | (Ok a, w') => (Ok a, w')
  | (Raise _, w') => handler w'
  end.

Definition next_fault : IO bool := λ w,
  match faults w with
  | [] => (Ok false, w)
  | b :: rest => (Ok b, {| files := files w; faults := rest |})
  end.

(** [open(path).read()]. *)
Definition read_file (path : str) : IO str :=
  failed ← next_fault;
  if failed : bool then raise OSError
  else λ w, match files w !! path with
            | Some text => (Ok text, w)
            | None => (Raise FileNotFoundError, w)
            end.

(** [open(path, "w")]: the file is emptied. *)
Definition open_write (path : str) : IO unit :=
  failed ← next_fault;
  if failed : bool then raise OSError
  else λ w, (Ok (), {| files := <[path := []]> (files w); faults := faults w |}).

(** [open(path, "a")]: the file is created when it is missing. *)
Definition open_append (path : str) : IO unit :=
  failed ← next_fault;
  if failed : bool then raise OSError
  else λ w,
    (Ok (), {| files := <[path := default [] (files w !! path)]> (files w);
               faults := faults w |}).

(** [f.write(text)] on a file opened for writing or appending. *)
Definition fwrite (path : str) (text : str) : IO unit := λ w,
  (Ok (), {| files := <[path := default [] (files w !! path) ++ text]> (files w);
             faults := faults w |}).

(** [Path(path).exists()]. *)
Definition path_exists (path : str) : IO bool := λ w,
  (Ok (bool_decide (is_Some (files w !! path))), w).

(** *** Sniffing, reading and writing tables *)

(** The text of [f.read(8192)] decoded as UTF-8 with [errors="ignore"]: a
    character below 128 takes one byte, another one two, and a character cut
    by the end of the sample is dropped. *)
Fixpoint sample_text (budget : nat) (text : str) : str :=
  match text with
  | [] => []
  | c :: rest =>
      let width := if (ord c <? 128)%N then 1 else 2 in
      if decide (width ≤ budget) then c :: sample_text (budget - width) rest
      else []
  end.

(** The line boundaries of [str.splitlines]. *)
Definition is_linebreak (c : ascii) : bool :=
  let n := ord c in
  ((10 <=? n) && (n <=? 13) || (28 <=? n) && (n <=? 30) || (n =? 133))%N.

(** [text.splitlines()[0] if text.splitlines() else ''], the first line. *)
Fixpoint first_line (text : str) : str :=
  match text with
  | [] => []
  | c :: rest => if is_linebreak c then [] else c :: first_line rest
  end.

(** [s.count(c)]. *)
Definition count_char (c : ascii) (s : str) : nat :=
  length (filter (λ x, x = c) s).

(** The class [_D] of the second [try] block. *)
Definition fallback_dialect (comma_count tab_count : nat) : Dialect :=
  {| delimiter := if decide (tab_count ≤ comma_count) then COMMA else TAB;
     quotechar := DQUOTE;
     doublequote := true;
     skipinitialspace := true;
     lineterminator := [LF] |}.

(** The class [_D] of the last [except] block. *)
Definition default_dialect : Dialect :=
  {| delimiter := COMMA;
     quotechar := DQUOTE;
     doublequote := true;
     skipinitialspace := true;
     lineterminator := [LF] |}.

Section Tables.
(** [csv.Sniffer().sniff] and [csv.Sniffer().has_header]. *)
Variable sniff : str → res Dialect.
Variable has_header : str → res bool.

(** The three blocks of [sniff_dialect_and_header] on the decoded sample. *)
Definition sniff_sample (decoded : str) : Dialect * bool :=
  let first :=
    dialect ← sniff decoded;
    has ← has_header decoded;
    mret (dialect, has) in
  match first with
  | Ok r => r
  | Raise _ =>
      let second : res (Dialect * bool) :=
        let line := first_line decoded in
        let comma_count := count_char COMMA line in
        let tab_count := count_char TAB line in
        Ok (fallback_dialect comma_count tab_count,
            existsb isalpha_ascii line) in
      match second with
      | Ok r => r
      | Raise _ => (default_dialect, true)
      end
  end.

Definition sniff_dialect_and_header (path : str) : IO (Dialect * bool) :=
  text ← read_file path;
  mret (sniff_sample (sample_text (N.to_nat 8192) text)).

(** [row and any(c.strip() for c in row)]. *)
Definition keep_row (row : list str) : bool :=
  bool_decide (row ≠ []) && existsb (λ c, truthy (strip c)) row.

Definition read_rows (path : str) : IO (list (list str)) :=
  '(dialect, _) ← sniff_dialect_and_header path;
  text ← read_file path;
  rows ← lift (csv_reader dialect text);
  mret (filter (λ row, keep_row row = true) rows).
End Tables.

(** [write_rows]: the writer takes the delimiter of [dialect]; the quote
    character, the doubling of quotes, the line terminator and the quoting
    mode are fixed. *)
Definition write_rows (path : str) (dialect : Dialect) (header : list str)
    (rows : list (list str)) : IO unit :=
  _ ← open_write path;
  fwrite path (writerows (delimiter dialect) DQUOTE [LF] (header :: rows)).

(** ** The structured result of phase 1 *)

Record CompanyInfo := {
  company_name : option str;
  post_code : option str;
  website : option str;
  email : option str;
  numbers : option (list str);
  contact_name : option str;
  contact_title : option str;
  contact_linkedin : option str;
  contact_email : option str;
  govuk_url : option str;
  source_url : option str;
  confidence : option Q;
  notes : option str;
}.

(** JSON values: the checkpoint records and the payload of phase 2. *)
#[local] Set Warnings "-register-all".
Inductive json :=
  | JNull
  | JBool (b : bool)
  | JInt (z : Z)
  | JFloat (q : Q)
  | JStr (s : str)
  | JList (items : list json)
  | JDict (entries : list (str * json)).

(** [x or None] as a JSON value. *)
Definition str_or_null (s : str) : json := if truthy s then JStr s else JNull.

(** The nearest integer, a tie going to the even one. *)
Definition round_half_even (x : Q) : Z :=
  let n := Qnum x in
  let d := Z.pos (Qden x) in
  let q := (n `div` d)%Z in
  let r := (n `mod` d)%Z in
  match (2 * r ?= d)%Z with
  | Lt => q
  | Gt => (q + 1)%Z
  | Eq => if Z.even q then q else (q + 1)%Z
  end.

(** [f"{x:.2f}"] for a finite [x]. *)
Definition format_2f (x : Q) : str :=
  let cents := Z.abs (round_half_even (x * (100 # 1))) in
  let sign := if Qlt_le_dec x 0 then lit "-" else [] in
  sign ++ str_of_Z (cents `div` 100) ++ lit "."
       ++ str_of_Z ((cents `mod` 100) `div` 10)
       ++ str_of_Z (cents `mod` 10).

(** ** The retry loop of both phases *)

Record RetryConfig := {
  ROW_RETRIES : Z;
  RETRY_BACKOFF_BASE : Q;
  RETRY_START_SLEEP : Q;
  RETRY_MAX_SLEEP : Q;
}.

(** What one row's loop does to the outside: it awaits the agent and it
    sleeps. *)
Inductive event :=
  | Call (attempt : nat)
  | Sleep (seconds : Q).

(** [random.uniform(a, b)] from the number [u] drawn by [random.random()]. *)
Definition uniform (a b u : Q) : Q := a + (b - a) * u.

Record loop_state (T : Type) := {
  result : T;
  attempt : option nat;
  sleep_s : Q;
  trace : list event;
}.
Arguments result {T} _.
Arguments attempt {T} _.
Arguments sleep_s {T} _.
Arguments trace {T} _.

Section Retry.
Context {T : Type}.
Variable cfg : RetryConfig.
(** The awaited call of attempt [k]; a raised exception is caught. *)
Variable run : nat → res T.
(** The value the [except] branch sets, and the one before the loop. *)
Variable failed : T.
(** The test that breaks out of the loop. *)
Variable success : T → bool.
(** The number [random.random()] gives attempt [k]. *)
Variable draw : nat → Q.

(** The rounds of [for attempt in range(1, ROW_RETRIES + 1)] still to run. *)
Fixpoint retry_from (attempts : list nat) (st : loop_state T)
  : loop_state T :=
  match attempts with
  | [] => st
  | k :: rest =>
      let info := match run k with Ok v => v | Raise _ => failed end in
      let called := trace st ++ [Call k] in
      if success info
      then {| result := info; attempt := Some k;
              sleep_s := sleep_s st; trace := called |}
      else
        let jitter := uniform 0 ((4 # 10) * sleep_s st) (draw k) in
        let to_sleep := Qmin (RETRY_MAX_SLEEP cfg) (sleep_s st + jitter) in
        retry_from rest
          {| result := info; attempt := Some k;
             sleep_s := Qmin (RETRY_MAX_SLEEP cfg)
                             (sleep_s st * RETRY_BACKOFF_BASE cfg);
             trace := called ++ [Sleep to_sleep] |}
  end.

Definition retry_loop : loop_state T :=
  retry_from (seq 1 (Z.to_nat (ROW_RETRIES cfg)))
    {| result := failed; attempt := None;
       sleep_s := RETRY_START_SLEEP cfg; trace := [] |}.
End Retry.

(** [zip(rows, phone_lists)] with [fill_phone_cols] on each pair: the header
    is shared by the calls, and the rows past the shorter list stay as they
    are. *)
Fixpoint fill_all (header : list str) (rows : list (list str))
    (phone_lists : list (list str)) : res (list (list str) * list str) :=
  match rows, phone_lists with
  | row :: rows', nums :: phone_lists' =>
      '(row, header) ← fill_phone_cols row header nums;
      '(rest, header) ← fill_all header rows' phone_lists';
      mret (row :: rest, header)
  | _, _ => Ok (rows, header)
  end.

(** [max((len(x) for x in phone_lists), default=0)]. *)
Definition max_len (phone_lists : list (list str)) : nat :=
  foldr (λ x m, length x `max` m) 0 phone_lists.

(** [row + [''] * (n - len(row))]: the row padded with empty cells. *)
Definition pad_to (n : nat) (row : list str) : list str :=
  row ++ replicate (n - length row) [].

(** ** phase1_discovery.py *)

Module Phase1.

Record Config := {
  GOOGLE_API_KEY : option str;
  INPUT_CSV : str;
  OUTPUT_CSV : str;
  PARTIAL_EVERY : Z;
  PARTIAL_CSV : str;
  retry : RetryConfig;
  CHECKPOINT_JSONL : str;
}.

Definition attempt_has_core (info : option CompanyInfo) : bool :=
  match info with
  | None => false
  | Some info =>
      let has_site_inbox :=
        truthy_opt (website info) && truthy_opt (email info) in
      let has_phone :=
        match numbers info with
        | Some l => bool_decide (l ≠ []) && bool_decide (0 < length l)
        | None => false
        end in
      let has_identity :=
        truthy_opt (company_name info) && truthy_opt (govuk_url info) in
      has_site_inbox || has_phone || has_identity
  end.

(** The indices [ensure_col_exact] returned for the output header. *)
Record Columns := {
  idx_address : nat;
  idx_pc : nat;
  idx_name : nat;
  idx_site : nat;
  idx_email : nat;
  idx_phone : nat;
  idx_govuk : nat;
  idx_src : nat;
  idx_conf : nat;
  idx_notes : nat;
}.

(** The ten calls of [ensure_col_exact] on the copy of the input header. *)
Definition build_output_header (header : list str) : list str * Columns :=
  let '(h, i_address) := ensure_col_exact header OUT_COL_ADDRESS in
  let '(h, i_pc) := ensure_col_exact h OUT_COL_POSTCODE in
  let '(h, i_name) := ensure_col_exact h OUT_COL_COMPANY_NAME in
  let '(h, i_site) := ensure_col_exact h OUT_COL_WEBSITE in
  let '(h, i_email) := ensure_col_exact h OUT_COL_EMAIL in
  let '(h, i_phone) := ensure_col_exact h OUT_COL_PHONE in
  let '(h, i_govuk) := ensure_col_exact h OUT_COL_GOVUK_URL in
  let '(h, i_src) := ensure_col_exact h OUT_COL_SOURCE_URL in
  let '(h, i_conf) := ensure_col_exact h OUT_COL_CONFIDENCE in
  let '(h, i_notes) := ensure_col_exact h OUT_COL_NOTES in
  (h, {| idx_address := i_address; idx_pc := i_pc; idx_name := i_name;
         idx_site := i_site; idx_email := i_email; idx_phone := i_phone;
         idx_govuk := i_govuk; idx_src := i_src; idx_conf := i_conf;
         idx_notes := i_notes |}).

(** [if value: row[i] = row[i] or f(value)]. *)
Definition fill_if_given (row : list str) (i : nat) (value : option str)
    (f : str → str) : res (list str) :=
  match value with
  | Some v =>
      if truthy v
      then cur ← get_item row i; set_item row i (str_or cur (f v))
      else Ok row
  | None => Ok row
  end.

(** [f"Phase1 attempts: {attempt}/{ROW_RETRIES}"]. *)
Definition attempts_note (attempt : nat) (row_retries : Z) : str :=
  lit "Phase1 attempts: " ++ str_of_nat attempt ++ lit "/"
    ++ str_of_Z row_retries.

(** The phone numbers kept from [info.numbers]. *)
Definition merged_numbers (numbers : list str) : list str :=
  let nums := map clean_phone numbers in
  let nums := filter (λ n, 7 ≤ length n) nums in
  dedupe_keep_order nums.

(** The block under [if info:]: the row and [nums] after it.  [attempt] is
    the loop variable, unbound when the loop never ran. *)
Definition apply_results (cfg : Config) (cols : Columns) (row : list str)
    (info : CompanyInfo) (address postcode : str) (attempt : option nat)
  : res (list str * list str) :=
  cur ← get_item row (idx_address cols);
  row ← set_item row (idx_address cols) (str_or (str_or cur address) []);
  cur ← get_item row (idx_pc cols);
  row ← set_item row (idx_pc cols)
        (str_or (str_or (str_or cur (opt_or (post_code info) [])) postcode) []);
  row ← fill_if_given row (idx_name cols) (company_name info) strip;
  row ← fill_if_given row (idx_site cols) (website info) strip;
  row ← fill_if_given row (idx_email cols) (email info) (λ v, lower (strip v));
  row ← fill_if_given row (idx_govuk cols) (govuk_url info) strip;
  row ← fill_if_given row (idx_src cols) (source_url info) strip;
  row ←
    match confidence info with
    | Some c =>
        cur ← get_item row (idx_conf cols);
        if negb (truthy cur) then set_item row (idx_conf cols) (format_2f c)
        else Ok row
    | None => Ok row
    end;
  cur ← get_item row (idx_notes cols);
  let existing_notes := str_or cur [] in
  let note := strip (opt_or (notes info) []) in
  attempt ← match attempt with Some k => Ok k | None => Raise NameError end;
  let attempts_note := attempts_note attempt (ROW_RETRIES (retry cfg)) in
  let combined :=
    strip_set (lit "; ")
      (join (lit "; ")
         (filter (λ s, truthy s = true) [existing_notes; note; attempts_note])) in
  row ← set_item row (idx_notes cols) combined;
  let nums :=
    match numbers info with
    | Some l => if bool_decide (l ≠ []) then merged_numbers l else []
    | None => []
    end in
  mret (row, nums).

(** [row[i].strip() if len(row) > i else '']. *)
Definition cell_stripped (row : list str) (i : nat) : res str :=
  if decide (i < length row) then c ← get_item row i; mret (strip c)
  else Ok [].

Section Run.
Variable sniff : str → res Dialect.
Variable has_header : str → res bool.
(** [json.dumps(record, ensure_ascii=False)]. *)
Variable json_dumps : json → res str.
(** [extract_company_from_address], a chain of regular expressions whose
    value goes to the agent and to the checkpoint record only. *)
Variable extract_company_from_address : str → str.
(** [agent i k]: what [run_for_row] returns, or raises, at attempt [k] on
    data row [i]. *)
Variable agent : nat → nat → res (option CompanyInfo).
(** [rand i k]: the number [random.random()] gives that attempt. *)
Variable rand : nat → nat → Q.
Variable cfg : Config.

Definition write_checkpoint (record : json) : IO unit :=
  try_except
    (_ ← open_append (CHECKPOINT_JSONL cfg);
     line ← lift (json_dumps record);
     fwrite (CHECKPOINT_JSONL cfg) (line ++ [LF]))
    (mret ()).

Definition _write_partial_snapshot (dialect : Dialect)
    (base_header : list str) (processed_rows : list (list str))
    (phone_lists : list (list str)) (path : str) : IO unit :=
  let header := base_header in
  let max_phones_so_far := max_len phone_lists in
  let header := ensure_phone_cols header max_phones_so_far in
  let rows_copy := map (pad_to (length header)) processed_rows in
  '(rows_copy, header) ← lift (fill_all header rows_copy phone_lists);
  write_rows path dialect header rows_copy.

(** [if PARTIAL_EVERY > 0 and i % PARTIAL_EVERY == 0:] and the guarded
    snapshot under it. *)
Definition autosave (dialect : Dialect) (output_header : list str)
    (processed_rows : list (list str)) (phone_lists : list (list str))
    (i : nat) : IO unit :=
  if bool_decide (0 < PARTIAL_EVERY cfg)%Z
     && bool_decide (Z.of_nat i `mod` PARTIAL_EVERY cfg = 0)%Z
  then try_except
         (_write_partial_snapshot dialect output_header processed_rows
            phone_lists (PARTIAL_CSV cfg))
         (mret ())
  else mret ().

Definition skipped_record (i : nat) (address postcode : str) : json :=
  JDict [(lit "row_index", JInt (Z.of_nat i));
         (lit "input", JDict [(lit "address", JStr address);
                              (lit "postcode", JStr postcode)]);
         (lit "output", JNull);
         (lit "note", JStr (lit "skipped blank row"))].

Definition row_record (cols : Columns) (i : nat)
    (address postcode inferred_company : str) (row : list str)
    (nums : list str) : res json :=
  name ← get_item row (idx_name cols);
  site ← get_item row (idx_site cols);
  mail ← get_item row (idx_email cols);
  govuk ← get_item row (idx_govuk cols);
  src ← get_item row (idx_src cols);
  conf ← get_item row (idx_conf cols);
  nts ← get_item row (idx_notes cols);
  mret (JDict
    [(lit "row_index", JInt (Z.of_nat i));
     (lit "input", JDict [(lit "address", JStr address);
                          (lit "postcode", JStr postcode);
                          (lit "seed_company", JStr inferred_company)]);
     (lit "output", JDict
        [(lit "company_name", str_or_null name);
         (lit "website", str_or_null site);
         (lit "email", str_or_null mail);
         (lit "numbers",
          if bool_decide (nums ≠ []) then JList (JStr <$> nums) else JNull);
         (lit "govuk_url", str_or_null govuk);
         (lit "source_url", str_or_null src);
         (lit "confidence", str_or_null conf);
         (lit "notes", str_or_null nts)])]).

(** The retry loop of data row [i]. *)
Definition attempts (i : nat) : loop_state (option CompanyInfo) :=
  retry_loop (retry cfg) (agent i) None attempt_has_core (rand i).

(** What one round of the loop over the data rows computes in memory: the
    padded row, whether it is skipped, and for a row that is not, the row
    after the results are applied and its phone numbers. *)
Definition enrich_row (cols : Columns) (output_header : list str)
    (i : nat) (row : list str)
  : res (bool * str * str * str * list str * list str) :=
  let row := pad_to (length output_header) row in
  address ← cell_stripped row (idx_address cols);
  postcode ← cell_stripped row (idx_pc cols);
  if negb (truthy address) && negb (truthy postcode)
  then mret (true, address, postcode, [], row, [])
  else
    let inferred_company :=
      str_or (extract_company_from_address address) (slice_to 140 address) in
    let st := attempts i in
    '(row, nums) ←
      match result st with
      | Some info =>
          apply_results cfg cols row info address postcode (attempt st)
      | None => Ok (row, [])
      end;
    mret (false, address, postcode, inferred_company, row, nums).

(** The body of [for i, row in enumerate(data_rows, start=1)]. *)
Definition process_row (dialect : Dialect) (cols : Columns)
    (output_header : list str)
    (acc : list (list str) * list (list str)) (i : nat) (row : list str)
  : IO (list (list str) * list (list str)) :=
  let '(processed_rows, phone_lists) := acc in
  '(skipped, address, postcode, inferred_company, row, nums) ←
    lift (enrich_row cols output_header i row);
  if skipped : bool then
    let processed_rows := processed_rows ++ [row] in
    let phone_lists := phone_lists ++ [[]] in
    _ ← write_checkpoint (skipped_record i address postcode);
    _ ← autosave dialect output_header processed_rows phone_lists i;
    mret (processed_rows, phone_lists)
  else
    let phone_lists := phone_lists ++ [nums] in
    let processed_rows := processed_rows ++ [row] in
    _ ← try_except
          (record ← lift (row_record cols i address postcode
                            inferred_company row nums);
           write_checkpoint record)
          (mret ());
    _ ← autosave dialect output_header processed_rows phone_lists i;
    mret (processed_rows, phone_lists).

(** The loop over the data rows, from row number [i]. *)
Fixpoint rows_loop (dialect : Dialect) (cols : Columns)
    (output_header : list str)
    (acc : list (list str) * list (list str)) (i : nat)
    (data_rows : list (list str))
  : IO (list (list str) * list (list str)) :=
  match data_rows with
  | [] => mret acc
  | row :: rest =>
      acc ← process_row dialect cols output_header acc i row;
      rows_loop dialect cols output_header acc (S i) rest
  end.

(** What follows the loop: the phone columns, the phone numbers written
    into the rows, the output file. *)
Definition finish (dialect : Dialect) (output_header : list str)
    (processed_rows : list (list str)) (phone_lists : list (list str))
  : IO unit :=
  let max_phones := max_len phone_lists in
  let output_header := ensure_phone_cols output_header max_phones in
  '(processed_rows, output_header) ←
    lift (fill_all output_header processed_rows phone_lists);
  write_rows (OUTPUT_CSV cfg) dialect output_header processed_rows.

Definition main : IO unit :=
  if negb (truthy_opt (GOOGLE_API_KEY cfg)) then raise RuntimeError else
  present ← path_exists (INPUT_CSV cfg);
  if negb present then raise FileNotFoundError else
  rows ← read_rows sniff has_header (INPUT_CSV cfg);
  match rows with
  | [] => mret ()
  | header :: data_rows =>
      '(dialect, has) ← sniff_dialect_and_header sniff has_header
                          (INPUT_CSV cfg);
      if negb has then raise ValueError else
      let '(output_header, cols) := build_output_header header in
      '(processed_rows, phone_lists) ←
        rows_loop dialect cols output_header ([], []) 1 data_rows;
      finish dialect output_header processed_rows phone_lists
  end.
End Run.

End Phase1.

(** ** phase2_contacts.py *)

(** [d.get(key)] on a JSON object. *)
Fixpoint dict_get (entries : list (str * json)) (key : str) : option json :=
  match entries with
  | [] => None
  | (k, v) :: rest => if decide (k = key) then Some v else dict_get rest key
  end.

(** Truth value of a JSON value. *)
Definition json_truthy (v : json) : bool :=
  match v with
  | JNull => false
  | JBool b => b
  | JInt z => negb (z =? 0)%Z
  | JFloat q => negb (Qeq_bool q 0)
  | JStr s => truthy s
  | JList items => bool_decide (items ≠ [])
  | JDict entries => bool_decide (entries ≠ [])
  end.

(** [(item.get(key) or '').strip()]: a value that is true and not a string
    has no [strip]. *)
Definition text_field (item : list (str * json)) (key : string) : res str :=
  match dict_get item (lit key) with
  | None => Ok (strip [])
  | Some v =>
      if json_truthy v
      then match v with JStr s => Ok (strip s) | _ => Raise AttributeError end
      else Ok (strip [])
  end.

Module Phase2.

(** The environment as read, before the clamping of [ROW_RETRIES] and
    [TARGET_CONTACTS]. *)
Record Config := {
  GOOGLE_API_KEY : option str;
  INPUT_CSV : str;
  OUTPUT_CSV : str;
  PARTIAL_EVERY : Z;
  PARTIAL_CSV : str;
  retry_env : RetryConfig;
  TARGET_CONTACTS_env : Z;
  CHECKPOINT_JSONL : str;
}.

(** [ROW_RETRIES = max(1, int(os.getenv("ROW_RETRIES", "5")))]. *)
Definition retry (cfg : Config) : RetryConfig :=
  {| ROW_RETRIES := 1 `max` ROW_RETRIES (retry_env cfg);
     RETRY_BACKOFF_BASE := RETRY_BACKOFF_BASE (retry_env cfg);
     RETRY_START_SLEEP := RETRY_START_SLEEP (retry_env cfg);
     RETRY_MAX_SLEEP := RETRY_MAX_SLEEP (retry_env cfg) |}.

(** [TARGET_CONTACTS = max(1, min(3, TARGET_CONTACTS))]. *)
Definition TARGET_CONTACTS (cfg : Config) : Z :=
  (1 `max` (3 `min` TARGET_CONTACTS_env cfg))%Z.

(** One entry of the list [run_for_company] returns. *)
Record Contact := {
  contact_name : str;
  contact_title : str;
  contact_linkedin : str;
  contact_email : str;
  source_url : str;
  confidence : json;
  notes : str;
}.

(** The history object of the agent: its [structured_output] attribute
    ([JNull] when it is [None] or missing) and, when the object has the
    method, what [final_result()] returns or raises. *)
Record History := {
  structured_output : json;
  final_result : option (res json);
}.

(** The columns of one contact slot. *)
Record ContactCols := {
  name : nat;
  title : nat;
  linkedin : nat;
  email : nat;
}.

(** The indices [main] keeps for the output header, and the dictionary of
    [ensure_contact_cols]. *)
Record Columns := {
  idx_name : nat;
  idx_govuk : nat;
  idx_src : nat;
  idx_conf : nat;
  idx_notes : nat;
  contact_cols : gmap nat ContactCols;
}.

(** The name [base] followed by the suffix: nothing for slot 1, a space and
    [k] for slot [k]. *)
Definition slot_col (base : str) (k : nat) : str :=
  base ++ (if decide (k = 1) then [] else lit " " ++ str_of_nat k).

Definition ensure_contact_cols_step
    (st : list str * gmap nat ContactCols) (k : nat)
  : list str * gmap nat ContactCols :=
  let '(header, idx) := st in
  let '(header, i_name) :=
    ensure_col_exact header (slot_col OUT_COL_CONTACT_NAME k) in
  let '(header, i_title) :=
    ensure_col_exact header (slot_col OUT_COL_CONTACT_TITLE k) in
  let '(header, i_linkedin) :=
    ensure_col_exact header (slot_col OUT_COL_CONTACT_LINKEDIN k) in
  let '(header, i_email) :=
    ensure_col_exact header (slot_col OUT_COL_CONTACT_EMAIL k) in
  (header, <[k := {| name := i_name; title := i_title;
                      linkedin := i_linkedin; email := i_email |}]> idx).

(** [ensure_contact_cols]: the header after the call and the dictionary
    returned. *)
Definition ensure_contact_cols (header : list str) (max_contacts : Z)
  : list str * gmap nat ContactCols :=
  foldl ensure_contact_cols_step (header, ∅) (seq 1 (Z.to_nat max_contacts)).

(** The loop of [run_for_company] over the items of ["contacts"]. *)
Fixpoint parse_items (items : list json) (contacts : list Contact)
  : res (list Contact) :=
  match items with
  | [] => Ok contacts
  | JDict item :: rest =>
      name ← text_field item "contact_name";
      title ← text_field item "contact_title";
      if negb (truthy name) || negb (truthy title)
      then parse_items rest contacts
      else
        linkedin ← text_field item "contact_linkedin";
        email ← text_field item "contact_email";
        source_url ← text_field item "source_url";
        notes ← text_field item "notes";
        parse_items rest
          (contacts ++
           [{| contact_name := name;
               contact_title := title;
               contact_linkedin := str_or linkedin [];
               contact_email := str_or (lower email) [];
               source_url := str_or source_url [];
               confidence := default JNull (dict_get item (lit "confidence"));
               notes := str_or notes [] |}])
  | _ :: rest => parse_items rest contacts
  end.

Definition has_key (v : json) (key : string) : bool :=
  match v with
  | JDict entries => bool_decide (is_Some (dict_get entries (lit key)))
  | _ => false
  end.

Section Run.
Variable sniff : str → res Dialect.
Variable has_header : str → res bool.
Variable json_dumps : json → res str.
(** [json.loads]. *)
Variable json_loads : str → res json.
(** [float(s)] for a string [s]. *)
Variable float_of_str : str → res Q.
(** [agent i k]: the history [agent.run] returns, or the exception it
    raises, at attempt [k] on data row [i]. *)
Variable agent : nat → nat → res History.
Variable rand : nat → nat → Q.
Variable cfg : Config.

(** The payload [run_for_company] parses; [None] is Python's. *)
Definition payload_of (history : History) : option json :=
  let data := structured_output history in
  if has_key data "contacts" then Some data
  else
    let final :=
      match final_result history with
      | Some (Ok v) => v
      | Some (Raise _) => JNull
      | None => JNull
      end in
    match final with
    | JStr text =>
        if truthy (strip text)
        then match json_loads text with
             | Ok v => Some v
             | Raise _ => None
             end
        else None
    | _ => None
    end.

(** The list [contacts] of [run_for_company] before it is capped. *)
Definition parsed_contacts (history : History) : res (list Contact) :=
  match payload_of history with
  | Some (JDict payload) =>
      match default (JList []) (dict_get payload (lit "contacts")) with
      | JList c => parse_items c []
      | _ => Ok []
      end
  | _ => Ok []
  end.

(** [run_for_company] from the history the agent returned. *)
Definition run_for_company (history : History) : res (list Contact) :=
  contacts ← parsed_contacts history;
  mret (take (Z.to_nat (TARGET_CONTACTS cfg)) contacts).

Definition write_checkpoint (record : json) : IO unit :=
  try_except
    (_ ← open_append (CHECKPOINT_JSONL cfg);
     line ← lift (json_dumps record);
     fwrite (CHECKPOINT_JSONL cfg) (line ++ [LF]))
    (mret ()).

Definition write_partial_snapshot (dialect : Dialect) (header : list str)
    (rows : list (list str)) (path : str) : IO unit :=
  try_except (write_rows path dialect header rows) (mret ()).

(** [float(v)] for the value under ["confidence"]. *)
Definition float_of (v : json) : res Q :=
  match v with
  | JInt z => Ok (inject_Z z)
  | JFloat q => Ok q
  | JBool b => Ok (if b then 1%Q else 0%Q)
  | JStr s => float_of_str s
  | _ => Raise TypeError
  end.

(** [row[i] = row[i] or v]. *)
Definition fill_empty (row : list str) (i : nat) (v : str)
  : res (list str) :=
  cur ← get_item row i; set_item row i (str_or cur v).

Definition attempts_note (attempt : nat) : str :=
  lit "Phase2 attempts: " ++ str_of_nat attempt ++ lit "/"
    ++ str_of_Z (ROW_RETRIES (retry cfg)).

(** The body of the loop that writes the contacts into the row. *)
Definition apply_contact (cols : Columns) (attempt : option nat)
    (row : list str) (slot : nat) (contact : Contact) : res (list str) :=
  cc ← match contact_cols cols !! slot with
       | Some c => Ok c
       | None => Raise KeyError
       end;
  row ← fill_empty row (name cc) (contact_name contact);
  row ← fill_empty row (title cc) (contact_title contact);
  row ← (if truthy (contact_linkedin contact)
         then fill_empty row (linkedin cc) (contact_linkedin contact)
         else Ok row);
  row ← (if truthy (contact_email contact)
         then fill_empty row (email cc) (contact_email contact)
         else Ok row);
  row ← (if truthy (source_url contact)
         then cur ← get_item row (idx_src cols);
              if negb (truthy cur)
              then set_item row (idx_src cols) (source_url contact)
              else Ok row
         else Ok row);
  row ← match confidence contact with
        | JNull => Ok row
        | v =>
            cur ← get_item row (idx_conf cols);
            if negb (truthy cur)
            then match (c ← float_of v;
                        set_item row (idx_conf cols) (format_2f c)) with
                 | Ok row' => Ok row'
                 | Raise _ => Ok row
                 end
            else Ok row
        end;
  attempt ← match attempt with Some k => Ok k | None => Raise NameError end;
  cur ← get_item row (idx_notes cols);
  let note_bits := [str_or cur []; str_or (notes contact) [];
                    attempts_note attempt] in
  set_item row (idx_notes cols)
    (strip_set (lit "; ")
       (join (lit "; ") (filter (λ s, truthy s = true) note_bits))).

Fixpoint apply_contacts (cols : Columns) (attempt : option nat)
    (row : list str) (slot : nat) (contacts : list Contact)
  : res (list str) :=
  match contacts with
  | [] => Ok row
  | contact :: rest =>
      row ← apply_contact cols attempt row slot contact;
      apply_contacts cols attempt row (S slot) rest
  end.

(** The awaited call of attempt [k] on data row [i]. *)
Definition attempt_call (i k : nat) : res (list Contact) :=
  history ← agent i k; run_for_company history.

(** The retry loop of data row [i]: success is a non-empty list. *)
Definition attempts (i : nat) : loop_state (list Contact) :=
  retry_loop (retry cfg) (attempt_call i) []
    (λ contacts, bool_decide (contacts ≠ [])) (rand i).

Definition contact_json (c : Contact) : json :=
  JDict [(lit "contact_name", JStr (contact_name c));
         (lit "contact_title", JStr (contact_title c));
         (lit "contact_linkedin", JStr (contact_linkedin c));
         (lit "contact_email", JStr (contact_email c));
         (lit "source_url", JStr (source_url c));
         (lit "confidence", confidence c);
         (lit "notes", JStr (notes c))].

(** [x or None] for the registry URL. *)
Definition govuk_json (govuk_url : str) : json := str_or_null govuk_url.

Definition skipped_record (i : nat) (company_name govuk_url : str) : json :=
  JDict [(lit "row_index", JInt (Z.of_nat i));
         (lit "company_name", JStr company_name);
         (lit "govuk_url", govuk_json govuk_url);
         (lit "result", JNull);
         (lit "note", JStr (lit "Skipped (missing company_name)"))].

Definition row_record (i : nat) (company_name govuk_url : str)
    (contacts : list Contact) : json :=
  JDict [(lit "row_index", JInt (Z.of_nat i));
         (lit "company_name", JStr company_name);
         (lit "govuk_url", govuk_json govuk_url);
         (lit "contacts_found", JInt (Z.of_nat (length contacts)));
         (lit "contacts", JList (contact_json <$> contacts))].

(** What one round of the loop over the data rows computes in memory. *)
Definition enrich_row (cols : Columns) (output_header : list str)
    (i : nat) (row : list str)
  : res (bool * str * str * list Contact * list str) :=
  let row := pad_to (length output_header) row in
  cur ← get_item row (idx_name cols);
  let company_name := strip (str_or cur []) in
  cur ← get_item row (idx_govuk cols);
  let govuk_url := strip (str_or cur []) in
  if negb (truthy company_name)
  then mret (true, company_name, govuk_url, [], row)
  else
    let st := attempts i in
    let contacts := result st in
    row ← apply_contacts cols (attempt st) row 1
            (take (Z.to_nat (TARGET_CONTACTS cfg)) contacts);
    mret (false, company_name, govuk_url, contacts, row).

(** The five calls of [ensure_col_exact] on the copy of the input header
    and the call of [ensure_contact_cols] that follows. *)
Definition build_output_header (header : list str) : list str * Columns :=
  let '(h, i_name) := ensure_col_exact header OUT_COL_COMPANY_NAME in
  let '(h, i_govuk) := ensure_col_exact h OUT_COL_GOVUK_URL in
  let '(h, i_src) := ensure_col_exact h OUT_COL_SOURCE_URL in
  let '(h, i_conf) := ensure_col_exact h OUT_COL_CONFIDENCE in
  let '(h, i_notes) := ensure_col_exact h OUT_COL_NOTES in
  let '(h, cc) := ensure_contact_cols h (TARGET_CONTACTS cfg) in
  (h, {| idx_name := i_name; idx_govuk := i_govuk; idx_src := i_src;
         idx_conf := i_conf; idx_notes := i_notes; contact_cols := cc |}).

Definition autosave (dialect : Dialect) (output_header : list str)
    (processed_rows : list (list str)) (i : nat) : IO unit :=
  if bool_decide (0 < PARTIAL_EVERY cfg)%Z
     && bool_decide (Z.of_nat i `mod` PARTIAL_EVERY cfg = 0)%Z
  then write_partial_snapshot dialect output_header processed_rows
         (PARTIAL_CSV cfg)
  else mret ().

(** The body of [for i, row in enumerate(data_rows, start=1)]. *)
Definition process_row (dialect : Dialect) (cols : Columns)
    (output_header : list str) (processed_rows : list (list str))
    (i : nat) (row : list str) : IO (list (list str)) :=
  '(skipped, company_name, govuk_url, contacts, row) ←
    lift (enrich_row cols output_header i row);
  let processed_rows := processed_rows ++ [row] in
  if skipped : bool then
    _ ← write_checkpoint (skipped_record i company_name govuk_url);
    _ ← autosave dialect output_header processed_rows i;
    mret processed_rows
  else
    _ ← try_except
          (write_checkpoint (row_record i company_name govuk_url contacts))
          (mret ());
    _ ← autosave dialect output_header processed_rows i;
    mret processed_rows.

Fixpoint rows_loop (dialect : Dialect) (cols : Columns)
    (output_header : list str) (processed_rows : list (list str))
    (i : nat) (data_rows : list (list str)) : IO (list (list str)) :=
  match data_rows with
  | [] => mret processed_rows
  | row :: rest =>
      processed_rows ←
        process_row dialect cols output_header processed_rows i row;
      rows_loop dialect cols output_header processed_rows (S i) rest
  end.

(** What follows the loop: the output file, then the final snapshot. *)
Definition finish (dialect : Dialect) (output_header : list str)
    (processed_rows : list (list str)) : IO unit :=
  let output_header := ensure_phone_cols output_header 1 in
  _ ← write_rows (OUTPUT_CSV cfg) dialect output_header processed_rows;
  try_except
    (write_rows (PARTIAL_CSV cfg) dialect output_header processed_rows)
    (mret ()).

Definition main : IO unit :=
  if negb (truthy_opt (GOOGLE_API_KEY cfg)) then raise RuntimeError else
  present ← path_exists (INPUT_CSV cfg);
  if negb present then raise FileNotFoundError else
  rows ← read_rows sniff has_header (INPUT_CSV cfg);
  match rows with
  | [] => mret ()
  | header :: data_rows =>
      '(dialect, has) ← sniff_dialect_and_header sniff has_header
                          (INPUT_CSV cfg);
      if negb has then raise ValueError else
      let '(output_header, cols) := build_output_header header in
      processed_rows ←
        rows_loop dialect cols output_header [] 1 data_rows;
      finish dialect output_header processed_rows
  end.
End Run.

End Phase2.

(** ** Statements of the claims *)

(** A field of the result is present: it is given and not empty. *)
Definition present (o : option str) : Prop := ∃ s, o = Some s ∧ s ≠ [].

(** The three ways a phase 1 result counts as enough. *)
Definition has_core_spec (info : CompanyInfo) : Prop :=
  (present (website info) ∧ present (email info))
  ∨ (∃ l, numbers info = Some l ∧ l ≠ [])
  ∨ (present (company_name info) ∧ present (govuk_url info)).

(** An element is kept when it did not occur earlier in the list. *)
Fixpoint first_seen_from (earlier : list str) (l : list str) : list str :=
  match l with
  | [] => []
  | x :: rest =>
      (if decide (x ∈ earlier) then [] else [x])
        ++ first_seen_from (earlier ++ [x]) rest
  end.

(** De-duplication that keeps the first occurrence of every element, in
    order. *)
Definition first_seen (l : list str) : list str := first_seen_from [] l.

(** The number of digits of a string. *)
Definition digit_count (s : str) : nat := length (filter (λ c, isdigit c = true) s).

(** The phone list as the specification words it: an entry is kept when,
    stripped of everything but digits and plus signs, it has at least seven
    digits. *)
Definition merged_numbers_by_digits (numbers : list str) : list str :=
  first_seen
    (filter (λ n, 7 ≤ digit_count n)
       (map (filter (λ c, keeps_phone_char c = true)) numbers)).

(** No cell that holds a value loses it. *)
Definition never_overwrites (before after : list str) : Prop :=
  ∀ j c, before !! j = Some c → c ≠ [] → after !! j = Some c.

(** The merge of one row of phase 1: the results applied, then the phone
    numbers written into their columns. *)
Definition merge_row (cfg : Phase1.Config) (cols : Phase1.Columns)
    (header row : list str) (info : CompanyInfo) (address postcode : str)
    (attempt : option nat) : res (list str * list str) :=
  '(row, nums) ←
    Phase1.apply_results cfg cols row info address postcode attempt;
  fill_phone_cols row header nums.

(** The number of awaited calls in a trace, and the sleeps in their order. *)
Fixpoint calls (tr : list event) : nat :=
  match tr with
  | [] => 0
  | Call _ :: rest => S (calls rest)
  | Sleep _ :: rest => calls rest
  end.

Fixpoint sleeps (tr : list event) : list Q :=
  match tr with
  | [] => []
  | Sleep d :: rest => d :: sleeps rest
  | Call _ :: rest => sleeps rest
  end.

Fixpoint nondecreasing (l : list Q) : Prop :=
  match l with
  | a :: rest =>
      match rest with
      | b :: _ => (a <= b)%Q ∧ nondecreasing rest
      | [] => True
      end
  | [] => True
  end.

(** The retry loop as the specification words it: at most [ROW_RETRIES]
    calls, a sleep only after an attempt that is not the last, and sleeps
    that never get shorter. *)
Definition retry_claim {T} (cfg : RetryConfig) (run : nat → res T)
    (failed : T) (success : T → bool) (draw : nat → Q) : Prop :=
  let tr := trace (retry_loop cfg run failed success draw) in
  calls tr ≤ Z.to_nat (ROW_RETRIES cfg)
  ∧ (∀ i k d, tr !! i = Some (Call k) → tr !! S i = Some (Sleep d) →
              (Z.of_nat k < ROW_RETRIES cfg)%Z)
  ∧ nondecreasing (sleeps tr).

(** A field of a contact record is missing or blank: the key is absent, or
    its value is [null] or a string of white space. *)
Definition missing_or_blank (v : option json) : Prop :=
  v = None ∨ v = Some JNull ∨ ∃ s, v = Some (JStr s) ∧ strip s = [].

(** A field holds text, if anything. *)
Definition textual (v : option json) : Prop :=
  v = None ∨ v = Some JNull ∨ ∃ s, v = Some (JStr s).

(** A contact record without a name or without a title. *)
Definition lacks_name_or_title (item : json) : Prop :=
  match item with
  | JDict entries =>
      missing_or_blank (dict_get entries (lit "contact_name"))
      ∨ missing_or_blank (dict_get entries (lit "contact_title"))
  | _ => False
  end.

(** The loop over the data rows of phase 1 with the files left out: what it
    holds in memory after the rows [data_rows], numbered from [i]. *)
Fixpoint phase1_rows_in_memory
    (extract_company_from_address : str → str)
    (agent : nat → nat → res (option CompanyInfo)) (rand : nat → nat → Q)
    (cfg : Phase1.Config) (cols : Phase1.Columns) (output_header : list str)
    (acc : list (list str) * list (list str)) (i : nat)
    (data_rows : list (list str))
  : res (list (list str) * list (list str)) :=
  match data_rows with
  | [] => Ok acc
  | row :: rest =>
      '(_, _, _, _, row, nums) ←
        Phase1.enrich_row extract_company_from_address agent rand cfg cols
          output_header i row;
      phase1_rows_in_memory extract_company_from_address agent rand cfg cols
        output_header (acc.1 ++ [row], acc.2 ++ [nums]) (S i) rest
  end.

(** The same for phase 2. *)
Fixpoint phase2_rows_in_memory
    (json_loads : str → res json) (float_of_str : str → res Q)
    (agent : nat → nat → res Phase2.History) (rand : nat → nat → Q)
    (cfg : Phase2.Config) (cols : Phase2.Columns) (output_header : list str)
    (processed_rows : list (list str)) (i : nat)
    (data_rows : list (list str)) : res (list (list str)) :=
  match data_rows with
  | [] => Ok processed_rows
  | row :: rest =>
      '(_, _, _, _, row) ←
        Phase2.enrich_row json_loads float_of_str agent rand cfg cols
          output_header i row;
      phase2_rows_in_memory json_loads float_of_str agent rand cfg cols
        output_header (processed_rows ++ [row]) (S i) rest
  end.

(** A world in which no [open] is scheduled to fail. *)
Definition calm (w : world) : Prop := faults w = [].

(** [write_rows] as the specification words it: the separator, the quote
    character and the line terminator are those of the detected dialect. *)
Definition write_rows_as_detected (path : str) (dialect : Dialect)
    (header : list str) (rows : list (list str)) : IO unit :=
  _ ← open_write path;
  fwrite path
    (writerows (delimiter dialect) (quotechar dialect) (lineterminator dialect)
       (header :: rows)).

(** The dialect both phases detect from the text of their input file. *)
Definition detected (sniff : str → res Dialect) (has_header : str → res bool)
    (text : str) : Dialect :=
  (sniff_sample sniff has_header (sample_text (N.to_nat 8192) text)).1.

(** The reader over a text without carriage returns, character by
    character: the end-of-line signal follows every line feed.  It is what
    [csv_reader] computes on such a text, see [reader_loop_by_chars]. *)
Fixpoint by_chars (d : Dialect) (r : Reader) (text : str)
  : res (list (list str)) :=
  match text with
  | [] => end_of_input r
  | c :: rest =>
      r ← parse_process_char d r (Some c);
      if decide (c = LF) then
        r ← parse_process_char d r None;
        if decide (state r = START_RECORD)
        then rows ← by_chars d parse_reset rest; mret (fields r :: rows)
        else by_chars d r rest
      else by_chars d r rest
  end.

(** A cell the reader gives back as it was written: it has no carriage
    return, it fits the field size limit, it has no quote character when
    the reader does not take doubled quotes, and it does not begin with a
    space when it is written without quotes and the reader skips initial
    spaces. *)
Definition cell_ok (d : Dialect) (cell : str) : Prop :=
  (CR ∉ cell)
  ∧ (N.of_nat (length cell) <= field_limit)%N
  ∧ (doublequote d = false → DQUOTE ∉ cell)
  ∧ (skipinitialspace d = true →
     needs_quote (delimiter d) DQUOTE [LF] cell = false →
     head cell ≠ Some SPACE).

(** A dialect that reads what [write_rows] wrote with the separator
    [delim]. *)
Definition reads_back (d : Dialect) (delim : ascii) : Prop :=
  delimiter d = delim
  ∧ quotechar d = DQUOTE
  ∧ delim ≠ DQUOTE ∧ delim ≠ LF ∧ delim ≠ CR
  ∧ (skipinitialspace d = true → delim ≠ SPACE).

(** Every cell that held a value is found again, at its place, in the table
    read. *)
Definition cells_round_trip (table read : list (list str)) : Prop :=
  ∀ i j row c,
    table !! i = Some row → row !! j = Some c → c ≠ [] →
    ∃ row', read !! i = Some row' ∧ row' !! j = Some c.

(** *** Notions of the proofs *)

(** The notes the merge writes: the old notes, the note of the result and
    the attempts marker, joined. *)
Definition combined_notes (cfg : Phase1.Config) (info : CompanyInfo)
    (old : str) (attempt : nat) : str :=
  strip_set (lit "; ")
    (join (lit "; ")
       (filter (λ s, truthy s = true)
          [str_or old []; strip (opt_or (notes info) []);
           Phase1.attempts_note attempt (ROW_RETRIES (Phase1.retry cfg))])).

(** A cell is outside the numbered phone columns of a header. *)
Definition not_numbered_phone (header : list str) (j : nat) : Prop :=
  ∀ n, 2 ≤ n → header !! j ≠ Some (phone_col n).

(** The rounds of the retry loop. *)
Section RetryRounds.
Context {T : Type}.
Variable cfg : RetryConfig.
Variable run : nat → res T.
Variable failed : T.
Variable success : T → bool.
Variable draw : nat → Q.

(** What attempt [k] yields. *)
Definition outcome (k : nat) : T :=
  match run k with Ok v => v | Raise _ => failed end.

(** The sleep after a failed attempt [k] entered with [s], and the value
    of [sleep_s] for the next round. *)
Definition to_sleep (s : Q) (k : nat) : Q :=
  Qmin (RETRY_MAX_SLEEP cfg) (s + uniform 0 ((4 # 10) * s) (draw k)).

Definition next_sleep (s : Q) : Q :=
  Qmin (RETRY_MAX_SLEEP cfg) (s * RETRY_BACKOFF_BASE cfg).

(** The events of the rounds over [attempts], entered with [sleep_s = s]:
    a failed attempt is followed by its sleep and the remaining rounds, a
    successful one ends the trace. *)
Inductive rounds : Q → list nat → list event → Prop :=
  | rounds_done s : rounds s [] []
  | rounds_success s k rest :
      success (outcome k) = true →
      rounds s (k :: rest) [Call k]
  | rounds_failed s k rest tr :
      success (outcome k) = false →
      rounds (next_sleep s) rest tr →
      rounds s (k :: rest) (Call k :: Sleep (to_sleep s k) :: tr).
End RetryRounds.

(** Where a parsed contact comes from: a record of the list whose name and
    title, stripped, are not empty. *)
Definition from_named_item (items : list json) (c : Phase2.Contact) : Prop :=
  ∃ item, JDict item ∈ items
    ∧ text_field item "contact_name" = Ok (Phase2.contact_name c)
    ∧ Phase2.contact_name c ≠ []
    ∧ text_field item "contact_title" = Ok (Phase2.contact_title c)
    ∧ Phase2.contact_title c ≠ [].

(** What [main] of phase 2 binds to [contacts] at an attempt whose agent
    returned [history]. *)
Definition attempt_contacts (json_loads : str → res json)
    (cfg : Phase2.Config) (history : Phase2.History) : list Phase2.Contact :=
  match Phase2.run_for_company json_loads cfg history with
  | Ok contacts => contacts
  | Raise _ => []
  end.

(** What [build_output_header] establishes: the input header is kept in
    front, and every index it returns names its column. *)
Record columns_ok (header output_header : list str) (cols : Phase1.Columns)
  : Prop := {
  header_kept : header `prefix_of` output_header;
  address_col : output_header !! Phase1.idx_address cols = Some OUT_COL_ADDRESS;
  pc_col : output_header !! Phase1.idx_pc cols = Some OUT_COL_POSTCODE;
  name_col : output_header !! Phase1.idx_name cols = Some OUT_COL_COMPANY_NAME;
  site_col : output_header !! Phase1.idx_site cols = Some OUT_COL_WEBSITE;
  email_col : output_header !! Phase1.idx_email cols = Some OUT_COL_EMAIL;
  phone_col_ok : output_header !! Phase1.idx_phone cols = Some OUT_COL_PHONE;
  govuk_col : output_header !! Phase1.idx_govuk cols = Some OUT_COL_GOVUK_URL;
  src_col : output_header !! Phase1.idx_src cols = Some OUT_COL_SOURCE_URL;
  conf_col : output_header !! Phase1.idx_conf cols = Some OUT_COL_CONFIDENCE;
  notes_col : output_header !! Phase1.idx_notes cols = Some OUT_COL_NOTES;
}.

(** The snapshot condition of row [i]. *)
Definition snapshot_due (cfg : Phase1.Config) (i : nat) : Prop :=
  (0 < Phase1.PARTIAL_EVERY cfg)%Z
  ∧ (Z.of_nat i `mod` Phase1.PARTIAL_EVERY cfg = 0)%Z.

(** The partial file is a table of [k] rows as long as their header, the
    header [header]. *)
Definition snapshot_of (cfg : Phase1.Config) (dialect : Dialect)
    (header : list str) (k : nat) (w : world) : Prop :=
  ∃ rows,
    files w !! Phase1.PARTIAL_CSV cfg
    = Some (writerows (delimiter dialect) DQUOTE [LF] (header :: rows))
    ∧ length rows = k
    ∧ Forall (λ row, length row = length header) rows.

(** The reader over a written table: a character written outside quotes,
    the state a field begins in, the state after the closing quote of a
    quoted field, and the state a field is complete in, when it began in
    [s] and holds [f]: inside an unquoted field, after a closing quote, or
    still at the start when nothing was written for an empty field. *)
Definition plain_char (delim c : ascii) : Prop :=
  c ≠ delim ∧ c ≠ DQUOTE ∧ c ≠ LF ∧ c ≠ CR.

Definition field_start (s : ParserState) : Prop :=
  s = START_FIELD ∨ s = START_RECORD.

Definition closed_quote (d : Dialect) : ParserState :=
  if doublequote d then QUOTE_IN_QUOTED_FIELD else IN_FIELD.

Definition field_done (s : ParserState) (f : str) (s' : ParserState) : Prop :=
  s' = IN_FIELD ∨ s' = QUOTE_IN_QUOTED_FIELD ∨ (s' = s ∧ f = []).

(** *** Data of the examples *)

(** The configuration of phase 1 when the environment sets nothing. *)
Definition default_retry : RetryConfig :=
  {| ROW_RETRIES := 5;
     RETRY_BACKOFF_BASE := 18 # 10;
     RETRY_START_SLEEP := 1;
     RETRY_MAX_SLEEP := 12 |}.

Definition phase1_defaults : Phase1.Config :=
  {| Phase1.GOOGLE_API_KEY := Some (lit "key");
     Phase1.INPUT_CSV := lit "input.csv";
     Phase1.OUTPUT_CSV := lit "output.core.csv";
     Phase1.PARTIAL_EVERY := 20;
     Phase1.PARTIAL_CSV := lit "output.core.partial.csv";
     Phase1.retry := default_retry;
     Phase1.CHECKPOINT_JSONL := lit "runs/phase1/checkpoint.jsonl" |}.

(** A result with a website, an email, two phone numbers and nothing else. *)
Definition site_and_inbox : CompanyInfo :=
  {| company_name := None; post_code := None;
     website := Some (lit "https://x.com"); email := Some (lit "info@x.com");
     numbers := Some [lit "020 7946 0000"; lit "020 7946 0001"];
     contact_name := None; contact_title := None; contact_linkedin := None;
     contact_email := None; govuk_url := None; source_url := None;
     confidence := None; notes := None |}.

(** An input table that already has a notes column and a second phone
    column, as the output of an earlier run has. *)
Definition rerun_header : list str :=
  [lit "ADDRESS"; lit "POSTCODE"; lit "notes"; lit "PHONE NUMBER";
   lit "PHONE NUMBER 2"].

Definition rerun_row : list str :=
  [lit "10 Main St"; lit "AB1 2CD"; lit "checked by hand"; lit "0111 111 1111";
   lit "0222 222 2222"].

Definition rerun_output_header : list str :=
  (Phase1.build_output_header rerun_header).1.

Definition rerun_cols : Phase1.Columns :=
  (Phase1.build_output_header rerun_header).2.

(** What [csv.Sniffer] detects on a comma separated sample in which a quoted
    field occurs but no doubled quote: its line terminator is always a
    carriage return and a line feed. *)
Definition sniffed_comma : Dialect :=
  {| delimiter := COMMA;
     quotechar := DQUOTE;
     doublequote := false;
     skipinitialspace := false;
     lineterminator := [CR; LF] |}.

Definition sniff_comma (sample : str) : res Dialect := Ok sniffed_comma.
Definition header_found (sample : str) : res bool := Ok true.
Definition no_header_found (sample : str) : res bool := Ok false.

(** Stand-ins for [json.dumps], for the seed extraction and for the jitter. *)
Definition dumps_braces (record : json) : res str := Ok (lit "{}").
Definition seed_unchanged (address : str) : str := address.
Definition no_jitter (i k : nat) : Q := 0.

(** An agent that raises at every attempt on every row. *)
Definition agent_down (i k : nat) : res (option CompanyInfo) :=
  Raise RuntimeError.

(** The attempts of one row with that agent. *)
Definition agent_down_row (k : nat) : res (option CompanyInfo) :=
  agent_down 1 k.

(** A world with one file and no fault to come. *)
Definition one_file (path text : str) : world :=
  {| files := {[ path := text ]}; faults := [] |}.

(** An input whose data row has nine cells more than its header; its first
    cell is quoted. *)
Definition ragged_input : world :=
  one_file (lit "input.csv")
    (lit "ADDRESS,POSTCODE" ++ [LF]
     ++ [DQUOTE] ++ lit "10 Main St, Leeds" ++ [DQUOTE]
     ++ lit ",AB1 2CD,a,b,c,d,e,f,g,h,i" ++ [LF]).

(** An input of one data row. *)
Definition one_row_input : world :=
  one_file (lit "input.csv")
    (lit "ADDRESS,POSTCODE" ++ [LF] ++ lit "10 Main St,AB1 2CD" ++ [LF]).

(** Phase 1 with a snapshot after every row. *)
Definition snapshot_every_row : Phase1.Config :=
  {| Phase1.GOOGLE_API_KEY := Some (lit "key");
     Phase1.INPUT_CSV := lit "input.csv";
     Phase1.OUTPUT_CSV := lit "output.core.csv";
     Phase1.PARTIAL_EVERY := 1;
     Phase1.PARTIAL_CSV := lit "output.core.partial.csv";
     Phase1.retry := default_retry;
     Phase1.CHECKPOINT_JSONL := lit "runs/phase1/checkpoint.jsonl" |}.

(** A dialect with its own quote character, an apostrophe, and the line
    terminator every sniffed dialect has. *)
Definition sniffed_apostrophe : Dialect :=
  {| delimiter := COMMA;
     quotechar := "'"%char;
     doublequote := false;
     skipinitialspace := false;
     lineterminator := [CR; LF] |}.

Definition no_files : world := {| files := ∅; faults := [] |}.

(** A run of three attempts that all raise, with a backoff base of 1.2 and
    the numbers 0.9, 0 and 0 drawn for the jitter. *)
Definition gentle_backoff : RetryConfig :=
  {| ROW_RETRIES := 3;
     RETRY_BACKOFF_BASE := 12 # 10;
     RETRY_START_SLEEP := 1;
     RETRY_MAX_SLEEP := 12 |}.

Definition always_raises (k : nat) : res (option CompanyInfo) :=
  Raise RuntimeError.

Definition draw_high_then_low (k : nat) : Q :=
  match k with 1 => 9 # 10 | _ => 0 end.

(** Phase 2 with its defaults, and an agent whose answer holds one contact
    record with a blank name. *)
Definition phase2_defaults : Phase2.Config :=
  {| Phase2.GOOGLE_API_KEY := Some (lit "key");
     Phase2.INPUT_CSV := lit "output.core.csv";
     Phase2.OUTPUT_CSV := lit "output.with_contacts.csv";
     Phase2.PARTIAL_EVERY := 20;
     Phase2.PARTIAL_CSV := lit "output.with_contacts.partial.csv";
     Phase2.retry_env := default_retry;
     Phase2.TARGET_CONTACTS_env := 3;
     Phase2.CHECKPOINT_JSONL := lit "runs/phase2/checkpoint.jsonl" |}.

Definition loads_fails (text : str) : res json := Raise JSONDecodeError.

Definition nameless_answer : Phase2.History :=
  {| Phase2.structured_output :=
       JDict [(lit "contacts",
               JList [JDict [(lit "contact_name", JStr (lit "  "));
                             (lit "contact_title", JStr (lit "Owner"))]])];
     Phase2.final_result := None |}.

Definition agent_nameless (i k : nat) : res Phase2.History :=
  Ok nameless_answer.

(** ** common.py: the text helpers *)

(** [re.sub(p+, r, s)] for a character class [p] and a character [r]: every
    maximal run of characters of the class becomes one [r].  [in_run] tells
    that the character before belongs to the run being replaced. *)
Fixpoint sub_runs (p : ascii → bool) (r : ascii) (in_run : bool) (s : str)
  : str :=
  match s with
  | [] => []
  | c :: rest =>
      if p c
      then (if in_run then sub_runs p r true rest
            else r :: sub_runs p r true rest)
      else c :: sub_runs p r false rest
  end.

(** The class [[a-z0-9]]. *)
Definition is_lower_alnum (c : ascii) : bool :=
  let n := ord c in
  ((97 <=? n) && (n <=? 122) || (48 <=? n) && (n <=? 57))%N.

Definition UNDERSCORE : ascii := "_"%char.

(** [_normalize_header_cell]; [None] is Python's. *)
Definition _normalize_header_cell (cell : option str) : str :=
  match cell with
  | None => []
  | Some cell =>
      let s := strip cell in
      let s := sub_runs isspace SPACE false s in
      let s := lower s in
      let s := sub_runs (λ c, negb (is_lower_alnum c)) UNDERSCORE false s in
      let s := sub_runs (λ c, bool_decide (c = UNDERSCORE)) UNDERSCORE false s in
      strip_set [UNDERSCORE] s
  end.

(** The class [\w] of [re] on the characters 0..255. *)
Definition isword (c : ascii) : bool :=
  let n := ord c in
  ((48 <=? n) && (n <=? 57) || (65 <=? n) && (n <=? 90) || (n =? 95)
   || (97 <=? n) && (n <=? 122) || (n =? 170) || (178 <=? n) && (n <=? 179)
   || (n =? 181) || (185 <=? n) && (n <=? 186) || (188 <=? n) && (n <=? 190)
   || (192 <=? n) && (n <=? 214) || (216 <=? n) && (n <=? 246)
   || (248 <=? n))%N.

(** The class [[A-Za-z\-]]. *)
Definition is_letter_or_dash (c : ascii) : bool :=
  isalpha_ascii c || bool_decide (c = "-"%char).

(** [p+] at the start of [s], greedy: the text after the run, when the run
    is not empty. *)
Definition one_or_more (p : ascii → bool) (s : str) : option str :=
  match s with
  | c :: rest => if p c then Some (lstrip_chars p rest) else None
  | [] => None
  end.

(** [c?] at the start of [s]. *)
Definition optional_char (c : ascii) (s : str) : str :=
  match s with
  | x :: rest => if decide (x = c) then rest else s
  | [] => s
  end.

(** [\s+-\s+] matches at the start of [s]. *)
Definition dash_separator (s : str) : bool :=
  match one_or_more isspace s with
  | Some (d :: e :: _) => bool_decide (d = "-"%char) && isspace e
  | _ => false
  end.

(** [re.split(r"\s+-\s+|,|\n|\r", s)[0]]: the text before the leftmost place
    where one of the separators matches. *)
Fixpoint first_piece (s : str) : str :=
  match s with
  | [] => []
  | c :: rest =>
      if dash_separator s || bool_decide (c = COMMA) || bool_decide (c = LF)
         || bool_decide (c = CR)
      then []
      else c :: first_piece rest
  end.

(** The alternatives of [_company_lead_trash], in their order. *)
Definition lead_words : list string :=
  ["unit"; "suite"; "apt"; "apartment"; "flat"; "office"; "room"; "floor";
   "level"; "block"; "building"; "bldg"; "dept"; "department"; "the"]%string.

(** A word of lower case letters matched without regard to case at the
    start of [s]: the text after it. *)
Fixpoint after_word (word : str) (s : str) : option str :=
  match word, s with
  | [], _ => Some s
  | k :: word', c :: rest =>
      if decide (lower_char c = k) then after_word word' rest else None
  | _ :: _, [] => None
  end.

(** [\s+\w+\.?[,]?\s*] at the start of [s]: the text after the match. *)
Definition after_lead_tail (s : str) : option str :=
  s ← one_or_more isspace s;
  s ← one_or_more isword s;
  let s := optional_char "."%char s in
  let s := optional_char COMMA s in
  Some (lstrip_chars isspace s).

(** The pattern [_company_lead_trash] at the start of [s], its alternatives
    tried in order: the text after the match. *)
Fixpoint match_lead (words : list string) (s : str) : option str :=
  match words with
  | [] => None
  | w :: rest =>
      match after_word (lit w) s ≫= after_lead_tail with
      | Some s' => Some s'
      | None => match_lead rest s
      end
  end.

(** [_company_lead_trash.sub('', s)]: the pattern is anchored at the start
    and cannot match the empty text, so it matches at most once. *)
Definition strip_lead (s : str) : str :=
  default s (match_lead lead_words s).

(** [re.sub(r"^[\d]+[A-Za-z\-]*\s*", '', s)]. *)
Definition strip_number (s : str) : str :=
  match one_or_more isdigit s with
  | Some s => lstrip_chars isspace (lstrip_chars is_letter_or_dash s)
  | None => s
  end.

Definition extract_company_from_address (address : str) : str :=
  if negb (truthy address) then []
  else
    let cand := strip address in
    let cand := first_piece cand in
    let cand := strip (strip_lead cand) in
    let cand := strip (strip_number cand) in
    strip (slice_to 140 cand).

(** *** Notions for the text helpers *)

(** [a] is a contiguous part of [b]. *)
Definition part_of (a b : str) : Prop := ∃ pre post, b = pre ++ a ++ post.

(** No two characters of the class [p] stand next to each other. *)
Fixpoint no_adjacent (p : ascii → bool) (s : str) : Prop :=
  match s with
  | [] => True
  | a :: rest =>
      match rest with
      | b :: _ => ¬ (p a = true ∧ p b = true)
      | [] => True
      end ∧ no_adjacent p rest
  end.

(** ** utils_csv.py *)

(** A system call that fails when the schedule of faults says so:
    [Path.mkdir(parents=True, exist_ok=True)] and [os.fsync].  Directories
    are not part of a [world]. *)
Definition system_call : IO unit :=
  failed ← next_fault;
  if failed : bool then raise OSError else mret ().

Module UtilsCsv.

(** [dialect.delimiter if dialect else ","]. *)
Definition delimiter_of (dialect : option Dialect) : ascii :=
  match dialect with Some d => delimiter d | None => COMMA end.

Definition write_csv (path : str) (header : list str)
    (rows : list (list str)) (dialect : option Dialect) : IO unit :=
  _ ← system_call;
  _ ← open_write path;
  fwrite path (writerows (delimiter_of dialect) DQUOTE [LF] (header :: rows)).

(** [f.flush()] writes nothing new; a failing [os.fsync] is passed over. *)
Definition append_row_safe (path : str) (header row : list str)
    (dialect : option Dialect) : IO unit :=
  file_exists ← path_exists path;
  _ ← system_call;
  _ ← open_append path;
  _ ← (if file_exists : bool then mret ()
       else fwrite path (writerow (delimiter_of dialect) DQUOTE [LF] header));
  _ ← fwrite path (writerow (delimiter_of dialect) DQUOTE [LF] row);
  try_except system_call (mret ()).

End UtilsCsv.

(** ** api_server.py *)

Module ApiServer.

(** [get_row_count]: [max(0, len(rows) - 1)] is the truncated difference. *)
Definition get_row_count (sniff : str → res Dialect)
    (has_header : str → res bool) (file_path : str) : IO nat :=
  try_except
    (rows ← read_rows sniff has_header file_path;
     mret (length rows - 1))
    (mret 0).

End ApiServer.

(** ** The environment and the module code of the phases *)

(** [os.environ]. *)
Abbreviation Env := (gmap str str).

(** [os.getenv(key, fallback)]. *)
Definition getenv (env : Env) (key fallback : string) : str :=
  default (lit fallback) (env !! lit key).

(** [load_dotenv(override=...)] of python-dotenv, for the variables
    [values] of the [.env] file, [None] for a name without a value: every
    variable with a value is set, unless [override] is false and the
    environment has the variable already. *)
Definition load_dotenv (override : bool) (values : gmap str (option str))
    (env : Env) : Env :=
  let set : Env := omap id values in
  if override then set ∪ env else env ∪ set.

(** The module code of phase1_discovery.py, run at its first import. *)
Module Phase1Import.

(** The constants the module binds. *)
Record Constants := {
  INPUT_CSV : str;
  OUTPUT_CSV : str;
  PARTIAL_EVERY : Z;
  PARTIAL_CSV : str;
  MAX_STEPS : Z;
  retry : RetryConfig;
  CHECKPOINT_JSONL : str;
}.

Section Code.
(** [int(s)] and [float(s)] for a string [s]. *)
Variable int_of_str : str → res Z.
Variable float_of_str : str → res Q.
(** The variables python-dotenv reads from the [.env] file, for a value
    of [override] and an environment; none when there is no file. *)
Variable dotenv : bool → Env → gmap str (option str).

(** The constants are read before [load_dotenv(override=True)].  [run_id]
    is the time stamp of the run; the system call is the [mkdir] of the
    run directory. *)
Definition module_code (run_id : str) (env : Env) : IO (Constants * Env) :=
  let input_csv := getenv env "INPUT_CSV" "input.csv" in
  let output_csv := getenv env "OUTPUT_CSV" "output.core.csv" in
  partial_every ← lift (int_of_str (getenv env "PARTIAL_EVERY" "20"));
  let partial_csv := getenv env "PARTIAL_CSV" "output.core.partial.csv" in
  max_steps ← lift (int_of_str (getenv env "MAX_STEPS" "120"));
  row_retries ← lift (int_of_str (getenv env "ROW_RETRIES" "5"));
  backoff_base ← lift (float_of_str (getenv env "RETRY_BACKOFF_BASE" "1.8"));
  start_sleep ← lift (float_of_str (getenv env "RETRY_START_SLEEP" "1.0"));
  max_sleep ← lift (float_of_str (getenv env "RETRY_MAX_SLEEP" "12.0"));
  let env := load_dotenv true (dotenv true env) env in
  _ ← system_call;
  mret ({| INPUT_CSV := input_csv;
           OUTPUT_CSV := output_csv;
           PARTIAL_EVERY := partial_every;
           PARTIAL_CSV := partial_csv;
           MAX_STEPS := max_steps;
           retry :=
             {| ROW_RETRIES := row_retries;
                RETRY_BACKOFF_BASE := backoff_base;
                RETRY_START_SLEEP := start_sleep;
                RETRY_MAX_SLEEP := max_sleep |};
           CHECKPOINT_JSONL :=
             lit "runs/phase1-" ++ run_id ++ lit "/checkpoint.jsonl" |},
        env).
End Code.

(** The configuration [main] of phase 1 runs with: the constants of the
    module, and the API key as the environment has it at the call. *)
Definition config (m : Constants) (env : Env) : Phase1.Config :=
  {| Phase1.GOOGLE_API_KEY := env !! lit "GOOGLE_API_KEY";
     Phase1.INPUT_CSV := INPUT_CSV m;
     Phase1.OUTPUT_CSV := OUTPUT_CSV m;
     Phase1.PARTIAL_EVERY := PARTIAL_EVERY m;
     Phase1.PARTIAL_CSV := PARTIAL_CSV m;
     Phase1.retry := retry m;
     Phase1.CHECKPOINT_JSONL := CHECKPOINT_JSONL m |}.

End Phase1Import.

(** The module code of phase2_contacts.py, run at its first import. *)
Module Phase2Import.

(** The constants the module binds; [ROW_RETRIES] and [TARGET_CONTACTS]
    are kept as read, [Phase2.retry] and [Phase2.TARGET_CONTACTS] clamp
    them. *)
Record Constants := {
  INPUT_CSV : str;
  OUTPUT_CSV : str;
  PARTIAL_EVERY : Z;
  PARTIAL_CSV : str;
  MAX_STEPS : Z;
  retry_env : RetryConfig;
  TARGET_CONTACTS_env : Z;
  CHECKPOINT_JSONL : str;
}.

Section Code.
Variable int_of_str : str → res Z.
Variable float_of_str : str → res Q.
Variable dotenv : bool → Env → gmap str (option str).

(** [load_dotenv(override=False)] comes first, and the files are read
    from the variables with the suffix [_PHASE2]. *)
Definition module_code (run_id : str) (env : Env) : IO (Constants * Env) :=
  let env := load_dotenv false (dotenv false env) env in
  let input_csv := getenv env "INPUT_CSV_PHASE2" "output.core.csv" in
  let output_csv :=
    getenv env "OUTPUT_CSV_PHASE2" "output.with_contacts.csv" in
  partial_every ← lift (int_of_str (getenv env "PARTIAL_EVERY" "20"));
  let partial_csv :=
    getenv env "PARTIAL_CSV_PHASE2" "output.with_contacts.partial.csv" in
  max_steps ← lift (int_of_str (getenv env "MAX_STEPS" "120"));
  row_retries ← lift (int_of_str (getenv env "ROW_RETRIES" "5"));
  backoff_base ← lift (float_of_str (getenv env "RETRY_BACKOFF_BASE" "1.8"));
  start_sleep ← lift (float_of_str (getenv env "RETRY_START_SLEEP" "1.0"));
  max_sleep ← lift (float_of_str (getenv env "RETRY_MAX_SLEEP" "12.0"));
  target_contacts ← lift (int_of_str (getenv env "TARGET_CONTACTS" "3"));
  _ ← system_call;
  mret ({| INPUT_CSV := input_csv;
           OUTPUT_CSV := output_csv;
           PARTIAL_EVERY := partial_every;
           PARTIAL_CSV := partial_csv;
           MAX_STEPS := max_steps;
           retry_env :=
             {| ROW_RETRIES := row_retries;
                RETRY_BACKOFF_BASE := backoff_base;
                RETRY_START_SLEEP := start_sleep;
                RETRY_MAX_SLEEP := max_sleep |};
           TARGET_CONTACTS_env := target_contacts;
           CHECKPOINT_JSONL :=
             lit "runs/phase2-" ++ run_id ++ lit "/checkpoint.jsonl" |},
        env).
End Code.

Definition config (m : Constants) (env : Env) : Phase2.Config :=
  {| Phase2.GOOGLE_API_KEY := env !! lit "GOOGLE_API_KEY";
     Phase2.INPUT_CSV := INPUT_CSV m;
     Phase2.OUTPUT_CSV := OUTPUT_CSV m;
     Phase2.PARTIAL_EVERY := PARTIAL_EVERY m;
     Phase2.PARTIAL_CSV := PARTIAL_CSV m;
     Phase2.retry_env := retry_env m;
     Phase2.TARGET_CONTACTS_env := TARGET_CONTACTS_env m;
     Phase2.CHECKPOINT_JSONL := CHECKPOINT_JSONL m |}.

End Phase2Import.

(** ** main.py *)

Module Main.

(** The namespace [parse_args] returns. *)
Record Args := {
  input : str;
  core_output : str;
  final_output : str;
  max_steps : Z;
  row_retries : Z;
  retry_start_sleep : Q;
  retry_backoff_base : Q;
  retry_max_sleep : Q;
  skip_phase1 : bool;
  skip_phase2 : bool;
}.

(** How a run ends when no exception goes up: it returns, or it leaves
    through [sys.exit(code)]. *)
Inductive ending :=
  | Returned
  | Exited (code : Z).

Section Run.
Variable sniff : str → res Dialect.
Variable has_header : str → res bool.
Variable json_dumps : json → res str.
Variable json_loads : str → res json.
Variable int_of_str : str → res Z.
Variable float_of_str : str → res Q.
(** [str(x)] for a float [x]. *)
Variable str_of_float : Q → str.
Variable dotenv : bool → Env → gmap str (option str).
(** The agents and the jitter of the two phases, and the time stamps of
    their runs. *)
Variable agent1 : nat → nat → res (option CompanyInfo).
Variable agent2 : nat → nat → res Phase2.History.
Variable rand1 rand2 : nat → nat → Q.
Variable run_id1 run_id2 : str.

Definition set_env_for_phases (args : Args) (env : Env) : Env :=
  let env := <[lit "INPUT_CSV" := input args]> env in
  let env := <[lit "OUTPUT_CSV" := core_output args]> env in
  let env := <[lit "INPUT_CSV_PHASE2" := core_output args]> env in
  let env := <[lit "OUTPUT_CSV_PHASE2" := final_output args]> env in
  let env := <[lit "MAX_STEPS" := str_of_Z (max_steps args)]> env in
  let env := <[lit "ROW_RETRIES" := str_of_Z (row_retries args)]> env in
  let env :=
    <[lit "RETRY_START_SLEEP" := str_of_float (retry_start_sleep args)]> env in
  let env :=
    <[lit "RETRY_BACKOFF_BASE" := str_of_float (retry_backoff_base args)]>
      env in
  <[lit "RETRY_MAX_SLEEP" := str_of_float (retry_max_sleep args)]> env.

(** [run_all].  An import that raises ends the run with code 1, and so
    does an output that is missing where it is looked for; what [main] of
    a phase raises goes up.  The first block gives how phase 1 ended and
    the environment its import left. *)
Definition run_all (args : Args) (env : Env) : IO ending :=
  '(first, env) ←
    (if negb (skip_phase1 args) then
       imported ←
         try_except
           (r ← Phase1Import.module_code int_of_str float_of_str dotenv
                  run_id1 env;
            mret (Some r))
           (mret None);
       match imported with
       | None => mret (Exited 1, env)
       | Some (m, env) =>
           _ ← Phase1.main sniff has_header json_dumps
                 extract_company_from_address agent1 rand1
                 (Phase1Import.config m env);
           present ← path_exists (core_output args);
           if negb present then mret (Exited 1, env)
           else mret (Returned, env)
       end
     else mret (Returned, env));
  match first with
  | Exited code => mret (Exited code)
  | Returned =>
      if negb (skip_phase2 args) then
        imported ←
          try_except
            (r ← Phase2Import.module_code int_of_str float_of_str dotenv
                   run_id2 env;
             mret (Some r))
            (mret None);
        match imported with
        | None => mret (Exited 1)
        | Some (m, env) =>
            present ← path_exists (core_output args);
            if negb present then mret (Exited 1) else
            _ ← Phase2.main sniff has_header json_dumps json_loads
                  float_of_str agent2 rand2 (Phase2Import.config m env);
            present ← path_exists (final_output args);
            if negb present then mret (Exited 1) else mret Returned
        end
      else mret Returned
  end.

(** [main], for the arguments [parse_args] returned. *)
Definition main (args : Args) (env : Env) : IO ending :=
  let env := load_dotenv true (dotenv true env) env in
  if negb (truthy_opt (env !! lit "GOOGLE_API_KEY")) then mret (Exited 1) else
  let env := set_env_for_phases args env in
  run_all args env.
End Run.

End Main.

(** *** Notions for the files *)

(** From [w] to [w'] the file at [path] was at most appended to, and no
    other file changed. *)
Definition appends_to (path : str) (w w' : world) : Prop :=
  (∀ old, files w !! path = Some old →
          ∃ more, files w' !! path = Some (old ++ more))
  ∧ (∀ other, other ≠ path → files w' !! other = files w !! other).

(** From [w] to [w'] no file changed but the output file, the partial
    file and the checkpoint log of a phase, and the log, when it is a file
    of its own, was at most appended to. *)
Definition phase_writes (output partial checkpoint : str) (w w' : world)
  : Prop :=
  (∀ p, p ≠ output → p ≠ partial → p ≠ checkpoint →
        files w' !! p = files w !! p)
  ∧ (checkpoint ≠ output → checkpoint ≠ partial →
     ∀ old, files w !! checkpoint = Some old →
            ∃ more, files w' !! checkpoint = Some (old ++ more)).

(** *** Notions for the contacts of phase 2 *)

(** A record of the answer that [run_for_company] keeps: a dictionary whose
    name and title, stripped, are not empty. *)
Definition is_named (x : json) : bool :=
  match x with
  | JDict item =>
      match text_field item "contact_name",
            text_field item "contact_title" with
      | Ok name, Ok title => truthy name && truthy title
      | _, _ => false
      end
  | _ => false
  end.

(** The contact [c] holds the fields of the record [x]: the texts
    stripped, the e-mail address in lower case, the confidence as it
    came. *)
Definition parsed_from (x : json) (c : Phase2.Contact) : Prop :=
  ∃ item e, x = JDict item
    ∧ text_field item "contact_name" = Ok (Phase2.contact_name c)
    ∧ text_field item "contact_title" = Ok (Phase2.contact_title c)
    ∧ text_field item "contact_linkedin" = Ok (Phase2.contact_linkedin c)
    ∧ text_field item "contact_email" = Ok e
    ∧ Phase2.contact_email c = lower e
    ∧ text_field item "source_url" = Ok (Phase2.source_url c)
    ∧ text_field item "notes" = Ok (Phase2.notes c)
    ∧ Phase2.confidence c = default JNull (dict_get item (lit "confidence")).

(** The keys [run_for_company] reads as text. *)
Definition text_keys : list string :=
  ["contact_name"; "contact_title"; "contact_linkedin"; "contact_email";
   "source_url"; "notes"]%string.

(** A record whose text fields hold text, if anything. *)
Definition textual_record (x : json) : Prop :=
  match x with
  | JDict item => ∀ key, key ∈ text_keys → textual (dict_get item (lit key))
  | _ => True
  end.

(** *** Data of the examples of part III *)

(** A Sniffer that finds no dialect. *)
Definition sniff_fails (sample : str) : res Dialect := Raise CsvError.

(** [float] on a text that is no number. *)
Definition float_fails (text : str) : res Q := Raise ValueError.

(** An answer with two directors and no notes. *)
Definition two_directors_answer : Phase2.History :=
  {| Phase2.structured_output :=
       JDict [(lit "contacts",
               JList [JDict [(lit "contact_name", JStr (lit "Ann Lee"));
                             (lit "contact_title", JStr (lit "Director"))];
                      JDict [(lit "contact_name", JStr (lit "Bo Ray"));
                             (lit "contact_title", JStr (lit "Owner"))]])];
     Phase2.final_result := None |}.

Definition agent_two_directors (i k : nat) : res Phase2.History :=
  Ok two_directors_answer.

(** The output of phase 1 for one company. *)
Definition one_company_input : world :=
  one_file (lit "output.core.csv")
    (lit "COMPANY NAME,PHONE NUMBER" ++ [LF]
     ++ lit "Acme Ltd,020 7946 0000" ++ [LF]).

(** Stand-ins for [int], [float] and [str] on whole numbers written in
    digits, and a run without a [.env] file. *)
Definition int_of_digits (s : str) : res Z :=
  if truthy s && forallb isdigit s
  then Ok (foldl (λ n c, (10 * n + (Z.of_N (ord c) - 48))%Z) 0%Z s)
  else Raise ValueError.

Definition float_of_digits (s : str) : res Q :=
  n ← int_of_digits s; mret (inject_Z n).

Definition str_of_whole (x : Q) : str :=
  str_of_Z (Qnum x `div` Z.pos (Qden x)).

Definition no_dotenv (override : bool) (env : Env)
  : gmap str (option str) := ∅.

(** The arguments of a run of main.py with whole numbers for the delays. *)
Definition whole_args : Main.Args :=
  {| Main.input := lit "input.csv";
     Main.core_output := lit "output.core.csv";
     Main.final_output := lit "output.with_contacts.csv";
     Main.max_steps := 120;
     Main.row_retries := 5;
     Main.retry_start_sleep := 1;
     Main.retry_backoff_base := 2;
     Main.retry_max_sleep := 12;
     Main.skip_phase1 := false;
     Main.skip_phase2 := false |}.

(** An environment with an API key, after [set_env_for_phases]. *)
Definition whole_env : Env :=
  Main.set_env_for_phases str_of_whole whole_args
    {[ lit "GOOGLE_API_KEY" := lit "key" ]}.

(** An input file of one blank line. *)
Definition blank_input : world :=
  one_file (lit "input.csv") (lit "  " ++ [LF]).

(** * Part II: properties *)

(** ** The success predicate of phase 1 *)

Lemma truthy_true (s : str) : truthy s = true ↔ s ≠ [].
Proof. destruct s; simpl; split; congruence. Qed.

Lemma truthy_false (s : str) : truthy s = false ↔ s = [].
Proof. destruct s; simpl; split; congruence. Qed.

Lemma truthy_opt_present (o : option str) : truthy_opt o = true ↔ present o.
Proof.
  unfold present. destruct o as [s|]; simpl.
  - rewrite truthy_true. split.
    + intros H. exists s. split; [reflexivity | exact H].
    + intros (s' & Heq & Hne). injection Heq as ->. exact Hne.
  - split; [discriminate | intros (s' & Heq & _); discriminate].
Qed.

Lemma has_phone_spec (o : option (list str)) :
  match o with
  | Some l => bool_decide (l ≠ []) && bool_decide (0 < length l)
  | None => false
  end = true ↔ ∃ l, o = Some l ∧ l ≠ [].
Proof.
  destruct o as [l|].
  - rewrite andb_true_iff, !bool_decide_eq_true. split.
    + intros [Hne _]. exists l. split; [reflexivity | exact Hne].
    + intros (l' & Heq & Hne). injection Heq as <-.
      split; [exact Hne |]. destruct l; [congruence | simpl; lia].
  - split; [discriminate | intros (l' & Heq & _); discriminate].
Qed.

Lemma attempt_has_core_some (info : CompanyInfo) :
  Phase1.attempt_has_core (Some info) = true ↔ has_core_spec info.
Proof.
  unfold Phase1.attempt_has_core, has_core_spec. cbv zeta.
  rewrite !orb_true_iff, has_phone_spec, !andb_true_iff, !truthy_opt_present.
  tauto.
Qed.

(** One round of the retry loop whose result does not pass the test: the
    loop goes on with the next attempt, after a sleep. *)
Lemma retry_from_failed {T} cfg (run : nat → res T) failed success draw
    k rest st :
  success (match run k with Ok v => v | Raise _ => failed end) = false →
  retry_from cfg run failed success draw (k :: rest) st =
  retry_from cfg run failed success draw rest
    {| result := match run k with Ok v => v | Raise _ => failed end;
       attempt := Some k;
       sleep_s := Qmin (RETRY_MAX_SLEEP cfg)
                       (sleep_s st * RETRY_BACKOFF_BASE cfg);
       trace := (trace st ++ [Call k])
                ++ [Sleep (Qmin (RETRY_MAX_SLEEP cfg)
                             (sleep_s st
                              + uniform 0 ((4 # 10) * sleep_s st) (draw k)))] |}.
Proof. intros H. simpl. rewrite H. reflexivity. Qed.

Lemma retry_from_success {T} cfg (run : nat → res T) failed success draw
    k rest st :
  success (match run k with Ok v => v | Raise _ => failed end) = true →
  retry_from cfg run failed success draw (k :: rest) st =
    {| result := match run k with Ok v => v | Raise _ => failed end;
       attempt := Some k;
       sleep_s := sleep_s st;
       trace := trace st ++ [Call k] |}.
Proof. intros H. simpl. rewrite H. reflexivity. Qed.

(** C3. [attempt_has_core] is true exactly for a result that is given and has
    a website and an email, or a non-empty list of phone numbers, or a
    company name and a registry URL; and the retry loop of a row takes any
    other result of an attempt, [None] included, for a failure: it does not
    stop there, it sleeps and goes on to the attempts that remain. *)
Theorem attempt_has_core_iff :
  (∀ info : option CompanyInfo,
     Phase1.attempt_has_core info = true
     ↔ ∃ i, info = Some i ∧ has_core_spec i)
  ∧ (∀ cfg (run : nat → res (option CompanyInfo)) draw k rest st,
       let info := match run k with Ok v => v | Raise _ => None end in
       ¬ (∃ i, info = Some i ∧ has_core_spec i) →
       ∃ st',
         retry_from cfg run None Phase1.attempt_has_core draw (k :: rest) st
         = retry_from cfg run None Phase1.attempt_has_core draw rest st'
         ∧ result st' = info
         ∧ ∃ d, trace st' = trace st ++ [Call k; Sleep d]).
Proof.
  assert (Hiff : ∀ info : option CompanyInfo,
            Phase1.attempt_has_core info = true
            ↔ ∃ i, info = Some i ∧ has_core_spec i).
  { intros [i|].
    - rewrite attempt_has_core_some. split.
      + intros H. exists i. split; [reflexivity | exact H].
      + intros (i' & Heq & H). injection Heq as ->. exact H.
    - simpl. split; [discriminate | intros (i & Heq & _); discriminate]. }
  split; [exact Hiff |].
  intros cfg run draw k rest st info Hno.
  assert (Hf : Phase1.attempt_has_core info = false).
  { destruct (Phase1.attempt_has_core info) eqn:E; [| reflexivity].
    exfalso. apply Hno. apply Hiff. exact E. }
  eexists. split; [apply retry_from_failed; exact Hf |].
  simpl. split; [reflexivity |].
  eexists. rewrite <- app_assoc. reflexivity.
Qed.

Lemma attempt_has_core_iff_witness :
  Phase1.attempt_has_core None = false
  ∧ ∃ st',
      retry_from default_retry agent_down_row None Phase1.attempt_has_core
        (no_jitter 1) [1; 2]
        {| result := None; attempt := None; sleep_s := 1; trace := [] |}
      = retry_from default_retry agent_down_row None Phase1.attempt_has_core
          (no_jitter 1) [2] st'
      ∧ result st' = None.
Proof.
  destruct attempt_has_core_iff as [Hiff Hloop]. split.
  - destruct (Phase1.attempt_has_core None) eqn:E; [| reflexivity].
    apply Hiff in E as (i & Heq & _). discriminate Heq.
  - destruct (Hloop default_retry agent_down_row (no_jitter 1) 1 [2]
                {| result := None; attempt := None; sleep_s := 1;
                   trace := [] |})
      as (st' & Hstep & Hres & _).
    + intros (i & Heq & _). discriminate Heq.
    + exists st'. split; [exact Hstep | exact Hres].
Defined.

(** ** The phone numbers kept from a result *)

Lemma filter_lstrip_chars (P : ascii → Prop) `{∀ c, Decision (P c)}
    (p : ascii → bool) (s : str) :
  (∀ c, p c = true → ¬ P c) →
  filter P (lstrip_chars p s) = filter P s.
Proof.
  intros Hp. induction s as [|c s IH]; [reflexivity |].
  simpl. destruct (p c) eqn:E; [| reflexivity].
  rewrite IH. symmetry. apply filter_cons_False. apply Hp. exact E.
Qed.

Lemma filter_strip_chars (P : ascii → Prop) `{∀ c, Decision (P c)}
    (p : ascii → bool) (s : str) :
  (∀ c, p c = true → ¬ P c) →
  filter P (strip_chars p s) = filter P s.
Proof.
  intros Hp. unfold strip_chars, rstrip_chars.
  rewrite filter_reverse, filter_lstrip_chars by exact Hp.
  rewrite filter_reverse, reverse_involutive.
  apply filter_lstrip_chars. exact Hp.
Qed.

Lemma isspace_not_kept (c : ascii) :
  isspace c = true → ¬ keeps_phone_char c = true.
Proof.
  destruct c as [[] [] [] [] [] [] [] []]; vm_compute; congruence.
Qed.

(** The [strip] of [clean_phone] removes nothing the pattern would keep. *)
Lemma clean_phone_filter (p : str) :
  clean_phone p = filter (λ c, keeps_phone_char c = true) p.
Proof.
  unfold clean_phone, strip. apply filter_strip_chars.
  exact isspace_not_kept.
Qed.

Lemma dedupe_loop_first_seen (items : list str) :
  ∀ (seen : gset str) (out earlier : list str),
    (∀ y, y ∈ seen ↔ y ∈ earlier) →
    Forall (λ x, x ≠ []) items →
    dedupe_loop seen out items = out ++ first_seen_from earlier items.
Proof.
  induction items as [|x rest IH]; intros seen out earlier Hseen Hne.
  - simpl. rewrite app_nil_r. reflexivity.
  - inversion Hne as [|? ? Hx Hrest]; subst.
    simpl. apply truthy_true in Hx. rewrite Hx. simpl.
    destruct (decide (x ∉ seen)) as [Hnew|Hold].
    + rewrite decide_False by (rewrite <- Hseen; exact Hnew).
      rewrite (IH _ _ (earlier ++ [x])); [| | exact Hrest].
      * rewrite <- app_assoc. reflexivity.
      * intros y. rewrite elem_of_union, elem_of_singleton, elem_of_app,
          list_elem_of_singleton, Hseen. tauto.
    + assert (Hin : x ∈ earlier).
      { apply Hseen. destruct (decide (x ∈ seen)); [assumption | contradiction]. }
      rewrite decide_True by exact Hin.
      rewrite (IH _ _ (earlier ++ [x])); [reflexivity | | exact Hrest].
      intros y. rewrite elem_of_app, list_elem_of_singleton, Hseen.
      split; [tauto |]. intros [Hy | ->]; [exact Hy | exact Hin].
Qed.

Lemma dedupe_keep_order_first_seen (items : list str) :
  Forall (λ x, x ≠ []) items →
  dedupe_keep_order items = first_seen items.
Proof.
  intros Hne. unfold dedupe_keep_order, first_seen.
  rewrite (dedupe_loop_first_seen items ∅ [] []); [reflexivity | | exact Hne].
  intros y. rewrite elem_of_empty, elem_of_nil. tauto.
Qed.

Lemma elem_of_first_seen_from (l : list str) :
  ∀ earlier x, x ∈ first_seen_from earlier l ↔ x ∈ l ∧ x ∉ earlier.
Proof.
  induction l as [|y rest IH]; intros earlier x; simpl.
  - rewrite elem_of_nil. tauto.
  - rewrite elem_of_app, IH, elem_of_cons, elem_of_app, list_elem_of_singleton.
    destruct (decide (y ∈ earlier)) as [Hy|Hy].
    + rewrite elem_of_nil. split.
      * intros [[] | (Hx & Hn)]. split; [right; exact Hx | tauto].
      * intros ([-> | Hx] & Hn); [contradiction |].
        right. split; [exact Hx |]. intros [H | ->]; [tauto |].
        contradiction.
    + rewrite list_elem_of_singleton. split.
      * intros [-> | (Hx & Hn)]; [tauto |]. split; [right; exact Hx | tauto].
      * intros ([-> | Hx] & Hn); [tauto |].
        destruct (decide (x = y)) as [-> | Hne]; [tauto |].
        right. split; [exact Hx |]. tauto.
Qed.

Lemma NoDup_first_seen_from (l : list str) :
  ∀ earlier, NoDup (first_seen_from earlier l).
Proof.
  induction l as [|y rest IH]; intros earlier; simpl; [constructor |].
  destruct (decide (y ∈ earlier)); simpl; [apply IH |].
  constructor; [| apply IH].
  rewrite elem_of_first_seen_from, elem_of_app, list_elem_of_singleton. tauto.
Qed.

Lemma merged_numbers_first_seen (numbers : list str) :
  Phase1.merged_numbers numbers =
  first_seen
    (filter (λ n, 7 ≤ length n)
       (map (filter (λ c, keeps_phone_char c = true)) numbers)).
Proof.
  unfold Phase1.merged_numbers.
  rewrite dedupe_keep_order_first_seen.
  - f_equal. f_equal. apply map_ext. exact clean_phone_filter.
  - apply Forall_forall. intros x Hx.
    apply list_elem_of_filter in Hx as [Hlen _].
    destruct x; [simpl in Hlen; lia | discriminate].
Qed.

(** C7, as the code has it.  The phone list merged from the numbers of a
    result is made of the entries that, stripped of every character other
    than digits and plus signs, have at least seven characters (digits and
    plus signs together), each kept once, at its first occurrence and in
    that order; every entry shorter than that is left out; and this is the
    list the merge of a row hands on whenever the result gives numbers. *)
Theorem merged_numbers_spec :
  (∀ numbers,
     Phase1.merged_numbers numbers =
     first_seen
       (filter (λ n, 7 ≤ length n)
          (map (filter (λ c, keeps_phone_char c = true)) numbers)))
  ∧ (∀ numbers, NoDup (Phase1.merged_numbers numbers))
  ∧ (∀ numbers x,
       x ∈ Phase1.merged_numbers numbers ↔
       ∃ n, n ∈ numbers
            ∧ x = filter (λ c, keeps_phone_char c = true) n
            ∧ 7 ≤ length x)
  ∧ (∀ cfg cols row info address postcode attempt row' nums l,
       numbers info = Some l →
       Phase1.apply_results cfg cols row info address postcode attempt
         = Ok (row', nums) →
       nums = Phase1.merged_numbers l).
Proof.
  split; [exact merged_numbers_first_seen |].
  split.
  { intros numbers. rewrite merged_numbers_first_seen.
    apply NoDup_first_seen_from. }
  split.
  { intros numbers x. rewrite merged_numbers_first_seen.
    unfold first_seen. rewrite elem_of_first_seen_from, list_elem_of_filter,
      list_elem_of_fmap.
    split.
    - intros ((Hlen & n & -> & Hn) & _). exists n. auto.
    - intros (n & Hn & -> & Hlen).
      split; [| apply not_elem_of_nil].
      split; [exact Hlen |]. exists n. auto. }
  intros cfg cols row info address postcode attempt row' nums l Hl Hres.
  unfold Phase1.apply_results in Hres. rewrite Hl in Hres.
  repeat match type of Hres with
  | mbind _ ?m = Ok _ => destruct m; simpl in Hres; [| discriminate]
  end.
  injection Hres as _ <-.
  destruct l as [|x l']; [reflexivity |].
  rewrite bool_decide_eq_true_2 by discriminate. reflexivity.
Qed.

(** C7, as it is worded, fails: ["+123456"] has six digits and is kept. *)
Lemma merged_numbers_counts_plus_signs :
  Phase1.merged_numbers [lit "+123456"] = [lit "+123456"]
  ∧ digit_count (lit "+123456") = 6
  ∧ Phase1.merged_numbers [lit "+123456"]
    ≠ merged_numbers_by_digits [lit "+123456"].
Proof. vm_compute. repeat split; discriminate. Qed.

Lemma merged_numbers_spec_witness :
  ∃ row' nums,
    Phase1.apply_results phase1_defaults rerun_cols
      (pad_to (length rerun_output_header) rerun_row) site_and_inbox
      (lit "10 Main St") (lit "AB1 2CD") (Some 1) = Ok (row', nums)
    ∧ nums = [lit "02079460000"; lit "02079460001"].
Proof.
  destruct merged_numbers_spec as (_ & _ & _ & Hmerge).
  eexists _, _.
  assert (H : Phase1.apply_results phase1_defaults rerun_cols
                (pad_to (length rerun_output_header) rerun_row) site_and_inbox
                (lit "10 Main St") (lit "AB1 2CD") (Some 1) = Ok (_, _))
    by (vm_compute; reflexivity).
  split; [exact H |].
  rewrite (Hmerge _ _ _ site_and_inbox _ _ _ _ _ _ eq_refl H). reflexivity.
Defined.

(** ** The merge of a result into a row *)

Lemma get_item_Ok (row : list str) (i : nat) (c : str) :
  get_item row i = Ok c ↔ row !! i = Some c.
Proof.
  unfold get_item. destruct (row !! i); split; intros H;
    try discriminate; congruence.
Qed.

Lemma get_item_lt (row : list str) (i : nat) :
  i < length row → ∃ c, get_item row i = Ok c ∧ row !! i = Some c.
Proof.
  intros Hlt. destruct (lookup_lt_is_Some_2 row i Hlt) as [c Hc].
  exists c. split; [apply get_item_Ok |]; exact Hc.
Qed.

Lemma set_item_Ok (row : list str) (i : nat) (v : str) (row' : list str) :
  set_item row i v = Ok row' ↔ i < length row ∧ row' = <[i:=v]> row.
Proof.
  unfold set_item. destruct (decide (i < length row)); split.
  - intros [= <-]. auto.
  - intros [_ ->]. reflexivity.
  - discriminate.
  - intros [? _]. lia.
Qed.

Lemma set_item_lt (row : list str) (i : nat) (v : str) :
  i < length row → set_item row i v = Ok (<[i:=v]> row).
Proof. intros H. unfold set_item. rewrite decide_True by exact H. reflexivity. Qed.

Lemma set_item_length (row : list str) (i : nat) (v : str) (row' : list str) :
  set_item row i v = Ok row' → length row' = length row.
Proof. intros [_ ->]%set_item_Ok. apply length_insert. Qed.

Lemma never_overwrites_refl (row : list str) : never_overwrites row row.
Proof. intros j c H _. exact H. Qed.

Lemma never_overwrites_trans (a b c : list str) :
  never_overwrites a b → never_overwrites b c → never_overwrites a c.
Proof. intros Hab Hbc j x Hj Hx. apply Hbc; [apply Hab |]; assumption. Qed.

(** A write that puts back what the cell holds, when it holds something. *)
Lemma set_item_keeps (row : list str) (i : nat) (v : str) (row' : list str) :
  set_item row i v = Ok row' →
  (∀ c, row !! i = Some c → c ≠ [] → v = c) →
  never_overwrites row row'.
Proof.
  intros [Hlt ->]%set_item_Ok Hv j c Hj Hc.
  destruct (decide (i = j)) as [<- | Hne].
  - rewrite (Hv c Hj Hc). rewrite list_lookup_insert_eq by exact Hlt.
    reflexivity.
  - rewrite list_lookup_insert_ne by exact Hne. exact Hj.
Qed.

Lemma str_or_filled (c v : str) : c ≠ [] → str_or c v = c.
Proof. intros H. unfold str_or. apply truthy_true in H. rewrite H. reflexivity. Qed.

Lemma set_or_keeps (row : list str) (i : nat) (cur v : str) (row' : list str) :
  get_item row i = Ok cur →
  set_item row i (str_or cur v) = Ok row' →
  never_overwrites row row'.
Proof.
  intros Hcur%get_item_Ok Hset. eapply set_item_keeps; [exact Hset |].
  intros c Hc Hne. rewrite Hcur in Hc. injection Hc as ->.
  apply str_or_filled. exact Hne.
Qed.

Lemma set_if_empty_keeps (row : list str) (i : nat) (cur v : str)
    (row' : list str) :
  get_item row i = Ok cur →
  truthy cur = false →
  set_item row i v = Ok row' →
  never_overwrites row row'.
Proof.
  intros Hcur%get_item_Ok Hempty%truthy_false Hset.
  eapply set_item_keeps; [exact Hset |].
  intros c Hc Hne. rewrite Hcur in Hc. injection Hc as <-. contradiction.
Qed.

Lemma fill_if_given_keeps (row : list str) (i : nat) (value : option str)
    (f : str → str) (row' : list str) :
  Phase1.fill_if_given row i value f = Ok row' → never_overwrites row row'.
Proof.
  unfold Phase1.fill_if_given. destruct value as [v|].
  - destruct (truthy v).
    + destruct (get_item row i) as [cur|] eqn:E; simpl; [| discriminate].
      intros H. eapply set_or_keeps; eassumption.
    + intros [= <-]. apply never_overwrites_refl.
  - intros [= <-]. apply never_overwrites_refl.
Qed.

Lemma fill_if_given_length (row : list str) (i : nat) (value : option str)
    (f : str → str) (row' : list str) :
  Phase1.fill_if_given row i value f = Ok row' → length row' = length row.
Proof.
  unfold Phase1.fill_if_given. destruct value as [v|].
  - destruct (truthy v).
    + destruct (get_item row i) as [cur|]; simpl; [| discriminate].
      apply set_item_length.
    + intros [= <-]. reflexivity.
  - intros [= <-]. reflexivity.
Qed.

(** One step of a chain of binds that ended well. *)
Ltac bind_ok H :=
  match type of H with
  | mbind _ ?m = Ok _ =>
      let E := fresh "E" in
      destruct m eqn:E; simpl in H; [| discriminate H]
  end.

Lemma confidence_step_keeps (row : list str) (i : nat) (conf : option Q)
    (row' : list str) :
  match conf with
  | Some c =>
      cur ← get_item row i;
      if negb (truthy cur) then set_item row i (format_2f c) else Ok row
  | None => Ok row
  end = Ok row' →
  never_overwrites row row'.
Proof.
  destruct conf as [c|]; [| intros [= <-]; apply never_overwrites_refl].
  intros H. bind_ok H. destruct (truthy a) eqn:Ht; simpl in H.
  - injection H as <-. apply never_overwrites_refl.
  - eapply set_if_empty_keeps; eassumption.
Qed.

(** A write of [cur or ...] into the cell [cur] was read from. *)
Ltac keeps_step :=
  match goal with
  | E : get_item ?r ?i = Ok ?c, E' : set_item ?r ?i _ = Ok _ |- _ =>
      apply (set_item_keeps r i) in E';
      [| let c' := fresh in
         let Hc := fresh in
         let Hn := fresh in
         intros c' Hc Hn; apply get_item_Ok in E; rewrite E in Hc;
         injection Hc as ->; rewrite !(str_or_filled c') by exact Hn;
         reflexivity ]
  | E : Phase1.fill_if_given _ _ _ _ = Ok _ |- _ =>
      apply fill_if_given_keeps in E
  | E : match confidence _ with _ => _ end = Ok _ |- _ =>
      apply confidence_step_keeps in E
  end.

Lemma apply_results_keeps cfg cols row info address postcode attempt
    row' nums :
  Phase1.apply_results cfg cols row info address postcode attempt
    = Ok (row', nums) →
  ∃ before k,
    never_overwrites row before
    ∧ attempt = Some k
    ∧ Phase1.idx_notes cols < length before
    ∧ row' = <[Phase1.idx_notes cols :=
                 combined_notes cfg info
                   (default [] (before !! Phase1.idx_notes cols)) k]> before.
Proof.
  unfold Phase1.apply_results. intros H.
  bind_ok H. bind_ok H. bind_ok H. bind_ok H.
  bind_ok H. bind_ok H. bind_ok H. bind_ok H. bind_ok H.
  bind_ok H. bind_ok H. bind_ok H. bind_ok H.
  injection H as <- _.
  match goal with E : set_item ?b _ _ = Ok _ |- _ =>
    apply set_item_Ok in E as [Hlt ->]; exists b end.
  destruct attempt as [k|]; [| discriminate].
  match goal with E : Ok k = Ok ?k' |- _ => injection E as <- end.
  exists k. split; [| split; [reflexivity | split; [exact Hlt |]]].
  - repeat keeps_step.
    repeat (eapply never_overwrites_trans; [eassumption |]).
    apply never_overwrites_refl.
  - match goal with E : get_item _ (Phase1.idx_notes cols) = Ok _ |- _ =>
      apply get_item_Ok in E; rewrite E end.
    reflexivity.
Qed.

(** *** Headers grow at the end *)

Lemma index_of_lookup (name : str) (header : list str) (i : nat) :
  index_of name header = Some i → header !! i = Some name.
Proof.
  revert i. induction header as [|h rest IH]; intros i; simpl; [discriminate |].
  destruct (decide (h = name)) as [-> | Hne].
  - intros [= <-]. reflexivity.
  - destruct (index_of name rest) as [i'|]; simpl; [| discriminate].
    intros [= <-]. simpl. apply IH. reflexivity.
Qed.

Lemma index_of_lt (name : str) (header : list str) (i : nat) :
  index_of name header = Some i → i < length header.
Proof. intros H%index_of_lookup. eapply lookup_lt_Some. exact H. Qed.

Lemma index_of_None (name : str) (header : list str) :
  index_of name header = None ↔ name ∉ header.
Proof.
  induction header as [|h rest IH]; simpl.
  - split; [intros _; apply not_elem_of_nil | reflexivity].
  - rewrite not_elem_of_cons. destruct (decide (h = name)) as [-> | Hne].
    + split; [discriminate | intros [? _]; congruence].
    + destruct (index_of name rest); simpl.
      * split; [discriminate |]. intros [_ H]. apply IH in H. discriminate.
      * split; [| reflexivity]. intros _. split; [congruence |].
        apply IH. reflexivity.
Qed.

Lemma contains_elem_of (header : list str) (name : str) :
  contains header name = true ↔ name ∈ header.
Proof.
  unfold contains. destruct (index_of name header) as [i|] eqn:E.
  - split; [| reflexivity]. intros _.
    apply list_elem_of_lookup. exists i. apply index_of_lookup. exact E.
  - split; [discriminate |]. intros H. apply index_of_None in E. contradiction.
Qed.

Lemma index_Ok (header : list str) (name : str) (i : nat) :
  index header name = Ok i ↔ index_of name header = Some i.
Proof.
  unfold index. destruct (index_of name header); split; intros H;
    try discriminate; congruence.
Qed.

Lemma append_if_absent_prefix (header : list str) (name : str) :
  header `prefix_of` append_if_absent header name.
Proof.
  unfold append_if_absent. destruct (contains header name).
  - reflexivity.
  - apply prefix_app_r. reflexivity.
Qed.

Lemma append_if_absent_elem_of (header : list str) (name : str) :
  name ∈ append_if_absent header name.
Proof.
  unfold append_if_absent. destruct (contains header name) eqn:E.
  - apply contains_elem_of. exact E.
  - apply elem_of_app. right. apply list_elem_of_singleton. reflexivity.
Qed.

Lemma foldl_append_prefix (ks : list nat) (header : list str) :
  header `prefix_of`
    foldl (λ h k, append_if_absent h (phone_col k)) header ks.
Proof.
  revert header. induction ks as [|k ks IH]; intros header; simpl.
  - reflexivity.
  - etrans; [apply append_if_absent_prefix | apply IH].
Qed.

Lemma ensure_phone_cols_prefix (header : list str) (max_phones : nat) :
  header `prefix_of` ensure_phone_cols header max_phones.
Proof.
  unfold ensure_phone_cols. destruct (decide (1 < max_phones)).
  - etrans; [apply append_if_absent_prefix | apply foldl_append_prefix].
  - apply append_if_absent_prefix.
Qed.

Lemma fill_phone_step_keeps base row header m k val row1 header1 m1 final :
  fill_phone_step base (row, header, m) k val = Ok (row1, header1, m1) →
  header1 `prefix_of` final →
  header `prefix_of` header1
  ∧ ∀ j c, row !! j = Some c → c ≠ [] → not_numbered_phone final j →
           row1 !! j = Some c.
Proof.
  intros H Hfinal. destruct k as [|k']; simpl in H.
  - bind_ok H. bind_ok H. injection H as <- <- <-.
    split; [reflexivity |]. intros j c Hj Hc _.
    eapply set_or_keeps; eassumption.
  - bind_ok H. bind_ok H. injection H as <- <- <-.
    split; [apply append_if_absent_prefix |].
    intros j c Hj Hc Hnot.
    match goal with E : index _ _ = Ok ?i |- _ =>
      apply index_Ok, index_of_lookup in E; rename E into Hcol end.
    match goal with E : set_item _ _ _ = Ok _ |- _ =>
      apply set_item_Ok in E as [Hlt ->] end.
    assert (Hne : a ≠ j).
    { intros ->. apply (Hnot (S k' + 1)); [lia |].
      eapply prefix_lookup_Some; eassumption. }
    rewrite list_lookup_insert_ne by exact Hne.
    destruct (decide (length row ≤ a)); [| exact Hj].
    rewrite lookup_app_l by (eapply lookup_lt_Some; exact Hj). exact Hj.
Qed.

Lemma fill_phone_loop_keeps base nums :
  ∀ row header m k row2 header2 m2 final,
    fill_phone_loop base (row, header, m) k nums = Ok (row2, header2, m2) →
    header2 `prefix_of` final →
    header `prefix_of` header2
    ∧ ∀ j c, row !! j = Some c → c ≠ [] → not_numbered_phone final j →
             row2 !! j = Some c.
Proof.
  induction nums as [|val rest IH];
    intros row header m k row2 header2 m2 final H Hfinal; simpl in H.
  - injection H as <- <- <-. split; [reflexivity | auto].
  - bind_ok H. destruct a as [[row1 header1] m1].
    destruct (IH _ _ _ _ _ _ _ _ H Hfinal) as [Hpre Hkeep].
    destruct (fill_phone_step_keeps _ _ _ _ _ _ _ _ _ final E) as [Hpre1 Hkeep1].
    { etrans; eassumption. }
    split; [etrans; eassumption |].
    intros j c Hj Hc Hnot. apply Hkeep; [| exact Hc | exact Hnot].
    apply Hkeep1; assumption.
Qed.

Lemma fill_phone_cols_keeps row header nums row2 header2 :
  fill_phone_cols row header nums = Ok (row2, header2) →
  header `prefix_of` header2
  ∧ ∀ j c, row !! j = Some c → c ≠ [] → not_numbered_phone header2 j →
           row2 !! j = Some c.
Proof.
  unfold fill_phone_cols. intros H. bind_ok H. bind_ok H.
  destruct a0 as [[row1 header1] m1]. simpl in H. injection H as <- <-.
  pose proof (ensure_phone_cols_prefix header1 m1) as Hfinal.
  destruct (fill_phone_loop_keeps _ _ _ _ _ _ _ _ _ _ E0 Hfinal) as [Hpre Hkeep].
  split; [etrans; eassumption | exact Hkeep].
Qed.

(** C1, as the code has it.  The merge of a result into a row, the phone
    numbers included, leaves every cell that holds a value as it is, except
    in the notes column and in the numbered phone columns ([PHONE NUMBER 2]
    and up).  The notes column is rewritten by design: its value after the
    results are applied is the old notes, the note of the result and the
    attempts marker joined by ["; "], the empty ones dropped. *)
Theorem merge_keeps_filled_cells cfg cols header row info address postcode
    attempt row2 header2 :
  merge_row cfg cols header row info address postcode attempt
    = Ok (row2, header2) →
  (∀ j c, row !! j = Some c → c ≠ [] →
          j ≠ Phase1.idx_notes cols → not_numbered_phone header2 j →
          row2 !! j = Some c)
  ∧ (∀ old, row !! Phase1.idx_notes cols = Some old → old ≠ [] →
       ∃ row1 nums k,
         Phase1.apply_results cfg cols row info address postcode attempt
           = Ok (row1, nums)
         ∧ attempt = Some k
         ∧ row1 !! Phase1.idx_notes cols
           = Some (combined_notes cfg info old k)).
Proof.
  unfold merge_row. intros H. bind_ok H. destruct a as [row1 nums].
  destruct (apply_results_keeps _ _ _ _ _ _ _ _ _ E)
    as (before & k & Hkeep & -> & Hlt & ->).
  destruct (fill_phone_cols_keeps _ _ _ _ _ H) as [_ Hfill].
  split.
  - intros j c Hj Hc Hnotes Hnot. apply Hfill; [| exact Hc | exact Hnot].
    rewrite list_lookup_insert_ne by (intros Heq; apply Hnotes; symmetry; exact Heq).
    apply Hkeep; assumption.
  - intros old Hold Hne. eexists _, nums, k.
    split; [reflexivity | split; [reflexivity |]].
    rewrite list_lookup_insert_eq by exact Hlt.
    rewrite (Hkeep _ _ Hold Hne). reflexivity.
Qed.

(** C1, as it is worded, fails: the notes a row came with are rewritten with
    the attempts marker appended. *)
Lemma merge_rewrites_notes :
  ∃ row2 header2,
    merge_row phase1_defaults rerun_cols rerun_output_header
      (pad_to (length rerun_output_header) rerun_row)
      site_and_inbox (lit "10 Main St") (lit "AB1 2CD") (Some 1)
    = Ok (row2, header2)
    ∧ rerun_row !! 2 = Some (lit "checked by hand")
    ∧ row2 !! 2 = Some (lit "checked by hand; Phase1 attempts: 1/5")
    ∧ ¬ never_overwrites (pad_to (length rerun_output_header) rerun_row) row2.
Proof.
  eexists _, _. split; [vm_compute; reflexivity |].
  split; [reflexivity |]. split; [reflexivity |].
  intros H. specialize (H 2 (lit "checked by hand") eq_refl).
  vm_compute in H. specialize (H ltac:(discriminate)). discriminate H.
Qed.

Lemma merge_keeps_filled_cells_witness :
  ∃ row2 header2,
    merge_row phase1_defaults rerun_cols rerun_output_header
      (pad_to (length rerun_output_header) rerun_row)
      site_and_inbox (lit "10 Main St") (lit "AB1 2CD") (Some 1)
    = Ok (row2, header2)
    ∧ row2 !! 3 = Some (lit "0111 111 1111").
Proof.
  eexists _, _.
  assert (H : merge_row phase1_defaults rerun_cols rerun_output_header
                (pad_to (length rerun_output_header) rerun_row)
                site_and_inbox (lit "10 Main St") (lit "AB1 2CD") (Some 1)
              = Ok _) by (vm_compute; reflexivity).
  split; [exact H |].
  apply (proj1 (merge_keeps_filled_cells _ _ _ _ _ _ _ _ _ _ H) 3).
  - reflexivity.
  - discriminate.
  - vm_compute. lia.
  - intros n Hn. vm_compute. discriminate.
Defined.

(** *** The numbered phone columns *)

(** A phone number after the first is written into its column whatever the
    cell holds: the write of [fill_phone_cols] for the slots 2 and up has no
    [or] in front, unlike the write for slot 1.  On a row that came with a
    second phone number the merge puts the second number of the result in
    its place. *)
Theorem fill_phone_cols_overwrites_numbered :
  (∀ base row header m k val row' header' m',
     fill_phone_step base (row, header, m) (S k) val = Ok (row', header', m') →
     ∃ idx, header' !! idx = Some (phone_col (S k + 1))
            ∧ row' !! idx = Some val)
  ∧ ∃ row2 header2,
      merge_row phase1_defaults rerun_cols rerun_output_header
        (pad_to (length rerun_output_header) rerun_row)
        site_and_inbox (lit "10 Main St") (lit "AB1 2CD") (Some 1)
      = Ok (row2, header2)
      ∧ header2 !! 4 = Some (lit "PHONE NUMBER 2")
      ∧ rerun_row !! 4 = Some (lit "0222 222 2222")
      ∧ row2 !! 4 = Some (lit "02079460001").
Proof.
  split.
  - intros base row header m k val row' header' m' H.
    cbn [fill_phone_step] in H. cbv zeta in H.
    bind_ok H. bind_ok H. injection H as <- <- <-.
    exists a. split.
    + apply index_of_lookup, index_Ok. exact E.
    + apply set_item_Ok in E0 as [Hlt ->].
      apply list_lookup_insert_eq. exact Hlt.
  - eexists _, _. split; [vm_compute; reflexivity |].
    repeat split; reflexivity.
Qed.

Lemma fill_phone_cols_overwrites_numbered_witness :
  ∃ idx row' header' m',
    fill_phone_step 3 (rerun_row, rerun_header, 1) 1 (lit "02079460001")
    = Ok (row', header', m')
    ∧ header' !! idx = Some (lit "PHONE NUMBER 2")
    ∧ row' !! idx = Some (lit "02079460001").
Proof.
  destruct fill_phone_cols_overwrites_numbered as [Hstep _].
  assert (H : fill_phone_step 3 (rerun_row, rerun_header, 1) 1
                (lit "02079460001") = Ok (_, _, _))
    by (vm_compute; reflexivity).
  destruct (Hstep _ _ _ _ _ _ _ _ _ H) as (idx & Hcol & Hcell).
  exists idx. eexists _, _, _. split; [exact H |].
  split; [exact Hcol | exact Hcell].
Defined.

(** ** The retry loop *)

Section RetryProperties.
Context {T : Type}.
Variable cfg : RetryConfig.
Variable run : nat → res T.
Variable failed : T.
Variable success : T → bool.
Variable draw : nat → Q.

Local Abbreviation outcome := (outcome run failed).
Local Abbreviation to_sleep := (to_sleep cfg draw).
Local Abbreviation next_sleep := (next_sleep cfg).
Local Abbreviation rounds := (rounds cfg run failed success draw).

Lemma retry_from_rounds (attempts : list nat) :
  ∀ st, ∃ tr,
    trace (retry_from cfg run failed success draw attempts st)
      = trace st ++ tr
    ∧ rounds (sleep_s st) attempts tr.
Proof.
  induction attempts as [|k rest IH]; intros st.
  - exists []. simpl. rewrite app_nil_r. split; [reflexivity | constructor].
  - destruct (success (outcome k)) eqn:E.
    + exists [Call k]. rewrite retry_from_success by exact E.
      split; [reflexivity | constructor; exact E].
    + rewrite retry_from_failed by exact E.
      edestruct IH as (tr & Htr & Hr). rewrite Htr. simpl.
      exists (Call k :: Sleep (to_sleep (sleep_s st) k) :: tr).
      split; [rewrite <- !app_assoc; reflexivity |].
      constructor; [exact E | exact Hr].
Qed.

Lemma retry_loop_rounds :
  rounds (RETRY_START_SLEEP cfg) (seq 1 (Z.to_nat (ROW_RETRIES cfg)))
    (trace (retry_loop cfg run failed success draw)).
Proof.
  unfold retry_loop.
  edestruct retry_from_rounds as (tr & Htr & Hr).
  rewrite Htr. simpl. exact Hr.
Qed.

Lemma rounds_calls s attempts tr :
  rounds s attempts tr → calls tr ≤ length attempts.
Proof.
  induction 1 as [| |s k rest tr Hf Hr IH]; simpl; lia.
Qed.

(** Every sleep comes right after a call of an attempt of the list, and
    that attempt failed. *)
Lemma rounds_sleep_after_failure s attempts tr :
  rounds s attempts tr →
  ∀ i d, tr !! i = Some (Sleep d) →
    ∃ k, 0 < i ∧ tr !! (i - 1) = Some (Call k) ∧ k ∈ attempts
         ∧ success (outcome k) = false.
Proof.
  induction 1 as [| |s k rest tr Hf Hr IH]; intros i d Hi.
  - discriminate.
  - destruct i as [|i]; [discriminate |]. destruct i; discriminate.
  - destruct i as [|[|i]]; [discriminate | |].
    + exists k. simpl. split; [lia |]. split; [reflexivity |].
      split; [apply elem_of_cons; left; reflexivity | exact Hf].
    + simpl in Hi. destruct (IH _ _ Hi) as (k' & Hpos & Hcall & Hin & Hfail).
      exists k'. split; [lia |]. split.
      * replace (S (S i) - 1) with (S (S (i - 1))) by lia. exact Hcall.
      * split; [apply elem_of_cons; right; exact Hin | exact Hfail].
Qed.

Lemma rounds_call_attempt s attempts tr :
  rounds s attempts tr →
  ∀ i k, tr !! i = Some (Call k) → k ∈ attempts.
Proof.
  induction 1 as [| |s k rest tr Hf Hr IH]; intros i k' Hi.
  - discriminate.
  - destruct i as [|i]; [| destruct i; discriminate].
    injection Hi as <-. apply elem_of_cons. left. reflexivity.
  - destruct i as [|[|i]].
    + injection Hi as <-. apply elem_of_cons. left. reflexivity.
    + discriminate.
    + apply elem_of_cons. right. eapply IH. exact Hi.
Qed.

(** The successful call, when there is one, ends the trace. *)
Lemma rounds_success_last s attempts tr :
  rounds s attempts tr →
  ∀ i k, tr !! i = Some (Call k) → success (outcome k) = true →
         S i = length tr.
Proof.
  induction 1 as [| |s k rest tr Hf Hr IH]; intros i k' Hi Hs.
  - discriminate.
  - destruct i as [|i]; [reflexivity | destruct i; discriminate].
  - destruct i as [|[|i]].
    + injection Hi as <-. congruence.
    + discriminate.
    + simpl in Hi. simpl. f_equal. f_equal. eapply IH; eassumption.
Qed.

Section Backoff.
Hypothesis start_nonneg : (0 <= RETRY_START_SLEEP cfg)%Q.
Hypothesis max_nonneg : (0 <= RETRY_MAX_SLEEP cfg)%Q.
Hypothesis base_covers_jitter : (14 # 10 <= RETRY_BACKOFF_BASE cfg)%Q.
Hypothesis draw_range : ∀ k, (0 <= draw k)%Q ∧ (draw k <= 1)%Q.

Lemma next_sleep_nonneg s : (0 <= s)%Q → (0 <= next_sleep s)%Q.
Proof using max_nonneg base_covers_jitter.
  intros Hs. unfold next_sleep. apply Q.min_glb; [exact max_nonneg |].
  apply Qmult_le_0_compat; [exact Hs | lra].
Qed.

Lemma to_sleep_le_max s k : (to_sleep s k <= RETRY_MAX_SLEEP cfg)%Q.
Proof using Type. unfold to_sleep. apply Q.le_min_l. Qed.

Lemma jitter_range s k :
  (0 <= s)%Q →
  (0 <= uniform 0 ((4 # 10) * s) (draw k))%Q
  ∧ (uniform 0 ((4 # 10) * s) (draw k) <= (4 # 10) * s)%Q.
Proof using draw_range.
  intros Hs. destruct (draw_range k) as [H0 H1]. unfold uniform.
  assert (Ha : (0 <= (4 # 10) * s)%Q) by lra.
  pose proof (Qmult_le_0_compat _ _ Ha H0) as Hprod.
  assert (Hb : (0 <= (4 # 10) * s * (1 - draw k))%Q).
  { apply Qmult_le_0_compat; [exact Ha | lra]. }
  split; [lra |]. lra.
Qed.

(** The sleep of a round is at least the [sleep_s] it was entered with,
    capped, and at most the [sleep_s] of the next round. *)
Lemma to_sleep_bounds s k :
  (0 <= s)%Q →
  (Qmin (RETRY_MAX_SLEEP cfg) s <= to_sleep s k)%Q
  ∧ (to_sleep s k <= next_sleep s)%Q.
Proof using max_nonneg base_covers_jitter draw_range.
  intros Hs. destruct (jitter_range s k Hs) as [Hj0 Hj1].
  unfold to_sleep, next_sleep. split.
  - apply Q.min_le_compat_l. lra.
  - apply Q.min_le_compat_l.
    assert (Hb : (0 <= s * (RETRY_BACKOFF_BASE cfg - (14 # 10)))%Q).
    { apply Qmult_le_0_compat; [exact Hs | lra]. }
    lra.
Qed.

Lemma rounds_sleeps_sorted s attempts tr :
  rounds s attempts tr → (0 <= s)%Q →
  nondecreasing (sleeps tr)
  ∧ Forall (λ d, (Qmin (RETRY_MAX_SLEEP cfg) s <= d)%Q
                 ∧ (d <= RETRY_MAX_SLEEP cfg)%Q) (sleeps tr).
Proof using max_nonneg base_covers_jitter draw_range.
  induction 1 as [| |s k rest tr Hf Hr IH]; intros Hs; simpl.
  - split; [exact I | constructor].
  - split; [exact I | constructor].
  - destruct (IH (next_sleep_nonneg s Hs)) as [Hsorted Hall].
    destruct (to_sleep_bounds s k Hs) as [Hlo Hhi].
    assert (Hnext : (Qmin (RETRY_MAX_SLEEP cfg) (next_sleep s)
                     == next_sleep s)%Q).
    { apply Q.min_r. unfold next_sleep. apply Q.le_min_l. }
    split.
    + destruct (sleeps tr) as [|b more] eqn:Eb; [exact I |].
      split; [| exact Hsorted].
      inversion Hall as [|? ? [Hb _] _]; subst.
      rewrite Hnext in Hb. lra.
    + constructor; [split; [exact Hlo | apply to_sleep_le_max] |].
      eapply Forall_impl; [exact Hall |].
      intros d [Hd1 Hd2]. split; [| exact Hd2].
      rewrite Hnext in Hd1.
      assert ((Qmin (RETRY_MAX_SLEEP cfg) s <= to_sleep s k)%Q) by exact Hlo.
      lra.
Qed.
End Backoff.
End RetryProperties.




(** *** The sleep after the last attempt *)

Lemma rounds_all_failed {T} (cfg : RetryConfig) (run : nat → res T)
    (failed : T) (success : T → bool) (draw : nat → Q) s attempts tr :
  rounds cfg run failed success draw s attempts tr →
  (∀ k, success (outcome run failed k) = false) →
  calls tr = length attempts
  ∧ length (sleeps tr) = length attempts
  ∧ (attempts ≠ [] → ∃ d, last tr = Some (Sleep d)).
Proof.
  induction 1 as [|s k rest Hs|s k rest tr Hf Hr IH]; intros Hall.
  - split; [reflexivity |]. split; [reflexivity | congruence].
  - rewrite Hall in Hs. discriminate Hs.
  - destruct (IH Hall) as (Hc & Hsl & Hlast). simpl.
    split; [lia |]. split; [lia |]. intros _.
    destruct rest as [|k' rest'].
    + inversion Hr; subst. eexists. reflexivity.
    + destruct Hlast as (d & Hd); [discriminate |].
      exists d. rewrite !last_cons, Hd. reflexivity.
Qed.

(** When every attempt of a row fails, the retry loop sleeps after each of
    them, the last one included: [ROW_RETRIES] calls, as many sleeps, and a
    sleep at the end of the trace, after which no attempt follows. *)
Theorem retry_loop_sleeps_after_last_attempt {T} (cfg : RetryConfig)
    (run : nat → res T) (failed : T) (success : T → bool) (draw : nat → Q) :
  (∀ k, success (outcome run failed k) = false) →
  calls (trace (retry_loop cfg run failed success draw))
  = Z.to_nat (ROW_RETRIES cfg)
  ∧ length (sleeps (trace (retry_loop cfg run failed success draw)))
    = Z.to_nat (ROW_RETRIES cfg)
  ∧ ((0 < ROW_RETRIES cfg)%Z →
     ∃ d, last (trace (retry_loop cfg run failed success draw))
          = Some (Sleep d)).
Proof.
  intros Hall.
  destruct (rounds_all_failed _ _ _ _ _ _ _ _
              (retry_loop_rounds cfg run failed success draw) Hall)
    as (Hc & Hsl & Hlast).
  rewrite length_seq in Hc, Hsl.
  split; [exact Hc |]. split; [exact Hsl |].
  intros Hpos. apply Hlast.
  destruct (Z.to_nat (ROW_RETRIES cfg)) eqn:E; [lia | discriminate].
Qed.

Lemma retry_loop_sleeps_after_last_attempt_witness :
  calls (trace (retry_loop default_retry always_raises None
                  Phase1.attempt_has_core draw_high_then_low)) = 5
  ∧ length (sleeps (trace (retry_loop default_retry always_raises None
                             Phase1.attempt_has_core draw_high_then_low))) = 5.
Proof.
  destruct (retry_loop_sleeps_after_last_attempt default_retry always_raises
              None Phase1.attempt_has_core draw_high_then_low)
    as (Hc & Hsl & _).
  - intros k. reflexivity.
  - split; [exact Hc | exact Hsl].
Defined.

(** ** The contacts parsed in phase 2 *)

Lemma strip_nil : strip [] = [].
Proof. reflexivity. Qed.

Lemma text_field_blank (item : list (str * json)) (key : string) :
  missing_or_blank (dict_get item (lit key)) → text_field item key = Ok [].
Proof.
  unfold text_field. intros [-> | [-> | (s & -> & Hs)]]; [reflexivity.. |].
  simpl. destruct (truthy s); [rewrite Hs |]; reflexivity.
Qed.

Lemma text_field_textual (item : list (str * json)) (key : string) :
  textual (dict_get item (lit key)) → ∃ t, text_field item key = Ok t.
Proof.
  unfold text_field. intros [-> | [-> | (s & ->)]]; [eauto.. |].
  simpl. destruct (truthy s); eauto.
Qed.

Lemma from_named_item_cons (x : json) (items : list json) (c : Phase2.Contact) :
  from_named_item items c → from_named_item (x :: items) c.
Proof.
  intros (item & Hin & H). exists item. split; [| exact H].
  apply elem_of_cons. right. exact Hin.
Qed.

Lemma parse_items_from (items : list json) :
  ∀ acc contacts,
    Phase2.parse_items items acc = Ok contacts →
    ∃ new, contacts = acc ++ new ∧ Forall (from_named_item items) new.
Proof.
  induction items as [|x rest IH]; intros acc contacts H; simpl in H.
  - injection H as <-. exists []. rewrite app_nil_r. split; [reflexivity | constructor].
  - assert (Hskip : Phase2.parse_items rest acc = Ok contacts →
              ∃ new, contacts = acc ++ new
                     ∧ Forall (from_named_item (x :: rest)) new).
    { intros H'. destruct (IH _ _ H') as (new & -> & Hnew).
      exists new. split; [reflexivity |].
      eapply Forall_impl; [exact Hnew |]. intros c. apply from_named_item_cons. }
    destruct x as [| | | | |l|item]; try (apply Hskip; exact H).
    bind_ok H. bind_ok H.
    destruct (truthy a) eqn:Ha; simpl in H; [| apply Hskip; exact H].
    destruct (truthy a0) eqn:Ha0; simpl in H; [| apply Hskip; exact H].
    bind_ok H. bind_ok H. bind_ok H. bind_ok H.
    destruct (IH _ _ H) as (new & -> & Hnew).
    eexists (_ :: new). split; [rewrite <- app_assoc; reflexivity |].
    constructor.
    + exists item. simpl. split; [apply elem_of_cons; left; reflexivity |].
      apply truthy_true in Ha, Ha0. auto.
    + eapply Forall_impl; [exact Hnew |]. intros c. apply from_named_item_cons.
Qed.

(** A record without a name or a title, whose two fields hold text if
    anything, is passed over. *)
Lemma parse_items_drop (item : list (str * json)) (rest : list json)
    (acc : list Phase2.Contact) :
  lacks_name_or_title (JDict item) →
  textual (dict_get item (lit "contact_name")) →
  textual (dict_get item (lit "contact_title")) →
  Phase2.parse_items (JDict item :: rest) acc = Phase2.parse_items rest acc.
Proof.
  intros Hlack Hn Ht. simpl.
  destruct (text_field_textual item "contact_name" Hn) as [n En].
  destruct (text_field_textual item "contact_title" Ht) as [t Et].
  rewrite En, Et. simpl.
  destruct Hlack as [Hb | Hb]; apply text_field_blank in Hb.
  - rewrite En in Hb. injection Hb as ->. reflexivity.
  - rewrite Et in Hb. injection Hb as ->. simpl.
    rewrite orb_true_r. reflexivity.
Qed.

Lemma lacking_not_named (items : list json) (c : Phase2.Contact) :
  Forall lacks_name_or_title items → ¬ from_named_item items c.
Proof.
  intros Hall (item & Hin & Hname & Hn & Htitle & Ht).
  rewrite Forall_forall in Hall. specialize (Hall _ Hin). simpl in Hall.
  destruct Hall as [Hb | Hb]; apply text_field_blank in Hb; congruence.
Qed.

Section Phase2Parsing.
Variable json_loads : str → res json.
Variable cfg : Phase2.Config.

Lemma target_contacts_pos : 0 < Z.to_nat (Phase2.TARGET_CONTACTS cfg).
Proof. unfold Phase2.TARGET_CONTACTS. lia. Qed.

Lemma take_target_nil (contacts : list Phase2.Contact) :
  take (Z.to_nat (Phase2.TARGET_CONTACTS cfg)) contacts = []
  ↔ contacts = [].
Proof.
  pose proof target_contacts_pos.
  destruct (Z.to_nat (Phase2.TARGET_CONTACTS cfg)); [lia |].
  destruct contacts; simpl; split; congruence.
Qed.

Local Abbreviation attempt_contacts := (attempt_contacts json_loads cfg).

Lemma attempt_contacts_nonempty (history : Phase2.History) :
  attempt_contacts history ≠ []
  ↔ ∃ contacts, Phase2.parsed_contacts json_loads history = Ok contacts
                ∧ contacts ≠ [].
Proof.
  unfold attempt_contacts, Phase2.run_for_company.
  destruct (Phase2.parsed_contacts json_loads history) as [cs|e]; simpl.
  - rewrite take_target_nil. split.
    + intros H. exists cs. auto.
    + intros (cs' & [= <-] & H). exact H.
  - split; [congruence | intros (cs' & [=] & _)].
Qed.

Lemma parsed_contacts_named (history : Phase2.History) contacts :
  Phase2.parsed_contacts json_loads history = Ok contacts →
  Forall (λ c, Phase2.contact_name c ≠ [] ∧ Phase2.contact_title c ≠ [])
    contacts.
Proof.
  unfold Phase2.parsed_contacts. intros H.
  destruct (Phase2.payload_of json_loads history) as [[| | | | | |payload]|];
    try (injection H as <-; constructor).
  destruct (default (JList []) (dict_get payload (lit "contacts")))
    as [| | | | |items|]; try (injection H as <-; constructor).
  destruct (parse_items_from _ _ _ H) as (new & -> & Hnew). simpl.
  eapply Forall_impl; [exact Hnew |].
  intros c (item & _ & _ & Hn & _ & Ht). auto.
Qed.

Lemma parsed_contacts_lacking (history : Phase2.History) payload items :
  Phase2.payload_of json_loads history = Some (JDict payload) →
  dict_get payload (lit "contacts") = Some (JList items) →
  Forall lacks_name_or_title items →
  attempt_contacts history = [].
Proof.
  intros Hp Hc Hall. unfold attempt_contacts, Phase2.run_for_company,
    Phase2.parsed_contacts. rewrite Hp, Hc. simpl.
  destruct (Phase2.parse_items items []) as [cs|e] eqn:E; [| reflexivity].
  simpl. destruct (parse_items_from _ _ _ E) as (new & -> & Hnew).
  destruct new as [|c new]; [simpl; apply take_nil |].
  inversion Hnew as [|? ? Hc' _]; subst.
  exfalso. eapply lacking_not_named; eassumption.
Qed.
End Phase2Parsing.

(** C10.  In phase 2 an attempt is a success exactly when the list of
    contacts parsed from what the agent returned is not empty: the retry loop
    stops at the attempt then, and otherwise sleeps and goes on.  A parsed
    contact always has a name and a title that are not blank; a record
    whose name or title is missing or blank is passed over without a trace;
    so an answer whose contact records all lack a name or a title leaves the
    list empty, and the attempt is a failure that the loop retries. *)
Theorem phase2_success_iff_contacts :
  ∀ (json_loads : str → res json) (agent : nat → nat → res Phase2.History)
    (rand : nat → nat → Q) (cfg : Phase2.Config) (i k : nat)
    (history : Phase2.History),
    agent i k = Ok history →
    let contacts := attempt_contacts json_loads cfg history in
    let loop := retry_from (Phase2.retry cfg)
                  (Phase2.attempt_call json_loads agent cfg i) []
                  (λ contacts, bool_decide (contacts ≠ [])) (rand i) in
    (contacts ≠ []
     ↔ ∃ parsed, Phase2.parsed_contacts json_loads history = Ok parsed
                 ∧ parsed ≠ [])
    ∧ (contacts ≠ [] →
       ∀ rest st, loop (k :: rest) st
                  = {| result := contacts; attempt := Some k;
                       sleep_s := sleep_s st; trace := trace st ++ [Call k] |})
    ∧ (contacts = [] →
       ∀ rest st, ∃ st' d,
         loop (k :: rest) st = loop rest st'
         ∧ trace st' = trace st ++ [Call k; Sleep d])
    ∧ (∀ parsed, Phase2.parsed_contacts json_loads history = Ok parsed →
         Forall (λ c, Phase2.contact_name c ≠ []
                      ∧ Phase2.contact_title c ≠ []) parsed)
    ∧ (∀ item rest acc,
         lacks_name_or_title (JDict item) →
         textual (dict_get item (lit "contact_name")) →
         textual (dict_get item (lit "contact_title")) →
         Phase2.parse_items (JDict item :: rest) acc
         = Phase2.parse_items rest acc)
    ∧ (∀ payload items,
         Phase2.payload_of json_loads history = Some (JDict payload) →
         dict_get payload (lit "contacts") = Some (JList items) →
         Forall lacks_name_or_title items →
         contacts = []).
Proof.
  intros json_loads agent rand cfg i k history Hagent contacts loop.
  assert (Hout : match Phase2.attempt_call json_loads agent cfg i k with
                 | Ok v => v | Raise _ => [] end = contacts).
  { unfold Phase2.attempt_call. rewrite Hagent. reflexivity. }
  split; [apply attempt_contacts_nonempty |].
  split.
  { intros Hne rest st. unfold loop.
    rewrite retry_from_success; rewrite Hout.
    - reflexivity.
    - apply bool_decide_eq_true. exact Hne. }
  split.
  { intros Hnil rest st. unfold loop. eexists _, _.
    rewrite retry_from_failed.
    - split; [reflexivity |]. simpl. rewrite <- app_assoc. reflexivity.
    - rewrite Hout, Hnil. reflexivity. }
  split; [intros parsed; apply parsed_contacts_named |].
  split; [intros item rest acc; apply parse_items_drop |].
  intros payload items. apply parsed_contacts_lacking.
Qed.

Lemma phase2_success_iff_contacts_witness :
  attempt_contacts loads_fails phase2_defaults nameless_answer = []
  ∧ ∃ st' d,
      retry_from (Phase2.retry phase2_defaults)
        (Phase2.attempt_call loads_fails agent_nameless phase2_defaults 1) []
        (λ contacts, bool_decide (contacts ≠ [])) (no_jitter 1) [1; 2]
        {| result := []; attempt := None; sleep_s := 1; trace := [] |}
      = retry_from (Phase2.retry phase2_defaults)
          (Phase2.attempt_call loads_fails agent_nameless phase2_defaults 1) []
          (λ contacts, bool_decide (contacts ≠ [])) (no_jitter 1) [2] st'
      ∧ trace st' = [Call 1; Sleep d].
Proof.
  destruct (phase2_success_iff_contacts loads_fails agent_nameless no_jitter
              phase2_defaults 1 1 nameless_answer eq_refl)
    as (_ & _ & Hretry & _ & _ & Hempty).
  assert (Hnil : attempt_contacts loads_fails phase2_defaults nameless_answer
                 = []).
  { eapply Hempty; [reflexivity | reflexivity |].
    constructor; [| constructor].
    left. right. right. exists (lit "  "). split; reflexivity. }
  split; [exact Hnil |].
  apply (Hretry Hnil [2]
           {| result := []; attempt := None; sleep_s := 1; trace := [] |}).
Defined.

(** ** Checkpoints and snapshots are best effort *)

Lemma IO_bind_Ok {A B} (m : IO A) (k : A → IO B) (w w' : world) (a : A) :
  m w = (Ok a, w') → (m ≫= k) w = k a w'.
Proof. intros H. unfold mbind, IO_bind. rewrite H. reflexivity. Qed.

Lemma IO_bind_Raise {A B} (m : IO A) (k : A → IO B) (w w' : world) (e : exn) :
  m w = (Raise e, w') → (m ≫= k) w = (Raise e, w').
Proof. intros H. unfold mbind, IO_bind. rewrite H. reflexivity. Qed.

(** A [try] whose handler is [pass] always ends well. *)
Lemma try_except_pass (body : IO unit) (w : world) :
  ∃ w', try_except body (mret ()) w = (Ok (), w').
Proof.
  unfold try_except. destruct (body w) as [[[]|e] w'] eqn:E; eauto.
Qed.

Lemma phase1_write_checkpoint_ok json_dumps cfg record w :
  ∃ w', Phase1.write_checkpoint json_dumps cfg record w = (Ok (), w').
Proof. apply try_except_pass. Qed.

Lemma phase1_autosave_ok cfg dialect output_header processed_rows
    phone_lists i w :
  ∃ w', Phase1.autosave cfg dialect output_header processed_rows phone_lists
          i w = (Ok (), w').
Proof.
  unfold Phase1.autosave.
  destruct (_ && _); [apply try_except_pass | eexists; reflexivity].
Qed.

Lemma phase2_write_checkpoint_ok json_dumps cfg record w :
  ∃ w', Phase2.write_checkpoint json_dumps cfg record w = (Ok (), w').
Proof. apply try_except_pass. Qed.

Lemma phase2_autosave_ok cfg dialect output_header processed_rows i w :
  ∃ w', Phase2.autosave cfg dialect output_header processed_rows i w
        = (Ok (), w').
Proof.
  unfold Phase2.autosave, Phase2.write_partial_snapshot.
  destruct (_ && _); [apply try_except_pass | eexists; reflexivity].
Qed.

(** One round of phase 1: whatever the files do, the lists in memory grow by
    the row as [enrich_row] leaves it, or the exception of [enrich_row]
    goes up. *)
Lemma phase1_process_row_memory json_dumps extract agent rand cfg dialect
    cols output_header acc i row w :
  ∃ w',
    Phase1.process_row json_dumps extract agent rand cfg dialect cols
      output_header acc i row w
    = (match Phase1.enrich_row extract agent rand cfg cols output_header i row
       with
       | Ok (_, _, _, _, row', nums) => Ok (acc.1 ++ [row'], acc.2 ++ [nums])
       | Raise e => Raise e
       end, w').
Proof.
  unfold Phase1.process_row. destruct acc as [processed_rows phone_lists].
  destruct (Phase1.enrich_row extract agent rand cfg cols output_header i row)
    as [[[[[[skipped address] postcode] inferred] row'] nums]|e] eqn:E.
  - assert (Hnums : skipped = true → nums = []).
    { intros ->. unfold Phase1.enrich_row in E.
      bind_ok E. bind_ok E. destruct (_ && _); simpl in E.
      - injection E as _ _ _ _ <-. reflexivity.
      - bind_ok E. destruct a1. simpl in E. discriminate. }
    erewrite IO_bind_Ok by reflexivity. simpl.
    destruct skipped.
    + rewrite (Hnums eq_refl).
      edestruct phase1_write_checkpoint_ok as [w1 H1].
      erewrite IO_bind_Ok by exact H1.
      edestruct phase1_autosave_ok as [w2 H2].
      erewrite IO_bind_Ok by exact H2.
      eexists. reflexivity.
    + edestruct (try_except_pass
        (lift (Phase1.row_record cols i address postcode inferred row' nums)
         ≫= Phase1.write_checkpoint json_dumps cfg)) as [w1 H1].
      erewrite IO_bind_Ok by exact H1.
      edestruct phase1_autosave_ok as [w2 H2].
      erewrite IO_bind_Ok by exact H2.
      eexists. reflexivity.
  - eexists. erewrite IO_bind_Raise by reflexivity. reflexivity.
Qed.

Lemma phase1_rows_loop_memory json_dumps extract agent rand cfg dialect
    cols output_header data_rows :
  ∀ acc i w,
    (Phase1.rows_loop json_dumps extract agent rand cfg dialect cols
       output_header acc i data_rows w).1
    = phase1_rows_in_memory extract agent rand cfg cols output_header acc i
        data_rows.
Proof.
  induction data_rows as [|row rest IH]; intros acc i w; [reflexivity |].
  simpl.
  destruct (phase1_process_row_memory json_dumps extract agent rand cfg
              dialect cols output_header acc i row w) as [w' H].
  destruct (Phase1.enrich_row extract agent rand cfg cols output_header i row)
    as [[[[[[skipped address] postcode] inferred] row'] nums]|e].
  - erewrite IO_bind_Ok by exact H. simpl. apply IH.
  - erewrite IO_bind_Raise by exact H. reflexivity.
Qed.

Lemma phase2_process_row_memory json_dumps json_loads float_of_str agent rand
    cfg dialect cols output_header processed_rows i row w :
  ∃ w',
    Phase2.process_row json_dumps json_loads float_of_str agent rand cfg
      dialect cols output_header processed_rows i row w
    = (match Phase2.enrich_row json_loads float_of_str agent rand cfg cols
               output_header i row
       with
       | Ok (_, _, _, _, row') => Ok (processed_rows ++ [row'])
       | Raise e => Raise e
       end, w').
Proof.
  unfold Phase2.process_row.
  destruct (Phase2.enrich_row json_loads float_of_str agent rand cfg cols
              output_header i row)
    as [[[[[skipped company] govuk] contacts] row']|e] eqn:E.
  - erewrite IO_bind_Ok by reflexivity. simpl.
    destruct skipped.
    + edestruct phase2_write_checkpoint_ok as [w1 H1].
      erewrite IO_bind_Ok by exact H1.
      edestruct phase2_autosave_ok as [w2 H2].
      erewrite IO_bind_Ok by exact H2.
      eexists. reflexivity.
    + edestruct (try_except_pass
        (Phase2.write_checkpoint json_dumps cfg
           (Phase2.row_record i company govuk contacts))) as [w1 H1].
      erewrite IO_bind_Ok by exact H1.
      edestruct phase2_autosave_ok as [w2 H2].
      erewrite IO_bind_Ok by exact H2.
      eexists. reflexivity.
  - eexists. erewrite IO_bind_Raise by reflexivity. reflexivity.
Qed.

Lemma phase2_rows_loop_memory json_dumps json_loads float_of_str agent rand
    cfg dialect cols output_header data_rows :
  ∀ processed_rows i w,
    (Phase2.rows_loop json_dumps json_loads float_of_str agent rand cfg
       dialect cols output_header processed_rows i data_rows w).1
    = phase2_rows_in_memory json_loads float_of_str agent rand cfg cols
        output_header processed_rows i data_rows.
Proof.
  induction data_rows as [|row rest IH]; intros processed_rows i w;
    [reflexivity |].
  simpl.
  destruct (phase2_process_row_memory json_dumps json_loads float_of_str agent
              rand cfg dialect cols output_header processed_rows i row w)
    as [w' H].
  destruct (Phase2.enrich_row json_loads float_of_str agent rand cfg cols
              output_header i row)
    as [[[[[skipped company] govuk] contacts] row']|e].
  - erewrite IO_bind_Ok by exact H. simpl. apply IH.
  - erewrite IO_bind_Raise by exact H. reflexivity.
Qed.

(** C9.  In both phases the append of a checkpoint record and the periodic
    snapshot never raise, whatever the files and the faults of the run and
    whatever [json.dumps] does; and the loop over the rows computes the same
    rows in memory whichever of these writes fail: it depends on the rows,
    the agent and the configuration alone. *)
Theorem checkpoint_and_snapshot_best_effort :
  (∀ json_dumps cfg record w,
     (Phase1.write_checkpoint json_dumps cfg record w).1 = Ok ())
  ∧ (∀ cfg dialect output_header processed_rows phone_lists i w,
       (Phase1.autosave cfg dialect output_header processed_rows phone_lists
          i w).1 = Ok ())
  ∧ (∀ json_dumps extract agent rand cfg dialect cols output_header acc i
       data_rows w,
       (Phase1.rows_loop json_dumps extract agent rand cfg dialect cols
          output_header acc i data_rows w).1
       = phase1_rows_in_memory extract agent rand cfg cols output_header
           acc i data_rows)
  ∧ (∀ json_dumps cfg record w,
       (Phase2.write_checkpoint json_dumps cfg record w).1 = Ok ())
  ∧ (∀ cfg dialect output_header processed_rows i w,
       (Phase2.autosave cfg dialect output_header processed_rows i w).1
       = Ok ())
  ∧ (∀ json_dumps json_loads float_of_str agent rand cfg dialect cols
       output_header processed_rows i data_rows w,
       (Phase2.rows_loop json_dumps json_loads float_of_str agent rand cfg
          dialect cols output_header processed_rows i data_rows w).1
       = phase2_rows_in_memory json_loads float_of_str agent rand cfg cols
           output_header processed_rows i data_rows).
Proof.
  split.
  { intros. edestruct phase1_write_checkpoint_ok as [w' ->]. reflexivity. }
  split.
  { intros. edestruct phase1_autosave_ok as [w' ->]. reflexivity. }
  split.
  { intros. apply phase1_rows_loop_memory. }
  split.
  { intros. edestruct phase2_write_checkpoint_ok as [w' ->]. reflexivity. }
  split.
  { intros. edestruct phase2_autosave_ok as [w' ->]. reflexivity. }
  intros. apply phase2_rows_loop_memory.
Qed.

(** ** The output header and the rows of phase 1 *)

Lemma ensure_col_exact_spec (header : list str) (name : str) h i :
  ensure_col_exact header name = (h, i) →
  header `prefix_of` h ∧ h !! i = Some name.
Proof.
  unfold ensure_col_exact. destruct (index_of name header) as [j|] eqn:E.
  - intros [= <- <-]. split; [reflexivity | apply index_of_lookup; exact E].
  - intros [= <- <-]. split; [apply prefix_app_r; reflexivity |].
    rewrite lookup_app_r by lia. rewrite Nat.sub_diag. reflexivity.
Qed.

(** A column that was ensured stays where it is while the header grows. *)
Lemma column_stays (h h' : list str) (i : nat) (name : str) :
  h !! i = Some name → h `prefix_of` h' → h' !! i = Some name.
Proof. intros Hi Hp. eapply prefix_lookup_Some; eassumption. Qed.

Lemma build_output_header_ok (header : list str) :
  columns_ok header (Phase1.build_output_header header).1
    (Phase1.build_output_header header).2.
Proof.
  unfold Phase1.build_output_header.
  repeat match goal with
  | |- context [ensure_col_exact ?h ?n] =>
      let E := fresh "E" in
      let h' := fresh "h" in
      let i := fresh "i" in
      destruct (ensure_col_exact h n) as [h' i] eqn:E;
      apply ensure_col_exact_spec in E as [? ?]
  end.
  simpl.
  split; simpl;
    repeat match goal with
    | |- _ `prefix_of` _ => first [assumption | reflexivity | etrans; [eassumption |]]
    | |- _ !! _ = Some _ => first [assumption | eapply column_stays; [eassumption |]]
    end.
Qed.

Lemma columns_ok_lt header output_header cols (row : list str) :
  columns_ok header output_header cols →
  length output_header ≤ length row →
  Phase1.idx_address cols < length row ∧ Phase1.idx_pc cols < length row
  ∧ Phase1.idx_name cols < length row ∧ Phase1.idx_site cols < length row
  ∧ Phase1.idx_email cols < length row ∧ Phase1.idx_govuk cols < length row
  ∧ Phase1.idx_src cols < length row ∧ Phase1.idx_conf cols < length row
  ∧ Phase1.idx_notes cols < length row.
Proof.
  intros [] Hlen.
  repeat match goal with
  | H : output_header !! _ = Some _ |- _ => apply lookup_lt_Some in H
  end.
  repeat split; lia.
Qed.

Lemma length_pad_to (n : nat) (row : list str) :
  length (pad_to n row) = length row `max` n.
Proof. unfold pad_to. rewrite length_app, length_replicate. lia. Qed.

(** *** The results applied to a padded row *)

Lemma get_set_ok (row : list str) (i : nat) (f : str → str) :
  i < length row →
  ∃ row', (cur ← get_item row i; set_item row i (f cur)) = Ok row'
          ∧ length row' = length row.
Proof.
  intros Hlt. destruct (get_item_lt row i Hlt) as (c & -> & _). simpl.
  unfold set_item. rewrite decide_True by exact Hlt.
  eexists. split; [reflexivity | apply length_insert].
Qed.

Lemma fill_if_given_ok (row : list str) (i : nat) (value : option str)
    (f : str → str) :
  i < length row →
  ∃ row', Phase1.fill_if_given row i value f = Ok row'
          ∧ length row' = length row.
Proof.
  intros Hlt. unfold Phase1.fill_if_given.
  destruct value as [v|]; [| eauto]. destruct (truthy v); [| eauto].
  apply (get_set_ok row i (λ cur, str_or cur (f v))). exact Hlt.
Qed.

Lemma confidence_step_ok (row : list str) (i : nat) (conf : option Q) :
  i < length row →
  ∃ row',
    match conf with
    | Some c =>
        cur ← get_item row i;
        if negb (truthy cur) then set_item row i (format_2f c) else Ok row
    | None => Ok row
    end = Ok row'
    ∧ length row' = length row.
Proof.
  intros Hlt. destruct conf as [c|]; [| eauto].
  destruct (get_item_lt row i Hlt) as (cur & -> & _). simpl.
  destruct (negb (truthy cur)); [| eauto].
  unfold set_item. rewrite decide_True by exact Hlt.
  eexists. split; [reflexivity | apply length_insert].
Qed.

Lemma apply_results_ok cfg cols row info address postcode k :
  Phase1.idx_address cols < length row → Phase1.idx_pc cols < length row →
  Phase1.idx_name cols < length row → Phase1.idx_site cols < length row →
  Phase1.idx_email cols < length row → Phase1.idx_govuk cols < length row →
  Phase1.idx_src cols < length row → Phase1.idx_conf cols < length row →
  Phase1.idx_notes cols < length row →
  ∃ row' nums,
    Phase1.apply_results cfg cols row info address postcode (Some k)
      = Ok (row', nums)
    ∧ length row' = length row.
Proof.
  intros H1 H2 H3 H4 H5 H6 H7 H8 H9. unfold Phase1.apply_results.
  destruct (get_item_lt row _ H1) as (c1 & -> & _). simpl.
  rewrite (set_item_lt row) by exact H1. simpl.
  set (r1 := <[_ := _]> row).
  assert (L1 : length r1 = length row) by apply length_insert.
  destruct (get_item_lt r1 (Phase1.idx_pc cols)) as (c2 & -> & _); [lia |].
  simpl. rewrite (set_item_lt r1) by lia. simpl.
  set (r2 := <[_ := _]> r1).
  assert (L2 : length r2 = length row) by (unfold r2; rewrite length_insert; exact L1).
  destruct (fill_if_given_ok r2 (Phase1.idx_name cols) (company_name info) strip)
    as (r3 & -> & L3); [lia |]. simpl.
  destruct (fill_if_given_ok r3 (Phase1.idx_site cols) (website info) strip)
    as (r4 & -> & L4); [lia |]. simpl.
  destruct (fill_if_given_ok r4 (Phase1.idx_email cols) (email info)
              (λ v, lower (strip v))) as (r5 & -> & L5); [lia |]. simpl.
  destruct (fill_if_given_ok r5 (Phase1.idx_govuk cols) (govuk_url info) strip)
    as (r6 & -> & L6); [lia |]. simpl.
  destruct (fill_if_given_ok r6 (Phase1.idx_src cols) (source_url info) strip)
    as (r7 & -> & L7); [lia |]. simpl.
  destruct (confidence_step_ok r7 (Phase1.idx_conf cols) (confidence info))
    as (r8 & -> & L8); [lia |]. simpl.
  destruct (get_item_lt r8 (Phase1.idx_notes cols)) as (c9 & -> & _); [lia |].
  simpl. rewrite (set_item_lt r8) by lia. simpl.
  eexists _, _. split; [reflexivity |]. rewrite length_insert. lia.
Qed.

(** The loop variable [attempt] is bound as soon as a round has run, and
    before that the result is still the initial one. *)
Lemma retry_from_attempt {T} cfg (run : nat → res T) failed success draw
    (attempts : list nat) :
  ∀ st,
    attempt (retry_from cfg run failed success draw attempts st) = None →
    attempt st = None
    ∧ result (retry_from cfg run failed success draw attempts st) = result st.
Proof.
  induction attempts as [|k rest IH]; intros st H; simpl in *; [auto |].
  destruct (success _); simpl in H; [discriminate |].
  apply IH in H as [H _]. discriminate.
Qed.

Lemma phase1_attempts_bound agent rand cfg i info :
  result (Phase1.attempts agent rand cfg i) = Some info →
  ∃ k, attempt (Phase1.attempts agent rand cfg i) = Some k.
Proof.
  unfold Phase1.attempts, retry_loop. intros H.
  destruct (attempt _) as [k|] eqn:E; [eauto |].
  apply retry_from_attempt in E as [_ E]. rewrite E in H. discriminate.
Qed.

(** A row of the loop never raises once the header is the one
    [build_output_header] made; it comes out as long as the header, or as
    long as it came in when that is longer. *)
Lemma enrich_row_ok extract agent rand cfg header output_header cols i row :
  columns_ok header output_header cols →
  ∃ skipped address postcode inferred row' nums,
    Phase1.enrich_row extract agent rand cfg cols output_header i row
      = Ok (skipped, address, postcode, inferred, row', nums)
    ∧ length row' = length row `max` length output_header.
Proof.
  intros Hcols. unfold Phase1.enrich_row.
  pose proof (length_pad_to (length output_header) row) as Hpad.
  destruct (columns_ok_lt _ _ _ (pad_to (length output_header) row) Hcols)
    as (H1 & H2 & H3 & H4 & H5 & H6 & H7 & H8 & H9); [lia |].
  unfold Phase1.cell_stripped. rewrite !decide_True by assumption.
  destruct (get_item_lt _ _ H1) as (c1 & -> & _).
  destruct (get_item_lt _ _ H2) as (c2 & -> & _). simpl.
  destruct (_ && _); simpl.
  - eexists _, _, _, _, _, _. split; [reflexivity | exact Hpad].
  - destruct (result (Phase1.attempts agent rand cfg i)) as [info|] eqn:E.
    + destruct (phase1_attempts_bound _ _ _ _ _ E) as [k ->].
      destruct (apply_results_ok cfg cols (pad_to (length output_header) row)
                  info (strip c1) (strip c2) k) as (row' & nums & -> & Hlen);
        try assumption.
      simpl. eexists _, _, _, _, _, _. split; [reflexivity | lia].
    + simpl. eexists _, _, _, _, _, _. split; [reflexivity | exact Hpad].
Qed.

(** *** Phone columns that are already there *)

Lemma append_if_absent_id (header : list str) (name : str) :
  name ∈ header → append_if_absent header name = header.
Proof.
  intros H. unfold append_if_absent.
  apply contains_elem_of in H. rewrite H. reflexivity.
Qed.

Lemma foldl_append_has (ks : list nat) :
  ∀ header k, k ∈ ks →
    phone_col k ∈ foldl (λ h k, append_if_absent h (phone_col k)) header ks.
Proof.
  induction ks as [|k' ks IH]; intros header k Hk; [inversion Hk |].
  simpl. apply elem_of_cons in Hk as [-> | Hk]; [| apply IH; exact Hk].
  eapply elem_of_prefix; [apply append_if_absent_elem_of |].
  apply foldl_append_prefix.
Qed.

Lemma ensure_phone_cols_has_base (header : list str) (m : nat) :
  OUT_COL_PHONE ∈ ensure_phone_cols header m.
Proof.
  unfold ensure_phone_cols. destruct (decide (1 < m)).
  - eapply elem_of_prefix; [apply append_if_absent_elem_of |].
    apply foldl_append_prefix.
  - apply append_if_absent_elem_of.
Qed.

Lemma ensure_phone_cols_has (header : list str) (m n : nat) :
  2 ≤ n ≤ m → phone_col n ∈ ensure_phone_cols header m.
Proof.
  intros Hn. unfold ensure_phone_cols. rewrite decide_True by lia.
  apply foldl_append_has. apply elem_of_seq. lia.
Qed.

Lemma foldl_append_id (ks : list nat) (header : list str) :
  (∀ k, k ∈ ks → phone_col k ∈ header) →
  foldl (λ h k, append_if_absent h (phone_col k)) header ks = header.
Proof.
  induction ks as [|k ks IH]; intros H; [reflexivity |]. simpl.
  rewrite append_if_absent_id by (apply H, elem_of_cons; left; reflexivity).
  apply IH. intros k' Hk'. apply H, elem_of_cons. right. exact Hk'.
Qed.

Lemma ensure_phone_cols_id (header : list str) (m : nat) :
  OUT_COL_PHONE ∈ header →
  (∀ n, 2 ≤ n ≤ m → phone_col n ∈ header) →
  ensure_phone_cols header m = header.
Proof.
  intros Hbase Hcols. unfold ensure_phone_cols.
  rewrite append_if_absent_id by exact Hbase.
  destruct (decide (1 < m)); [| reflexivity].
  apply foldl_append_id. intros k Hk%elem_of_seq. apply Hcols. lia.
Qed.

Lemma elem_of_index (header : list str) (name : str) :
  name ∈ header → ∃ i, index header name = Ok i ∧ i < length header.
Proof.
  intros H. unfold index. destruct (index_of name header) as [i|] eqn:E.
  - exists i. split; [reflexivity | eapply index_of_lt; exact E].
  - apply index_of_None in E. contradiction.
Qed.

(** With its columns in the header and a row as long as the header,
    [fill_phone_cols] changes neither the header nor the length of the
    row. *)
Lemma fill_phone_loop_fixed (base : nat) (header : list str) (nums : list str) :
  ∀ row m k,
    base < length row →
    length row = length header →
    (∀ n, 2 ≤ n ≤ k + length nums → phone_col n ∈ header) →
    m ≤ 1 `max` k →
    ∃ row' m',
      fill_phone_loop base (row, header, m) k nums = Ok (row', header, m')
      ∧ length row' = length row
      ∧ m' ≤ 1 `max` (k + length nums).
Proof.
  induction nums as [|val rest IH]; intros row m k Hbase Hlen Hcols Hm.
  - simpl. eexists _, _. split; [reflexivity |]. split; [reflexivity | lia].
  - simpl. destruct k as [|k'].
    + simpl. destruct (get_item_lt row base Hbase) as (c & -> & _). simpl.
      rewrite (set_item_lt row) by exact Hbase. simpl.
      destruct (IH (<[base:=str_or c val]> row) m 1) as (row' & m' & Heq & L & M).
      * rewrite length_insert. exact Hbase.
      * rewrite length_insert. exact Hlen.
      * intros n Hn. apply Hcols. simpl. lia.
      * lia.
      * rewrite length_insert in L. exists row', m'.
        split; [exact Heq |]. split; [exact L | simpl; lia].
    + cbn [fill_phone_step].
      assert (Hin : phone_col (S k' + 1) ∈ header).
      { apply Hcols. simpl. lia. }
      rewrite (append_if_absent_id _ _ Hin).
      destruct (elem_of_index _ _ Hin) as (idx & -> & Hidx). simpl.
      rewrite decide_False by lia.
      rewrite (set_item_lt row) by lia. simpl.
      destruct (IH (<[idx:=val]> row) (m `max` (S k' + 1)) (S (S k')))
        as (row' & m' & Heq & L & M).
      * rewrite length_insert. exact Hbase.
      * rewrite length_insert. exact Hlen.
      * intros n Hn. apply Hcols. simpl. lia.
      * lia.
      * rewrite length_insert in L. exists row', m'.
        split; [exact Heq |]. split; [exact L | simpl; lia].
Qed.

Lemma fill_phone_cols_fixed (row header nums : list str) :
  OUT_COL_PHONE ∈ header →
  (∀ n, 2 ≤ n ≤ length nums → phone_col n ∈ header) →
  length row = length header →
  ∃ row', fill_phone_cols row header nums = Ok (row', header)
          ∧ length row' = length row.
Proof.
  intros Hbase Hcols Hlen. unfold fill_phone_cols.
  destruct (elem_of_index _ _ Hbase) as (base & -> & Hlt). simpl.
  destruct (fill_phone_loop_fixed base header nums row 1 0)
    as (row' & m' & -> & L & M); [lia | exact Hlen | exact Hcols | lia |].
  simpl. rewrite ensure_phone_cols_id.
  - eexists. split; [reflexivity | exact L].
  - exact Hbase.
  - intros n Hn. apply Hcols. lia.
Qed.

Lemma fill_all_fixed (header : list str) (rows : list (list str)) :
  ∀ phone_lists,
    OUT_COL_PHONE ∈ header →
    Forall (λ nums, ∀ n, 2 ≤ n ≤ length nums → phone_col n ∈ header)
      phone_lists →
    Forall (λ row, length row = length header) rows →
    ∃ rows', fill_all header rows phone_lists = Ok (rows', header)
             ∧ length rows' = length rows
             ∧ Forall (λ row, length row = length header) rows'.
Proof.
  induction rows as [|row rows IH]; intros phone_lists Hbase Hnums Hrows.
  - exists []. destruct phone_lists; simpl; auto.
  - destruct phone_lists as [|nums phone_lists].
    + exists (row :: rows). simpl. auto.
    + inversion Hnums as [|? ? Hn Hnums']; subst.
      inversion Hrows as [|? ? Hr Hrows']; subst.
      simpl.
      destruct (fill_phone_cols_fixed row header nums Hbase Hn Hr)
        as (row' & -> & L). simpl.
      destruct (IH phone_lists Hbase Hnums' Hrows') as (rows' & -> & L' & F').
      simpl. exists (row' :: rows'). split; [reflexivity |].
      split; [simpl; lia |]. constructor; [lia | exact F'].
Qed.

Lemma max_len_bound (phone_lists : list (list str)) :
  Forall (λ nums, length nums ≤ max_len phone_lists) phone_lists.
Proof.
  induction phone_lists as [|x rest IH]; [constructor |].
  simpl. constructor; [lia |].
  eapply Forall_impl; [exact IH |]. simpl. intros nums H. lia.
Qed.

(** The table a snapshot writes: its header holds the phone columns for the
    longest list of phone numbers so far, and every row has the length of
    that header when none was longer than the output header. *)
Lemma snapshot_table (output_header : list str)
    (processed_rows phone_lists : list (list str)) :
  Forall (λ row, length row ≤ length output_header) processed_rows →
  let header := ensure_phone_cols output_header (max_len phone_lists) in
  ∃ rows,
    fill_all header (map (pad_to (length header)) processed_rows) phone_lists
      = Ok (rows, header)
    ∧ length rows = length processed_rows
    ∧ Forall (λ row, length row = length header) rows.
Proof.
  intros Hrows header.
  destruct (fill_all_fixed header (map (pad_to (length header)) processed_rows)
              phone_lists) as (rows & H & L & F).
  - apply ensure_phone_cols_has_base.
  - eapply Forall_impl; [apply max_len_bound |].
    intros nums Hle n Hn. apply ensure_phone_cols_has. simpl in Hle. lia.
  - apply Forall_fmap. eapply Forall_impl; [exact Hrows |].
    intros row Hle. simpl. rewrite length_pad_to.
    pose proof (prefix_length _ _
      (ensure_phone_cols_prefix output_header (max_len phone_lists))) as Hp.
    unfold header. simpl in Hle. lia.
  - exists rows. rewrite length_map in L. auto.
Qed.

(** *** Files in a world without faults *)

Lemma next_fault_calm (w : world) : calm w → next_fault w = (Ok false, w).
Proof. unfold calm, next_fault. intros ->. reflexivity. Qed.

Lemma open_append_calm (path : str) (w : world) :
  calm w → ∃ w', open_append path w = (Ok (), w') ∧ calm w'.
Proof.
  intros Hc. unfold open_append.
  erewrite IO_bind_Ok by (apply next_fault_calm; exact Hc).
  eexists. split; [reflexivity | exact Hc].
Qed.

Lemma fwrite_calm (path text : str) (w : world) :
  calm w → ∃ w', fwrite path text w = (Ok (), w') ∧ calm w'.
Proof. intros Hc. eexists. split; [reflexivity | exact Hc]. Qed.

Lemma write_rows_calm (path : str) (dialect : Dialect) (header : list str)
    (rows : list (list str)) (w : world) :
  calm w →
  ∃ w', write_rows path dialect header rows w = (Ok (), w')
        ∧ calm w'
        ∧ files w' = <[path := writerows (delimiter dialect) DQUOTE [LF]
                                 (header :: rows)]> (files w).
Proof.
  intros Hc. unfold write_rows, open_write.
  erewrite IO_bind_Ok; [| erewrite IO_bind_Ok by (apply next_fault_calm; exact Hc);
                          reflexivity].
  unfold fwrite. cbn [files faults]. eexists. split; [reflexivity |].
  split; [exact Hc |]. cbn [files].
  rewrite lookup_insert_eq. cbn [default]. rewrite app_nil_l.
  apply insert_insert_eq.
Qed.

Lemma phase1_write_checkpoint_calm json_dumps cfg record w :
  calm w →
  ∃ w', Phase1.write_checkpoint json_dumps cfg record w = (Ok (), w')
        ∧ calm w'.
Proof.
  intros Hc. unfold Phase1.write_checkpoint, try_except.
  destruct (open_append_calm (Phase1.CHECKPOINT_JSONL cfg) w Hc)
    as (w1 & H1 & Hc1).
  erewrite IO_bind_Ok by exact H1.
  unfold lift. destruct (json_dumps record) as [line|e].
  - erewrite IO_bind_Ok by reflexivity.
    eexists. split; [reflexivity | exact Hc1].
  - erewrite IO_bind_Raise by reflexivity.
    eexists. split; [reflexivity | exact Hc1].
Qed.

Lemma try_pass_calm (body : IO unit) (w : world) :
  (∀ w0, calm w0 → calm (body w0).2) →
  calm w →
  ∃ w', try_except body (mret ()) w = (Ok (), w') ∧ calm w'.
Proof.
  intros Hbody Hc. unfold try_except. specialize (Hbody w Hc).
  destruct (body w) as [[[]|e] w']; eexists; split; try reflexivity; exact Hbody.
Qed.

Lemma phase1_autosave_calm cfg dialect output_header processed_rows
    phone_lists i w :
  calm w →
  Forall (λ row, length row ≤ length output_header) processed_rows →
  ∃ w',
    Phase1.autosave cfg dialect output_header processed_rows phone_lists i w
    = (Ok (), w')
    ∧ calm w'
    ∧ (snapshot_due cfg i →
       snapshot_of cfg dialect
         (ensure_phone_cols output_header (max_len phone_lists))
         (length processed_rows) w').
Proof.
  intros Hc Hrows. unfold Phase1.autosave, snapshot_due.
  destruct (bool_decide (0 < Phase1.PARTIAL_EVERY cfg)%Z) eqn:E1;
    [| exists w; split; [reflexivity |]; split; [exact Hc |];
       apply bool_decide_eq_false in E1; tauto].
  destruct (bool_decide (Z.of_nat i `mod` Phase1.PARTIAL_EVERY cfg = 0)%Z)
    eqn:E2;
    [| exists w; split; [reflexivity |]; split; [exact Hc |];
       apply bool_decide_eq_false in E2; tauto].
  cbn [andb]. unfold try_except, Phase1._write_partial_snapshot.
  destruct (snapshot_table output_header processed_rows phone_lists Hrows)
    as (rows & Hfill & Hlen & Hall).
  unfold lift. erewrite IO_bind_Ok by (rewrite Hfill; reflexivity).
  destruct (write_rows_calm (Phase1.PARTIAL_CSV cfg) dialect
              (ensure_phone_cols output_header (max_len phone_lists)) rows w Hc)
    as (w' & -> & Hc' & Hfiles).
  exists w'. split; [reflexivity |]. split; [exact Hc' |].
  intros _. exists rows. rewrite Hfiles, lookup_insert_eq. auto.
Qed.

(** One round of the loop of phase 1 in a world without faults. *)
Lemma phase1_process_row_calm json_dumps extract agent rand cfg dialect
    header output_header cols processed_rows phone_lists i row w :
  columns_ok header output_header cols →
  calm w →
  Forall (λ r, length r = length output_header) processed_rows →
  length row ≤ length output_header →
  ∃ row' nums w',
    Phase1.process_row json_dumps extract agent rand cfg dialect cols
      output_header (processed_rows, phone_lists) i row w
    = (Ok (processed_rows ++ [row'], phone_lists ++ [nums]), w')
    ∧ length row' = length output_header
    ∧ calm w'
    ∧ (snapshot_due cfg i →
       snapshot_of cfg dialect
         (ensure_phone_cols output_header (max_len (phone_lists ++ [nums])))
         (S (length processed_rows)) w').
Proof.
  intros Hcols Hc Hrows Hrow.
  destruct (enrich_row_ok extract agent rand cfg header output_header cols i
              row Hcols)
    as (skipped & address & postcode & inferred & row' & nums & E & Hlen).
  assert (Hlen' : length row' = length output_header) by lia.
  assert (Hnums : skipped = true → nums = []).
  { intros ->. unfold Phase1.enrich_row in E.
    bind_ok E. bind_ok E. destruct (_ && _); simpl in E.
    - injection E as _ _ _ _ <-. reflexivity.
    - bind_ok E. destruct a1. simpl in E. discriminate. }
  assert (Hrows' : Forall (λ r, length r ≤ length output_header)
                     (processed_rows ++ [row'])).
  { apply Forall_app. split.
    - eapply Forall_impl; [exact Hrows |]. simpl. intros r Hr. lia.
    - constructor; [lia | constructor]. }
  exists row', nums. unfold Phase1.process_row.
  unfold lift. erewrite IO_bind_Ok by (rewrite E; reflexivity).
  destruct skipped.
  - rewrite (Hnums eq_refl).
    destruct (phase1_write_checkpoint_calm json_dumps cfg
                (Phase1.skipped_record i address postcode) w Hc)
      as (w1 & H1 & Hc1).
    erewrite IO_bind_Ok by exact H1.
    destruct (phase1_autosave_calm cfg dialect output_header
                (processed_rows ++ [row']) (phone_lists ++ [[]]) i w1 Hc1 Hrows')
      as (w2 & H2 & Hc2 & Hsnap).
    erewrite IO_bind_Ok by exact H2.
    exists w2. split; [reflexivity |]. split; [exact Hlen' |].
    split; [exact Hc2 |]. intros Hdue. specialize (Hsnap Hdue).
    rewrite length_app in Hsnap. simpl in Hsnap.
    replace (S (length processed_rows)) with (length processed_rows + 1) by lia.
    exact Hsnap.
  - destruct (try_pass_calm
        (lift (Phase1.row_record cols i address postcode inferred row' nums)
         ≫= Phase1.write_checkpoint json_dumps cfg) w) as (w1 & H1 & Hc1).
    { intros w0 Hc0. unfold lift.
      destruct (Phase1.row_record cols i address postcode inferred row' nums)
        as [record|e].
      - erewrite IO_bind_Ok by reflexivity.
        destruct (phase1_write_checkpoint_calm json_dumps cfg record w0 Hc0)
          as (w1 & -> & Hc1). exact Hc1.
      - erewrite IO_bind_Raise by reflexivity. exact Hc0. }
    { exact Hc. }
    erewrite IO_bind_Ok by exact H1.
    destruct (phase1_autosave_calm cfg dialect output_header
                (processed_rows ++ [row']) (phone_lists ++ [nums]) i w1 Hc1 Hrows')
      as (w2 & H2 & Hc2 & Hsnap).
    erewrite IO_bind_Ok by exact H2.
    exists w2. split; [reflexivity |]. split; [exact Hlen' |].
    split; [exact Hc2 |]. intros Hdue. specialize (Hsnap Hdue).
    rewrite length_app in Hsnap. simpl in Hsnap.
    replace (S (length processed_rows)) with (length processed_rows + 1) by lia.
    exact Hsnap.
Qed.

Lemma phase1_rows_loop_app json_dumps extract agent rand cfg dialect cols
    output_header (rows1 rows2 : list (list str)) :
  ∀ acc i w,
    Phase1.rows_loop json_dumps extract agent rand cfg dialect cols
      output_header acc i (rows1 ++ rows2) w
    = match Phase1.rows_loop json_dumps extract agent rand cfg dialect cols
              output_header acc i rows1 w with
      | (Ok acc', w') =>
          Phase1.rows_loop json_dumps extract agent rand cfg dialect cols
            output_header acc' (i + length rows1) rows2 w'
      | (Raise e, w') => (Raise e, w')
      end.
Proof.
  induction rows1 as [|row rest IH]; intros acc i w.
  - simpl. rewrite Nat.add_0_r. reflexivity.
  - simpl.
    destruct (Phase1.process_row json_dumps extract agent rand cfg dialect cols
                output_header acc i row w) as [[acc'|e] w'] eqn:E.
    + rewrite !(IO_bind_Ok _ _ _ _ _ E). rewrite IH.
      replace (S i + length rest) with (i + S (length rest)) by lia.
      reflexivity.
    + rewrite !(IO_bind_Raise _ _ _ _ _ E). reflexivity.
Qed.

(** The loop of phase 1 over rows no longer than the output header, in a
    world without faults: it ends well, and when the snapshot of its last
    row is due the partial file is the table of the rows so far. *)
Lemma phase1_rows_loop_calm json_dumps extract agent rand cfg dialect header
    output_header cols (data_rows : list (list str)) :
  columns_ok header output_header cols →
  Forall (λ row, length row ≤ length output_header) data_rows →
  ∀ processed_rows phone_lists i w,
    calm w →
    Forall (λ r, length r = length output_header) processed_rows →
    ∃ processed_rows' phone_lists' w',
      Phase1.rows_loop json_dumps extract agent rand cfg dialect cols
        output_header (processed_rows, phone_lists) i data_rows w
      = (Ok (processed_rows', phone_lists'), w')
      ∧ calm w'
      ∧ length processed_rows' = length processed_rows + length data_rows
      ∧ Forall (λ r, length r = length output_header) processed_rows'
      ∧ (data_rows ≠ [] →
         snapshot_due cfg (i + length data_rows - 1) →
         snapshot_of cfg dialect
           (ensure_phone_cols output_header (max_len phone_lists'))
           (length processed_rows') w').
Proof.
  intros Hcols Hdata. induction Hdata as [|row rest Hrow Hrest IH];
    intros processed_rows phone_lists i w Hc Hrows.
  - exists processed_rows, phone_lists, w. simpl.
    split; [reflexivity |]. split; [exact Hc |]. split; [lia |].
    split; [exact Hrows |]. congruence.
  - destruct (phase1_process_row_calm json_dumps extract agent rand cfg dialect
                header output_header cols processed_rows phone_lists i row w
                Hcols Hc Hrows Hrow)
      as (row' & nums & w1 & H1 & Hlen & Hc1 & Hsnap).
    assert (Hrows1 : Forall (λ r, length r = length output_header)
                       (processed_rows ++ [row'])).
    { apply Forall_app. split; [exact Hrows |]. constructor; [exact Hlen | constructor]. }
    destruct (IH (processed_rows ++ [row']) (phone_lists ++ [nums]) (S i) w1
                Hc1 Hrows1)
      as (prs & pls & w2 & H2 & Hc2 & Hlen2 & Hrows2 & Hsnap2).
    exists prs, pls, w2. simpl.
    erewrite IO_bind_Ok by exact H1. split; [exact H2 |].
    split; [exact Hc2 |].
    rewrite length_app in Hlen2. simpl in Hlen2.
    split; [lia |]. split; [exact Hrows2 |].
    intros _ Hdue. destruct rest as [|row2 rest'].
    + simpl in H2. injection H2 as <- <- <-.
      rewrite length_app. simpl.
      replace (length processed_rows + 1) with (S (length processed_rows)) by lia.
      apply Hsnap. simpl in Hdue.
      replace (i + 1 - 1) with i in Hdue by lia. exact Hdue.
    + apply Hsnap2; [discriminate |].
      replace (S i + length (row2 :: rest') - 1)
        with (i + length (row :: row2 :: rest') - 1) by (simpl; lia).
      exact Hdue.
Qed.




(** ** The final snapshot *)

Lemma write_rows_files (path : str) (dialect : Dialect) (header : list str)
    (rows : list (list str)) (w : world) :
  let r := write_rows path dialect header rows w in
  (r.1 = Ok ()
   ∧ files r.2 = <[path := writerows (delimiter dialect) DQUOTE [LF]
                             (header :: rows)]> (files w))
  ∨ (r.1 = Raise OSError ∧ files r.2 = files w).
Proof.
  unfold write_rows, open_write, next_fault, mbind, IO_bind, raise, fwrite.
  destruct (faults w) as [|[] rest]; simpl.
  - left. split; [reflexivity |]. rewrite lookup_insert_eq. simpl.
    apply insert_insert_eq.
  - right. auto.
  - left. split; [reflexivity |]. rewrite lookup_insert_eq. simpl.
    apply insert_insert_eq.
Qed.

(** Phase 1 ends with the write of the output file: the partial file is not
    written again. *)
Lemma phase1_finish_partial_untouched cfg dialect output_header
    processed_rows phone_lists w :
  Phase1.PARTIAL_CSV cfg ≠ Phase1.OUTPUT_CSV cfg →
  files (Phase1.finish cfg dialect output_header processed_rows phone_lists
           w).2 !! Phase1.PARTIAL_CSV cfg
  = files w !! Phase1.PARTIAL_CSV cfg.
Proof.
  intros Hne. unfold Phase1.finish, lift.
  destruct (fill_all _ processed_rows phone_lists) as [[rows header]|e].
  - erewrite IO_bind_Ok by reflexivity.
    destruct (write_rows_files (Phase1.OUTPUT_CSV cfg) dialect header rows w)
      as [[_ ->] | [_ ->]]; [| reflexivity].
    apply lookup_insert_ne. congruence.
  - erewrite IO_bind_Raise by reflexivity. reflexivity.
Qed.

(** Phase 2 ends with the write of the output file and a write of the same
    table to the partial file. *)
Lemma phase2_finish_mirrors cfg dialect output_header processed_rows w :
  calm w →
  ∃ w',
    Phase2.finish cfg dialect output_header processed_rows w = (Ok (), w')
    ∧ files w' !! Phase2.OUTPUT_CSV cfg
      = Some (writerows (delimiter dialect) DQUOTE [LF]
                (ensure_phone_cols output_header 1 :: processed_rows))
    ∧ files w' !! Phase2.PARTIAL_CSV cfg = files w' !! Phase2.OUTPUT_CSV cfg.
Proof.
  intros Hc. unfold Phase2.finish.
  destruct (write_rows_calm (Phase2.OUTPUT_CSV cfg) dialect
              (ensure_phone_cols output_header 1) processed_rows w Hc)
    as (w1 & H1 & Hc1 & Hf1).
  erewrite IO_bind_Ok by exact H1. unfold try_except.
  destruct (write_rows_calm (Phase2.PARTIAL_CSV cfg) dialect
              (ensure_phone_cols output_header 1) processed_rows w1 Hc1)
    as (w2 & -> & Hc2 & Hf2).
  exists w2. split; [reflexivity |]. rewrite Hf2, Hf1.
  rewrite lookup_insert_eq.
  destruct (decide (Phase2.PARTIAL_CSV cfg = Phase2.OUTPUT_CSV cfg)) as [-> | Hne].
  - rewrite lookup_insert_eq. auto.
  - rewrite lookup_insert_ne by exact Hne. rewrite lookup_insert_eq. auto.
Qed.

(** C8 holds in phase 2 and fails in phase 1.  With the default interval of
    20 rows and an input of one data row, phase 1 ends well, has written its
    output file, and there is no partial file: nothing after the loop writes
    it.  Phase 2, when no [open] fails, ends with its partial file equal to
    its output file. *)
Theorem final_snapshot_only_in_phase2 :
  (let run := Phase1.main sniff_comma header_found dumps_braces
                seed_unchanged agent_down no_jitter phase1_defaults
                one_row_input in
   run.1 = Ok ()
   ∧ is_Some (files run.2 !! lit "output.core.csv")
   ∧ files run.2 !! lit "output.core.partial.csv" = None)
  ∧ (∀ cfg dialect output_header processed_rows phone_lists w,
       Phase1.PARTIAL_CSV cfg ≠ Phase1.OUTPUT_CSV cfg →
       files (Phase1.finish cfg dialect output_header processed_rows
                phone_lists w).2 !! Phase1.PARTIAL_CSV cfg
       = files w !! Phase1.PARTIAL_CSV cfg)
  ∧ (∀ cfg dialect output_header processed_rows w,
       calm w →
       let run := Phase2.finish cfg dialect output_header processed_rows w in
       run.1 = Ok ()
       ∧ is_Some (files run.2 !! Phase2.OUTPUT_CSV cfg)
       ∧ files run.2 !! Phase2.PARTIAL_CSV cfg
         = files run.2 !! Phase2.OUTPUT_CSV cfg).
Proof.
  split.
  { cbv zeta. split; [vm_compute; reflexivity |].
    split; [eexists; vm_compute; reflexivity | vm_compute; reflexivity]. }
  split; [apply phase1_finish_partial_untouched |].
  intros cfg dialect output_header processed_rows w Hc.
  destruct (phase2_finish_mirrors cfg dialect output_header processed_rows w Hc)
    as (w' & H & Hout & Hpart).
  cbv zeta. rewrite H. simpl. split; [reflexivity |].
  split; [rewrite Hout; eauto | exact Hpart].
Qed.

(** ** The dialect of the output files *)

Lemma IO_bind_inv {A B} (m : IO A) (k : A → IO B) (w w' : world) (b : B) :
  (m ≫= k) w = (Ok b, w') →
  ∃ a w1, m w = (Ok a, w1) ∧ k a w1 = (Ok b, w').
Proof.
  unfold mbind, IO_bind. destruct (m w) as [[a|e] w1]; [eauto | discriminate].
Qed.

Lemma read_file_Ok (path text : str) (w w' : world) :
  read_file path w = (Ok text, w') →
  files w' = files w ∧ files w !! path = Some text.
Proof.
  unfold read_file, next_fault, mbind, IO_bind, raise.
  destruct (faults w) as [|[] rest]; simpl; try discriminate;
    destruct (files w !! path); intros [= <- <-]; auto.
Qed.

Lemma sniff_dialect_and_header_Ok sniff has_header path d has w w' :
  sniff_dialect_and_header sniff has_header path w = (Ok (d, has), w') →
  files w' = files w
  ∧ ∃ text, files w !! path = Some text ∧ d = detected sniff has_header text.
Proof.
  unfold sniff_dialect_and_header. intros H.
  apply IO_bind_inv in H as (text & w1 & Hread & H).
  apply read_file_Ok in Hread as [Hfiles Htext].
  injection H as Hd <-. split; [exact Hfiles |].
  exists text. split; [exact Htext |]. unfold detected. rewrite Hd. reflexivity.
Qed.

Lemma read_rows_Ok sniff has_header path rows w w' :
  read_rows sniff has_header path w = (Ok rows, w') → files w' = files w.
Proof.
  unfold read_rows. intros H.
  apply IO_bind_inv in H as ([d has] & w1 & Hsniff & H).
  apply sniff_dialect_and_header_Ok in Hsniff as [Hf1 _].
  apply IO_bind_inv in H as (text & w2 & Hread & H).
  apply read_file_Ok in Hread as [Hf2 _].
  apply IO_bind_inv in H as (rs & w3 & Hlift & H).
  unfold lift in Hlift. injection Hlift as _ <-. injection H as _ <-.
  congruence.
Qed.

Lemma write_rows_Ok path dialect header rows w w' :
  write_rows path dialect header rows w = (Ok (), w') →
  files w' = <[path := writerows (delimiter dialect) DQUOTE [LF]
                         (header :: rows)]> (files w).
Proof.
  intros H. pose proof (write_rows_files path dialect header rows w) as Hw.
  rewrite H in Hw. simpl in Hw. destruct Hw as [[_ Hf] | [Hr _]];
    [exact Hf | discriminate].
Qed.

Lemma phase1_finish_Ok cfg dialect output_header processed_rows phone_lists
    w w' :
  Phase1.finish cfg dialect output_header processed_rows phone_lists w
    = (Ok (), w') →
  ∃ table,
    files w' !! Phase1.OUTPUT_CSV cfg
    = Some (writerows (delimiter dialect) DQUOTE [LF] table).
Proof.
  unfold Phase1.finish. intros H.
  apply IO_bind_inv in H as ([rows header] & w1 & Hfill & H).
  unfold lift in Hfill. injection Hfill as _ <-.
  apply write_rows_Ok in H. rewrite H, lookup_insert_eq. eauto.
Qed.

Lemma phase2_finish_Ok cfg dialect output_header processed_rows w w' :
  Phase2.finish cfg dialect output_header processed_rows w = (Ok (), w') →
  ∃ table,
    files w' !! Phase2.OUTPUT_CSV cfg
    = Some (writerows (delimiter dialect) DQUOTE [LF] table).
Proof.
  unfold Phase2.finish. intros H.
  apply IO_bind_inv in H as ([] & w1 & Hout & H).
  apply write_rows_Ok in Hout. unfold try_except in H.
  pose proof (write_rows_files (Phase2.PARTIAL_CSV cfg) dialect
                (ensure_phone_cols output_header 1) processed_rows w1) as Hp.
  destruct (write_rows (Phase2.PARTIAL_CSV cfg) dialect
              (ensure_phone_cols output_header 1) processed_rows w1)
    as [[[]|e] w2] eqn:E; simpl in Hp, H; injection H as <-.
  - destruct Hp as [[_ Hf] | [Hr _]]; [| discriminate]. rewrite Hf.
    destruct (decide (Phase2.PARTIAL_CSV cfg = Phase2.OUTPUT_CSV cfg))
      as [-> | Hne].
    + rewrite lookup_insert_eq. eauto.
    + rewrite lookup_insert_ne by exact Hne.
      rewrite Hout, lookup_insert_eq. eauto.
  - destruct Hp as [[Hr _] | [_ Hf]]; [discriminate |]. rewrite Hf.
    rewrite Hout, lookup_insert_eq. eauto.
Qed.

Lemma phase1_main_output sniff has_header json_dumps extract agent rand cfg
    text w w' :
  files w !! Phase1.INPUT_CSV cfg = Some text →
  Phase1.main sniff has_header json_dumps extract agent rand cfg w
    = (Ok (), w') →
  files w' = files w
  ∨ ∃ table,
      files w' !! Phase1.OUTPUT_CSV cfg
      = Some (writerows (delimiter (detected sniff has_header text))
                DQUOTE [LF] table).
Proof.
  intros Htext. unfold Phase1.main.
  destruct (negb (truthy_opt (Phase1.GOOGLE_API_KEY cfg))); [discriminate |].
  intros H. apply IO_bind_inv in H as (present & w1 & Hex & H).
  injection Hex as _ <-.
  destruct (negb present); [discriminate |].
  apply IO_bind_inv in H as (rows & w2 & Hread & H).
  apply read_rows_Ok in Hread.
  destruct rows as [|header data_rows].
  { injection H as <-. left. exact Hread. }
  apply IO_bind_inv in H as ([dialect has] & w3 & Hsniff & H).
  apply sniff_dialect_and_header_Ok in Hsniff as (Hf3 & text' & Htext' & ->).
  rewrite Hread, Htext in Htext'. injection Htext' as <-.
  destruct (negb has); [discriminate |].
  destruct (Phase1.build_output_header header) as [output_header cols].
  apply IO_bind_inv in H as ([processed_rows phone_lists] & w4 & _ & H).
  right. eapply phase1_finish_Ok. exact H.
Qed.

Lemma phase2_main_output sniff has_header json_dumps json_loads float_of_str
    agent rand cfg text w w' :
  files w !! Phase2.INPUT_CSV cfg = Some text →
  Phase2.main sniff has_header json_dumps json_loads float_of_str agent rand
    cfg w = (Ok (), w') →
  files w' = files w
  ∨ ∃ table,
      files w' !! Phase2.OUTPUT_CSV cfg
      = Some (writerows (delimiter (detected sniff has_header text))
                DQUOTE [LF] table).
Proof.
  intros Htext. unfold Phase2.main.
  destruct (negb (truthy_opt (Phase2.GOOGLE_API_KEY cfg))); [discriminate |].
  intros H. apply IO_bind_inv in H as (present & w1 & Hex & H).
  injection Hex as _ <-.
  destruct (negb present); [discriminate |].
  apply IO_bind_inv in H as (rows & w2 & Hread & H).
  apply read_rows_Ok in Hread.
  destruct rows as [|header data_rows].
  { injection H as <-. left. exact Hread. }
  apply IO_bind_inv in H as ([dialect has] & w3 & Hsniff & H).
  apply sniff_dialect_and_header_Ok in Hsniff as (Hf3 & text' & Htext' & ->).
  rewrite Hread, Htext in Htext'. injection Htext' as <-.
  destruct (negb has); [discriminate |].
  destruct (Phase2.build_output_header cfg header) as [output_header cols].
  apply IO_bind_inv in H as (processed_rows & w4 & _ & H).
  right. eapply phase2_finish_Ok. exact H.
Qed.

(** C6, as the code has it.  [write_rows] takes from the detected dialect
    its separator and nothing else: two dialects with the same separator
    give the same file, written with the double quote as quote character
    and a line feed as line terminator; and the output file of a phase that
    ends well, when it wrote one, is written with the separator detected
    from the text of that phase's input file. *)
Theorem write_rows_reuses_delimiter_only :
  (∀ path d1 d2 header rows,
     delimiter d1 = delimiter d2 →
     write_rows path d1 header rows = write_rows path d2 header rows)
  ∧ (∀ path dialect header rows w,
       calm w →
       let run := write_rows path dialect header rows w in
       run.1 = Ok ()
       ∧ files run.2 !! path
         = Some (writerows (delimiter dialect) DQUOTE [LF] (header :: rows)))
  ∧ (∀ sniff has_header json_dumps extract agent rand cfg text w w',
       files w !! Phase1.INPUT_CSV cfg = Some text →
       Phase1.main sniff has_header json_dumps extract agent rand cfg w
         = (Ok (), w') →
       files w' = files w
       ∨ ∃ table,
           files w' !! Phase1.OUTPUT_CSV cfg
           = Some (writerows (delimiter (detected sniff has_header text))
                     DQUOTE [LF] table))
  ∧ (∀ sniff has_header json_dumps json_loads float_of_str agent rand cfg
       text w w',
       files w !! Phase2.INPUT_CSV cfg = Some text →
       Phase2.main sniff has_header json_dumps json_loads float_of_str agent
         rand cfg w = (Ok (), w') →
       files w' = files w
       ∨ ∃ table,
           files w' !! Phase2.OUTPUT_CSV cfg
           = Some (writerows (delimiter (detected sniff has_header text))
                     DQUOTE [LF] table)).
Proof.
  split.
  { intros path d1 d2 header rows Hd. unfold write_rows. rewrite Hd.
    reflexivity. }
  split.
  { intros path dialect header rows w Hc.
    destruct (write_rows_calm path dialect header rows w Hc)
      as (w' & H & _ & Hf).
    cbv zeta. rewrite H. simpl. split; [reflexivity |].
    rewrite Hf. apply lookup_insert_eq. }
  split; [apply phase1_main_output | apply phase2_main_output].
Qed.

Lemma write_rows_reuses_delimiter_only_witness :
  ∃ table,
    files (Phase1.main sniff_comma header_found dumps_braces seed_unchanged
             agent_down no_jitter phase1_defaults one_row_input).2
      !! lit "output.core.csv"
    = Some (writerows COMMA DQUOTE [LF] table).
Proof.
  destruct write_rows_reuses_delimiter_only as (_ & _ & Hmain & _).
  destruct (Hmain sniff_comma header_found dumps_braces seed_unchanged
              agent_down no_jitter phase1_defaults
              (lit "ADDRESS,POSTCODE" ++ [LF] ++ lit "10 Main St,AB1 2CD"
               ++ [LF])
              one_row_input
              (Phase1.main sniff_comma header_found dumps_braces
                 seed_unchanged agent_down no_jitter phase1_defaults
                 one_row_input).2)
    as [Hsame | (table & Htable)].
  - reflexivity.
  - vm_compute. reflexivity.
  - apply (f_equal (λ m, m !! lit "output.core.csv")) in Hsame.
    vm_compute in Hsame. discriminate Hsame.
  - exists table. exact Htable.
Defined.

(** C6, as it is worded, fails: the line terminator of the detected dialect
    (a carriage return and a line feed, for every dialect [csv.Sniffer]
    returns) and its quote character are not reused. *)
Lemma write_rows_ignores_quote_and_terminator :
  files (write_rows (lit "out.csv") sniffed_apostrophe
           [lit "name"; lit "note"] [[lit "O'Neil"; lit "a,b"]] no_files).2
    !! lit "out.csv"
  = Some (lit "name,note" ++ [LF] ++ lit "O'Neil," ++ [DQUOTE] ++ lit "a,b"
          ++ [DQUOTE] ++ [LF])
  ∧ files (write_rows_as_detected (lit "out.csv") sniffed_apostrophe
             [lit "name"; lit "note"] [[lit "O'Neil"; lit "a,b"]] no_files).2
      !! lit "out.csv"
    = Some (lit "name,note" ++ [CR; LF] ++ lit "'O''Neil','a,b'" ++ [CR; LF])
  ∧ write_rows (lit "out.csv") sniffed_apostrophe
      [lit "name"; lit "note"] [[lit "O'Neil"; lit "a,b"]] no_files
    ≠ write_rows_as_detected (lit "out.csv") sniffed_apostrophe
        [lit "name"; lit "note"] [[lit "O'Neil"; lit "a,b"]] no_files.
Proof.
  split; [vm_compute; reflexivity |].
  split; [vm_compute; reflexivity |].
  vm_compute. discriminate.
Qed.

(** ** Writing a table and reading it back *)

Lemma parse_chars_app (d : Dialect) (a b : str) (r : Reader) :
  parse_chars d r (a ++ b) = parse_chars d r a ≫= λ r', parse_chars d r' b.
Proof.
  revert r. induction a as [|c a IH]; intros r; simpl; [reflexivity |].
  destruct (parse_process_char d r (Some c)) as [r1|e]; simpl; [apply IH | reflexivity].
Qed.

(** On a text without carriage returns that ends with a line feed, the
    reader over the lines of the text does what [by_chars] does. *)
Lemma reader_loop_by_chars (d : Dialect) (text : str) :
  ∀ r0 cur r rows,
    CR ∉ text →
    (text = [] → cur = []) →
    (text ≠ [] → last text = Some LF) →
    parse_chars d r0 cur = Ok r →
    by_chars d r text = Ok rows →
    reader_loop d r0 (file_lines_from cur text) = Ok rows.
Proof.
  induction text as [|c rest IH]; intros r0 cur r rows Hcr Hcur Hlast Hr Hby.
  - rewrite (Hcur eq_refl) in *. simpl in *. injection Hr as <-. exact Hby.
  - apply not_elem_of_cons in Hcr as [Hc Hcr].
    assert (Hlast' : rest ≠ [] → last rest = Some LF).
    { intros Hne. specialize (Hlast ltac:(discriminate)).
      destruct rest; [congruence | exact Hlast]. }
    simpl in Hby. bind_ok Hby. rename a into r1.
    simpl. destruct (decide (c = LF)) as [-> | Hlf].
    + bind_ok Hby. rename a into r2.
      cbn [reader_loop]. unfold parse_line.
      rewrite parse_chars_app, Hr. simpl. rewrite E. simpl. rewrite E0. simpl.
      destruct (decide (state r2 = START_RECORD)).
      * bind_ok Hby. injection Hby as <-.
        erewrite (IH parse_reset [] parse_reset a); try reflexivity; auto.
      * eapply (IH r2 [] r2); try reflexivity; auto.
    + rewrite decide_False by (intros Heq; apply Hc; symmetry; exact Heq).
      eapply (IH r0 (cur ++ [c]) r1); auto.
      * intros ->. exfalso. specialize (Hlast ltac:(discriminate)).
        simpl in Hlast. congruence.
      * rewrite parse_chars_app, Hr. simpl. rewrite E. reflexivity.
Qed.

Section RoundTrip.
Variable d : Dialect.
Variable delim : ascii.
Hypothesis Hreads : reads_back d delim.

Local Abbreviation mk s fs f := {| state := s; fields := fs; field := f |}.
Local Abbreviation step := (parse_process_char d).
Local Abbreviation plain_char := (plain_char delim).
Local Abbreviation closed_quote := (closed_quote d).

Lemma reads_delimiter : delimiter d = delim.
Proof using Hreads. apply Hreads. Qed.

Lemma reads_quotechar : quotechar d = DQUOTE.
Proof using Hreads. apply Hreads. Qed.

Lemma is_newline_false (c : ascii) : c ≠ LF → c ≠ CR → is_newline c = false.
Proof using Type.
  intros H1 H2. unfold is_newline.
  rewrite !bool_decide_eq_false_2 by assumption. reflexivity.
Qed.

Lemma add_char_ok (r : Reader) (c : ascii) :
  (N.of_nat (length (field r)) < field_limit)%N →
  parse_add_char r c
  = Ok {| state := state r; fields := fields r; field := field r ++ [c] |}.
Proof using Type.
  intros H. unfold parse_add_char.
  destruct (N.leb_spec field_limit (N.of_nat (length (field r)))); [lia |].
  reflexivity.
Qed.

Lemma step_plain_start s fs c :
  field_start s → plain_char c →
  (skipinitialspace d = true → c ≠ SPACE) →
  step (mk s fs []) (Some c) = Ok (mk IN_FIELD fs [c]).
Proof using Hreads.
  intros Hs (Hd & Hq & Hlf & Hcr) Hsp.
  assert (Hskip : bool_decide (c = SPACE) && skipinitialspace d = false).
  { destruct (skipinitialspace d); [| apply andb_false_r].
    rewrite bool_decide_eq_false_2 by auto. reflexivity. }
  unfold parse_process_char. rewrite reads_quotechar, reads_delimiter.
  destruct Hs as [-> | ->]; cbn [state set_state fields field];
    rewrite (is_newline_false c Hlf Hcr), decide_False by exact Hq;
    rewrite Hskip, decide_False by exact Hd; reflexivity.
Qed.

Lemma step_plain_in_field fs f c :
  plain_char c → (N.of_nat (length f) < field_limit)%N →
  step (mk IN_FIELD fs f) (Some c) = Ok (mk IN_FIELD fs (f ++ [c])).
Proof using Hreads.
  intros (Hd & Hq & Hlf & Hcr) Hlen.
  unfold parse_process_char. rewrite reads_delimiter.
  cbn [state]. rewrite (is_newline_false c Hlf Hcr), decide_False by exact Hd.
  apply add_char_ok. exact Hlen.
Qed.

Lemma step_quote_start s fs :
  field_start s →
  step (mk s fs []) (Some DQUOTE) = Ok (mk IN_QUOTED_FIELD fs []).
Proof using Hreads.
  intros Hs. unfold parse_process_char. rewrite reads_quotechar.
  destruct Hs as [-> | ->]; cbn [state set_state fields field];
    rewrite decide_True by reflexivity; reflexivity.
Qed.

Lemma step_in_quoted fs f c :
  c ≠ DQUOTE → (N.of_nat (length f) < field_limit)%N →
  step (mk IN_QUOTED_FIELD fs f) (Some c)
  = Ok (mk IN_QUOTED_FIELD fs (f ++ [c])).
Proof using Hreads.
  intros Hq Hlen. unfold parse_process_char. rewrite reads_quotechar.
  cbn [state]. rewrite decide_False by exact Hq.
  apply add_char_ok. exact Hlen.
Qed.

Lemma step_close_quote fs f :
  step (mk IN_QUOTED_FIELD fs f) (Some DQUOTE) = Ok (mk closed_quote fs f).
Proof using Hreads.
  unfold parse_process_char, closed_quote. rewrite reads_quotechar.
  cbn [state]. rewrite decide_True by reflexivity.
  destruct (doublequote d); reflexivity.
Qed.

Lemma step_doubled_quote fs f :
  (N.of_nat (length f) < field_limit)%N →
  step (mk QUOTE_IN_QUOTED_FIELD fs f) (Some DQUOTE)
  = Ok (mk IN_QUOTED_FIELD fs (f ++ [DQUOTE])).
Proof using Hreads.
  intros Hlen. unfold parse_process_char. rewrite reads_quotechar.
  cbn [state]. rewrite decide_True by reflexivity.
  rewrite add_char_ok by exact Hlen. reflexivity.
Qed.

Lemma step_delimiter s s' fs f :
  field_start s → field_done s f s' →
  step (mk s' fs f) (Some delim) = Ok (mk START_FIELD (fs ++ [f]) []).
Proof using Hreads.
  destruct Hreads as (Hd & Hq & Hdq & Hdlf & Hdcr & Hdsp).
  intros Hs Hdone. unfold parse_process_char. rewrite Hq, Hd.
  assert (Hskip : bool_decide (delim = SPACE) && skipinitialspace d = false).
  { destruct (skipinitialspace d); [| apply andb_false_r].
    rewrite bool_decide_eq_false_2 by auto. reflexivity. }
  destruct Hdone as [-> | [-> | [-> ->]]].
  - cbn [state]. rewrite (is_newline_false delim Hdlf Hdcr).
    rewrite decide_True by reflexivity. reflexivity.
  - cbn [state]. rewrite decide_False by exact Hdq.
    rewrite decide_True by reflexivity. reflexivity.
  - destruct Hs as [-> | ->]; cbn [state set_state fields field];
      rewrite (is_newline_false delim Hdlf Hdcr), decide_False by exact Hdq;
      rewrite Hskip, decide_True by reflexivity; reflexivity.
Qed.

Lemma is_newline_LF : is_newline LF = true.
Proof using Type. reflexivity. Qed.

(** The line feed that ends a record, and the end-of-line signal after
    it. *)
Lemma step_line_feed s' fs f :
  s' = IN_FIELD ∨ s' = QUOTE_IN_QUOTED_FIELD ∨ (s' = START_FIELD ∧ f = []) →
  ∃ r, step (mk s' fs f) (Some LF) = Ok r
       ∧ step r None = Ok (mk START_RECORD (fs ++ [f]) []).
Proof using Hreads.
  destruct Hreads as (Hd & Hq & Hdq & Hdlf & Hdcr & Hdsp).
  intros Hdone. unfold parse_process_char. rewrite Hq, Hd.
  destruct Hdone as [-> | [-> | [-> ->]]]; cbn [state]; rewrite ?is_newline_LF.
  - eexists. split; reflexivity.
  - rewrite decide_False by discriminate.
    rewrite decide_False by (intros Heq; apply Hdlf; symmetry; exact Heq).
    eexists. split; reflexivity.
  - eexists. split; reflexivity.
Qed.

(** *** Fields *)

Lemma by_chars_cons_plain r r' c rest :
  c ≠ LF → step r (Some c) = Ok r' →
  by_chars d r (c :: rest) = by_chars d r' rest.
Proof using Type.
  intros Hlf Hstep. simpl. rewrite Hstep. simpl.
  rewrite decide_False by exact Hlf. reflexivity.
Qed.

Lemma by_chars_plain g :
  ∀ fs f rest,
    Forall plain_char g →
    (N.of_nat (length (f ++ g)) <= field_limit)%N →
    by_chars d (mk IN_FIELD fs f) (g ++ rest)
    = by_chars d (mk IN_FIELD fs (f ++ g)) rest.
Proof using Hreads.
  induction g as [|c g IH]; intros fs f rest Hg Hlen.
  - rewrite app_nil_r. reflexivity.
  - inversion Hg as [|? ? Hc Hg']; subst.
    rewrite length_app in Hlen. simpl in Hlen.
    simpl app. erewrite by_chars_cons_plain;
      [| apply Hc | apply step_plain_in_field; [exact Hc | lia]].
    rewrite IH; [| exact Hg' | rewrite !length_app; simpl; lia].
    rewrite <- app_assoc. reflexivity.
Qed.

(** The body of a quoted field: line feeds in it are added to the field,
    and the end-of-line signal changes nothing there. *)
Lemma by_chars_quoted_body g :
  ∀ fs f rest,
    (doublequote d = false → DQUOTE ∉ g) →
    (N.of_nat (length (f ++ g)) <= field_limit)%N →
    by_chars d (mk IN_QUOTED_FIELD fs f) (double_quotes DQUOTE g ++ rest)
    = by_chars d (mk IN_QUOTED_FIELD fs (f ++ g)) rest.
Proof using Hreads.
  induction g as [|c g IH]; intros fs f rest Hdq Hlen.
  - rewrite app_nil_r. reflexivity.
  - rewrite length_app in Hlen. simpl in Hlen.
    assert (Hdq' : doublequote d = false → DQUOTE ∉ g).
    { intros H. specialize (Hdq H). apply not_elem_of_cons in Hdq. tauto. }
    assert (Hlen' : (N.of_nat (length ((f ++ [c]) ++ g)) <= field_limit)%N).
    { rewrite !length_app. simpl. lia. }
    simpl double_quotes. destruct (decide (c = DQUOTE)) as [-> | Hq].
    + assert (Hd : doublequote d = true).
      { destruct (doublequote d) eqn:E; [reflexivity |].
        exfalso. apply (Hdq eq_refl). apply elem_of_cons. left. reflexivity. }
      simpl app.
      erewrite by_chars_cons_plain;
        [| discriminate | apply step_close_quote].
      unfold closed_quote. rewrite Hd.
      erewrite by_chars_cons_plain;
        [| discriminate | apply step_doubled_quote; lia].
      rewrite IH by assumption. rewrite <- app_assoc. reflexivity.
    + simpl app. cbn [by_chars].
      rewrite step_in_quoted by (first [exact Hq | lia]). simpl.
      destruct (decide (c = LF)) as [-> | Hlf].
      * rewrite IH by assumption. rewrite <- app_assoc. reflexivity.
      * rewrite IH by assumption. rewrite <- app_assoc. reflexivity.
Qed.

Lemma by_chars_quoted s fs f rest :
  field_start s →
  (doublequote d = false → DQUOTE ∉ f) →
  (N.of_nat (length f) <= field_limit)%N →
  by_chars d (mk s fs []) (DQUOTE :: double_quotes DQUOTE f ++ [DQUOTE] ++ rest)
  = by_chars d (mk closed_quote fs f) rest.
Proof using Hreads.
  intros Hs Hdq Hlen.
  erewrite by_chars_cons_plain;
    [| discriminate | apply step_quote_start; exact Hs].
  rewrite by_chars_quoted_body by assumption. simpl app.
  erewrite by_chars_cons_plain;
    [| discriminate | apply step_close_quote].
  reflexivity.
Qed.

Lemma closed_quote_done s f : field_done s f closed_quote.
Proof using Type.
  unfold field_done, closed_quote. destruct (doublequote d); auto.
Qed.

Lemma not_special_plain (f : str) :
  needs_quote delim DQUOTE [LF] f = false → CR ∉ f → Forall plain_char f.
Proof using Type.
  intros Hq Hcr. apply Forall_forall. intros c Hc.
  unfold needs_quote in Hq.
  assert (Hs : special_char delim DQUOTE [LF] c = false).
  { destruct (special_char delim DQUOTE [LF] c) eqn:E; [| reflexivity].
    assert (existsb (special_char delim DQUOTE [LF]) f = true).
    { apply existsb_exists. exists c. split; [| exact E].
      apply list_elem_of_In. exact Hc. }
    congruence. }
  unfold special_char in Hs.
  apply orb_false_iff in Hs as [Hs H3]. apply orb_false_iff in Hs as [H1 H2].
  apply bool_decide_eq_false in H1, H2, H3.
  repeat split; try assumption.
  - intros ->. apply H3. apply list_elem_of_singleton. reflexivity.
  - intros ->. contradiction.
Qed.

(** A cell as [write_field] writes it is read back whole. *)
Lemma by_chars_field s fs f :
  field_start s → cell_ok d f →
  ∃ s', field_done s f s'
        ∧ ∀ rest,
            by_chars d (mk s fs []) (write_field delim DQUOTE [LF] f ++ rest)
            = by_chars d (mk s' fs f) rest.
Proof using Hreads.
  intros Hs (Hcr & Hlen & Hdq & Hsp). unfold write_field.
  rewrite reads_delimiter in Hsp.
  destruct (needs_quote delim DQUOTE [LF] f) eqn:Eq.
  - exists closed_quote. split; [apply closed_quote_done |].
    intros rest. simpl app. rewrite <- app_assoc.
    apply by_chars_quoted; assumption.
  - pose proof (not_special_plain f Eq Hcr) as Hplain.
    destruct f as [|c g].
    + exists s. split; [right; right; auto | reflexivity].
    + exists IN_FIELD. split; [left; reflexivity |]. intros rest.
      inversion Hplain as [|? ? Hc Hg]; subst.
      simpl app. erewrite by_chars_cons_plain;
        [| apply Hc | apply step_plain_start; [exact Hs | exact Hc |]].
      * apply (by_chars_plain g fs [c] rest Hg). simpl in *. lia.
      * intros Hskip ->. apply (Hsp Hskip eq_refl). reflexivity.
Qed.
End RoundTrip.

Section RoundTripRows.
Variable d : Dialect.
Variable delim : ascii.
Hypothesis Hreads : reads_back d delim.

Local Abbreviation mk s fs f := {| state := s; fields := fs; field := f |}.
Local Abbreviation wf := (write_field delim DQUOTE [LF]).

Lemma by_chars_line_feed s' fs f rest :
  s' = IN_FIELD ∨ s' = QUOTE_IN_QUOTED_FIELD ∨ (s' = START_FIELD ∧ f = []) →
  by_chars d (mk s' fs f) (LF :: rest)
  = rows ← by_chars d parse_reset rest; mret ((fs ++ [f]) :: rows).
Proof using Hreads.
  intros Hs. destruct (step_line_feed d delim Hreads s' fs f Hs)
    as (r & H1 & H2).
  cbn [by_chars]. rewrite H1. simpl. rewrite H2. simpl. reflexivity.
Qed.

(** The cells of a record, from the first that is not yet read on. *)
Lemma by_chars_fields (more : list str) :
  ∀ f s fs rest,
    s = START_FIELD ∨ (s = START_RECORD ∧ (more ≠ [] ∨ f ≠ [])) →
    Forall (cell_ok d) (f :: more) →
    by_chars d (mk s fs []) (join [delim] (map wf (f :: more)) ++ LF :: rest)
    = rows ← by_chars d parse_reset rest; mret ((fs ++ f :: more) :: rows).
Proof using Hreads.
  induction more as [|f' more IH]; intros f s fs rest Hs Hok;
    inversion Hok as [|? ? Hf Hmore]; subst.
  - assert (Hstart : field_start s).
    { destruct Hs as [-> | [-> _]]; [left | right]; reflexivity. }
    destruct (by_chars_field d delim Hreads s fs f Hstart Hf)
      as (s' & Hdone & Heq).
    cbn [map join]. rewrite Heq. apply by_chars_line_feed.
    destruct Hdone as [-> | [-> | [-> ->]]]; [auto | auto |].
    destruct Hs as [-> | [-> [H | H]]]; [auto | congruence | congruence].
  - assert (Hstart : field_start s).
    { destruct Hs as [-> | [-> _]]; [left | right]; reflexivity. }
    destruct (by_chars_field d delim Hreads s fs f Hstart Hf)
      as (s' & Hdone & Heq).
    change (join [delim] (map wf (f :: f' :: more)))
      with (wf f ++ [delim] ++ join [delim] (map wf (f' :: more))).
    rewrite <- !app_assoc. rewrite Heq.
    change ([delim] ++ join [delim] (map wf (f' :: more)) ++ LF :: rest)
      with (delim :: join [delim] (map wf (f' :: more)) ++ LF :: rest).
    erewrite by_chars_cons_plain;
      [| apply Hreads
       | apply (step_delimiter d delim Hreads s s'); assumption].
    rewrite (IH f' START_FIELD (fs ++ [f]) rest); [| auto | exact Hmore].
    rewrite <- app_assoc. reflexivity.
Qed.

Lemma write_field_nonempty (f : str) : f ≠ [] → wf f ≠ [].
Proof using Type.
  intros Hf. unfold write_field.
  destruct (needs_quote delim DQUOTE [LF] f); [discriminate | exact Hf].
Qed.

Lemma join_fields_nonempty (f : str) (more : list str) :
  more ≠ [] ∨ f ≠ [] → join [delim] (map wf (f :: more)) ≠ [].
Proof using Type.
  intros [Hm | Hf].
  - destruct more as [|f' more]; [congruence |].
    change (join [delim] (map wf (f :: f' :: more)))
      with (wf f ++ [delim] ++ join [delim] (map wf (f' :: more))).
    destruct (wf f); discriminate.
  - destruct more as [|f' more].
    + simpl. apply write_field_nonempty. exact Hf.
    + change (join [delim] (map wf (f :: f' :: more)))
        with (wf f ++ [delim] ++ join [delim] (map wf (f' :: more))).
      destruct (wf f); discriminate.
Qed.

(** One record as [writerow] writes it is read back whole. *)
Lemma by_chars_writerow (row : list str) (rest : str) :
  Forall (cell_ok d) row →
  by_chars d parse_reset (writerow delim DQUOTE [LF] row ++ rest)
  = rows ← by_chars d parse_reset rest; mret (row :: rows).
Proof using Hreads.
  intros Hok. destruct row as [|f more]; [reflexivity |].
  destruct (decide (more = [] ∧ f = [])) as [[-> ->] | Hne].
  - assert (Ht : writerow delim DQUOTE [LF] [[]] ++ rest
                 = DQUOTE :: double_quotes DQUOTE [] ++ [DQUOTE] ++ LF :: rest)
      by reflexivity.
    rewrite Ht. unfold parse_reset at 1.
    rewrite (by_chars_quoted d delim Hreads START_RECORD [] []);
      [| right; reflexivity | intros _; apply not_elem_of_nil
       | simpl; unfold field_limit; lia].
    rewrite by_chars_line_feed; [reflexivity |].
    unfold closed_quote. destruct (doublequote d); auto.
  - assert (Hor : more ≠ [] ∨ f ≠ []).
    { destruct more; [right | left; discriminate].
      intros ->. apply Hne. auto. }
    pose proof (join_fields_nonempty f more Hor) as Hrec.
    unfold writerow.
    rewrite (bool_decide_eq_false_2 _ Hrec), andb_false_r.
    rewrite <- app_assoc. unfold parse_reset at 1.
    change ([LF] ++ rest) with (LF :: rest).
    rewrite (by_chars_fields more f START_RECORD [] rest); auto.
Qed.

Lemma by_chars_writerows (rows : list (list str)) :
  Forall (Forall (cell_ok d)) rows →
  by_chars d parse_reset (writerows delim DQUOTE [LF] rows) = Ok rows.
Proof using Hreads.
  induction 1 as [|row rows Hrow Hrows IH]; [reflexivity |].
  unfold writerows. cbn [map concat]. fold (writerows delim DQUOTE [LF] rows).
  rewrite by_chars_writerow by exact Hrow. rewrite IH. reflexivity.
Qed.

(** *** The text written *)

Lemma elem_of_double_quotes (c : ascii) (f : str) :
  c ∈ double_quotes DQUOTE f → c ∈ f ∨ c = DQUOTE.
Proof using Type.
  induction f as [|x f IH]; simpl; [intros H; inversion H |].
  destruct (decide (x = DQUOTE)) as [-> | Hx]; rewrite !elem_of_cons;
    intros H; rewrite ?elem_of_cons in H; tauto.
Qed.

Lemma elem_of_write_field (c : ascii) (f : str) :
  c ∈ wf f → c ∈ f ∨ c = DQUOTE.
Proof using Type.
  unfold write_field. destruct (needs_quote delim DQUOTE [LF] f); [| auto].
  rewrite elem_of_cons, elem_of_app, list_elem_of_singleton.
  intros [-> | [H | ->]]; auto. apply elem_of_double_quotes. exact H.
Qed.

Lemma elem_of_join (c : ascii) (sep : str) (items : list str) :
  c ∈ join sep items → c ∈ sep ∨ ∃ x, x ∈ items ∧ c ∈ x.
Proof using Type.
  induction items as [|x items IH]; simpl; [intros H; inversion H |].
  destruct items as [|y items].
  - intros H. right. exists x. split; [apply elem_of_cons; auto | exact H].
  - rewrite !elem_of_app. intros [H | [H | H]].
    + right. exists x. split; [apply elem_of_cons; auto | exact H].
    + auto.
    + destruct (IH H) as [Hs | (z & Hz & Hc)]; [auto |].
      right. exists z. split; [apply elem_of_cons; auto | exact Hc].
Qed.

Lemma writerow_no_CR (row : list str) :
  Forall (cell_ok d) row → CR ∉ writerow delim DQUOTE [LF] row.
Proof using Hreads.
  destruct Hreads as (_ & _ & _ & _ & Hdcr & _).
  intros Hok Hin. unfold writerow in Hin.
  apply elem_of_app in Hin as [Hin | Hin];
    [| apply list_elem_of_singleton in Hin; discriminate].
  destruct (_ && _).
  - rewrite !elem_of_cons in Hin. destruct Hin as [H | [H | H]];
      [discriminate | discriminate | inversion H].
  - apply elem_of_join in Hin as [Hin | (x & Hx & Hin)].
    + apply list_elem_of_singleton in Hin. congruence.
    + apply list_elem_of_fmap in Hx as (f & -> & Hf).
      apply elem_of_write_field in Hin as [Hin | Hin]; [| discriminate].
      rewrite Forall_forall in Hok. destruct (Hok f Hf) as [Hcr _].
      contradiction.
Qed.

Lemma writerows_no_CR (rows : list (list str)) :
  Forall (Forall (cell_ok d)) rows → CR ∉ writerows delim DQUOTE [LF] rows.
Proof using Hreads.
  induction 1 as [|row rows Hrow Hrows IH]; [apply not_elem_of_nil |].
  unfold writerows. cbn [map concat]. rewrite elem_of_app.
  intros [H | H]; [eapply writerow_no_CR; eassumption | exact (IH H)].
Qed.

Lemma writerows_last (rows : list (list str)) :
  writerows delim DQUOTE [LF] rows ≠ [] →
  last (writerows delim DQUOTE [LF] rows) = Some LF.
Proof using Type.
  induction rows as [|row rows IH];
    [intros H; exfalso; apply H; reflexivity |]. intros _.
  unfold writerows. cbn [map concat]. fold (writerows delim DQUOTE [LF] rows).
  destruct (writerows delim DQUOTE [LF] rows) as [|c t] eqn:E.
  - rewrite app_nil_r. unfold writerow. apply last_snoc.
  - rewrite last_app. rewrite IH by discriminate. reflexivity.
Qed.

(** What [write_rows] writes with the separator [delim], [csv.reader]
    reads back as the same rows. *)
Lemma csv_reader_writerows (rows : list (list str)) :
  Forall (Forall (cell_ok d)) rows →
  csv_reader d (writerows delim DQUOTE [LF] rows) = Ok rows.
Proof using Hreads.
  intros Hok. unfold csv_reader, file_lines.
  apply (reader_loop_by_chars d _ parse_reset [] parse_reset).
  - apply writerows_no_CR. exact Hok.
  - reflexivity.
  - apply writerows_last.
  - reflexivity.
  - apply by_chars_writerows. exact Hok.
Qed.
End RoundTripRows.

Lemma read_file_calm (path text : str) (w : world) :
  calm w → files w !! path = Some text → read_file path w = (Ok text, w).
Proof.
  intros Hc Ht. unfold read_file.
  erewrite IO_bind_Ok by (apply next_fault_calm; exact Hc).
  cbv beta iota. rewrite Ht. reflexivity.
Qed.

Lemma read_rows_calm sniff has_header path text rows w :
  calm w →
  files w !! path = Some text →
  csv_reader (detected sniff has_header text) text = Ok rows →
  read_rows sniff has_header path w
  = (Ok (filter (λ row, keep_row row = true) rows), w).
Proof.
  intros Hc Ht Hread. unfold read_rows, sniff_dialect_and_header.
  erewrite IO_bind_Ok;
    [| erewrite IO_bind_Ok by (apply read_file_calm; eassumption); reflexivity].
  destruct (sniff_sample sniff has_header (sample_text (N.to_nat 8192) text))
    as [dialect has] eqn:E.
  erewrite IO_bind_Ok by (apply read_file_calm; eassumption).
  unfold detected in Hread. rewrite E in Hread. simpl in Hread.
  unfold lift. erewrite IO_bind_Ok by (rewrite Hread; reflexivity).
  reflexivity.
Qed.

Lemma filter_all_kept (rows : list (list str)) :
  Forall (λ row, keep_row row = true) rows →
  filter (λ row, keep_row row = true) rows = rows.
Proof.
  induction 1 as [|row rows Hrow Hrows IH]; [reflexivity |].
  rewrite filter_cons_True by exact Hrow. rewrite IH. reflexivity.
Qed.




(** * Part III: the helpers, the tables and the drivers *)

(** ** Stripping *)

Lemma lstrip_chars_suffix (p : ascii → bool) (s : str) :
  lstrip_chars p s `suffix_of` s.
Proof.
  induction s as [|c s IH]; simpl; [reflexivity |].
  destruct (p c); [| reflexivity].
  apply suffix_cons_r. exact IH.
Qed.

Lemma lstrip_chars_head (p : ascii → bool) (s : str) (c : ascii) :
  head (lstrip_chars p s) = Some c → p c = false.
Proof.
  induction s as [|a s IH]; simpl; [discriminate |].
  destruct (p a) eqn:E; [exact IH |]. simpl. intros [= <-]. exact E.
Qed.

Lemma lstrip_chars_id (p : ascii → bool) (s : str) :
  (∀ c, head s = Some c → p c = false) → lstrip_chars p s = s.
Proof.
  destruct s as [|a s]; [reflexivity |]. intros H. simpl.
  rewrite (H a eq_refl). reflexivity.
Qed.

Lemma rstrip_chars_prefix (p : ascii → bool) (s : str) :
  rstrip_chars p s `prefix_of` s.
Proof.
  unfold rstrip_chars.
  destruct (lstrip_chars_suffix p (reverse s)) as [k Hk].
  exists (reverse k).
  apply (inj reverse). rewrite reverse_app, !reverse_involutive. exact Hk.
Qed.

Lemma rstrip_chars_last (p : ascii → bool) (s : str) (c : ascii) :
  last (rstrip_chars p s) = Some c → p c = false.
Proof.
  unfold rstrip_chars. rewrite last_reverse. apply lstrip_chars_head.
Qed.

Lemma rstrip_chars_id (p : ascii → bool) (s : str) :
  (∀ c, last s = Some c → p c = false) → rstrip_chars p s = s.
Proof.
  intros H. unfold rstrip_chars. rewrite lstrip_chars_id.
  - apply reverse_involutive.
  - intros c Hc. rewrite head_reverse in Hc. auto.
Qed.

Lemma part_of_refl (a : str) : part_of a a.
Proof. exists [], []. rewrite app_nil_r. reflexivity. Qed.

Lemma part_of_trans (a b c : str) : part_of a b → part_of b c → part_of a c.
Proof.
  intros (p1 & q1 & ->) (p2 & q2 & ->).
  exists (p2 ++ p1), (q1 ++ q2). rewrite <- !app_assoc. reflexivity.
Qed.

Lemma prefix_part_of (a b : str) : a `prefix_of` b → part_of a b.
Proof. intros [k ->]. exists [], k. reflexivity. Qed.

Lemma suffix_part_of (a b : str) : a `suffix_of` b → part_of a b.
Proof. intros [k ->]. exists k, []. rewrite app_nil_r. reflexivity. Qed.

Lemma part_of_elem_of (a b : str) (c : ascii) : part_of a b → c ∈ a → c ∈ b.
Proof.
  intros (pre & post & ->) H. rewrite !elem_of_app. auto.
Qed.

Lemma part_of_length (a b : str) : part_of a b → length a ≤ length b.
Proof. intros (pre & post & ->). rewrite !length_app. lia. Qed.

Lemma strip_chars_part_of (p : ascii → bool) (s : str) :
  part_of (strip_chars p s) s.
Proof.
  unfold strip_chars. eapply part_of_trans.
  - apply prefix_part_of, rstrip_chars_prefix.
  - apply suffix_part_of, lstrip_chars_suffix.
Qed.

Lemma strip_chars_last (p : ascii → bool) (s : str) (c : ascii) :
  last (strip_chars p s) = Some c → p c = false.
Proof. apply rstrip_chars_last. Qed.

Lemma strip_chars_head (p : ascii → bool) (s : str) (c : ascii) :
  head (strip_chars p s) = Some c → p c = false.
Proof.
  unfold strip_chars. intros H.
  destruct (rstrip_chars_prefix p (lstrip_chars p s)) as [k Hk].
  apply (lstrip_chars_head p s). rewrite Hk.
  destruct (rstrip_chars p (lstrip_chars p s)); [discriminate | exact H].
Qed.

Lemma strip_chars_id (p : ascii → bool) (s : str) :
  (∀ c, head s = Some c → p c = false) →
  (∀ c, last s = Some c → p c = false) →
  strip_chars p s = s.
Proof.
  intros Hh Hl. unfold strip_chars.
  rewrite (lstrip_chars_id p s Hh). apply rstrip_chars_id. exact Hl.
Qed.

Lemma strip_chars_idemp (p : ascii → bool) (s : str) :
  strip_chars p (strip_chars p s) = strip_chars p s.
Proof.
  apply strip_chars_id; [apply strip_chars_head | apply strip_chars_last].
Qed.

(** ** [_normalize_header_cell] *)

Lemma sub_runs_elem_of (p : ascii → bool) (r : ascii) (s : str) :
  ∀ b c, c ∈ sub_runs p r b s → c = r ∨ (c ∈ s ∧ p c = false).
Proof.
  induction s as [|a s IH]; intros b c H; simpl in H.
  - inversion H.
  - destruct (p a) eqn:E.
    + destruct b.
      * destruct (IH _ _ H) as [-> | [Hin Hp]]; [left; reflexivity |].
        right. split; [right; exact Hin | exact Hp].
      * apply elem_of_cons in H as [-> | H]; [left; reflexivity |].
        destruct (IH _ _ H) as [-> | [Hin Hp]]; [left; reflexivity |].
        right. split; [right; exact Hin | exact Hp].
    + apply elem_of_cons in H as [-> | H].
      * right. split; [left | exact E].
      * destruct (IH _ _ H) as [-> | [Hin Hp]]; [left; reflexivity |].
        right. split; [right; exact Hin | exact Hp].
Qed.

Lemma sub_runs_none (p : ascii → bool) (r : ascii) (s : str) :
  Forall (λ c, p c = false) s → ∀ b, sub_runs p r b s = s.
Proof.
  induction 1 as [|a s Ha Hs IH]; intros b; simpl; [reflexivity |].
  rewrite Ha, IH. reflexivity.
Qed.

Lemma sub_runs_flag (p : ascii → bool) (r : ascii) (s : str) :
  (∀ c, head s = Some c → p c = false) →
  sub_runs p r true s = sub_runs p r false s.
Proof.
  destruct s as [|a s]; [reflexivity |]. intros H. simpl.
  rewrite (H a eq_refl). reflexivity.
Qed.

(** The runs of a text that has single characters of the class only, all
    of them the replacement, are replaced by themselves. *)
Lemma sub_runs_id (p : ascii → bool) (r : ascii) (s : str) :
  Forall (λ c, p c = true → c = r) s → no_adjacent p s →
  sub_runs p r false s = s.
Proof.
  induction s as [|a s IH]; intros Hall Hadj; [reflexivity |].
  inversion Hall as [|? ? Ha Hs]; subst. destruct Hadj as [Hpair Hadj].
  simpl. destruct (p a) eqn:E.
  - rewrite (Ha eq_refl). f_equal.
    rewrite sub_runs_flag; [apply IH; assumption |].
    intros c Hc. destruct s as [|b s]; [discriminate |].
    injection Hc as ->. destruct (p c) eqn:Ec; [| reflexivity].
    exfalso. apply Hpair. auto.
  - f_equal. apply IH; assumption.
Qed.

Lemma sub_runs_no_adjacent (p : ascii → bool) (r : ascii) (s : str) :
  ∀ b,
    no_adjacent p (sub_runs p r b s)
    ∧ (b = true → ∀ c, head (sub_runs p r b s) = Some c → p c = false).
Proof.
  induction s as [|a s IH]; intros b; simpl.
  - split; [exact I | discriminate].
  - destruct (p a) eqn:E.
    + destruct b.
      * apply IH.
      * destruct (IH true) as [Hadj Hhead]. split; [| discriminate].
        split; [| exact Hadj].
        destruct (sub_runs p r true s) as [|c t] eqn:Es; [exact I |].
        intros [_ Hc]. rewrite (Hhead eq_refl c eq_refl) in Hc. discriminate.
    + destruct (IH false) as [Hadj _]. split.
      * split; [| exact Hadj].
        destruct (sub_runs p r false s); [exact I |].
        intros [Ha _]. congruence.
      * intros _ c [= <-]. exact E.
Qed.

Lemma no_adjacent_app (p : ascii → bool) (a b : str) :
  no_adjacent p (a ++ b) → no_adjacent p a ∧ no_adjacent p b.
Proof.
  induction a as [|x a IH]; simpl; [auto |].
  intros [Hpair H]. destruct (IH H) as [Ha Hb]. split; [| exact Hb].
  split; [| exact Ha].
  destruct a as [|y a]; [exact I | exact Hpair].
Qed.

Lemma no_adjacent_part_of (p : ascii → bool) (a b : str) :
  part_of a b → no_adjacent p b → no_adjacent p a.
Proof.
  intros (pre & post & ->) H.
  apply no_adjacent_app in H as [_ H]. apply no_adjacent_app in H as [H _].
  exact H.
Qed.

Lemma no_adjacent_no_pair (p : ascii → bool) (c : ascii) (s pre post : str) :
  p c = true → no_adjacent p s → s ≠ pre ++ [c; c] ++ post.
Proof.
  intros Hc H ->. apply no_adjacent_app in H as [_ H].
  destruct H as [H _]. apply H. auto.
Qed.

Lemma lower_alnum_fixed (c : ascii) :
  is_lower_alnum c = true ∨ c = UNDERSCORE → lower_char c = c.
Proof.
  intros [H | ->]; [| reflexivity]. revert H.
  destruct c as [[] [] [] [] [] [] [] []]; vm_compute; congruence.
Qed.

Lemma lower_alnum_not_space (c : ascii) :
  is_lower_alnum c = true ∨ c = UNDERSCORE → isspace c = false.
Proof.
  intros [H | ->]; [| reflexivity]. revert H.
  destruct c as [[] [] [] [] [] [] [] []]; vm_compute; congruence.
Qed.

Lemma part_of_Forall (P : ascii → Prop) (a b : str) :
  part_of a b → Forall P b → Forall P a.
Proof.
  intros (pre & post & ->) H.
  apply Forall_app in H as [_ H]. apply Forall_app in H as [H _]. exact H.
Qed.

(** [_normalize_header_cell] gives a key of lower case letters, digits and
    single underscores that neither begins nor ends with an underscore; a
    key is its own key; and a missing cell gives the empty key. *)
Theorem normalize_header_cell_key (cell : option str) :
  Forall (λ c, is_lower_alnum c = true ∨ c = UNDERSCORE)
    (_normalize_header_cell cell)
  ∧ head (_normalize_header_cell cell) ≠ Some UNDERSCORE
  ∧ last (_normalize_header_cell cell) ≠ Some UNDERSCORE
  ∧ (∀ pre post,
       _normalize_header_cell cell ≠ pre ++ [UNDERSCORE; UNDERSCORE] ++ post)
  ∧ _normalize_header_cell (Some (_normalize_header_cell cell))
    = _normalize_header_cell cell
  ∧ _normalize_header_cell None = [].
Proof.
  set (us := λ c : ascii, bool_decide (c = UNDERSCORE)).
  assert (Hnormal : ∀ r,
            Forall (λ c, is_lower_alnum c = true ∨ c = UNDERSCORE) r →
            head r ≠ Some UNDERSCORE → last r ≠ Some UNDERSCORE →
            no_adjacent us r →
            _normalize_header_cell (Some r) = r).
  { intros r Hall Hhead Hlast Hadj.
    assert (Hns : Forall (λ c, isspace c = false) r).
    { eapply Forall_impl; [exact Hall |]. apply lower_alnum_not_space. }
    assert (Hq : ∀ c, is_lower_alnum c = true ∨ c = UNDERSCORE →
                      negb (is_lower_alnum c) = true → c = UNDERSCORE).
    { intros c [H | H] Hn; [| exact H]. rewrite H in Hn. discriminate. }
    unfold _normalize_header_cell, strip.
    rewrite strip_chars_id.
    2:{ intros c Hc. apply head_Some_elem_of in Hc.
        eapply Forall_forall in Hns; eauto. }
    2:{ intros c Hc. apply last_Some_elem_of in Hc.
        eapply Forall_forall in Hns; eauto. }
    rewrite (sub_runs_none isspace SPACE r Hns).
    assert (Hl : lower r = r).
    { clear -Hall. unfold lower. induction Hall as [|c r Hc Hr IH];
        [reflexivity |]. simpl. rewrite IH, lower_alnum_fixed by exact Hc.
      reflexivity. }
    rewrite Hl.
    rewrite (sub_runs_id (λ c, negb (is_lower_alnum c)) UNDERSCORE r).
    - rewrite (sub_runs_id (λ c, bool_decide (c = UNDERSCORE)) UNDERSCORE r).
      + apply strip_chars_id; intros c Hc; apply bool_decide_eq_false;
          rewrite list_elem_of_singleton; congruence.
      + eapply Forall_impl; [exact Hall |]. intros c _ Hc.
        apply bool_decide_eq_true in Hc. exact Hc.
      + exact Hadj.
    - eapply Forall_impl; [exact Hall |]. exact Hq.
    - clear -Hall Hadj. induction r as [|a r IH]; [exact I |].
      inversion Hall as [|? ? Ha Hr]; subst. destruct Hadj as [Hpair Hadj].
      split; [| apply IH; assumption].
      destruct r as [|b r]; [exact I |]. intros [Hna Hnb]. apply Hpair.
      inversion Hr as [|? ? Hb _]; subst. unfold us.
      split; apply bool_decide_eq_true.
      + destruct Ha as [Ha | Ha]; [rewrite Ha in Hna; discriminate | exact Ha].
      + destruct Hb as [Hb | Hb]; [rewrite Hb in Hnb; discriminate | exact Hb]. }
  destruct cell as [cell|]; simpl.
  2:{ repeat split; try constructor; try discriminate.
      intros pre post H. destruct pre; discriminate. }
  set (s4 := sub_runs (λ c, negb (is_lower_alnum c)) UNDERSCORE false
               (lower (sub_runs isspace SPACE false (strip cell)))).
  set (s5 := sub_runs us UNDERSCORE false s4).
  assert (H4 : Forall (λ c, is_lower_alnum c = true ∨ c = UNDERSCORE) s4).
  { apply Forall_forall. intros c Hc.
    apply sub_runs_elem_of in Hc as [-> | [_ Hc]]; [right; reflexivity |].
    left. apply negb_false_iff. exact Hc. }
  assert (H5 : Forall (λ c, is_lower_alnum c = true ∨ c = UNDERSCORE) s5).
  { apply Forall_forall. intros c Hc.
    apply sub_runs_elem_of in Hc as [-> | [Hc _]]; [right; reflexivity |].
    eapply Forall_forall in H4; eauto. }
  assert (A5 : no_adjacent us s5) by apply sub_runs_no_adjacent.
  pose proof (strip_chars_part_of (λ c, bool_decide (c ∈ [UNDERSCORE])) s5)
    as Hpart.
  fold (strip_set [UNDERSCORE] s5) in Hpart.
  assert (Hall : Forall (λ c, is_lower_alnum c = true ∨ c = UNDERSCORE)
                   (strip_set [UNDERSCORE] s5)).
  { eapply part_of_Forall; eassumption. }
  assert (Hhead : head (strip_set [UNDERSCORE] s5) ≠ Some UNDERSCORE).
  { intros H. apply strip_chars_head in H.
    apply bool_decide_eq_false in H. apply H. left. }
  assert (Hlast : last (strip_set [UNDERSCORE] s5) ≠ Some UNDERSCORE).
  { intros H. apply strip_chars_last in H.
    apply bool_decide_eq_false in H. apply H. left. }
  assert (Hadj : no_adjacent us (strip_set [UNDERSCORE] s5)).
  { eapply no_adjacent_part_of; eassumption. }
  split; [exact Hall |]. split; [exact Hhead |]. split; [exact Hlast |].
  split.
  { intros pre post. apply (no_adjacent_no_pair us); [reflexivity | exact Hadj]. }
  split; [| reflexivity].
  apply Hnormal; assumption.
Qed.

(** ** [extract_company_from_address] *)

Lemma first_piece_prefix (s : str) : first_piece s `prefix_of` s.
Proof.
  induction s as [|c s IH]; [reflexivity |].
  cbn [first_piece]. destruct (_ || _); [apply prefix_nil |].
  apply prefix_cons. exact IH.
Qed.

Lemma first_piece_no_separator (s : str) (c : ascii) :
  c ∈ first_piece s → c ≠ COMMA ∧ c ≠ LF ∧ c ≠ CR.
Proof.
  induction s as [|a s IH]; [intros H; inversion H |].
  cbn [first_piece]. destruct (_ || _) eqn:E; [intros H; inversion H |].
  intros [-> | H]%elem_of_cons; [| exact (IH H)].
  apply orb_false_iff in E as [E Hcr]. apply orb_false_iff in E as [E Hlf].
  apply orb_false_iff in E as [_ Hcomma].
  apply bool_decide_eq_false in Hcr, Hlf, Hcomma. auto.
Qed.

Lemma one_or_more_suffix (p : ascii → bool) (s s' : str) :
  one_or_more p s = Some s' → s' `suffix_of` s.
Proof.
  destruct s as [|c s]; [discriminate |]. simpl.
  destruct (p c); [| discriminate]. intros [= <-].
  apply suffix_cons_r, lstrip_chars_suffix.
Qed.

Lemma optional_char_suffix (c : ascii) (s : str) :
  optional_char c s `suffix_of` s.
Proof.
  destruct s as [|x s]; [reflexivity |]. simpl.
  destruct (decide (x = c)); [apply suffix_cons_r |]; reflexivity.
Qed.

Lemma after_word_suffix (word : str) :
  ∀ s s', after_word word s = Some s' → s' `suffix_of` s.
Proof.
  induction word as [|k word IH]; intros s s'; simpl.
  - intros [= <-]. reflexivity.
  - destruct s as [|c s]; [discriminate |].
    destruct (decide (lower_char c = k)); [| discriminate].
    intros H. apply suffix_cons_r. exact (IH _ _ H).
Qed.

Lemma after_lead_tail_suffix (s s' : str) :
  after_lead_tail s = Some s' → s' `suffix_of` s.
Proof.
  unfold after_lead_tail. intros H.
  destruct (one_or_more isspace s) as [s1|] eqn:E1; [| discriminate].
  simpl in H.
  destruct (one_or_more isword s1) as [s2|] eqn:E2; [| discriminate].
  simpl in H. injection H as <-.
  etrans; [apply lstrip_chars_suffix |].
  etrans; [apply optional_char_suffix |].
  etrans; [apply optional_char_suffix |].
  etrans; [eapply one_or_more_suffix; exact E2 |].
  eapply one_or_more_suffix; exact E1.
Qed.

Lemma match_lead_suffix (words : list string) (s s' : str) :
  match_lead words s = Some s' → s' `suffix_of` s.
Proof.
  induction words as [|w words IH]; simpl; [discriminate |].
  destruct (after_word (lit w) s ≫= after_lead_tail) as [t|] eqn:E.
  - intros [= <-].
    destruct (after_word (lit w) s) as [u|] eqn:Eu; [| discriminate].
    simpl in E. etrans; [eapply after_lead_tail_suffix; exact E |].
    eapply after_word_suffix; exact Eu.
  - exact IH.
Qed.

Lemma strip_lead_suffix (s : str) : strip_lead s `suffix_of` s.
Proof.
  unfold strip_lead. destruct (match_lead lead_words s) as [t|] eqn:E.
  - eapply match_lead_suffix; exact E.
  - reflexivity.
Qed.

Lemma strip_number_suffix (s : str) : strip_number s `suffix_of` s.
Proof.
  unfold strip_number. destruct (one_or_more isdigit s) as [t|] eqn:E.
  - etrans; [apply lstrip_chars_suffix |].
    etrans; [apply lstrip_chars_suffix |].
    eapply one_or_more_suffix; exact E.
  - reflexivity.
Qed.

Lemma extract_company_part_of_piece (address : str) :
  part_of (extract_company_from_address address)
    (first_piece (strip address)).
Proof.
  unfold extract_company_from_address.
  destruct address as [|a address]; [exists [], []; reflexivity |].
  cbn [truthy negb]. cbv zeta.
  eapply part_of_trans; [apply strip_chars_part_of |].
  eapply part_of_trans; [apply prefix_part_of, prefix_take |].
  eapply part_of_trans; [apply strip_chars_part_of |].
  eapply part_of_trans; [apply suffix_part_of, strip_number_suffix |].
  eapply part_of_trans; [apply strip_chars_part_of |].
  apply suffix_part_of, strip_lead_suffix.
Qed.

(** The company name guessed from an address is a contiguous part of the
    address, at most 140 characters long, without white space in front or
    behind, and without a comma, a line feed or a carriage return; an
    empty address gives the empty name.  So the seed that phase 1 hands to
    the agent, the guess or else the first 140 characters of the address,
    has at most 140 characters and is empty only for an empty address. *)
Theorem extract_company_from_address_spec (address : str) :
  part_of (extract_company_from_address address) address
  ∧ length (extract_company_from_address address) ≤ 140
  ∧ strip (extract_company_from_address address)
    = extract_company_from_address address
  ∧ (COMMA ∉ extract_company_from_address address)
  ∧ (LF ∉ extract_company_from_address address)
  ∧ (CR ∉ extract_company_from_address address)
  ∧ extract_company_from_address [] = []
  ∧ length (str_or (extract_company_from_address address)
              (slice_to 140 address)) ≤ 140
  ∧ (address ≠ [] →
     str_or (extract_company_from_address address) (slice_to 140 address)
     ≠ []).
Proof.
  pose proof (extract_company_part_of_piece address) as Hpiece.
  assert (Hlen : length (extract_company_from_address address) ≤ 140).
  { unfold extract_company_from_address.
    destruct address as [|a address]; [simpl; lia |].
    cbn [truthy negb]. cbv zeta.
    etrans; [apply part_of_length, strip_chars_part_of |].
    unfold slice_to. rewrite length_take. lia. }
  assert (Hsep : ∀ c, c ∈ extract_company_from_address address →
                      c ≠ COMMA ∧ c ≠ LF ∧ c ≠ CR).
  { intros c Hc. apply (first_piece_no_separator (strip address)).
    eapply part_of_elem_of; eassumption. }
  split.
  { eapply part_of_trans; [exact Hpiece |].
    eapply part_of_trans; [apply prefix_part_of, first_piece_prefix |].
    apply strip_chars_part_of. }
  split; [exact Hlen |]. split.
  { unfold extract_company_from_address.
    destruct address as [|a address]; [reflexivity |].
    cbn [truthy negb]. cbv zeta. apply strip_chars_idemp. }
  split; [intros H; apply Hsep in H as (H & _ & _); congruence |].
  split; [intros H; apply Hsep in H as (_ & H & _); congruence |].
  split; [intros H; apply Hsep in H as (_ & _ & H); congruence |].
  split; [reflexivity |].
  unfold str_or.
  destruct (truthy (extract_company_from_address address)) eqn:E.
  - split; [exact Hlen |]. intros _. apply truthy_true. exact E.
  - unfold slice_to. split; [rewrite length_take; lia |].
    intros Hne. destruct address; [congruence | discriminate].
Qed.

(** ** [dedupe_keep_order] and [clean_phone] *)

Lemma dedupe_loop_skips_empty (items : list str) :
  ∀ seen out,
    dedupe_loop seen out items
    = dedupe_loop seen out (filter (λ x, x ≠ []) items).
Proof.
  induction items as [|x items IH]; intros seen out; [reflexivity |].
  destruct x as [|c x].
  - rewrite filter_cons_False by (intros H; apply H; reflexivity).
    simpl. apply IH.
  - rewrite filter_cons_True by discriminate. simpl.
    destruct (decide (c :: x ∉ seen)); apply IH.
Qed.

Lemma first_seen_from_sublist (l : list str) :
  ∀ earlier, first_seen_from earlier l `sublist_of` l.
Proof.
  induction l as [|x l IH]; intros earlier; simpl; [constructor |].
  destruct (decide (x ∈ earlier)); simpl.
  - apply sublist_cons. apply IH.
  - apply sublist_skip. apply IH.
Qed.

Lemma first_seen_from_id (l : list str) :
  ∀ earlier, NoDup l → (∀ x, x ∈ l → x ∉ earlier) →
             first_seen_from earlier l = l.
Proof.
  induction l as [|x l IH]; intros earlier Hnd Hnot; [reflexivity |].
  apply NoDup_cons in Hnd as [Hx Hnd]. simpl.
  rewrite decide_False by (apply Hnot; left).
  simpl. f_equal. apply IH; [exact Hnd |].
  intros y Hy [Hin | ->%list_elem_of_singleton]%elem_of_app.
  - apply (Hnot y); [right; exact Hy | exact Hin].
  - exact (Hx Hy).
Qed.

Lemma filter_Forall_id {A} (P : A → Prop) `{∀ x, Decision (P x)}
    (l : list A) :
  Forall P l → filter P l = l.
Proof.
  induction 1 as [|x l Hx Hl IH]; [reflexivity |].
  rewrite filter_cons_True by exact Hx. rewrite IH. reflexivity.
Qed.

(** [dedupe_keep_order] drops the empty strings and keeps every other
    string once, at its first occurrence: the result has no duplicate and
    no empty string, holds the same non-empty strings as the input in the
    order of the input, and is left as it is by a second pass. *)
Theorem dedupe_keep_order_spec (items : list str) :
  dedupe_keep_order items = first_seen (filter (λ x, x ≠ []) items)
  ∧ NoDup (dedupe_keep_order items)
  ∧ (∀ x, x ∈ dedupe_keep_order items ↔ x ∈ items ∧ x ≠ [])
  ∧ dedupe_keep_order items `sublist_of` items
  ∧ dedupe_keep_order (dedupe_keep_order items) = dedupe_keep_order items.
Proof.
  assert (Heq : ∀ l, dedupe_keep_order l
                     = first_seen (filter (λ x, x ≠ []) l)).
  { intros l. unfold dedupe_keep_order. rewrite dedupe_loop_skips_empty.
    apply (dedupe_keep_order_first_seen (filter (λ x, x ≠ []) l)).
    apply Forall_forall. intros x Hx. apply list_elem_of_filter in Hx as [H _].
    exact H. }
  assert (Hin : ∀ x, x ∈ dedupe_keep_order items ↔ x ∈ items ∧ x ≠ []).
  { intros x. rewrite Heq. unfold first_seen.
    rewrite elem_of_first_seen_from, list_elem_of_filter.
    split; [intros [[H1 H2] _]; auto |].
    intros [H1 H2]. split; [auto | intros H; inversion H]. }
  assert (Hnd : NoDup (dedupe_keep_order items)).
  { rewrite Heq. apply NoDup_first_seen_from. }
  split; [apply Heq |]. split; [exact Hnd |]. split; [exact Hin |].
  split.
  { rewrite Heq. etrans; [apply first_seen_from_sublist |].
    apply sublist_filter. }
  rewrite (Heq (dedupe_keep_order items)).
  rewrite filter_Forall_id.
  - apply first_seen_from_id; [exact Hnd | intros x _ H; inversion H].
  - apply Forall_forall. intros x Hx. apply Hin in Hx as [_ H]. exact H.
Qed.

(** [clean_phone] keeps the digits and the plus signs of a number, all of
    them and in their order, and nothing else; the strip in front changes
    nothing, and a cleaned number is left as it is. *)
Theorem clean_phone_spec (p : str) :
  clean_phone p = filter (λ c, keeps_phone_char c = true) p
  ∧ Forall (λ c, isdigit c = true ∨ c = "+"%char) (clean_phone p)
  ∧ clean_phone p `sublist_of` p
  ∧ digit_count (clean_phone p) = digit_count p
  ∧ clean_phone (clean_phone p) = clean_phone p.
Proof.
  rewrite !clean_phone_filter. split; [reflexivity |]. split.
  { apply Forall_forall. intros c [Hc _]%list_elem_of_filter.
    unfold keeps_phone_char in Hc. apply orb_true_iff in Hc as [Hc | Hc];
      [left; exact Hc | right; apply bool_decide_eq_true in Hc; exact Hc]. }
  split; [apply sublist_filter |]. split.
  { unfold digit_count. f_equal. rewrite list_filter_filter.
    apply list_filter_iff. intros c. unfold keeps_phone_char.
    split; [intros [H _]; exact H |]. intros H. split; [exact H |].
    rewrite H. reflexivity. }
  rewrite list_filter_filter. apply list_filter_iff. tauto.
Qed.

(** ** The columns of a header *)

Lemma index_of_first (name : str) (header : list str) :
  ∀ i j, index_of name header = Some i → j < i → header !! j ≠ Some name.
Proof.
  induction header as [|h rest IH]; intros i j; simpl; [discriminate |].
  destruct (decide (h = name)) as [-> | Hne].
  - intros [= <-]. lia.
  - destruct (index_of name rest) as [i'|] eqn:E; simpl; [| discriminate].
    intros [= <-] Hj. destruct j as [|j]; simpl.
    + congruence.
    + apply (IH i'); [reflexivity | lia].
Qed.

Lemma index_of_app_l (name : str) (header more : list str) (i : nat) :
  index_of name header = Some i → index_of name (header ++ more) = Some i.
Proof.
  revert i. induction header as [|h rest IH]; intros i; simpl; [discriminate |].
  destruct (decide (h = name)); [auto |].
  destruct (index_of name rest) as [i'|]; simpl; [| discriminate].
  intros [= <-]. rewrite (IH i' eq_refl). reflexivity.
Qed.

Lemma index_of_app_new (name : str) (header : list str) :
  name ∉ header → index_of name (header ++ [name]) = Some (length header).
Proof.
  induction header as [|h rest IH]; intros Hnot; simpl.
  - rewrite decide_True by reflexivity. reflexivity.
  - rewrite decide_False by (intros ->; apply Hnot; left).
    rewrite IH by (intros H; apply Hnot; right; exact H). reflexivity.
Qed.

Lemma index_of_prefix (name : str) (h h' : list str) (i : nat) :
  index_of name h = Some i → h `prefix_of` h' → index_of name h' = Some i.
Proof. intros Hi [k ->]. apply index_of_app_l. exact Hi. Qed.

Lemma elem_of_index_of (name : str) (header : list str) :
  name ∈ header → ∃ i, index_of name header = Some i.
Proof.
  intros H. destruct (index_of name header) as [i|] eqn:E; [eauto |].
  apply index_of_None in E. contradiction.
Qed.

(** [ensure_col_exact] returns the index of the first column that has
    exactly the name asked for.  A header that has the column is left as it
    is; otherwise the name is appended and nothing else changes; a second
    call returns the same index and changes nothing. *)
Theorem ensure_col_exact_first_column (header : list str) (name : str) :
  (ensure_col_exact header name).1 !! (ensure_col_exact header name).2
  = Some name
  ∧ (∀ j, j < (ensure_col_exact header name).2 →
          (ensure_col_exact header name).1 !! j ≠ Some name)
  ∧ header `prefix_of` (ensure_col_exact header name).1
  ∧ (name ∈ header → (ensure_col_exact header name).1 = header)
  ∧ (name ∉ header →
     ensure_col_exact header name = (header ++ [name], length header))
  ∧ ensure_col_exact (ensure_col_exact header name).1 name
    = ensure_col_exact header name.
Proof.
  unfold ensure_col_exact.
  destruct (index_of name header) as [i|] eqn:E; simpl.
  - split; [apply index_of_lookup; exact E |].
    split; [intros j; apply index_of_first; exact E |].
    split; [reflexivity |]. split; [reflexivity |].
    split; [intros H; apply index_of_None in H; congruence |].
    rewrite E. reflexivity.
  - apply index_of_None in E.
    pose proof (index_of_app_new name header E) as Hnew.
    split; [apply index_of_lookup; exact Hnew |].
    split; [intros j; apply index_of_first; exact Hnew |].
    split; [apply prefix_app_r; reflexivity |].
    split; [contradiction |]. split; [reflexivity |].
    rewrite Hnew. reflexivity.
Qed.

Lemma append_if_absent_spec (header : list str) (name : str) :
  (name ∈ header ∧ append_if_absent header name = header)
  ∨ ((name ∉ header) ∧ append_if_absent header name = header ++ [name]).
Proof.
  unfold append_if_absent. destruct (contains header name) eqn:E.
  - left. apply contains_elem_of in E. auto.
  - right. split; [| reflexivity]. intros H. apply contains_elem_of in H.
    congruence.
Qed.

Lemma append_if_absent_NoDup (header : list str) (name : str) :
  NoDup header → NoDup (append_if_absent header name).
Proof.
  intros H. destruct (append_if_absent_spec header name) as [[_ ->] | [Hn ->]];
    [exact H |].
  apply NoDup_app. split; [exact H |]. split; [| apply NoDup_singleton].
  intros x Hx ->%list_elem_of_singleton. contradiction.
Qed.

Lemma append_if_absent_from (header : list str) (name x : str) :
  x ∈ append_if_absent header name → x ∈ header ∨ x = name.
Proof.
  destruct (append_if_absent_spec header name) as [[_ ->] | [_ ->]]; [auto |].
  intros [H | ->%list_elem_of_singleton]%elem_of_app; auto.
Qed.

Lemma foldl_append_NoDup (ks : list nat) :
  ∀ header, NoDup header →
    NoDup (foldl (λ h k, append_if_absent h (phone_col k)) header ks).
Proof.
  induction ks as [|k ks IH]; intros header H; simpl; [exact H |].
  apply IH, append_if_absent_NoDup, H.
Qed.

Lemma foldl_append_from (ks : list nat) :
  ∀ header x,
    x ∈ foldl (λ h k, append_if_absent h (phone_col k)) header ks →
    x ∈ header ∨ ∃ k, k ∈ ks ∧ x = phone_col k.
Proof.
  induction ks as [|k ks IH]; intros header x; simpl; [auto |].
  intros H. destruct (IH _ _ H) as [Hx | (k' & Hk' & ->)].
  - apply append_if_absent_from in Hx as [Hx | ->]; [auto |].
    right. exists k. split; [left | reflexivity].
  - right. exists k'. split; [right; exact Hk' | reflexivity].
Qed.

(** [ensure_phone_cols] only appends: the header it is given stays in
    front, without a duplicate if it had none; what is appended is the
    base phone column and the numbered ones from 2 to [max_phones], each
    only if it is missing; and a second call changes nothing. *)
Theorem ensure_phone_cols_spec (header : list str) (max_phones : nat) :
  header `prefix_of` ensure_phone_cols header max_phones
  ∧ OUT_COL_PHONE ∈ ensure_phone_cols header max_phones
  ∧ (∀ n, 2 ≤ n ≤ max_phones →
          phone_col n ∈ ensure_phone_cols header max_phones)
  ∧ (∀ x, x ∈ ensure_phone_cols header max_phones →
          x ∈ header ∨ x = OUT_COL_PHONE
          ∨ ∃ n, 2 ≤ n ≤ max_phones ∧ x = phone_col n)
  ∧ (NoDup header → NoDup (ensure_phone_cols header max_phones))
  ∧ ensure_phone_cols (ensure_phone_cols header max_phones) max_phones
    = ensure_phone_cols header max_phones.
Proof.
  split; [apply ensure_phone_cols_prefix |].
  split; [apply ensure_phone_cols_has_base |].
  split; [intros n; apply ensure_phone_cols_has |].
  split.
  { unfold ensure_phone_cols. intros x.
    destruct (decide (1 < max_phones)).
    - intros [H | (k & Hk & ->)]%foldl_append_from.
      + apply append_if_absent_from in H as [H | ->]; auto.
      + apply elem_of_seq in Hk. right. right. exists k. split; [lia | reflexivity].
    - intros [H | ->]%append_if_absent_from; auto. }
  split.
  { unfold ensure_phone_cols. intros H.
    destruct (decide (1 < max_phones)).
    - apply foldl_append_NoDup, append_if_absent_NoDup, H.
    - apply append_if_absent_NoDup, H. }
  apply ensure_phone_cols_id.
  - apply ensure_phone_cols_has_base.
  - intros n. apply ensure_phone_cols_has.
Qed.

(** ** [fill_phone_cols] *)

Lemma lit_inj (a b : string) : lit a = lit b → a = b.
Proof.
  unfold lit. intros H.
  rewrite <- (string_of_list_ascii_of_string a),
          <- (string_of_list_ascii_of_string b), H.
  reflexivity.
Qed.

Lemma phone_col_inj (a b : nat) : phone_col a = phone_col b → a = b.
Proof.
  unfold phone_col, str_of_nat. intros H.
  apply app_inv_head, app_inv_head, lit_inj in H.
  apply (inj pretty). exact H.
Qed.

Lemma phone_col_not_base (n : nat) : phone_col n ≠ OUT_COL_PHONE.
Proof.
  unfold phone_col. intros H. apply (f_equal length) in H.
  rewrite !length_app in H. change (length (lit " ")) with 1 in H. lia.
Qed.

Lemma fill_phone_step_numbered base row header m k val :
  1 ≤ k →
  ∃ idx,
    index_of (phone_col (k + 1)) (append_if_absent header (phone_col (k + 1)))
    = Some idx
    ∧ fill_phone_step base (row, header, m) k val
      = Ok (<[idx := val]> (row ++ replicate (idx + 1 - length row) []),
            append_if_absent header (phone_col (k + 1)), m `max` (k + 1)).
Proof.
  intros Hk. destruct k as [|k]; [lia |].
  destruct (elem_of_index_of (phone_col (S k + 1))
              (append_if_absent header (phone_col (S k + 1))))
    as [idx Hidx]; [apply append_if_absent_elem_of |].
  exists idx. split; [exact Hidx |].
  cbn [fill_phone_step]. cbv zeta. unfold index. rewrite Hidx. simpl.
  destruct (decide (length row ≤ idx)) as [Hle | Hgt].
  - rewrite set_item_lt by (rewrite length_app, length_replicate; lia).
    reflexivity.
  - replace (idx + 1 - length row) with 0 by lia. simpl. rewrite app_nil_r.
    rewrite set_item_lt by lia. reflexivity.
Qed.

(** The rounds of [fill_phone_cols] for the numbers after the first. *)
Lemma fill_phone_loop_numbered base (nums : list str) :
  ∀ row header m k,
    1 ≤ k →
    ∃ row' header' m',
      fill_phone_loop base (row, header, m) k nums = Ok (row', header', m')
      ∧ header `prefix_of` header'
      ∧ length row ≤ length row'
      ∧ m' ≤ m `max` (k + length nums)
      ∧ (∀ x, x ∈ header' →
              x ∈ header ∨ ∃ j, j < length nums ∧ x = phone_col (k + j + 1))
      ∧ (∀ i c, row !! i = Some c →
                (∀ n, k < n → header' !! i ≠ Some (phone_col n)) →
                row' !! i = Some c)
      ∧ (∀ j v, nums !! j = Some v →
                ∃ idx, index_of (phone_col (k + j + 1)) header' = Some idx
                       ∧ row' !! idx = Some v).
Proof.
  induction nums as [|val rest IH]; intros row header m k Hk.
  - exists row, header, m. simpl. split; [reflexivity |].
    split; [reflexivity |]. split; [lia |]. split; [lia |].
    split; [auto |]. split; [auto |]. intros j v H. discriminate.
  - destruct (fill_phone_step_numbered base row header m k val Hk)
      as (idx & Hidx & Hstep).
    set (header1 := append_if_absent header (phone_col (k + 1))) in *.
    set (row1 := <[idx := val]> (row ++ replicate (idx + 1 - length row) [])) in *.
    destruct (IH row1 header1 (m `max` (k + 1)) (S k) ltac:(lia))
      as (row' & header' & m' & Hloop & Hpre & Hlen & Hm & Hfrom & Hkeep
          & Hput).
    exists row', header', m'.
    assert (Hidx' : index_of (phone_col (k + 1)) header' = Some idx).
    { eapply index_of_prefix; eassumption. }
    assert (Hlt : idx < length (row ++ replicate (idx + 1 - length row) [])).
    { rewrite length_app, length_replicate. lia. }
    assert (Hval : row' !! idx = Some val).
    { apply Hkeep.
      - unfold row1. apply list_lookup_insert_eq. exact Hlt.
      - intros n Hn H. apply index_of_lookup in Hidx'.
        rewrite Hidx' in H.
        assert (Heq : phone_col (k + 1) = phone_col n) by congruence.
        apply phone_col_inj in Heq. lia. }
    split; [cbn [fill_phone_loop]; rewrite Hstep; exact Hloop |].
    split; [etrans; [apply append_if_absent_prefix | exact Hpre] |].
    split.
    { etrans; [| exact Hlen]. unfold row1.
      rewrite length_insert, length_app. lia. }
    split; [simpl; lia |].
    split.
    { intros x Hx. destruct (Hfrom x Hx) as [H | (j & Hj & ->)].
      - apply append_if_absent_from in H as [H | ->]; [auto |].
        right. exists 0. split; [simpl; lia | f_equal; lia].
      - right. exists (S j). split; [simpl; lia | f_equal; lia]. }
    split.
    { intros i c Hi Hnot.
      assert (Hne : i ≠ idx).
      { intros ->. apply (Hnot (k + 1)); [lia |].
        apply index_of_lookup. exact Hidx'. }
      apply Hkeep.
      - unfold row1. rewrite list_lookup_insert_ne by congruence.
        apply lookup_app_l_Some. exact Hi.
      - intros n Hn. apply Hnot. lia. }
    intros j v Hj. destruct j as [|j]; simpl in Hj.
    + injection Hj as <-. exists idx.
      replace (k + 0 + 1) with (k + 1) by lia. auto.
    + destruct (Hput j v Hj) as (i & Hi & Hv). exists i.
      replace (k + S j + 1) with (S k + j + 1) by lia. auto.
Qed.

(** [fill_phone_cols] on a row, a header and the phone numbers of the row.
    Without the base phone column in the header it raises [ValueError],
    even for an empty list; with a number to write and a row that ends
    before the base phone column it raises [IndexError].  Otherwise it
    returns: the header only grows at its end, by numbered phone columns
    up to the length of the list; the row only grows; the base phone cell
    keeps its value if it has one and takes the first number if it has
    none; the number at place [k + 1] of the list, for [k] from 1 on, is
    in the row under the column [PHONE NUMBER k+1]; and every other cell
    of the row is as it was. *)
Theorem fill_phone_cols_spec (row header numbers : list str) :
  ((OUT_COL_PHONE ∉ header) →
   fill_phone_cols row header numbers = Raise ValueError)
  ∧ (∀ base, index_of OUT_COL_PHONE header = Some base →
       numbers ≠ [] → length row ≤ base →
       fill_phone_cols row header numbers = Raise IndexError)
  ∧ (∀ base, index_of OUT_COL_PHONE header = Some base →
       numbers = [] ∨ base < length row →
       ∃ row' header',
         fill_phone_cols row header numbers = Ok (row', header')
         ∧ header `prefix_of` header'
         ∧ (∀ x, x ∈ header' →
                 x ∈ header
                 ∨ ∃ n, 2 ≤ n ≤ length numbers ∧ x = phone_col n)
         ∧ length row ≤ length row'
         ∧ (∀ v cur, numbers !! 0 = Some v → row !! base = Some cur →
                     row' !! base = Some (str_or cur v))
         ∧ (∀ k v, 1 ≤ k → numbers !! k = Some v →
                   ∃ idx, index_of (phone_col (k + 1)) header' = Some idx
                          ∧ row' !! idx = Some v)
         ∧ (∀ i c, row !! i = Some c → i ≠ base →
                   (∀ n, 2 ≤ n → header' !! i ≠ Some (phone_col n)) →
                   row' !! i = Some c)).
Proof.
  split.
  { intros Hnot. apply index_of_None in Hnot.
    unfold fill_phone_cols, index. rewrite Hnot. reflexivity. }
  split.
  { intros base Hbase Hne Hlen. unfold fill_phone_cols, index.
    rewrite Hbase. simpl. destruct numbers as [|v rest]; [congruence |].
    simpl. unfold get_item. rewrite lookup_ge_None_2 by lia. reflexivity. }
  intros base Hbase Hcase.
  assert (Hin : OUT_COL_PHONE ∈ header).
  { apply list_elem_of_lookup. exists base. apply index_of_lookup, Hbase. }
  unfold fill_phone_cols, index. rewrite Hbase. simpl.
  destruct numbers as [|v rest].
  - simpl. exists row, header.
    rewrite ensure_phone_cols_id by (auto || (intros; lia)).
    split; [reflexivity |]. split; [reflexivity |]. split; [auto |].
    split; [lia |]. split; [discriminate |]. split; [discriminate | auto].
  - destruct Hcase as [? | Hlt]; [discriminate |].
    destruct (get_item_lt row base Hlt) as (cur & Hget & Hcur).
    cbn [fill_phone_loop fill_phone_step]. rewrite Hget. simpl.
    rewrite set_item_lt by exact Hlt. simpl.
    destruct (fill_phone_loop_numbered base rest
                (<[base := str_or cur v]> row) header 1 1 ltac:(lia))
      as (row' & header' & m' & Hloop & Hpre & Hlen & Hm & Hfrom & Hkeep
          & Hput).
    rewrite Hloop. simpl.
    assert (Hcols : ∀ n, 2 ≤ n ≤ S (length rest) → phone_col n ∈ header').
    { intros n Hn.
      destruct (lookup_lt_is_Some_2 rest (n - 2) ltac:(lia)) as [x Hx].
      destruct (Hput _ _ Hx) as (idx & Hidx & _).
      replace (1 + (n - 2) + 1) with n in Hidx by lia.
      apply list_elem_of_lookup. exists idx. apply index_of_lookup, Hidx. }
    assert (Hbase' : header' !! base = Some OUT_COL_PHONE).
    { eapply prefix_lookup_Some; [apply index_of_lookup, Hbase | exact Hpre]. }
    rewrite ensure_phone_cols_id.
    2:{ apply list_elem_of_lookup. eauto. }
    2:{ intros n Hn. apply Hcols. lia. }
    exists row', header'. split; [reflexivity |]. split; [exact Hpre |].
    split.
    { intros x Hx. destruct (Hfrom x Hx) as [H | (j & Hj & ->)]; [auto |].
      right. exists (1 + j + 1). split; [simpl; lia | reflexivity]. }
    split; [rewrite length_insert in Hlen; exact Hlen |].
    split.
    { intros v' cur' [= <-] Hcur'. rewrite Hcur in Hcur'.
      injection Hcur' as <-. apply Hkeep.
      - apply list_lookup_insert_eq. exact Hlt.
      - intros n Hn H. rewrite Hbase' in H.
        assert (Heq : phone_col n = OUT_COL_PHONE) by congruence.
        exact (phone_col_not_base n Heq). }
    split.
    { intros k x Hk Hx. destruct k as [|k]; [lia |]. simpl in Hx.
      destruct (Hput _ _ Hx) as (idx & Hidx & Hv). exists idx.
      replace (S k + 1) with (1 + k + 1) by lia. auto. }
    intros i c Hi Hne Hnot. apply Hkeep.
    + rewrite list_lookup_insert_ne by congruence. exact Hi.
    + intros n Hn. apply Hnot. lia.
Qed.

(** ** Sniffing and reading *)

Lemma read_file_files (path : str) (w : world) :
  files (read_file path w).2 = files w.
Proof.
  unfold read_file, next_fault, mbind, IO_bind, raise.
  destruct (faults w) as [|[] rest]; simpl; try reflexivity;
    destruct (files w !! path); reflexivity.
Qed.

Lemma read_file_missing (path : str) (w : world) :
  files w !! path = None → ∃ e, (read_file path w).1 = Raise e.
Proof.
  intros H. unfold read_file, next_fault, mbind, IO_bind, raise.
  destruct (faults w) as [|[] rest]; simpl; try rewrite H; eauto.
Qed.

Lemma IO_bind_files {A B} (m : IO A) (k : A → IO B) (w : world) :
  files (m w).2 = files w →
  (∀ a w1, files (k a w1).2 = files w1) →
  files ((m ≫= k) w).2 = files w.
Proof.
  intros Hm Hk. unfold mbind, IO_bind.
  destruct (m w) as [[a|e] w1]; simpl in *; [rewrite Hk |]; exact Hm.
Qed.

Lemma read_rows_files sniff has_header (path : str) (w : world) :
  files (read_rows sniff has_header path w).2 = files w.
Proof.
  unfold read_rows, sniff_dialect_and_header.
  apply IO_bind_files.
  - apply IO_bind_files; [apply read_file_files | reflexivity].
  - intros [d h] w1. apply IO_bind_files; [apply read_file_files |].
    intros text w2. apply IO_bind_files; [reflexivity |]. reflexivity.
Qed.

Lemma read_rows_missing sniff has_header (path : str) (w : world) :
  files w !! path = None →
  ∃ e, (read_rows sniff has_header path w).1 = Raise e.
Proof.
  intros H. unfold read_rows, sniff_dialect_and_header.
  destruct (read_file_missing path w H) as [e He].
  unfold mbind at 1, IO_bind at 1. unfold mbind at 1, IO_bind at 1.
  destruct (read_file path w) as [[text|e'] w1]; simpl in He;
    [discriminate |]. simpl. eauto.
Qed.

(** [sniff_dialect_and_header] on a file that can be read always returns,
    whatever [csv.Sniffer] does.  When the Sniffer finds a dialect and
    answers the header question, these are returned.  When either call
    raises, the dialect returned has the double quote as quote character,
    doubled quotes, skipped initial spaces and a line feed as terminator;
    its delimiter is the tab when the first line of the sample holds more
    tabs than commas, and the comma otherwise; and a header is reported
    exactly when that first line holds a letter of [A-Za-z]. *)
Theorem sniff_dialect_and_header_falls_back :
  ∀ (sniff : str → res Dialect) (has_header : str → res bool)
    (path text : str) (w : world),
    calm w →
    files w !! path = Some text →
    let sample := sample_text (N.to_nat 8192) text in
    ∃ d h,
      sniff_dialect_and_header sniff has_header path w = (Ok (d, h), w)
      ∧ (∀ d0 h0, sniff sample = Ok d0 → has_header sample = Ok h0 →
                  d = d0 ∧ h = h0)
      ∧ (is_ok (sniff sample) && is_ok (has_header sample) = false →
         quotechar d = DQUOTE ∧ doublequote d = true
         ∧ skipinitialspace d = true ∧ lineterminator d = [LF]
         ∧ (count_char COMMA (first_line sample)
            < count_char TAB (first_line sample) → delimiter d = TAB)
         ∧ (count_char TAB (first_line sample)
            ≤ count_char COMMA (first_line sample) → delimiter d = COMMA)
         ∧ h = existsb isalpha_ascii (first_line sample)).
Proof.
  intros sniff has_header path text w Hc Htext sample.
  exists (sniff_sample sniff has_header sample).1,
         (sniff_sample sniff has_header sample).2.
  split.
  { unfold sniff_dialect_and_header.
    erewrite IO_bind_Ok by (apply read_file_calm; eassumption).
    fold sample. destruct (sniff_sample sniff has_header sample).
    reflexivity. }
  unfold sniff_sample.
  destruct (sniff sample) as [d0|e]; simpl.
  - destruct (has_header sample) as [h0|e]; simpl.
    + split; [intros ? ? [= <-] [= <-]; auto | discriminate].
    + split; [discriminate |]. intros _. unfold fallback_dialect. simpl.
      repeat split; try reflexivity.
      * intros H. rewrite decide_False by lia. reflexivity.
      * intros H. rewrite decide_True by lia. reflexivity.
  - split; [discriminate |]. intros _. unfold fallback_dialect. simpl.
    repeat split; try reflexivity.
    + intros H. rewrite decide_False by lia. reflexivity.
    + intros H. rewrite decide_True by lia. reflexivity.
Qed.

(** ** [get_row_count] *)

Lemma get_row_count_eq sniff has_header (path : str) (w : world) :
  ApiServer.get_row_count sniff has_header path w
  = match read_rows sniff has_header path w with
    | (Ok rows, w1) => (Ok (length rows - 1), w1)
    | (Raise _, w1) => (Ok 0, w1)
    end.
Proof.
  unfold ApiServer.get_row_count, try_except, mbind, IO_bind.
  destruct (read_rows sniff has_header path w) as [[rows|e] w1]; reflexivity.
Qed.


(** ** utils_csv.py *)

Lemma system_call_calm (w : world) : calm w → system_call w = (Ok (), w).
Proof.
  intros Hc. unfold system_call.
  erewrite IO_bind_Ok by (apply next_fault_calm; exact Hc). reflexivity.
Qed.

Lemma system_call_files (w : world) : files (system_call w).2 = files w.
Proof.
  unfold system_call, next_fault, mbind, IO_bind, raise.
  destruct (faults w) as [|[] rest]; reflexivity.
Qed.

Lemma open_append_cases (path : str) (w : world) :
  ((open_append path w).1 = Raise OSError
   ∧ files (open_append path w).2 = files w)
  ∨ ((open_append path w).1 = Ok ()
     ∧ files (open_append path w).2
       = <[path := default [] (files w !! path)]> (files w)).
Proof.
  unfold open_append, next_fault, mbind, IO_bind, raise.
  destruct (faults w) as [|[] rest]; simpl; auto.
Qed.

(** The file at [path] after a call, given what it held before. *)
Lemma append_row_safe_calm path header row dialect (w : world) :
  calm w →
  ∃ w',
    UtilsCsv.append_row_safe path header row dialect w = (Ok (), w')
    ∧ calm w'
    ∧ files w'
      = <[path :=
            match files w !! path with
            | Some old =>
                old ++ writerow (UtilsCsv.delimiter_of dialect) DQUOTE [LF] row
            | None =>
                writerow (UtilsCsv.delimiter_of dialect) DQUOTE [LF] header
                ++ writerow (UtilsCsv.delimiter_of dialect) DQUOTE [LF] row
            end]> (files w).
Proof.
  intros Hc. unfold UtilsCsv.append_row_safe.
  erewrite IO_bind_Ok by reflexivity.
  erewrite IO_bind_Ok by (apply system_call_calm; exact Hc).
  unfold open_append.
  erewrite IO_bind_Ok.
  2:{ erewrite IO_bind_Ok by (apply next_fault_calm; exact Hc). reflexivity. }
  destruct (files w !! path) as [old|] eqn:E.
  - rewrite bool_decide_eq_true_2 by eauto.
    erewrite IO_bind_Ok by reflexivity.
    erewrite IO_bind_Ok by reflexivity.
    unfold try_except. rewrite system_call_calm by exact Hc.
    eexists. split; [reflexivity |]. split; [exact Hc |]. simpl.
    rewrite lookup_insert_eq. simpl. apply insert_insert_eq.
  - rewrite bool_decide_eq_false_2 by (intros [? ?]; discriminate).
    erewrite IO_bind_Ok by reflexivity.
    erewrite IO_bind_Ok by reflexivity.
    unfold try_except. rewrite system_call_calm by exact Hc.
    eexists. split; [reflexivity |]. split; [exact Hc |]. simpl.
    rewrite !lookup_insert_eq. simpl. rewrite !insert_insert_eq.
    reflexivity.
Qed.

(** [append_row_safe] extends a table by one row as [write_csv] would
    have written it.  When no system call fails, a call for the first row
    on a file that is missing, or a call for one more row on a file that
    holds the header and the rows so far, leaves the files that one
    [write_csv] of the table with the row added leaves.  So appending the
    rows of a table one by one gives the file of one [write_csv] of the
    whole table. *)
Theorem append_row_safe_as_write_csv :
  ∀ (path : str) (header : list str) (rows : list (list str))
    (row : list str) (dialect : option Dialect) (w : world),
    calm w →
    (rows = [] ∧ files w !! path = None)
    ∨ files w !! path
      = Some (writerows (UtilsCsv.delimiter_of dialect) DQUOTE [LF]
                (header :: rows)) →
    ∃ w1 w2,
      UtilsCsv.append_row_safe path header row dialect w = (Ok (), w1)
      ∧ UtilsCsv.write_csv path header (rows ++ [row]) dialect w
        = (Ok (), w2)
      ∧ files w1 = files w2
      ∧ files w1 !! path
        = Some (writerows (UtilsCsv.delimiter_of dialect) DQUOTE [LF]
                  (header :: rows ++ [row])).
Proof.
  intros path header rows row dialect w Hc Hfile.
  destruct (append_row_safe_calm path header row dialect w Hc)
    as (w1 & Hrun & _ & Hf1).
  assert (Hfiles : files w1
                   = <[path := writerows (UtilsCsv.delimiter_of dialect)
                                 DQUOTE [LF] (header :: rows ++ [row])]>
                       (files w)).
  { rewrite Hf1. f_equal. destruct Hfile as [[-> ->] | ->].
    - unfold writerows. simpl. rewrite app_nil_r. reflexivity.
    - unfold writerows. rewrite app_comm_cons, map_app, concat_app. simpl.
      rewrite app_nil_r. reflexivity. }
  exists w1. eexists. split; [exact Hrun |]. split.
  { unfold UtilsCsv.write_csv.
    erewrite IO_bind_Ok by (apply system_call_calm; exact Hc).
    unfold open_write.
    erewrite IO_bind_Ok.
    2:{ erewrite IO_bind_Ok by (apply next_fault_calm; exact Hc).
        reflexivity. }
    reflexivity. }
  split.
  { rewrite Hfiles. simpl. rewrite lookup_insert_eq, insert_insert_eq.
    reflexivity. }
  rewrite Hfiles. apply lookup_insert_eq.
Qed.

Lemma appends_to_refl (path : str) (w : world) : appends_to path w w.
Proof.
  split; [| reflexivity]. intros old H. exists []. rewrite app_nil_r. exact H.
Qed.

Lemma appends_to_same (path : str) (w w' : world) :
  files w' = files w → appends_to path w w'.
Proof.
  intros H. split; [| intros; rewrite H; reflexivity].
  intros old Hold. exists []. rewrite app_nil_r, H. exact Hold.
Qed.

Lemma appends_to_trans (path : str) (w1 w2 w3 : world) :
  appends_to path w1 w2 → appends_to path w2 w3 → appends_to path w1 w3.
Proof.
  intros [Ha1 Ho1] [Ha2 Ho2]. split.
  - intros old H. destruct (Ha1 old H) as [m1 H1].
    destruct (Ha2 _ H1) as [m2 H2]. exists (m1 ++ m2).
    rewrite app_assoc. exact H2.
  - intros other Hne. rewrite Ho2, Ho1 by exact Hne. reflexivity.
Qed.

Lemma IO_bind_appends {A B} (path : str) (m : IO A) (k : A → IO B)
    (w : world) :
  appends_to path w (m w).2 →
  (∀ a w1, appends_to path w1 (k a w1).2) →
  appends_to path w ((m ≫= k) w).2.
Proof.
  intros Hm Hk. unfold mbind, IO_bind.
  destruct (m w) as [[a|e] w1]; simpl in *; [| exact Hm].
  eapply appends_to_trans; [exact Hm | apply Hk].
Qed.

Lemma try_except_appends {A} (path : str) (body handler : IO A) (w : world) :
  appends_to path w (body w).2 →
  (∀ w1, appends_to path w1 (handler w1).2) →
  appends_to path w (try_except body handler w).2.
Proof.
  intros Hb Hh. unfold try_except.
  destruct (body w) as [[a|e] w1]; simpl in *; [exact Hb |].
  eapply appends_to_trans; [exact Hb | apply Hh].
Qed.

Lemma system_call_appends (path : str) (w : world) :
  appends_to path w (system_call w).2.
Proof. apply appends_to_same, system_call_files. Qed.

Lemma open_append_appends (path : str) (w : world) :
  appends_to path w (open_append path w).2.
Proof.
  destruct (open_append_cases path w) as [[_ Hf] | [_ Hf]].
  - apply appends_to_same. exact Hf.
  - unfold appends_to. rewrite Hf. split.
    + intros old H. exists []. rewrite lookup_insert_eq, H, app_nil_r.
      reflexivity.
    + intros other Hne. apply lookup_insert_ne. congruence.
Qed.

Lemma fwrite_appends (path text : str) (w : world) :
  appends_to path w (fwrite path text w).2.
Proof.
  unfold appends_to, fwrite. simpl. split.
  - intros old H. exists text. rewrite lookup_insert_eq, H. reflexivity.
  - intros other Hne. apply lookup_insert_ne. congruence.
Qed.

(** [append_row_safe] never shortens the file: whatever calls fail, what
    the file held stays in front, and no other file changes.  When no call
    fails, a file that was there, an empty one too, takes the row and no
    header, and a file that was missing takes the header and the row. *)
Theorem append_row_safe_appends :
  ∀ (path : str) (header row : list str) (dialect : option Dialect)
    (w : world),
    (∀ old, files w !! path = Some old →
       ∃ more,
         files (UtilsCsv.append_row_safe path header row dialect w).2 !! path
         = Some (old ++ more))
    ∧ (∀ other, other ≠ path →
         files (UtilsCsv.append_row_safe path header row dialect w).2 !! other
         = files w !! other)
    ∧ (calm w →
       (UtilsCsv.append_row_safe path header row dialect w).1 = Ok ()
       ∧ files (UtilsCsv.append_row_safe path header row dialect w).2 !! path
         = Some
             match files w !! path with
             | Some old =>
                 old ++ writerow (UtilsCsv.delimiter_of dialect) DQUOTE [LF]
                          row
             | None =>
                 writerow (UtilsCsv.delimiter_of dialect) DQUOTE [LF] header
                 ++ writerow (UtilsCsv.delimiter_of dialect) DQUOTE [LF] row
             end).
Proof.
  intros path header row dialect w.
  assert (Happ : appends_to path w
                   (UtilsCsv.append_row_safe path header row dialect w).2).
  { unfold UtilsCsv.append_row_safe.
    apply IO_bind_appends; [apply appends_to_refl |]. intros present w1.
    apply IO_bind_appends; [apply system_call_appends |]. intros _ w2.
    apply IO_bind_appends; [apply open_append_appends |]. intros _ w3.
    apply IO_bind_appends.
    { destruct present; [apply appends_to_refl | apply fwrite_appends]. }
    intros _ w4.
    apply IO_bind_appends; [apply fwrite_appends |]. intros _ w5.
    apply try_except_appends; [apply system_call_appends |].
    intros w6. apply appends_to_refl. }
  destruct Happ as [Hold Hother].
  split; [exact Hold |]. split; [exact Hother |].
  intros Hc.
  destruct (append_row_safe_calm path header row dialect w Hc)
    as (w' & Hrun & _ & Hf).
  rewrite Hrun. simpl. split; [reflexivity |].
  rewrite Hf. apply lookup_insert_eq.
Qed.

(** ** What a phase writes *)

Section Frames.
Variable R : world → world → Prop.
Hypothesis R_refl : ∀ w, R w w.
Hypothesis R_trans : ∀ w1 w2 w3, R w1 w2 → R w2 w3 → R w1 w3.

Lemma IO_bind_keeps {A B} (m : IO A) (k : A → IO B) (w : world) :
  R w (m w).2 → (∀ a w1, R w1 (k a w1).2) → R w ((m ≫= k) w).2.
Proof using R_trans.
  intros Hm Hk. unfold mbind, IO_bind.
  destruct (m w) as [[a|e] w1]; simpl in *; [| exact Hm].
  eapply R_trans; [exact Hm | apply Hk].
Qed.

Lemma try_except_keeps {A} (body handler : IO A) (w : world) :
  R w (body w).2 → (∀ w1, R w1 (handler w1).2) →
  R w (try_except body handler w).2.
Proof using R_trans.
  intros Hb Hh. unfold try_except.
  destruct (body w) as [[a|e] w1]; simpl in *; [exact Hb |].
  eapply R_trans; [exact Hb | apply Hh].
Qed.

Lemma same_files_keeps (w w' : world) :
  (∀ w1 w2, files w2 = files w1 → R w1 w2) → files w' = files w → R w w'.
Proof using Type. auto. Qed.
End Frames.

Section PhaseWrites.
Variables output partial checkpoint : str.

Local Abbreviation PW := (phase_writes output partial checkpoint).

Lemma phase_writes_same (w w' : world) : files w' = files w → PW w w'.
Proof.
  intros H. split; [intros; rewrite H; reflexivity |].
  intros _ _ old Hold. exists []. rewrite app_nil_r, H. exact Hold.
Qed.

Lemma phase_writes_refl (w : world) : PW w w.
Proof. apply phase_writes_same. reflexivity. Qed.

Lemma phase_writes_trans (w1 w2 w3 : world) : PW w1 w2 → PW w2 w3 → PW w1 w3.
Proof.
  intros [Ho1 Ha1] [Ho2 Ha2]. split.
  - intros p H1 H2 H3. rewrite Ho2, Ho1 by assumption. reflexivity.
  - intros H1 H2 old Hold. destruct (Ha1 H1 H2 old Hold) as [m1 Hm1].
    destruct (Ha2 H1 H2 _ Hm1) as [m2 Hm2]. exists (m1 ++ m2).
    rewrite app_assoc. exact Hm2.
Qed.

Lemma phase_writes_insert (path text : str) (w w' : world) :
  path = output ∨ path = partial →
  files w' = <[path := text]> (files w) → PW w w'.
Proof.
  intros Hp Hf. split.
  - intros p H1 H2 H3. rewrite Hf. apply lookup_insert_ne.
    destruct Hp; congruence.
  - intros H1 H2 old Hold. exists []. rewrite app_nil_r, Hf.
    rewrite lookup_insert_ne by (destruct Hp; congruence). exact Hold.
Qed.

Lemma write_rows_writes (path : str) dialect header rows (w : world) :
  path = output ∨ path = partial →
  PW w (write_rows path dialect header rows w).2.
Proof.
  intros Hp. destruct (write_rows_files path dialect header rows w)
    as [[_ Hf] | [_ Hf]].
  - eapply phase_writes_insert; eassumption.
  - apply phase_writes_same. exact Hf.
Qed.

Lemma appends_to_writes (w w' : world) :
  appends_to checkpoint w w' → PW w w'.
Proof.
  intros [Ha Ho]. split.
  - intros p _ _ H. apply Ho. exact H.
  - intros _ _. exact Ha.
Qed.
End PhaseWrites.

Lemma lift_files {A} (r : res A) (w : world) : files (lift r w).2 = files w.
Proof. reflexivity. Qed.

Lemma checkpoint_appends json_dumps (path : str) (record : json) (w : world) :
  appends_to path w
    (try_except
       (_ ← open_append path;
        line ← lift (json_dumps record);
        fwrite path (line ++ [LF]))
       (mret ()) w).2.
Proof.
  apply try_except_appends; [| intros; apply appends_to_refl].
  apply IO_bind_appends; [apply open_append_appends |]. intros _ w1.
  apply IO_bind_appends; [apply appends_to_refl |]. intros line w2.
  apply fwrite_appends.
Qed.

Section Phase1Writes.
Variable sniff : str → res Dialect.
Variable has_header : str → res bool.
Variable json_dumps : json → res str.
Variable extract : str → str.
Variable agent : nat → nat → res (option CompanyInfo).
Variable rand : nat → nat → Q.
Variable cfg : Phase1.Config.

Local Abbreviation PW1 :=
  (phase_writes (Phase1.OUTPUT_CSV cfg) (Phase1.PARTIAL_CSV cfg)
     (Phase1.CHECKPOINT_JSONL cfg)).

Local Abbreviation bind_keeps :=
  (IO_bind_keeps PW1
     (phase_writes_trans (Phase1.OUTPUT_CSV cfg) (Phase1.PARTIAL_CSV cfg)
        (Phase1.CHECKPOINT_JSONL cfg))).

Local Abbreviation try_keeps :=
  (try_except_keeps PW1
     (phase_writes_trans (Phase1.OUTPUT_CSV cfg) (Phase1.PARTIAL_CSV cfg)
        (Phase1.CHECKPOINT_JSONL cfg))).

Lemma phase1_write_checkpoint_writes record w :
  PW1 w (Phase1.write_checkpoint json_dumps cfg record w).2.
Proof. apply appends_to_writes, checkpoint_appends. Qed.

Lemma phase1_autosave_writes dialect output_header processed_rows phone_lists
    i w :
  PW1 w (Phase1.autosave cfg dialect output_header processed_rows phone_lists
           i w).2.
Proof.
  unfold Phase1.autosave. destruct (_ && _); [| apply phase_writes_refl].
  apply try_keeps; [| intros; apply phase_writes_refl].
  unfold Phase1._write_partial_snapshot.
  apply bind_keeps; [apply phase_writes_refl |]. intros [rows header] w1.
  apply write_rows_writes. right. reflexivity.
Qed.

Lemma phase1_process_row_writes dialect cols output_header acc i row w :
  PW1 w (Phase1.process_row json_dumps extract agent rand cfg dialect cols
           output_header acc i row w).2.
Proof.
  unfold Phase1.process_row. destruct acc as [processed_rows phone_lists].
  apply bind_keeps; [apply phase_writes_refl |].
  intros [[[[[skipped address] postcode] inferred] row'] nums] w1.
  destruct skipped.
  - apply bind_keeps; [apply phase1_write_checkpoint_writes |]. intros _ w2.
    apply bind_keeps; [apply phase1_autosave_writes |]. intros _ w3.
    apply phase_writes_refl.
  - apply bind_keeps.
    { apply try_keeps; [| intros; apply phase_writes_refl].
      apply bind_keeps; [apply phase_writes_refl |]. intros record w2.
      apply phase1_write_checkpoint_writes. }
    intros _ w2.
    apply bind_keeps; [apply phase1_autosave_writes |]. intros _ w3.
    apply phase_writes_refl.
Qed.

Lemma phase1_rows_loop_writes dialect cols output_header data_rows :
  ∀ acc i w,
    PW1 w (Phase1.rows_loop json_dumps extract agent rand cfg dialect cols
             output_header acc i data_rows w).2.
Proof.
  induction data_rows as [|row rest IH]; intros acc i w;
    [apply phase_writes_refl |].
  cbn [Phase1.rows_loop].
  apply bind_keeps; [apply phase1_process_row_writes |].
  intros acc' w1. apply IH.
Qed.

Lemma phase1_finish_writes dialect output_header processed_rows phone_lists w :
  PW1 w (Phase1.finish cfg dialect output_header processed_rows phone_lists
           w).2.
Proof.
  unfold Phase1.finish.
  apply bind_keeps; [apply phase_writes_refl |]. intros [rows header] w1.
  apply write_rows_writes. left. reflexivity.
Qed.

Lemma phase1_main_writes w :
  PW1 w (Phase1.main sniff has_header json_dumps extract agent rand cfg w).2.
Proof.
  unfold Phase1.main.
  destruct (negb (truthy_opt (Phase1.GOOGLE_API_KEY cfg)));
    [apply phase_writes_refl |].
  apply bind_keeps; [apply phase_writes_refl |]. intros present w1.
  destruct (negb present); [apply phase_writes_refl |].
  apply bind_keeps; [apply phase_writes_same, read_rows_files |].
  intros rows w2. destruct rows as [|header data_rows];
    [apply phase_writes_refl |].
  apply bind_keeps.
  { apply phase_writes_same. unfold sniff_dialect_and_header.
    apply IO_bind_files; [apply read_file_files | reflexivity]. }
  intros [dialect has] w3. destruct (negb has); [apply phase_writes_refl |].
  destruct (Phase1.build_output_header header) as [output_header cols].
  apply bind_keeps; [apply phase1_rows_loop_writes |].
  intros [processed_rows phone_lists] w4. apply phase1_finish_writes.
Qed.
End Phase1Writes.

Section Phase2Writes.
Variable sniff : str → res Dialect.
Variable has_header : str → res bool.
Variable json_dumps : json → res str.
Variable json_loads : str → res json.
Variable float_of_str : str → res Q.
Variable agent : nat → nat → res Phase2.History.
Variable rand : nat → nat → Q.
Variable cfg : Phase2.Config.

Local Abbreviation PW2 :=
  (phase_writes (Phase2.OUTPUT_CSV cfg) (Phase2.PARTIAL_CSV cfg)
     (Phase2.CHECKPOINT_JSONL cfg)).

Local Abbreviation bind_keeps :=
  (IO_bind_keeps PW2
     (phase_writes_trans (Phase2.OUTPUT_CSV cfg) (Phase2.PARTIAL_CSV cfg)
        (Phase2.CHECKPOINT_JSONL cfg))).

Local Abbreviation try_keeps :=
  (try_except_keeps PW2
     (phase_writes_trans (Phase2.OUTPUT_CSV cfg) (Phase2.PARTIAL_CSV cfg)
        (Phase2.CHECKPOINT_JSONL cfg))).

Lemma phase2_write_checkpoint_writes record w :
  PW2 w (Phase2.write_checkpoint json_dumps cfg record w).2.
Proof. apply appends_to_writes, checkpoint_appends. Qed.

Lemma phase2_autosave_writes dialect output_header processed_rows i w :
  PW2 w (Phase2.autosave cfg dialect output_header processed_rows i w).2.
Proof.
  unfold Phase2.autosave. destruct (_ && _); [| apply phase_writes_refl].
  unfold Phase2.write_partial_snapshot.
  apply try_keeps; [| intros; apply phase_writes_refl].
  apply write_rows_writes. right. reflexivity.
Qed.

Lemma phase2_process_row_writes dialect cols output_header processed_rows
    i row w :
  PW2 w (Phase2.process_row json_dumps json_loads float_of_str agent rand cfg
           dialect cols output_header processed_rows i row w).2.
Proof.
  unfold Phase2.process_row.
  apply bind_keeps; [apply phase_writes_refl |].
  intros [[[[skipped company] govuk] contacts] row'] w1.
  destruct skipped.
  - apply bind_keeps; [apply phase2_write_checkpoint_writes |]. intros _ w2.
    apply bind_keeps; [apply phase2_autosave_writes |]. intros _ w3.
    apply phase_writes_refl.
  - apply bind_keeps.
    { apply try_keeps; [| intros; apply phase_writes_refl].
      apply phase2_write_checkpoint_writes. }
    intros _ w2.
    apply bind_keeps; [apply phase2_autosave_writes |]. intros _ w3.
    apply phase_writes_refl.
Qed.

Lemma phase2_rows_loop_writes dialect cols output_header data_rows :
  ∀ processed_rows i w,
    PW2 w (Phase2.rows_loop json_dumps json_loads float_of_str agent rand cfg
             dialect cols output_header processed_rows i data_rows w).2.
Proof.
  induction data_rows as [|row rest IH]; intros processed_rows i w;
    [apply phase_writes_refl |].
  cbn [Phase2.rows_loop].
  apply bind_keeps; [apply phase2_process_row_writes |].
  intros acc' w1. apply IH.
Qed.

Lemma phase2_main_writes w :
  PW2 w (Phase2.main sniff has_header json_dumps json_loads float_of_str
           agent rand cfg w).2.
Proof.
  unfold Phase2.main.
  destruct (negb (truthy_opt (Phase2.GOOGLE_API_KEY cfg)));
    [apply phase_writes_refl |].
  apply bind_keeps; [apply phase_writes_refl |]. intros present w1.
  destruct (negb present); [apply phase_writes_refl |].
  apply bind_keeps; [apply phase_writes_same, read_rows_files |].
  intros rows w2. destruct rows as [|header data_rows];
    [apply phase_writes_refl |].
  apply bind_keeps.
  { apply phase_writes_same. unfold sniff_dialect_and_header.
    apply IO_bind_files; [apply read_file_files | reflexivity]. }
  intros [dialect has] w3. destruct (negb has); [apply phase_writes_refl |].
  destruct (Phase2.build_output_header cfg header) as [output_header cols].
  apply bind_keeps; [apply phase2_rows_loop_writes |].
  intros processed_rows w4. unfold Phase2.finish.
  apply bind_keeps; [apply write_rows_writes; left; reflexivity |].
  intros _ w5.
  apply try_keeps; [| intros; apply phase_writes_refl].
  apply write_rows_writes. right. reflexivity.
Qed.
End Phase2Writes.

(** Whatever the agent answers and whichever file operations fail, a run
    of phase 1 or of phase 2 changes no file other than its output file,
    its partial file and its checkpoint log: the input file is among the
    files left alone when it is none of the three.  The checkpoint log,
    when it is neither the output nor the partial file, is only ever
    appended to. *)
Theorem phases_write_their_files_only :
  (∀ sniff has_header json_dumps extract agent rand cfg w,
     let w' := (Phase1.main sniff has_header json_dumps extract agent rand
                  cfg w).2 in
     (∀ p, p ≠ Phase1.OUTPUT_CSV cfg → p ≠ Phase1.PARTIAL_CSV cfg →
           p ≠ Phase1.CHECKPOINT_JSONL cfg →
           files w' !! p = files w !! p)
     ∧ (Phase1.CHECKPOINT_JSONL cfg ≠ Phase1.OUTPUT_CSV cfg →
        Phase1.CHECKPOINT_JSONL cfg ≠ Phase1.PARTIAL_CSV cfg →
        ∀ old, files w !! Phase1.CHECKPOINT_JSONL cfg = Some old →
               ∃ more, files w' !! Phase1.CHECKPOINT_JSONL cfg
                       = Some (old ++ more)))
  ∧ (∀ sniff has_header json_dumps json_loads float_of_str agent rand cfg w,
       let w' := (Phase2.main sniff has_header json_dumps json_loads
                    float_of_str agent rand cfg w).2 in
       (∀ p, p ≠ Phase2.OUTPUT_CSV cfg → p ≠ Phase2.PARTIAL_CSV cfg →
             p ≠ Phase2.CHECKPOINT_JSONL cfg →
             files w' !! p = files w !! p)
       ∧ (Phase2.CHECKPOINT_JSONL cfg ≠ Phase2.OUTPUT_CSV cfg →
          Phase2.CHECKPOINT_JSONL cfg ≠ Phase2.PARTIAL_CSV cfg →
          ∀ old, files w !! Phase2.CHECKPOINT_JSONL cfg = Some old →
                 ∃ more, files w' !! Phase2.CHECKPOINT_JSONL cfg
                         = Some (old ++ more))).
Proof.
  split.
  - intros. apply phase1_main_writes.
  - intros. apply phase2_main_writes.
Qed.

(** ** What stops a phase before its first row *)

Lemma sniff_dialect_and_header_calm sniff has_header path text w :
  calm w → files w !! path = Some text →
  sniff_dialect_and_header sniff has_header path w
  = (Ok (sniff_sample sniff has_header (sample_text (N.to_nat 8192) text)), w).
Proof.
  intros Hc Ht. unfold sniff_dialect_and_header.
  erewrite IO_bind_Ok by (apply read_file_calm; eassumption). reflexivity.
Qed.

Lemma read_rows_raises sniff has_header path text e w :
  calm w → files w !! path = Some text →
  csv_reader (detected sniff has_header text) text = Raise e →
  read_rows sniff has_header path w = (Raise e, w).
Proof.
  intros Hc Ht He. unfold read_rows.
  erewrite IO_bind_Ok by (apply sniff_dialect_and_header_calm; eassumption).
  unfold detected in He.
  destruct (sniff_sample sniff has_header (sample_text (N.to_nat 8192) text))
    as [d h].
  erewrite IO_bind_Ok by (apply read_file_calm; eassumption).
  simpl in He. unfold lift, mbind, IO_bind. rewrite He. reflexivity.
Qed.

(** Phase 1 and phase 2 stop before their first row in the same four ways,
    and leave every file as it was.  Without an API key they raise
    [RuntimeError], before the input is looked at; with a key and no input
    file they raise [FileNotFoundError]; with an input in which every row
    is blank, an empty file included, they return at once and write no
    output; and with an input for which no header is reported they raise
    [ValueError].  The last two are stated for a run in which no [open]
    fails. *)
Theorem phases_stop_before_the_rows :
  (∀ sniff has_header json_dumps extract agent rand cfg w,
     let main := Phase1.main sniff has_header json_dumps extract agent rand
                   cfg in
     (truthy_opt (Phase1.GOOGLE_API_KEY cfg) = false →
      main w = (Raise RuntimeError, w))
     ∧ (truthy_opt (Phase1.GOOGLE_API_KEY cfg) = true →
        files w !! Phase1.INPUT_CSV cfg = None →
        main w = (Raise FileNotFoundError, w))
     ∧ (∀ text rows,
          truthy_opt (Phase1.GOOGLE_API_KEY cfg) = true → calm w →
          files w !! Phase1.INPUT_CSV cfg = Some text →
          csv_reader (detected sniff has_header text) text = Ok rows →
          (filter (λ row, keep_row row = true) rows = [] →
           main w = (Ok (), w))
          ∧ (filter (λ row, keep_row row = true) rows ≠ [] →
             (sniff_sample sniff has_header
                (sample_text (N.to_nat 8192) text)).2 = false →
             main w = (Raise ValueError, w))))
  ∧ (∀ sniff has_header json_dumps json_loads float_of_str agent rand cfg w,
       let main := Phase2.main sniff has_header json_dumps json_loads
                     float_of_str agent rand cfg in
       (truthy_opt (Phase2.GOOGLE_API_KEY cfg) = false →
        main w = (Raise RuntimeError, w))
       ∧ (truthy_opt (Phase2.GOOGLE_API_KEY cfg) = true →
          files w !! Phase2.INPUT_CSV cfg = None →
          main w = (Raise FileNotFoundError, w))
       ∧ (∀ text rows,
            truthy_opt (Phase2.GOOGLE_API_KEY cfg) = true → calm w →
            files w !! Phase2.INPUT_CSV cfg = Some text →
            csv_reader (detected sniff has_header text) text = Ok rows →
            (filter (λ row, keep_row row = true) rows = [] →
             main w = (Ok (), w))
            ∧ (filter (λ row, keep_row row = true) rows ≠ [] →
               (sniff_sample sniff has_header
                  (sample_text (N.to_nat 8192) text)).2 = false →
               main w = (Raise ValueError, w)))).
Proof.
  split.
  - intros sniff has_header json_dumps extract agent rand cfg w main.
    unfold main, Phase1.main. split; [intros ->; reflexivity |].
    split.
    { intros -> Hnone. cbn [negb].
      erewrite IO_bind_Ok by reflexivity. rewrite Hnone.
      rewrite bool_decide_eq_false_2 by (intros [? ?]; discriminate).
      reflexivity. }
    intros text rows -> Hc Htext Hread. cbn [negb].
    erewrite IO_bind_Ok by reflexivity. rewrite Htext.
    rewrite bool_decide_eq_true_2 by eauto. cbn [negb].
    erewrite IO_bind_Ok by (eapply read_rows_calm; eassumption).
    split.
    + intros ->. reflexivity.
    + intros Hne Hno.
      destruct (filter _ rows) as [|header data_rows]; [congruence |].
      erewrite IO_bind_Ok
        by (apply sniff_dialect_and_header_calm; eassumption).
      destruct (sniff_sample _ _ _) as [d h]. simpl in Hno. subst h.
      reflexivity.
  - intros sniff has_header json_dumps json_loads float_of_str agent rand cfg
      w main.
    unfold main, Phase2.main. split; [intros ->; reflexivity |].
    split.
    { intros -> Hnone. cbn [negb].
      erewrite IO_bind_Ok by reflexivity. rewrite Hnone.
      rewrite bool_decide_eq_false_2 by (intros [? ?]; discriminate).
      reflexivity. }
    intros text rows -> Hc Htext Hread. cbn [negb].
    erewrite IO_bind_Ok by reflexivity. rewrite Htext.
    rewrite bool_decide_eq_true_2 by eauto. cbn [negb].
    erewrite IO_bind_Ok by (eapply read_rows_calm; eassumption).
    split.
    + intros ->. reflexivity.
    + intros Hne Hno.
      destruct (filter _ rows) as [|header data_rows]; [congruence |].
      erewrite IO_bind_Ok
        by (apply sniff_dialect_and_header_calm; eassumption).
      destruct (sniff_sample _ _ _) as [d h]. simpl in Hno. subst h.
      reflexivity.
Qed.

(** ** The outcome of the retry loop *)

Lemma calls_app (a b : list event) : calls (a ++ b) = calls a + calls b.
Proof.
  induction a as [|[k|d] a IH]; simpl; [reflexivity | |]; rewrite IH; lia.
Qed.

Lemma sleeps_app (a b : list event) : sleeps (a ++ b) = sleeps a ++ sleeps b.
Proof.
  induction a as [|[k|d] a IH]; simpl; [reflexivity | |]; rewrite IH;
    reflexivity.
Qed.

Section RetryOutcome.
Context {T : Type}.
Variable cfg : RetryConfig.
Variable run : nat → res T.
Variable failed : T.
Variable success : T → bool.
Variable draw : nat → Q.

Local Abbreviation outcome := (outcome run failed).
Local Abbreviation retry_from := (retry_from cfg run failed success draw).

Lemma retry_from_failed_prefix (l1 l2 : list nat) :
  ∀ st,
    Forall (λ j, success (outcome j) = false) l1 →
    ∃ st',
      retry_from (l1 ++ l2) st = retry_from l2 st'
      ∧ calls (trace st') = calls (trace st) + length l1
      ∧ length (sleeps (trace st')) = length (sleeps (trace st)) + length l1
      ∧ (∀ k, last l1 = Some k →
              result st' = outcome k ∧ attempt st' = Some k)
      ∧ (l1 = [] → st' = st).
Proof.
  induction l1 as [|j l1 IH]; intros st Hall.
  - exists st. simpl. repeat split; try lia; discriminate.
  - inversion Hall as [|? ? Hj Hrest]; subst.
    rewrite <- app_comm_cons, retry_from_failed by exact Hj.
    edestruct IH as (st' & Hrun & Hc & Hs & Hlast & Hnil); [exact Hrest |].
    exists st'. split; [exact Hrun |].
    simpl in Hc, Hs.
    rewrite !calls_app in Hc. rewrite !sleeps_app, !length_app in Hs.
    simpl in Hc, Hs.
    split; [simpl; lia |]. split; [simpl; lia |]. split; [| discriminate].
    intros k Hk. destruct l1 as [|j' l1].
    + injection Hk as <-. rewrite (Hnil eq_refl). simpl. auto.
    + apply Hlast. exact Hk.
Qed.

Lemma retry_from_result (attempts : list nat) :
  ∀ st,
    (∀ k, attempt st = Some k → result st = outcome k) →
    ∀ k, attempt (retry_from attempts st) = Some k →
         result (retry_from attempts st) = outcome k.
Proof.
  induction attempts as [|j attempts IH]; intros st Hst; [exact Hst |].
  destruct (success (outcome j)) eqn:E.
  - rewrite retry_from_success by exact E. simpl. intros k [= <-]. reflexivity.
  - rewrite retry_from_failed by exact E. apply IH. simpl.
    intros k [= <-]. reflexivity.
Qed.
End RetryOutcome.

(** What the retry loop of a row hands on is the result of the last
    attempt it made, successful or not.  With a first success at attempt
    [k] the loop makes [k] calls and [k - 1] sleeps and ends on that call;
    when every attempt fails, the result of attempt [ROW_RETRIES] is what
    remains; with [ROW_RETRIES] at 0 or below there is no attempt at all.
    Phase 2 raises [ROW_RETRIES] to 1 at least, so its loop always begins
    with a call. *)
Theorem retry_loop_outcome {T} (cfg : RetryConfig) (run : nat → res T)
    (failed : T) (success : T → bool) (draw : nat → Q) :
  (∀ k, attempt (retry_loop cfg run failed success draw) = Some k →
        result (retry_loop cfg run failed success draw)
        = outcome run failed k)
  ∧ (∀ k, 1 ≤ k → (Z.of_nat k <= ROW_RETRIES cfg)%Z →
          success (outcome run failed k) = true →
          (∀ j, 1 ≤ j < k → success (outcome run failed j) = false) →
          result (retry_loop cfg run failed success draw)
          = outcome run failed k
          ∧ attempt (retry_loop cfg run failed success draw) = Some k
          ∧ calls (trace (retry_loop cfg run failed success draw)) = k
          ∧ length (sleeps (trace (retry_loop cfg run failed success draw)))
            = k - 1
          ∧ last (trace (retry_loop cfg run failed success draw))
            = Some (Call k))
  ∧ ((1 <= ROW_RETRIES cfg)%Z →
     (∀ j, success (outcome run failed j) = false) →
     result (retry_loop cfg run failed success draw)
     = outcome run failed (Z.to_nat (ROW_RETRIES cfg))
     ∧ attempt (retry_loop cfg run failed success draw)
       = Some (Z.to_nat (ROW_RETRIES cfg)))
  ∧ ((ROW_RETRIES cfg <= 0)%Z →
     retry_loop cfg run failed success draw
     = {| result := failed; attempt := None;
          sleep_s := RETRY_START_SLEEP cfg; trace := [] |})
  ∧ (∀ json_loads agent rand cfg2 i,
       head (trace (Phase2.attempts json_loads agent rand cfg2 i))
       = Some (Call 1)).
Proof.
  split.
  { unfold retry_loop. apply retry_from_result. discriminate. }
  split.
  { intros k Hk HR Hs Hbefore. unfold retry_loop.
    replace (seq 1 (Z.to_nat (ROW_RETRIES cfg)))
      with (seq 1 (k - 1) ++ k :: seq (S k) (Z.to_nat (ROW_RETRIES cfg) - k)).
    2:{ replace (Z.to_nat (ROW_RETRIES cfg))
          with ((k - 1) + (1 + (Z.to_nat (ROW_RETRIES cfg) - k))) at 2 by lia.
        rewrite seq_app. simpl. repeat f_equal; lia. }
    edestruct (retry_from_failed_prefix cfg run failed success draw
                 (seq 1 (k - 1)))
      as (st' & Hrun & Hc & Hsl & _ & _).
    { apply Forall_forall. intros j Hj. apply elem_of_seq in Hj.
      apply Hbefore. lia. }
    rewrite Hrun, retry_from_success by exact Hs. simpl.
    rewrite calls_app, sleeps_app, length_app, Hc, Hsl, length_seq. simpl.
    rewrite last_snoc.
    split; [reflexivity |]. split; [reflexivity |]. split; [lia |].
    split; [lia | reflexivity]. }
  split.
  { intros HR Hall. unfold retry_loop.
    edestruct (retry_from_failed_prefix cfg run failed success draw
                 (seq 1 (Z.to_nat (ROW_RETRIES cfg))) [])
      as (st' & Hrun & _ & _ & Hlast & _).
    { apply Forall_forall. intros j _. apply Hall. }
    rewrite app_nil_r in Hrun. rewrite Hrun. simpl. apply Hlast.
    replace (Z.to_nat (ROW_RETRIES cfg))
      with (S (Z.to_nat (ROW_RETRIES cfg) - 1)) at 1 by lia.
    rewrite seq_S, last_snoc. f_equal. lia. }
  split.
  { intros HR. unfold retry_loop.
    replace (Z.to_nat (ROW_RETRIES cfg)) with 0 by lia. reflexivity. }
  intros json_loads agent rand cfg2 i.
  unfold Phase2.attempts, retry_loop.
  assert (HR : ∃ n, Z.to_nat (ROW_RETRIES (Phase2.retry cfg2)) = S n).
  { exists (Z.to_nat (ROW_RETRIES (Phase2.retry cfg2)) - 1).
    unfold Phase2.retry. simpl. lia. }
  destruct HR as [n ->]. cbn [seq].
  edestruct (retry_from_rounds (Phase2.retry cfg2)
               (Phase2.attempt_call json_loads agent cfg2 i) []
               (λ contacts, bool_decide (contacts ≠ [])) (rand i)
               (1 :: seq 2 n))
    as (tr & Htr & Hr).
  rewrite Htr. simpl. inversion Hr; reflexivity.
Qed.

(** ** The output headers *)

Lemma ensure_col_exact_index (header : list str) (name : str) h i :
  ensure_col_exact header name = (h, i) →
  header `prefix_of` h ∧ index_of name h = Some i
  ∧ (NoDup header → NoDup h)
  ∧ (∀ x, x ∈ h → x ∈ header ∨ x = name).
Proof.
  unfold ensure_col_exact. destruct (index_of name header) as [j|] eqn:E.
  - intros [= <- <-]. split; [reflexivity |]. split; [exact E |]. auto.
  - intros [= <- <-]. apply index_of_None in E.
    split; [apply prefix_app_r; reflexivity |].
    split; [apply index_of_app_new; exact E |]. split.
    + intros H. apply NoDup_app. split; [exact H |].
      split; [| apply NoDup_singleton].
      intros x Hx ->%list_elem_of_singleton. contradiction.
    + intros x [H | ->%list_elem_of_singleton]%elem_of_app; auto.
Qed.

Lemma ensure_col_exact_stable (name : str) (h h' : list str) (i : nat) :
  index_of name h = Some i → h `prefix_of` h' →
  ensure_col_exact h' name = (h', i).
Proof.
  intros Hi Hp. unfold ensure_col_exact.
  rewrite (index_of_prefix name h h' i Hi Hp). reflexivity.
Qed.

Ltac ensure_cols :=
  repeat match goal with
  | |- context [ensure_col_exact ?h ?n] =>
      let E := fresh "E" in
      let h' := fresh "h" in
      let i := fresh "i" in
      destruct (ensure_col_exact h n) as [h' i] eqn:E;
      apply ensure_col_exact_index in E as (? & ? & ? & ?)
  end.

Ltac prefix_chain :=
  repeat match goal with
  | |- ?a `prefix_of` ?a => reflexivity
  | H : ?a `prefix_of` ?b |- ?a `prefix_of` ?c => etrans; [exact H |]
  end.

Lemma phase1_build_output_header_again (header : list str) :
  Phase1.build_output_header (Phase1.build_output_header header).1
  = Phase1.build_output_header header.
Proof.
  unfold Phase1.build_output_header at 2 3. ensure_cols. simpl.
  unfold Phase1.build_output_header.
  repeat match goal with
  | H : index_of ?n ?h = Some ?i |- context [ensure_col_exact ?h' ?n] =>
      rewrite (ensure_col_exact_stable n h h' i H) by prefix_chain
  end.
  reflexivity.
Qed.

Lemma phase1_build_output_header_grows (header : list str) :
  header `prefix_of` (Phase1.build_output_header header).1
  ∧ (NoDup header → NoDup (Phase1.build_output_header header).1)
  ∧ (∀ x, x ∈ (Phase1.build_output_header header).1 →
          x ∈ header
          ∨ x ∈ [OUT_COL_ADDRESS; OUT_COL_POSTCODE; OUT_COL_COMPANY_NAME;
                 OUT_COL_WEBSITE; OUT_COL_EMAIL; OUT_COL_PHONE;
                 OUT_COL_GOVUK_URL; OUT_COL_SOURCE_URL; OUT_COL_CONFIDENCE;
                 OUT_COL_NOTES]).
Proof.
  unfold Phase1.build_output_header. ensure_cols. simpl.
  split; [prefix_chain |]. split; [auto 20 |].
  intros x Hx.
  repeat match goal with
  | H : ∀ x, x ∈ ?h → _, Hx : ?x ∈ ?h |- _ =>
      let Hx' := fresh "Hx" in
      let Heq := fresh "Heq" in
      destruct (H _ Hx) as [Hx' | Heq];
        [clear Hx | right; rewrite Heq; apply list_elem_of_In; simpl; tauto]
  end.
  left. assumption.
Qed.

(** The columns of the contact slot [k] in a header. *)
Lemma ensure_contact_cols_step_spec header idx k h idx' :
  Phase2.ensure_contact_cols_step (header, idx) k = (h, idx') →
  header `prefix_of` h
  ∧ (NoDup header → NoDup h)
  ∧ ∃ cc,
      idx' = <[k := cc]> idx
      ∧ index_of (Phase2.slot_col OUT_COL_CONTACT_NAME k) h
        = Some (Phase2.name cc)
      ∧ index_of (Phase2.slot_col OUT_COL_CONTACT_TITLE k) h
        = Some (Phase2.title cc)
      ∧ index_of (Phase2.slot_col OUT_COL_CONTACT_LINKEDIN k) h
        = Some (Phase2.linkedin cc)
      ∧ index_of (Phase2.slot_col OUT_COL_CONTACT_EMAIL k) h
        = Some (Phase2.email cc).
Proof.
  unfold Phase2.ensure_contact_cols_step. ensure_cols.
  intros [= <- <-]. split; [prefix_chain |]. split; [auto |].
  eexists. split; [reflexivity |]. simpl.
  repeat split;
    (eapply index_of_prefix; [eassumption | prefix_chain]).
Qed.

Lemma ensure_contact_cols_step_stable header idx k h idx' h' idx0 :
  Phase2.ensure_contact_cols_step (header, idx) k = (h, idx') →
  h `prefix_of` h' →
  ∃ cc, idx' = <[k := cc]> idx
        ∧ Phase2.ensure_contact_cols_step (h', idx0) k
          = (h', <[k := cc]> idx0).
Proof.
  intros Hstep Hp.
  apply ensure_contact_cols_step_spec in Hstep
    as (_ & _ & cc & -> & Hn & Ht & Hl & He).
  exists cc. split; [reflexivity |].
  unfold Phase2.ensure_contact_cols_step.
  rewrite (ensure_col_exact_stable _ h h' _ Hn Hp).
  rewrite (ensure_col_exact_stable _ h h' _ Ht Hp).
  rewrite (ensure_col_exact_stable _ h h' _ Hl Hp).
  rewrite (ensure_col_exact_stable _ h h' _ He Hp).
  destruct cc; reflexivity.
Qed.

Lemma ensure_contact_cols_fold (ks : list nat) :
  ∀ header idx h idx',
    foldl Phase2.ensure_contact_cols_step (header, idx) ks = (h, idx') →
    header `prefix_of` h
    ∧ (NoDup header → NoDup h)
    ∧ (∀ k, k ∉ ks → idx' !! k = idx !! k)
    ∧ (∀ k, k ∈ ks →
         ∃ cc,
           idx' !! k = Some cc
           ∧ index_of (Phase2.slot_col OUT_COL_CONTACT_NAME k) h
             = Some (Phase2.name cc)
           ∧ index_of (Phase2.slot_col OUT_COL_CONTACT_TITLE k) h
             = Some (Phase2.title cc)
           ∧ index_of (Phase2.slot_col OUT_COL_CONTACT_LINKEDIN k) h
             = Some (Phase2.linkedin cc)
           ∧ index_of (Phase2.slot_col OUT_COL_CONTACT_EMAIL k) h
             = Some (Phase2.email cc))
    ∧ (∀ h', h `prefix_of` h' →
         foldl Phase2.ensure_contact_cols_step (h', idx) ks = (h', idx')).
Proof.
  induction ks as [|k ks IH]; intros header idx h idx' H; cbn [foldl] in H.
  - injection H as <- <-. split; [reflexivity |]. split; [auto |].
    split; [auto |]. split; [intros k Hk; inversion Hk | reflexivity].
  - destruct (Phase2.ensure_contact_cols_step (header, idx) k)
      as [h1 idx1] eqn:E.
    destruct (IH _ _ _ _ H) as (Hp & Hnd & Hout & Hin & Hst).
    pose proof (ensure_contact_cols_step_spec _ _ _ _ _ E)
      as (Hp1 & Hnd1 & cc & -> & Hn & Ht & Hl & He).
    split; [etrans; eassumption |]. split; [auto |]. split.
    { intros k' Hk'. rewrite Hout by (intros ?; apply Hk'; right; assumption).
      apply lookup_insert_ne. intros ->. apply Hk'. left. }
    split.
    { intros k' Hk'. destruct (decide (k' ∈ ks)) as [Hks | Hks];
        [apply Hin; exact Hks |].
      apply elem_of_cons in Hk' as [-> | Hk']; [| contradiction].
      exists cc. rewrite (Hout _ Hks), lookup_insert_eq.
      split; [reflexivity |].
      repeat split; (eapply index_of_prefix; [eassumption | exact Hp]). }
    intros h' Hp'. cbn [foldl].
    destruct (ensure_contact_cols_step_stable _ _ _ _ _ h' idx E)
      as (cc' & Heq & ->); [etrans; eassumption |].
    assert (cc' = cc) as ->.
    { apply (f_equal (λ m, m !! k)) in Heq.
      rewrite !lookup_insert_eq in Heq. congruence. }
    apply Hst. exact Hp'.
Qed.

Lemma phase2_build_output_header_again cfg (header : list str) :
  Phase2.build_output_header cfg (Phase2.build_output_header cfg header).1
  = Phase2.build_output_header cfg header.
Proof.
  unfold Phase2.build_output_header at 2 3. ensure_cols.
  match goal with
  | |- context [Phase2.ensure_contact_cols ?hh ?t] =>
      destruct (Phase2.ensure_contact_cols hh t) as [hc cc] eqn:Ec
  end.
  simpl. unfold Phase2.ensure_contact_cols in Ec.
  apply ensure_contact_cols_fold in Ec as (Hp & _ & _ & _ & Hst).
  unfold Phase2.build_output_header.
  repeat match goal with
  | H : index_of ?n ?h0 = Some ?i |- context [ensure_col_exact ?h' ?n] =>
      rewrite (ensure_col_exact_stable n h0 h' i H)
        by (prefix_chain; exact Hp)
  end.
  unfold Phase2.ensure_contact_cols. rewrite (Hst hc) by reflexivity.
  reflexivity.
Qed.

Lemma phase2_build_output_header_cols cfg (header : list str) :
  header `prefix_of` (Phase2.build_output_header cfg header).1
  ∧ (NoDup header → NoDup (Phase2.build_output_header cfg header).1)
  ∧ index_of OUT_COL_COMPANY_NAME (Phase2.build_output_header cfg header).1
    = Some (Phase2.idx_name (Phase2.build_output_header cfg header).2)
  ∧ index_of OUT_COL_GOVUK_URL (Phase2.build_output_header cfg header).1
    = Some (Phase2.idx_govuk (Phase2.build_output_header cfg header).2)
  ∧ index_of OUT_COL_SOURCE_URL (Phase2.build_output_header cfg header).1
    = Some (Phase2.idx_src (Phase2.build_output_header cfg header).2)
  ∧ index_of OUT_COL_CONFIDENCE (Phase2.build_output_header cfg header).1
    = Some (Phase2.idx_conf (Phase2.build_output_header cfg header).2)
  ∧ index_of OUT_COL_NOTES (Phase2.build_output_header cfg header).1
    = Some (Phase2.idx_notes (Phase2.build_output_header cfg header).2)
  ∧ (∀ k, 1 ≤ k → (Z.of_nat k <= Phase2.TARGET_CONTACTS cfg)%Z →
       ∃ cc,
         Phase2.contact_cols (Phase2.build_output_header cfg header).2 !! k
         = Some cc
         ∧ index_of (Phase2.slot_col OUT_COL_CONTACT_NAME k)
             (Phase2.build_output_header cfg header).1
           = Some (Phase2.name cc)
         ∧ index_of (Phase2.slot_col OUT_COL_CONTACT_TITLE k)
             (Phase2.build_output_header cfg header).1
           = Some (Phase2.title cc)
         ∧ index_of (Phase2.slot_col OUT_COL_CONTACT_LINKEDIN k)
             (Phase2.build_output_header cfg header).1
           = Some (Phase2.linkedin cc)
         ∧ index_of (Phase2.slot_col OUT_COL_CONTACT_EMAIL k)
             (Phase2.build_output_header cfg header).1
           = Some (Phase2.email cc)).
Proof.
  unfold Phase2.build_output_header. ensure_cols.
  match goal with
  | |- context [Phase2.ensure_contact_cols ?hh ?t] =>
      destruct (Phase2.ensure_contact_cols hh t) as [hc cc] eqn:Ec
  end.
  simpl. unfold Phase2.ensure_contact_cols in Ec.
  apply ensure_contact_cols_fold in Ec as (Hp & Hnd & _ & Hin & _).
  split; [prefix_chain; exact Hp |]. split; [auto 10 |].
  repeat (split; [eapply index_of_prefix;
                    [eassumption | prefix_chain; exact Hp] |]).
  intros k Hk1 Hk2. apply Hin. apply elem_of_seq. lia.
Qed.

(** Both phases build their output header from the input header by
    appending the columns that are missing: the input header stays in
    front, a header without duplicates stays so, and every index a phase
    keeps is the place of the first column with exactly that name; for
    phase 2 this holds for the four columns of every contact slot from 1
    to [TARGET_CONTACTS] too.  A header built once is left as it is, with
    the same indices, when it is built again: a second run over an output
    file adds no column. *)
Theorem output_headers_only_grow :
  (∀ header,
     header `prefix_of` (Phase1.build_output_header header).1
     ∧ (NoDup header → NoDup (Phase1.build_output_header header).1)
     ∧ (∀ x, x ∈ (Phase1.build_output_header header).1 →
             x ∈ header
             ∨ x ∈ [OUT_COL_ADDRESS; OUT_COL_POSTCODE; OUT_COL_COMPANY_NAME;
                    OUT_COL_WEBSITE; OUT_COL_EMAIL; OUT_COL_PHONE;
                    OUT_COL_GOVUK_URL; OUT_COL_SOURCE_URL;
                    OUT_COL_CONFIDENCE; OUT_COL_NOTES])
     ∧ columns_ok header (Phase1.build_output_header header).1
         (Phase1.build_output_header header).2
     ∧ Phase1.build_output_header (Phase1.build_output_header header).1
       = Phase1.build_output_header header)
  ∧ (∀ cfg header,
       header `prefix_of` (Phase2.build_output_header cfg header).1
       ∧ (NoDup header → NoDup (Phase2.build_output_header cfg header).1)
       ∧ index_of OUT_COL_COMPANY_NAME
           (Phase2.build_output_header cfg header).1
         = Some (Phase2.idx_name (Phase2.build_output_header cfg header).2)
       ∧ index_of OUT_COL_GOVUK_URL (Phase2.build_output_header cfg header).1
         = Some (Phase2.idx_govuk (Phase2.build_output_header cfg header).2)
       ∧ index_of OUT_COL_SOURCE_URL (Phase2.build_output_header cfg header).1
         = Some (Phase2.idx_src (Phase2.build_output_header cfg header).2)
       ∧ index_of OUT_COL_CONFIDENCE (Phase2.build_output_header cfg header).1
         = Some (Phase2.idx_conf (Phase2.build_output_header cfg header).2)
       ∧ index_of OUT_COL_NOTES (Phase2.build_output_header cfg header).1
         = Some (Phase2.idx_notes (Phase2.build_output_header cfg header).2)
       ∧ (∀ k, 1 ≤ k → (Z.of_nat k <= Phase2.TARGET_CONTACTS cfg)%Z →
            ∃ cc,
              Phase2.contact_cols (Phase2.build_output_header cfg header).2
                !! k = Some cc
              ∧ index_of (Phase2.slot_col OUT_COL_CONTACT_NAME k)
                  (Phase2.build_output_header cfg header).1
                = Some (Phase2.name cc)
              ∧ index_of (Phase2.slot_col OUT_COL_CONTACT_TITLE k)
                  (Phase2.build_output_header cfg header).1
                = Some (Phase2.title cc)
              ∧ index_of (Phase2.slot_col OUT_COL_CONTACT_LINKEDIN k)
                  (Phase2.build_output_header cfg header).1
                = Some (Phase2.linkedin cc)
              ∧ index_of (Phase2.slot_col OUT_COL_CONTACT_EMAIL k)
                  (Phase2.build_output_header cfg header).1
                = Some (Phase2.email cc))
       ∧ Phase2.build_output_header cfg
           (Phase2.build_output_header cfg header).1
         = Phase2.build_output_header cfg header).
Proof.
  split.
  - intros header.
    destruct (phase1_build_output_header_grows header) as (H1 & H2 & H3).
    split; [exact H1 |]. split; [exact H2 |]. split; [exact H3 |].
    split; [apply build_output_header_ok |].
    apply phase1_build_output_header_again.
  - intros cfg header.
    destruct (phase2_build_output_header_cols cfg header)
      as (H1 & H2 & H3 & H4 & H5 & H6 & H7 & H8).
    repeat (split; [assumption |]).
    apply phase2_build_output_header_again.
Qed.

(** ** Rows that are passed over *)

Lemma cell_stripped_blank (row : list str) (i : nat) :
  (∀ c, row !! i = Some c → strip c = []) →
  Phase1.cell_stripped row i = Ok [].
Proof.
  intros H. unfold Phase1.cell_stripped.
  destruct (decide (i < length row)) as [Hlt | Hge]; [| reflexivity].
  destruct (get_item_lt row i Hlt) as (c & -> & Hc). simpl.
  rewrite (H c Hc). reflexivity.
Qed.

Lemma phase1_enrich_row_blank extract agent rand cfg cols output_header i row :
  (∀ c, pad_to (length output_header) row !! Phase1.idx_address cols = Some c →
        strip c = []) →
  (∀ c, pad_to (length output_header) row !! Phase1.idx_pc cols = Some c →
        strip c = []) →
  Phase1.enrich_row extract agent rand cfg cols output_header i row
  = Ok (true, [], [], [], pad_to (length output_header) row, []).
Proof.
  intros Ha Hp. unfold Phase1.enrich_row. cbv zeta.
  rewrite (cell_stripped_blank _ _ Ha). simpl.
  rewrite (cell_stripped_blank _ _ Hp). reflexivity.
Qed.

Lemma pad_to_lookup_new (n : nat) (row : list str) (i : nat) (c : str) :
  length row ≤ i → pad_to n row !! i = Some c → c = [].
Proof.
  intros Hi. unfold pad_to. rewrite lookup_app_r by exact Hi.
  intros H. apply lookup_replicate in H as [-> _]. reflexivity.
Qed.

Lemma ensure_col_exact_absent (header : list str) (name : str) :
  name ∉ header → ensure_col_exact header name = (header ++ [name], length header).
Proof.
  intros H. unfold ensure_col_exact.
  rewrite (proj2 (index_of_None name header) H). reflexivity.
Qed.

Lemma phase1_columns_without_names (header : list str) :
  OUT_COL_ADDRESS ∉ header → OUT_COL_POSTCODE ∉ header →
  Phase1.idx_address (Phase1.build_output_header header).2 = length header
  ∧ Phase1.idx_pc (Phase1.build_output_header header).2 = S (length header).
Proof.
  intros Ha Hp. unfold Phase1.build_output_header.
  rewrite (ensure_col_exact_absent header OUT_COL_ADDRESS Ha).
  rewrite (ensure_col_exact_absent (header ++ [OUT_COL_ADDRESS])
             OUT_COL_POSTCODE).
  2:{ intros [H | H%list_elem_of_singleton]%elem_of_app;
        [contradiction | discriminate]. }
  repeat match goal with
  | |- context [ensure_col_exact ?h ?n] => destruct (ensure_col_exact h n)
  end.
  simpl. rewrite length_app. simpl. split; [reflexivity | lia].
Qed.

(** A row without an address and without a postcode is passed over by
    phase 1, and a row without a company name by phase 2: the row goes to
    the output as it is, padded with empty cells up to the header, and the
    agent is not asked.  The columns are found by their exact names: when
    the input header has neither a column [ADDRESS] nor a column
    [POSTCODE], in these capitals, phase 1 appends both, empty, and passes
    over every row that is not longer than the header. *)
Theorem rows_without_key_are_passed_over :
  (∀ extract agent rand cfg cols output_header i row,
     (∀ c, pad_to (length output_header) row !! Phase1.idx_address cols
           = Some c → strip c = []) →
     (∀ c, pad_to (length output_header) row !! Phase1.idx_pc cols
           = Some c → strip c = []) →
     Phase1.enrich_row extract agent rand cfg cols output_header i row
     = Ok (true, [], [], [], pad_to (length output_header) row, []))
  ∧ (∀ extract agent rand cfg header i row,
       OUT_COL_ADDRESS ∉ header → OUT_COL_POSTCODE ∉ header →
       length row ≤ length header →
       Phase1.enrich_row extract agent rand cfg
         (Phase1.build_output_header header).2
         (Phase1.build_output_header header).1 i row
       = Ok (true, [], [], [],
             pad_to (length (Phase1.build_output_header header).1) row, []))
  ∧ (∀ json_loads float_of_str agent rand cfg cols output_header i row name,
       pad_to (length output_header) row !! Phase2.idx_name cols = Some name →
       strip name = [] →
       Phase2.idx_govuk cols < length (pad_to (length output_header) row) →
       ∃ govuk_url,
         Phase2.enrich_row json_loads float_of_str agent rand cfg cols
           output_header i row
         = Ok (true, [], govuk_url, [], pad_to (length output_header) row)).
Proof.
  split; [intros; apply phase1_enrich_row_blank; assumption |].
  split.
  - intros extract agent rand cfg header i row Ha Hp Hlen.
    destruct (phase1_columns_without_names header Ha Hp) as [Eia Eip].
    apply phase1_enrich_row_blank; intros c Hc.
    + rewrite Eia in Hc. apply pad_to_lookup_new in Hc; [| exact Hlen].
      rewrite Hc. reflexivity.
    + rewrite Eip in Hc. apply pad_to_lookup_new in Hc; [| lia].
      rewrite Hc. reflexivity.
  - intros json_loads float_of_str agent rand cfg cols output_header i row
      name Hname Hblank Hgov.
    unfold Phase2.enrich_row. cbv zeta.
    apply get_item_Ok in Hname. rewrite Hname. simpl.
    destruct (get_item_lt _ _ Hgov) as (g & -> & _). simpl.
    assert (Hn : strip (str_or name []) = []).
    { unfold str_or. destruct (truthy name); [exact Hblank | reflexivity]. }
    rewrite Hn. simpl. eexists. reflexivity.
Qed.

(** ** [run_for_company] *)

Lemma str_or_nil (a : str) : str_or a [] = a.
Proof. unfold str_or. destruct a; reflexivity. Qed.

Lemma parse_items_kept (items : list json) :
  ∀ acc contacts,
    Phase2.parse_items items acc = Ok contacts →
    ∃ new, contacts = acc ++ new
           ∧ Forall2 parsed_from (filter (λ x, is_named x = true) items) new.
Proof.
  induction items as [|x rest IH]; intros acc contacts H.
  - simpl in H. injection H as <-. exists []. rewrite app_nil_r.
    split; [reflexivity | constructor].
  - assert (Hskip : is_named x = false →
                    Phase2.parse_items rest acc = Ok contacts →
                    ∃ new, contacts = acc ++ new
                           ∧ Forall2 parsed_from
                               (filter (λ x, is_named x = true) (x :: rest))
                               new).
    { intros Hx H'. rewrite filter_cons_False by congruence. exact (IH _ _ H'). }
    destruct x as [| | | | |l|item]; try (apply Hskip; [reflexivity | exact H]).
    simpl in H. bind_ok H. bind_ok H.
    destruct (truthy a) eqn:Ha; simpl in H;
      [| apply Hskip; [simpl; rewrite E, E0, Ha; reflexivity | exact H]].
    destruct (truthy a0) eqn:Ha0; simpl in H;
      [| apply Hskip; [simpl; rewrite E, E0, Ha, Ha0; reflexivity | exact H]].
    bind_ok H. bind_ok H. bind_ok H. bind_ok H.
    destruct (IH _ _ H) as (new & -> & Hnew).
    eexists (_ :: new). split; [rewrite <- app_assoc; reflexivity |].
    rewrite filter_cons_True by (simpl; rewrite E, E0, Ha, Ha0; reflexivity).
    constructor; [| exact Hnew].
    exists item, a2. simpl. rewrite !str_or_nil. auto 10.
Qed.

Lemma text_field_of_textual (item : list (str * json)) (key : string) :
  textual (dict_get item (lit key)) → ∃ t, text_field item key = Ok t.
Proof.
  unfold text_field. intros [-> | [-> | (s & ->)]]; [eauto.. |].
  simpl. destruct (truthy s); eauto.
Qed.

Lemma parse_items_textual (items : list json) :
  Forall textual_record items →
  ∀ acc, ∃ contacts, Phase2.parse_items items acc = Ok contacts.
Proof.
  induction 1 as [|x rest Hx _ IH]; intros acc; [simpl; eauto |].
  destruct x as [| | | | |l|item]; try apply IH.
  simpl in Hx.
  assert (Hkey : ∀ key, In key text_keys → ∃ t, text_field item key = Ok t).
  { intros key Hk. apply text_field_of_textual, Hx, list_elem_of_In, Hk. }
  cbn [Phase2.parse_items].
  destruct (Hkey "contact_name"%string) as [n ->]; [simpl; tauto |].
  destruct (Hkey "contact_title"%string) as [t ->]; [simpl; tauto |].
  destruct (Hkey "contact_linkedin"%string) as [l ->]; [simpl; tauto |].
  destruct (Hkey "contact_email"%string) as [e ->]; [simpl; tauto |].
  destruct (Hkey "source_url"%string) as [u ->]; [simpl; tauto |].
  destruct (Hkey "notes"%string) as [o ->]; [simpl; tauto |].
  simpl. destruct (negb (truthy n) || negb (truthy t)); apply IH.
Qed.

Lemma text_field_not_text (item : list (str * json)) (key : string) (v : json) :
  dict_get item (lit key) = Some v → json_truthy v = true →
  (∀ s, v ≠ JStr s) → text_field item key = Raise AttributeError.
Proof.
  intros Hv Ht Hs. unfold text_field. rewrite Hv, Ht.
  destruct v; try reflexivity. exfalso. eapply Hs. reflexivity.
Qed.

Lemma target_contacts_le_3 (cfg : Phase2.Config) :
  Z.to_nat (Phase2.TARGET_CONTACTS cfg) ≤ 3.
Proof. unfold Phase2.TARGET_CONTACTS. lia. Qed.

(** [run_for_company] on the history the agent returned.  It returns at
    most [TARGET_CONTACTS] contacts, which is at most three: the first
    records of the list under ["contacts"] that are dictionaries with a name
    and a title, in the order of the answer, each with its fields stripped
    and its e-mail address in lower case.  It returns whenever the text
    fields of the records hold text or nothing, and raises [AttributeError]
    when the first record has a number, a list or the like under its name.
    A structured output with the key ["contacts"] is taken as it is: the
    final result is not looked at and [json.loads] is not called.  Without
    it, a final result that is missing, raises, is no string, is blank or
    does not parse gives no contacts; so does a payload that is no
    dictionary, or has no list under ["contacts"]. *)
Theorem run_for_company_spec (json_loads : str → res json)
    (cfg : Phase2.Config) (history : Phase2.History) :
  let run := Phase2.run_for_company json_loads cfg in
  let named := filter (λ x, is_named x = true) in
  (∀ contacts, run history = Ok contacts → length contacts ≤ 3)
  ∧ (∀ payload items contacts,
       Phase2.payload_of json_loads history = Some (JDict payload) →
       dict_get payload (lit "contacts") = Some (JList items) →
       run history = Ok contacts →
       Forall2 parsed_from
         (take (Z.to_nat (Phase2.TARGET_CONTACTS cfg)) (named items))
         contacts)
  ∧ (∀ payload items,
       Phase2.payload_of json_loads history = Some (JDict payload) →
       dict_get payload (lit "contacts") = Some (JList items) →
       Forall textual_record items →
       ∃ contacts, run history = Ok contacts)
  ∧ (∀ payload item rest v,
       Phase2.payload_of json_loads history = Some (JDict payload) →
       dict_get payload (lit "contacts") = Some (JList (JDict item :: rest)) →
       dict_get item (lit "contact_name") = Some v →
       json_truthy v = true → (∀ s, v ≠ JStr s) →
       run history = Raise AttributeError)
  ∧ (Phase2.has_key (Phase2.structured_output history) "contacts" = true →
     Phase2.payload_of json_loads history
     = Some (Phase2.structured_output history)
     ∧ ∀ json_loads' final,
         run history
         = Phase2.run_for_company json_loads' cfg
             {| Phase2.structured_output := Phase2.structured_output history;
                Phase2.final_result := final |})
  ∧ (Phase2.has_key (Phase2.structured_output history) "contacts" = false →
     Phase2.final_result history = None
     ∨ (∃ e, Phase2.final_result history = Some (Raise e))
     ∨ (∃ v, Phase2.final_result history = Some (Ok v) ∧ ∀ s, v ≠ JStr s)
     ∨ (∃ s, Phase2.final_result history = Some (Ok (JStr s))
             ∧ (strip s = [] ∨ ∃ e, json_loads s = Raise e)) →
     run history = Ok [])
  ∧ (∀ payload,
       Phase2.payload_of json_loads history = Some payload →
       (∀ entries, payload = JDict entries →
          ∃ v, dict_get entries (lit "contacts") = Some v
               ∧ ∀ items, v ≠ JList items) →
       run history = Ok []).
Proof.
  intros run named. unfold run, Phase2.run_for_company.
  split.
  { intros contacts H. bind_ok H. injection H as <-.
    rewrite length_take. pose proof (target_contacts_le_3 cfg). lia. }
  split.
  { intros payload items contacts Hp Hc H. unfold Phase2.parsed_contacts in H.
    rewrite Hp, Hc in H. simpl in H. bind_ok H. injection H as <-.
    destruct (parse_items_kept _ _ _ E) as (new & -> & Hnew). simpl.
    apply Forall2_take. exact Hnew. }
  split.
  { intros payload items Hp Hc Hall. unfold Phase2.parsed_contacts.
    rewrite Hp, Hc. simpl.
    destruct (parse_items_textual items Hall []) as [contacts ->].
    simpl. eauto. }
  split.
  { intros payload item rest v Hp Hc Hv Ht Hs. unfold Phase2.parsed_contacts.
    rewrite Hp, Hc. simpl.
    rewrite (text_field_not_text item "contact_name" v Hv Ht Hs).
    reflexivity. }
  split.
  { intros Hkey. split.
    - unfold Phase2.payload_of. rewrite Hkey. reflexivity.
    - intros json_loads' final. unfold Phase2.parsed_contacts,
        Phase2.payload_of. simpl. rewrite Hkey. reflexivity. }
  split.
  { intros Hkey Hfinal.
    assert (Hnone : Phase2.payload_of json_loads history = None).
    { unfold Phase2.payload_of. rewrite Hkey.
      destruct Hfinal as [-> | [[e ->] | [(v & -> & Hv) | (s & -> & Hs)]]];
        try reflexivity.
      - destruct v; try reflexivity. exfalso. eapply Hv. reflexivity.
      - destruct Hs as [-> | [e ->]]; [reflexivity |].
        destruct (truthy (strip s)); reflexivity. }
    unfold Phase2.parsed_contacts. rewrite Hnone. simpl.
    rewrite take_nil. reflexivity. }
  intros payload Hp Hnot. unfold Phase2.parsed_contacts. rewrite Hp.
  destruct payload as [| | | | | |entries];
    try (simpl; rewrite take_nil; reflexivity).
  destruct (Hnot entries eq_refl) as (v & -> & Hv). simpl.
  destruct v; try (simpl; rewrite take_nil; reflexivity).
  exfalso. eapply Hv. reflexivity.
Qed.

(** ** The table phase 1 writes *)

Lemma fill_phone_loop_header base header (nums : list str) :
  ∀ row m k row' header' m',
    1 ≤ k →
    (∀ n, k + 1 ≤ n ≤ k + length nums → phone_col n ∈ header) →
    fill_phone_loop base (row, header, m) k nums = Ok (row', header', m') →
    header' = header ∧ length row' ≤ length row `max` length header.
Proof.
  induction nums as [|val rest IH]; intros row m k row' header' m' Hk Hcols H.
  - simpl in H. injection H as <- <- <-. split; [reflexivity | lia].
  - destruct (fill_phone_step_numbered base row header m k val Hk)
      as (idx & Hidx & Hstep).
    cbn [fill_phone_loop] in H. rewrite Hstep in H. simpl in H.
    rewrite append_if_absent_id in H, Hidx by (apply Hcols; simpl; lia).
    apply IH in H as [-> Hlen]; [| lia | intros n Hn; apply Hcols; simpl; lia].
    split; [reflexivity |].
    apply index_of_lt in Hidx.
    rewrite length_insert, length_app, length_replicate in Hlen. lia.
Qed.

(** [fill_phone_cols] on a header that has the phone columns of the row
    already: the header stays, and the row grows as far as its last phone
    column and no further. *)
Lemma fill_phone_cols_present (row header nums : list str) (base : nat) :
  index_of OUT_COL_PHONE header = Some base →
  base < length row →
  (∀ n, 2 ≤ n ≤ length nums → phone_col n ∈ header) →
  ∃ row',
    fill_phone_cols row header nums = Ok (row', header)
    ∧ length row ≤ length row'
    ∧ length row' ≤ length row `max` length header
    ∧ (length nums ≤ 1 → length row' = length row)
    ∧ (∀ k v, 1 ≤ k → nums !! k = Some v →
              ∃ idx, index_of (phone_col (k + 1)) header = Some idx
                     ∧ row' !! idx = Some v).
Proof.
  intros Hbase Hlt Hcols.
  assert (Hin : OUT_COL_PHONE ∈ header).
  { apply list_elem_of_lookup. exists base. apply index_of_lookup, Hbase. }
  unfold fill_phone_cols, index. rewrite Hbase. simpl.
  destruct nums as [|v rest].
  - simpl. exists row.
    rewrite ensure_phone_cols_id by (auto || (intros; lia)).
    split; [reflexivity |]. split; [lia |]. split; [lia |].
    split; [reflexivity |]. intros k x _ Hx. discriminate.
  - destruct (get_item_lt row base Hlt) as (cur & Hget & Hcur).
    cbn [fill_phone_loop fill_phone_step]. rewrite Hget. simpl.
    rewrite set_item_lt by exact Hlt. simpl.
    destruct (fill_phone_loop_numbered base rest
                (<[base := str_or cur v]> row) header 1 1 ltac:(lia))
      as (row' & header' & m' & Hloop & _ & Hlen & Hm & _ & _ & Hput).
    destruct (fill_phone_loop_header base header rest
                (<[base := str_or cur v]> row) 1 1 row' header' m'
                ltac:(lia) ltac:(intros n Hn; apply Hcols; simpl; lia) Hloop)
      as [-> Hmax].
    rewrite Hloop. simpl.
    rewrite ensure_phone_cols_id;
      [| exact Hin | intros n Hn; apply Hcols; simpl; lia].
    rewrite length_insert in Hlen, Hmax.
    exists row'. split; [reflexivity |]. split; [exact Hlen |].
    split; [exact Hmax |]. split.
    { intros Hone. destruct rest; [| simpl in Hone; lia].
      simpl in Hloop. injection Hloop as <- _. apply length_insert. }
    intros k x Hk Hx. destruct k as [|k]; [lia |]. simpl in Hx.
    destruct (Hput _ _ Hx) as (idx & Hidx & Hv). exists idx.
    replace (S k + 1) with (1 + k + 1) by lia. auto.
Qed.

Lemma fill_all_present (header : list str) (base : nat) :
  index_of OUT_COL_PHONE header = Some base →
  ∀ rows phone_lists,
    length rows = length phone_lists →
    Forall (λ row, base < length row) rows →
    Forall (λ nums, ∀ n, 2 ≤ n ≤ length nums → phone_col n ∈ header)
      phone_lists →
    ∃ rows',
      fill_all header rows phone_lists = Ok (rows', header)
      ∧ length rows' = length rows
      ∧ ∀ i row nums,
          rows !! i = Some row → phone_lists !! i = Some nums →
          ∃ row', rows' !! i = Some row'
                  ∧ fill_phone_cols row header nums = Ok (row', header).
Proof.
  intros Hbase rows. induction rows as [|row rows IH];
    intros phone_lists Hlen Hrows Hnums.
  - exists []. destruct phone_lists; [| discriminate]. simpl.
    split; [reflexivity |]. split; [reflexivity |]. intros i r n H. discriminate.
  - destruct phone_lists as [|nums phone_lists]; [discriminate |].
    inversion Hrows as [|? ? Hr Hrows']; subst.
    inversion Hnums as [|? ? Hn Hnums']; subst.
    destruct (fill_phone_cols_present row header nums base Hbase Hr Hn)
      as (row' & Hfill & _).
    destruct (IH phone_lists ltac:(simpl in Hlen; lia) Hrows' Hnums')
      as (rows' & Hall & Hlen' & Hpoint).
    exists (row' :: rows'). simpl. rewrite Hfill. simpl. rewrite Hall. simpl.
    split; [reflexivity |]. split; [lia |].
    intros [|i] r n Hi Hn'; simpl in *.
    + injection Hi as <-. injection Hn' as <-. eauto.
    + apply Hpoint; assumption.
Qed.

Lemma phase1_enrich_row_keeps extract agent rand cfg cols output_header i row
    skipped address postcode inferred row' nums :
  Phase1.enrich_row extract agent rand cfg cols output_header i row
    = Ok (skipped, address, postcode, inferred, row', nums) →
  ∀ j c, row !! j = Some c → c ≠ [] → j ≠ Phase1.idx_notes cols →
         row' !! j = Some c.
Proof.
  unfold Phase1.enrich_row. intros H j c Hj Hc Hnotes.
  assert (Hpad : pad_to (length output_header) row !! j = Some c).
  { unfold pad_to. apply lookup_app_l_Some. exact Hj. }
  bind_ok H. bind_ok H. destruct (_ && _); simpl in H.
  - injection H as _ _ _ _ <- _. exact Hpad.
  - bind_ok H. destruct a1 as [row1 nums1]. simpl in H.
    injection H as _ _ _ _ <- _.
    destruct (result (Phase1.attempts agent rand cfg i)) as [info|].
    + destruct (apply_results_keeps _ _ _ _ _ _ _ _ _ E1)
        as (before & k & Hkeep & _ & _ & ->).
      rewrite list_lookup_insert_ne by congruence.
      apply Hkeep; assumption.
    + injection E1 as <- _. exact Hpad.
Qed.

Lemma phase1_rows_in_memory_rows extract agent rand cfg header output_header
    cols :
  columns_ok header output_header cols →
  ∀ data_rows acc i,
    ∃ prs pls,
      phase1_rows_in_memory extract agent rand cfg cols output_header acc i
        data_rows
      = Ok (acc.1 ++ prs, acc.2 ++ pls)
      ∧ length prs = length data_rows
      ∧ length pls = length data_rows
      ∧ ∀ j row, data_rows !! j = Some row →
          ∃ skipped address postcode inferred row' nums,
            prs !! j = Some row' ∧ pls !! j = Some nums
            ∧ Phase1.enrich_row extract agent rand cfg cols output_header
                (i + j) row
              = Ok (skipped, address, postcode, inferred, row', nums).
Proof.
  intros Hcols data_rows. induction data_rows as [|row rest IH]; intros acc i.
  - exists [], []. simpl. rewrite !app_nil_r. destruct acc.
    split; [reflexivity |]. split; [reflexivity |]. split; [reflexivity |].
    intros j r H. discriminate.
  - destruct (enrich_row_ok extract agent rand cfg header output_header cols
                i row Hcols)
      as (sk & a & p & inf & row' & nums & E & _).
    destruct (IH (acc.1 ++ [row'], acc.2 ++ [nums]) (S i))
      as (prs & pls & Hrest & Hl1 & Hl2 & Hpoint).
    exists (row' :: prs), (nums :: pls). simpl. rewrite E. simpl.
    rewrite Hrest. simpl. rewrite <- !app_assoc. simpl.
    split; [reflexivity |]. split; [lia |]. split; [lia |].
    intros [|j] r Hr; simpl in Hr.
    + injection Hr as <-. rewrite Nat.add_0_r. simpl.
      eexists _, _, _, _, _, _. split; [reflexivity |].
      split; [reflexivity | exact E].
    + destruct (Hpoint j r Hr) as (sk' & a' & p' & inf' & r' & n' & H1 & H2 & H3).
      replace (i + S j) with (S i + j) by lia. simpl.
      eexists _, _, _, _, _, _. split; [exact H1 |].
      split; [exact H2 | exact H3].
Qed.

Lemma stays_calm_bind {A B} (m : IO A) (k : A → IO B) (w : world) :
  (calm w → calm (m w).2) → (∀ a w1, calm w1 → calm (k a w1).2) →
  calm w → calm ((m ≫= k) w).2.
Proof.
  intros Hm Hk. apply (IO_bind_keeps (λ w w', calm w → calm w')); auto.
Qed.

Lemma stays_calm_try (body : IO unit) (w : world) :
  (∀ w0, calm w0 → calm (body w0).2) →
  calm w → calm (try_except body (mret ()) w).2.
Proof.
  intros Hbody Hc. destruct (try_pass_calm body w Hbody Hc) as (w' & -> & Hc').
  exact Hc'.
Qed.

Lemma write_rows_stays_calm path dialect header rows (w : world) :
  calm w → calm (write_rows path dialect header rows w).2.
Proof.
  intros Hc. destruct (write_rows_calm path dialect header rows w Hc)
    as (w' & -> & Hc' & _). exact Hc'.
Qed.

Lemma phase1_write_checkpoint_stays_calm json_dumps cfg record (w : world) :
  calm w → calm (Phase1.write_checkpoint json_dumps cfg record w).2.
Proof.
  intros Hc. destruct (phase1_write_checkpoint_calm json_dumps cfg record w Hc)
    as (w' & -> & Hc'). exact Hc'.
Qed.

Lemma phase1_autosave_stays_calm cfg dialect output_header processed_rows
    phone_lists i (w : world) :
  calm w →
  calm (Phase1.autosave cfg dialect output_header processed_rows phone_lists
          i w).2.
Proof.
  intros Hc. unfold Phase1.autosave. destruct (_ && _); [| exact Hc].
  apply stays_calm_try; [| exact Hc]. intros w0 Hc0.
  unfold Phase1._write_partial_snapshot. cbv zeta.
  apply stays_calm_bind; [auto | | exact Hc0].
  intros [rows header] w1 Hc1. apply write_rows_stays_calm. exact Hc1.
Qed.

Lemma phase1_process_row_stays_calm json_dumps extract agent rand cfg dialect
    cols output_header acc i row (w : world) :
  calm w →
  calm (Phase1.process_row json_dumps extract agent rand cfg dialect cols
          output_header acc i row w).2.
Proof.
  intros Hc. unfold Phase1.process_row. destruct acc as [prs pls].
  apply stays_calm_bind; [auto | | exact Hc].
  intros [[[[[skipped address] postcode] inferred] row'] nums] w1 Hc1.
  destruct skipped.
  - apply stays_calm_bind;
      [intros; apply phase1_write_checkpoint_stays_calm; assumption | | exact Hc1].
    intros _ w2 Hc2. apply stays_calm_bind; [| auto | exact Hc2].
    intros. apply phase1_autosave_stays_calm. assumption.
  - apply stays_calm_bind; [| | exact Hc1].
    + intros. apply stays_calm_try; [| assumption]. intros w0 Hc0.
      apply stays_calm_bind; [auto | | exact Hc0].
      intros record w2 Hc2. apply phase1_write_checkpoint_stays_calm. exact Hc2.
    + intros _ w2 Hc2. apply stays_calm_bind; [| auto | exact Hc2].
      intros. apply phase1_autosave_stays_calm. assumption.
Qed.

Lemma phase1_rows_loop_stays_calm json_dumps extract agent rand cfg dialect
    cols output_header data_rows :
  ∀ acc i (w : world),
    calm w →
    calm (Phase1.rows_loop json_dumps extract agent rand cfg dialect cols
            output_header acc i data_rows w).2.
Proof.
  induction data_rows as [|row rest IH]; intros acc i w Hc; [exact Hc |].
  simpl. apply stays_calm_bind; [| | exact Hc].
  - intros. apply phase1_process_row_stays_calm. assumption.
  - intros acc' w1 Hc1. apply IH. exact Hc1.
Qed.


(** ** The table phase 2 writes *)

Lemma fill_empty_ok (row : list str) (i : nat) (v : str) :
  i < length row →
  ∃ row', Phase2.fill_empty row i v = Ok row'
          ∧ length row' = length row ∧ never_overwrites row row'.
Proof.
  intros Hlt. unfold Phase2.fill_empty.
  destruct (get_item_lt row i Hlt) as (cur & Hget & _). rewrite Hget. simpl.
  rewrite set_item_lt by exact Hlt. eexists. split; [reflexivity |].
  split; [apply length_insert |].
  eapply set_or_keeps; [exact Hget | apply set_item_lt; exact Hlt].
Qed.

Lemma fill_empty_if_ok (b : bool) (row : list str) (i : nat) (v : str) :
  i < length row →
  ∃ row', (if b then Phase2.fill_empty row i v else Ok row) = Ok row'
          ∧ length row' = length row ∧ never_overwrites row row'.
Proof.
  intros Hlt. destruct b; [apply fill_empty_ok; exact Hlt |].
  exists row. split; [reflexivity |]. split; [reflexivity |].
  apply never_overwrites_refl.
Qed.

Lemma set_if_blank_ok (row : list str) (i : nat) (v : str) :
  i < length row →
  ∃ row',
    (cur ← get_item row i;
     if negb (truthy cur) then set_item row i v else Ok row) = Ok row'
    ∧ length row' = length row ∧ never_overwrites row row'.
Proof.
  intros Hlt. destruct (get_item_lt row i Hlt) as (cur & Hget & _).
  rewrite Hget. simpl. destruct (truthy cur) eqn:Ht; simpl.
  - exists row. split; [reflexivity |]. split; [reflexivity |].
    apply never_overwrites_refl.
  - rewrite set_item_lt by exact Hlt. eexists. split; [reflexivity |].
    split; [apply length_insert |].
    eapply set_if_empty_keeps; [exact Hget | exact Ht |].
    apply set_item_lt. exact Hlt.
Qed.

Lemma confidence_if_blank_ok float_of_str (row : list str) (i : nat)
    (v : json) :
  i < length row →
  ∃ row',
    (cur ← get_item row i;
     if negb (truthy cur)
     then match (c ← Phase2.float_of float_of_str v;
                 set_item row i (format_2f c)) with
          | Ok row' => Ok row'
          | Raise _ => Ok row
          end
     else Ok row) = Ok row'
    ∧ length row' = length row ∧ never_overwrites row row'.
Proof.
  intros Hlt. destruct (get_item_lt row i Hlt) as (cur & Hget & _).
  rewrite Hget. simpl.
  assert (Hsame : ∃ row', Ok row = Ok row'
                          ∧ length row' = length row
                          ∧ never_overwrites row row').
  { exists row. split; [reflexivity |]. split; [reflexivity |].
    apply never_overwrites_refl. }
  destruct (truthy cur) eqn:Ht; simpl; [exact Hsame |].
  destruct (Phase2.float_of float_of_str v) as [c|e]; simpl; [| exact Hsame].
  rewrite set_item_lt by exact Hlt. eexists. split; [reflexivity |].
  split; [apply length_insert |].
  eapply set_if_empty_keeps; [exact Hget | exact Ht |].
  apply set_item_lt. exact Hlt.
Qed.

Section Phase2Merge.
Variable float_of_str : str → res Q.
Variable cfg : Phase2.Config.
Variable cols : Phase2.Columns.
(** The length of the output header, and the number of contact slots. *)
Variable n top : nat.
Hypothesis src_fits : Phase2.idx_src cols < n.
Hypothesis conf_fits : Phase2.idx_conf cols < n.
Hypothesis notes_fits : Phase2.idx_notes cols < n.
Hypothesis slots_fit :
  ∀ s, 1 ≤ s ≤ top →
       ∃ cc, Phase2.contact_cols cols !! s = Some cc
             ∧ Phase2.name cc < n ∧ Phase2.title cc < n
             ∧ Phase2.linkedin cc < n ∧ Phase2.email cc < n.

Lemma phase2_apply_contact_ok (k : nat) (row : list str) (slot : nat)
    (contact : Phase2.Contact) :
  n ≤ length row → 1 ≤ slot ≤ top →
  ∃ row',
    Phase2.apply_contact float_of_str cfg cols (Some k) row slot contact
    = Ok row'
    ∧ length row' = length row
    ∧ ∀ j c, row !! j = Some c → c ≠ [] → j ≠ Phase2.idx_notes cols →
             row' !! j = Some c.
Proof using src_fits conf_fits notes_fits slots_fit.
  intros Hlen Hslot.
  destruct (slots_fit slot Hslot) as (cc & Hcc & H1 & H2 & H3 & H4).
  unfold Phase2.apply_contact. rewrite Hcc. cbn [mbind res_bind].
  destruct (fill_empty_ok row (Phase2.name cc)
              (Phase2.contact_name contact)) as (r1 & -> & L1 & K1); [lia |].
  cbn [mbind res_bind].
  destruct (fill_empty_ok r1 (Phase2.title cc)
              (Phase2.contact_title contact)) as (r2 & -> & L2 & K2); [lia |].
  cbn [mbind res_bind].
  destruct (fill_empty_if_ok (truthy (Phase2.contact_linkedin contact)) r2
              (Phase2.linkedin cc) (Phase2.contact_linkedin contact))
    as (r3 & -> & L3 & K3); [lia |].
  cbn [mbind res_bind].
  destruct (fill_empty_if_ok (truthy (Phase2.contact_email contact)) r3
              (Phase2.email cc) (Phase2.contact_email contact))
    as (r4 & -> & L4 & K4); [lia |].
  cbn [mbind res_bind].
  assert (Hsrc : ∃ r5,
            (if truthy (Phase2.source_url contact)
             then cur ← get_item r4 (Phase2.idx_src cols);
                  if negb (truthy cur)
                  then set_item r4 (Phase2.idx_src cols)
                         (Phase2.source_url contact)
                  else Ok r4
             else Ok r4) = Ok r5
            ∧ length r5 = length r4 ∧ never_overwrites r4 r5).
  { destruct (truthy (Phase2.source_url contact)).
    - apply set_if_blank_ok. lia.
    - exists r4. split; [reflexivity |]. split; [reflexivity |].
      apply never_overwrites_refl. }
  destruct Hsrc as (r5 & -> & L5 & K5). cbn [mbind res_bind].
  assert (Hconf : ∃ r6,
            match Phase2.confidence contact with
            | JNull => Ok r5
            | v =>
                cur ← get_item r5 (Phase2.idx_conf cols);
                if negb (truthy cur)
                then match (c ← Phase2.float_of float_of_str v;
                            set_item r5 (Phase2.idx_conf cols) (format_2f c))
                     with
                     | Ok row' => Ok row'
                     | Raise _ => Ok r5
                     end
                else Ok r5
            end = Ok r6
            ∧ length r6 = length r5 ∧ never_overwrites r5 r6).
  { destruct (Phase2.confidence contact) eqn:Ev;
      try (apply confidence_if_blank_ok; lia).
    exists r5. split; [reflexivity |]. split; [reflexivity |].
    apply never_overwrites_refl. }
  destruct Hconf as (r6 & -> & L6 & K6). cbn [mbind res_bind].
  destruct (get_item_lt r6 (Phase2.idx_notes cols)) as (cur & -> & _); [lia |].
  cbn [mbind res_bind]. rewrite set_item_lt by lia. eexists. split; [reflexivity |].
  split; [rewrite length_insert; lia |].
  intros j c Hj Hc Hne. rewrite list_lookup_insert_ne by congruence.
  apply K6; [| exact Hc]. apply K5; [| exact Hc]. apply K4; [| exact Hc].
  apply K3; [| exact Hc]. apply K2; [| exact Hc]. apply K1; assumption.
Qed.

Lemma phase2_apply_contacts_ok (k : nat) (contacts : list Phase2.Contact) :
  ∀ row slot,
    n ≤ length row → 1 ≤ slot → slot + length contacts ≤ top + 1 →
    ∃ row',
      Phase2.apply_contacts float_of_str cfg cols (Some k) row slot contacts
      = Ok row'
      ∧ length row' = length row
      ∧ ∀ j c, row !! j = Some c → c ≠ [] → j ≠ Phase2.idx_notes cols →
               row' !! j = Some c.
Proof using src_fits conf_fits notes_fits slots_fit.
  induction contacts as [|contact rest IH]; intros row slot Hlen Hslot Htop.
  - exists row. simpl. auto.
  - simpl in Htop.
    destruct (phase2_apply_contact_ok k row slot contact Hlen ltac:(lia))
      as (r1 & H1 & L1 & K1).
    destruct (IH r1 (S slot) ltac:(lia) ltac:(lia) ltac:(lia))
      as (r2 & H2 & L2 & K2).
    exists r2. simpl. rewrite H1. simpl. split; [exact H2 |].
    split; [lia |]. intros j c Hj Hc Hne. apply K2; auto.
Qed.
End Phase2Merge.

Lemma phase2_columns_fit cfg (header : list str) :
  Phase2.idx_name (Phase2.build_output_header cfg header).2
    < length (Phase2.build_output_header cfg header).1
  ∧ Phase2.idx_govuk (Phase2.build_output_header cfg header).2
    < length (Phase2.build_output_header cfg header).1
  ∧ Phase2.idx_src (Phase2.build_output_header cfg header).2
    < length (Phase2.build_output_header cfg header).1
  ∧ Phase2.idx_conf (Phase2.build_output_header cfg header).2
    < length (Phase2.build_output_header cfg header).1
  ∧ Phase2.idx_notes (Phase2.build_output_header cfg header).2
    < length (Phase2.build_output_header cfg header).1
  ∧ ∀ s, 1 ≤ s ≤ Z.to_nat (Phase2.TARGET_CONTACTS cfg) →
      ∃ cc,
        Phase2.contact_cols (Phase2.build_output_header cfg header).2 !! s
        = Some cc
        ∧ Phase2.name cc < length (Phase2.build_output_header cfg header).1
        ∧ Phase2.title cc < length (Phase2.build_output_header cfg header).1
        ∧ Phase2.linkedin cc
          < length (Phase2.build_output_header cfg header).1
        ∧ Phase2.email cc < length (Phase2.build_output_header cfg header).1.
Proof.
  destruct (phase2_build_output_header_cols cfg header)
    as (_ & _ & H1 & H2 & H3 & H4 & H5 & Hslots).
  repeat (split; [eapply index_of_lt; eassumption |]).
  intros s Hs. destruct (Hslots s) as (cc & Hcc & N1 & N2 & N3 & N4);
    [lia | lia |].
  exists cc. split; [exact Hcc |].
  repeat split; eapply index_of_lt; eassumption.
Qed.

Lemma phase2_attempts_bound json_loads agent rand cfg i :
  ∃ k, attempt (Phase2.attempts json_loads agent rand cfg i) = Some k.
Proof.
  unfold Phase2.attempts, retry_loop.
  assert (HR : ∃ n, Z.to_nat (ROW_RETRIES (Phase2.retry cfg)) = S n).
  { exists (Z.to_nat (ROW_RETRIES (Phase2.retry cfg)) - 1).
    unfold Phase2.retry. simpl. lia. }
  destruct HR as [n ->]. cbn [seq retry_from].
  destruct (bool_decide _); [eauto |].
  match goal with |- ∃ k, attempt ?st = Some k =>
    destruct (attempt st) as [k|] eqn:E; [eauto |] end.
  apply retry_from_attempt in E as [E _]. discriminate.
Qed.

Lemma phase2_enrich_row_ok json_loads float_of_str agent rand cfg header i
    (row : list str) :
  ∃ skipped company_name govuk_url contacts row',
    Phase2.enrich_row json_loads float_of_str agent rand cfg
      (Phase2.build_output_header cfg header).2
      (Phase2.build_output_header cfg header).1 i row
    = Ok (skipped, company_name, govuk_url, contacts, row')
    ∧ length row'
      = length row `max` length (Phase2.build_output_header cfg header).1
    ∧ ∀ j c, row !! j = Some c → c ≠ [] →
             j ≠ Phase2.idx_notes (Phase2.build_output_header cfg header).2 →
             row' !! j = Some c.
Proof.
  destruct (phase2_columns_fit cfg header)
    as (Hname & Hgovuk & Hsrc & Hconf & Hnotes & Hslots).
  set (output_header := (Phase2.build_output_header cfg header).1) in *.
  set (cols := (Phase2.build_output_header cfg header).2) in *.
  pose proof (length_pad_to (length output_header) row) as Hpad.
  assert (Hkeep : ∀ j c, row !! j = Some c →
                         pad_to (length output_header) row !! j = Some c).
  { intros j c Hj. unfold pad_to. apply lookup_app_l_Some. exact Hj. }
  unfold Phase2.enrich_row. cbv zeta.
  destruct (get_item_lt (pad_to (length output_header) row)
              (Phase2.idx_name cols)) as (c1 & -> & _); [lia |].
  cbn [mbind res_bind].
  destruct (get_item_lt (pad_to (length output_header) row)
              (Phase2.idx_govuk cols)) as (c2 & -> & _); [lia |].
  cbn [mbind res_bind].
  destruct (negb (truthy (strip (str_or c1 [])))).
  - eexists _, _, _, _, _. split; [reflexivity |]. split; [exact Hpad |].
    intros j c Hj _ _. apply Hkeep. exact Hj.
  - destruct (phase2_attempts_bound json_loads agent rand cfg i) as [k ->].
    destruct (phase2_apply_contacts_ok float_of_str cfg cols
                (length output_header) (Z.to_nat (Phase2.TARGET_CONTACTS cfg))
                Hsrc Hconf Hnotes Hslots k
                (take (Z.to_nat (Phase2.TARGET_CONTACTS cfg))
                   (result (Phase2.attempts json_loads agent rand cfg i)))
                (pad_to (length output_header) row) 1)
      as (row' & -> & Hl & Hk).
    { lia. }
    { lia. }
    { rewrite length_take. lia. }
    cbn [mbind res_bind]. eexists _, _, _, _, _. split; [reflexivity |].
    split; [lia |]. intros j c Hj Hc Hne. apply Hk; auto.
Qed.

Lemma phase2_rows_in_memory_rows json_loads float_of_str agent rand cfg
    header :
  ∀ data_rows processed_rows i,
    ∃ prs,
      phase2_rows_in_memory json_loads float_of_str agent rand cfg
        (Phase2.build_output_header cfg header).2
        (Phase2.build_output_header cfg header).1 processed_rows i data_rows
      = Ok (processed_rows ++ prs)
      ∧ length prs = length data_rows
      ∧ ∀ j row, data_rows !! j = Some row →
          ∃ row', prs !! j = Some row'
            ∧ length row'
              = length row
                `max` length (Phase2.build_output_header cfg header).1
            ∧ ∀ x c, row !! x = Some c → c ≠ [] →
                x ≠ Phase2.idx_notes (Phase2.build_output_header cfg header).2 →
                row' !! x = Some c.
Proof.
  intros data_rows. induction data_rows as [|row rest IH];
    intros processed_rows i.
  - exists []. simpl. rewrite app_nil_r. split; [reflexivity |].
    split; [reflexivity |]. intros j r H. discriminate.
  - destruct (phase2_enrich_row_ok json_loads float_of_str agent rand cfg
                header i row)
      as (sk & name & govuk & contacts & row' & E & Hl & Hk).
    destruct (IH (processed_rows ++ [row']) (S i)) as (prs & Hrest & Hlen & Hp).
    exists (row' :: prs). simpl. rewrite E. simpl. rewrite Hrest.
    rewrite <- app_assoc. simpl.
    split; [reflexivity |]. split; [lia |].
    intros [|j] r Hr; simpl in Hr.
    + injection Hr as <-. exists row'. simpl. auto.
    + apply Hp. exact Hr.
Qed.

Lemma checkpoint_stays_calm json_dumps (path : str) (record : json)
    (w : world) :
  calm w →
  calm (try_except
          (_ ← open_append path;
           line ← lift (json_dumps record);
           fwrite path (line ++ [LF]))
          (mret ()) w).2.
Proof.
  apply stays_calm_try. intros w0 Hc0.
  apply stays_calm_bind; [| | exact Hc0].
  - intros Hc. destruct (open_append_calm path w0 Hc) as (w1 & -> & Hc1).
    exact Hc1.
  - intros _ w1 Hc1. apply stays_calm_bind; [auto | | exact Hc1].
    intros line w2 Hc2. exact Hc2.
Qed.

Lemma phase2_autosave_stays_calm cfg dialect output_header processed_rows i
    (w : world) :
  calm w →
  calm (Phase2.autosave cfg dialect output_header processed_rows i w).2.
Proof.
  intros Hc. unfold Phase2.autosave. destruct (_ && _); [| exact Hc].
  unfold Phase2.write_partial_snapshot.
  apply stays_calm_try; [| exact Hc]. intros w0 Hc0.
  apply write_rows_stays_calm. exact Hc0.
Qed.

Lemma phase2_process_row_stays_calm json_dumps json_loads float_of_str agent
    rand cfg dialect cols output_header processed_rows i row (w : world) :
  calm w →
  calm (Phase2.process_row json_dumps json_loads float_of_str agent rand cfg
          dialect cols output_header processed_rows i row w).2.
Proof.
  intros Hc. unfold Phase2.process_row.
  apply stays_calm_bind; [auto | | exact Hc].
  intros [[[[skipped company] govuk] contacts] row'] w1 Hc1.
  destruct skipped.
  - apply stays_calm_bind; [| | exact Hc1].
    + intros. apply checkpoint_stays_calm. assumption.
    + intros _ w2 Hc2. apply stays_calm_bind; [| auto | exact Hc2].
      intros. apply phase2_autosave_stays_calm. assumption.
  - apply stays_calm_bind; [| | exact Hc1].
    + intros. apply stays_calm_try; [| assumption]. intros w0 Hc0.
      apply checkpoint_stays_calm. exact Hc0.
    + intros _ w2 Hc2. apply stays_calm_bind; [| auto | exact Hc2].
      intros. apply phase2_autosave_stays_calm. assumption.
Qed.

Lemma phase2_rows_loop_stays_calm json_dumps json_loads float_of_str agent
    rand cfg dialect cols output_header data_rows :
  ∀ processed_rows i (w : world),
    calm w →
    calm (Phase2.rows_loop json_dumps json_loads float_of_str agent rand cfg
            dialect cols output_header processed_rows i data_rows w).2.
Proof.
  induction data_rows as [|row rest IH]; intros processed_rows i w Hc;
    [exact Hc |].
  simpl. apply stays_calm_bind; [| | exact Hc].
  - intros. apply phase2_process_row_stays_calm. assumption.
  - intros prs w1 Hc1. apply IH. exact Hc1.
Qed.




(** ** The notes of phase 2 *)

Lemma lit_append (a b : string) : lit (a +:+ b) = lit a ++ lit b.
Proof.
  unfold lit. induction a as [|c a IH]; simpl; [reflexivity |].
  f_equal. exact IH.
Qed.

Lemma pretty_N_go_ends (x : N) :
  ∀ s, ∃ t, pretty_N_go x s = (t +:+ s)%string.
Proof.
  induction (N.lt_wf_0 x) as [x _ IH]. intros s.
  destruct (decide (0 < x)%N) as [Hpos | Hzero].
  - rewrite pretty_N_go_step by exact Hpos.
    destruct (IH (x `div` 10)%N) with
      (s := String (pretty_N_char (x `mod` 10)) s) as [t Ht].
    { apply N.div_lt; lia. }
    rewrite Ht. exists (t +:+ String (pretty_N_char (x `mod` 10)) "")%string.
    clear. induction t as [|c t IHt]; [reflexivity |].
    change (String c ?a +:+ ?b)%string with (String c (a +:+ b))%string.
    rewrite IHt. reflexivity.
  - replace x with 0%N by lia. rewrite pretty_N_go_0. exists ""%string.
    reflexivity.
Qed.

Lemma pretty_N_char_digit (x : N) : pretty_N_char x ∉ lit "; ".
Proof.
  intros H. apply list_elem_of_In in H. unfold pretty_N_char in H.
  repeat case_match; simpl in H; intuition discriminate.
Qed.

Lemma str_of_pos_last (z : Z) :
  (0 < z)%Z → ∃ c, last (str_of_Z z) = Some c ∧ c ∉ lit "; ".
Proof.
  intros Hz. destruct z as [|p|p]; try lia.
  assert (E : pretty (Z.pos p) = pretty_N_go (N.pos p) "") by reflexivity.
  unfold str_of_Z. rewrite E.
  rewrite pretty_N_go_step by lia.
  destruct (pretty_N_go_ends (N.pos p `div` 10)%N
              (String (pretty_N_char (N.pos p `mod` 10)) "")) as [t ->].
  exists (pretty_N_char (N.pos p `mod` 10)).
  split; [| apply pretty_N_char_digit].
  rewrite lit_append. change (lit (String ?c "")) with [c].
  apply last_snoc.
Qed.

Lemma join_cons_cons (sep x y : str) (rest : list str) :
  join sep (x :: y :: rest) = x ++ sep ++ join sep (y :: rest).
Proof. reflexivity. Qed.

Lemma join_app (sep : str) (a b : list str) :
  a ≠ [] → b ≠ [] → join sep (a ++ b) = join sep a ++ sep ++ join sep b.
Proof.
  intros Ha Hb. induction a as [|x a IH]; [congruence |].
  destruct a as [|y a].
  - destruct b as [|z b]; [congruence |]. reflexivity.
  - change ((x :: y :: a) ++ b) with (x :: y :: (a ++ b)).
    rewrite !join_cons_cons.
    change (y :: a ++ b) with ((y :: a) ++ b).
    rewrite IH by discriminate. rewrite <- !app_assoc. reflexivity.
Qed.

Lemma join_filled (sep : str) (items : list str) :
  Forall (λ s, s ≠ []) items → items ≠ [] → join sep items ≠ [].
Proof.
  intros Hall Hne. destruct Hall as [|x rest Hx _]; [congruence |].
  destruct rest as [|y rest]; [exact Hx |].
  rewrite join_cons_cons. destruct x; [congruence | discriminate].
Qed.

Lemma head_join (sep x : str) (rest : list str) :
  x ≠ [] → head (join sep (x :: rest)) = head x.
Proof.
  intros Hx. destruct rest as [|y rest]; [reflexivity |].
  rewrite join_cons_cons. destruct x; [congruence | reflexivity].
Qed.

Lemma last_join (sep : str) (items : list str) :
  Forall (λ s, s ≠ []) items →
  ∀ y, last items = Some y → last (join sep items) = last y.
Proof.
  induction 1 as [|x rest Hx Hrest IH]; intros y Hy; [discriminate |].
  destruct rest as [|z rest].
  - injection Hy as <-. reflexivity.
  - rewrite join_cons_cons, !last_app.
    rewrite last_cons_cons in Hy. rewrite (IH y Hy).
    destruct (last y) eqn:E; [reflexivity |].
    apply last_None in E. subst y.
    apply last_Some_elem_of in Hy. rewrite Forall_forall in Hrest.
    destruct (Hrest [] Hy). reflexivity.
Qed.

Lemma filter_truthy_filled (items : list str) :
  Forall (λ s, s ≠ []) (filter (λ s, truthy s = true) items).
Proof.
  apply Forall_forall. intros s [Hs _]%list_elem_of_filter.
  apply truthy_true. exact Hs.
Qed.

(** The notes joined: the empty ones dropped, ["; "] between the others. *)
Lemma joined_notes_nested (sep : str) (items rest : list str) :
  join sep (filter (λ s, truthy s = true)
              (join sep (filter (λ s, truthy s = true) items) :: rest))
  = join sep (filter (λ s, truthy s = true) (items ++ rest)).
Proof.
  rewrite filter_app.
  pose proof (filter_truthy_filled items) as Hf.
  destruct (filter (λ s, truthy s = true) items) as [|x f] eqn:E.
  - simpl. rewrite filter_cons_False by (simpl; discriminate). reflexivity.
  - assert (Hne : join sep (x :: f) ≠ []) by (apply join_filled; [exact Hf | discriminate]).
    rewrite filter_cons_True by (apply truthy_true; exact Hne).
    destruct (filter (λ s, truthy s = true) rest) as [|y g].
    + rewrite app_nil_r. reflexivity.
    + rewrite join_app by discriminate. reflexivity.
Qed.

Lemma strip_set_fixed_ends (chars s : str) :
  strip_set chars s = s →
  (∀ c, head s = Some c → c ∉ chars) ∧ (∀ c, last s = Some c → c ∉ chars).
Proof.
  unfold strip_set. intros H. split; intros c Hc.
  - rewrite <- H in Hc. apply strip_chars_head in Hc.
    apply bool_decide_eq_false in Hc. exact Hc.
  - rewrite <- H in Hc. apply strip_chars_last in Hc.
    apply bool_decide_eq_false in Hc. exact Hc.
Qed.

Lemma strip_set_joined (chars sep : str) (items : list str) :
  Forall (λ s, strip_set chars s = s) items →
  strip_set chars (join sep (filter (λ s, truthy s = true) items))
  = join sep (filter (λ s, truthy s = true) items).
Proof.
  intros Hall.
  assert (Hclean : Forall (λ s, strip_set chars s = s)
                     (filter (λ s, truthy s = true) items)).
  { apply Forall_forall. intros s [_ Hs]%list_elem_of_filter.
    rewrite Forall_forall in Hall. auto. }
  pose proof (filter_truthy_filled items) as Hf.
  destruct (filter (λ s, truthy s = true) items) as [|x f] eqn:E;
    [reflexivity |].
  unfold strip_set. apply strip_chars_id; intros c Hc;
    apply bool_decide_eq_false.
  - rewrite head_join in Hc by (inversion Hf; assumption).
    inversion Hclean as [|? ? Hx _]; subst.
    apply (proj1 (strip_set_fixed_ends chars x Hx)). exact Hc.
  - destruct (last (x :: f)) as [y|] eqn:Ey;
      [| apply last_None in Ey; discriminate].
    rewrite (last_join sep (x :: f) Hf y Ey) in Hc.
    rewrite Forall_forall in Hclean.
    refine (proj2 (strip_set_fixed_ends chars y _) c Hc).
    apply Hclean. eapply last_Some_elem_of. exact Ey.
Qed.

Lemma phase2_attempts_note_clean cfg (k : nat) :
  strip_set (lit "; ") (Phase2.attempts_note cfg k)
  = Phase2.attempts_note cfg k.
Proof.
  unfold strip_set, Phase2.attempts_note.
  destruct (str_of_pos_last (ROW_RETRIES (Phase2.retry cfg)))
    as (d & Hd & Hdigit).
  { unfold Phase2.retry. simpl. lia. }
  apply strip_chars_id; intros c Hc; apply bool_decide_eq_false.
  - change (lit "Phase2 attempts: ")
      with ("P"%char :: lit "hase2 attempts: ") in Hc.
    injection Hc as <-. intros H. apply list_elem_of_In in H.
    simpl in H. intuition discriminate.
  - rewrite !app_assoc, last_app, Hd in Hc. injection Hc as <-. exact Hdigit.
Qed.

Lemma fill_empty_other (row : list str) (i : nat) (v : str) row' :
  Phase2.fill_empty row i v = Ok row' → ∀ j, j ≠ i → row' !! j = row !! j.
Proof.
  unfold Phase2.fill_empty. intros H j Hj. bind_ok H.
  apply set_item_Ok in H as [_ ->].
  apply list_lookup_insert_ne. congruence.
Qed.

Lemma fill_empty_if_other (b : bool) (row : list str) (i : nat) (v : str)
    row' :
  (if b then Phase2.fill_empty row i v else Ok row) = Ok row' →
  ∀ j, j ≠ i → row' !! j = row !! j.
Proof.
  destruct b; [apply fill_empty_other |]. intros [= <-]. reflexivity.
Qed.

Lemma set_if_blank_other (row : list str) (i : nat) (v : str) row' :
  (cur ← get_item row i;
   if negb (truthy cur) then set_item row i v else Ok row) = Ok row' →
  ∀ j, j ≠ i → row' !! j = row !! j.
Proof.
  intros H j Hj. bind_ok H. destruct (truthy a); simpl in H.
  - injection H as <-. reflexivity.
  - apply set_item_Ok in H as [_ ->].
    apply list_lookup_insert_ne. congruence.
Qed.

Lemma confidence_if_blank_other float_of_str (row : list str) (i : nat)
    (v : json) row' :
  (cur ← get_item row i;
   if negb (truthy cur)
   then match (c ← Phase2.float_of float_of_str v;
               set_item row i (format_2f c)) with
        | Ok row' => Ok row'
        | Raise _ => Ok row
        end
   else Ok row) = Ok row' →
  ∀ j, j ≠ i → row' !! j = row !! j.
Proof.
  intros H j Hj. bind_ok H. destruct (truthy a); simpl in H.
  - injection H as <-. reflexivity.
  - destruct (Phase2.float_of float_of_str v) as [c|e]; simpl in H.
    + destruct (set_item row i (format_2f c)) as [r|e] eqn:Es.
      * injection H as <-. apply set_item_Ok in Es as [_ ->].
        apply list_lookup_insert_ne. congruence.
      * injection H as <-. reflexivity.
    + injection H as <-. reflexivity.
Qed.

(** One contact written into a row whose notes column is none of the
    columns of the contact: the notes after it. *)
Lemma phase2_apply_contact_notes float_of_str cfg cols (k : nat)
    (row : list str) (slot : nat) (contact : Phase2.Contact) cc cur row' :
  Phase2.apply_contact float_of_str cfg cols (Some k) row slot contact
  = Ok row' →
  Phase2.contact_cols cols !! slot = Some cc →
  Phase2.idx_notes cols ≠ Phase2.name cc →
  Phase2.idx_notes cols ≠ Phase2.title cc →
  Phase2.idx_notes cols ≠ Phase2.linkedin cc →
  Phase2.idx_notes cols ≠ Phase2.email cc →
  Phase2.idx_notes cols ≠ Phase2.idx_src cols →
  Phase2.idx_notes cols ≠ Phase2.idx_conf cols →
  row !! Phase2.idx_notes cols = Some cur →
  row' !! Phase2.idx_notes cols
  = Some (strip_set (lit "; ")
            (join (lit "; ")
               (filter (λ s, truthy s = true)
                  [cur; Phase2.notes contact; Phase2.attempts_note cfg k]))).
Proof.
  unfold Phase2.apply_contact. intros H Hcc N1 N2 N3 N4 N5 N6 Hcur.
  rewrite Hcc in H. cbn [mbind res_bind] in H.
  destruct (Phase2.fill_empty row (Phase2.name cc)
              (Phase2.contact_name contact)) as [r1|] eqn:E1;
    cbn [mbind res_bind] in H; [| discriminate].
  destruct (Phase2.fill_empty r1 (Phase2.title cc)
              (Phase2.contact_title contact)) as [r2|] eqn:E2;
    cbn [mbind res_bind] in H; [| discriminate].
  destruct (if truthy (Phase2.contact_linkedin contact)
            then Phase2.fill_empty r2 (Phase2.linkedin cc)
                   (Phase2.contact_linkedin contact)
            else Ok r2) as [r3|] eqn:E3;
    cbn [mbind res_bind] in H; [| discriminate].
  destruct (if truthy (Phase2.contact_email contact)
            then Phase2.fill_empty r3 (Phase2.email cc)
                   (Phase2.contact_email contact)
            else Ok r3) as [r4|] eqn:E4;
    cbn [mbind res_bind] in H; [| discriminate].
  assert (H1 : r1 !! Phase2.idx_notes cols = Some cur).
  { rewrite (fill_empty_other _ _ _ _ E1) by exact N1. exact Hcur. }
  assert (H2 : r2 !! Phase2.idx_notes cols = Some cur).
  { rewrite (fill_empty_other _ _ _ _ E2) by exact N2. exact H1. }
  assert (H3 : r3 !! Phase2.idx_notes cols = Some cur).
  { rewrite (fill_empty_if_other _ _ _ _ _ E3) by exact N3. exact H2. }
  assert (H4 : r4 !! Phase2.idx_notes cols = Some cur).
  { rewrite (fill_empty_if_other _ _ _ _ _ E4) by exact N4. exact H3. }
  match type of H with
  | mbind _ ?m = _ =>
      destruct m as [r5|] eqn:E5; cbn [mbind res_bind] in H; [| discriminate]
  end.
  assert (H5 : r5 !! Phase2.idx_notes cols = Some cur).
  { destruct (truthy (Phase2.source_url contact)).
    - rewrite (set_if_blank_other _ _ _ _ E5) by exact N5. exact H4.
    - injection E5 as <-. exact H4. }
  match type of H with
  | mbind _ ?m = _ =>
      destruct m as [r6|] eqn:E6; cbn [mbind res_bind] in H; [| discriminate]
  end.
  assert (H6 : r6 !! Phase2.idx_notes cols = Some cur).
  { destruct (Phase2.confidence contact);
      [injection E6 as <-; exact H5 | ..];
      match type of E6 with
      | context [Phase2.float_of _ ?v] =>
          rewrite (confidence_if_blank_other float_of_str r5 _ v r6 E6)
            by exact N6;
          exact H5
      end. }
  apply get_item_Ok in H6. rewrite H6 in H.
  apply set_item_Ok in H as [Hlt ->].
  rewrite list_lookup_insert_eq by exact Hlt.
  rewrite !str_or_nil. reflexivity.
Qed.

Lemma phase2_apply_contacts_notes float_of_str cfg cols (k : nat)
    (contacts : list Phase2.Contact) :
  Phase2.idx_notes cols ≠ Phase2.idx_src cols →
  Phase2.idx_notes cols ≠ Phase2.idx_conf cols →
  ∀ row slot items row',
    Phase2.apply_contacts float_of_str cfg cols (Some k) row slot contacts
    = Ok row' →
    (∀ s cc, slot ≤ s < slot + length contacts →
       Phase2.contact_cols cols !! s = Some cc →
       Phase2.idx_notes cols ≠ Phase2.name cc
       ∧ Phase2.idx_notes cols ≠ Phase2.title cc
       ∧ Phase2.idx_notes cols ≠ Phase2.linkedin cc
       ∧ Phase2.idx_notes cols ≠ Phase2.email cc) →
    Forall (λ s, strip_set (lit "; ") s = s) items →
    Forall (λ c, strip_set (lit "; ") (Phase2.notes c) = Phase2.notes c)
      contacts →
    row !! Phase2.idx_notes cols
    = Some (join (lit "; ") (filter (λ s, truthy s = true) items)) →
    row' !! Phase2.idx_notes cols
    = Some (join (lit "; ")
              (filter (λ s, truthy s = true)
                 (items ++ flat_map (λ c, [Phase2.notes c;
                                           Phase2.attempts_note cfg k])
                             contacts))).
Proof.
  intros N5 N6. induction contacts as [|contact rest IH];
    intros row slot items row' H Hslots Hitems Hnotes Hcur.
  - simpl in H. injection H as <-. simpl. rewrite app_nil_r. exact Hcur.
  - simpl in H. bind_ok H.
    inversion Hnotes as [|? ? Hn Hnotes']; subst.
    assert (Hcc : ∃ cc, Phase2.contact_cols cols !! slot = Some cc).
    { unfold Phase2.apply_contact in E.
      destruct (Phase2.contact_cols cols !! slot) as [cc|]; [eauto |].
      discriminate. }
    destruct Hcc as [cc Hcc].
    destruct (Hslots slot cc ltac:(simpl; lia) Hcc) as (N1 & N2 & N3 & N4).
    pose proof (phase2_apply_contact_notes _ _ _ _ _ _ _ _ _ _ E Hcc
                  N1 N2 N3 N4 N5 N6 Hcur) as Hcell.
    rewrite joined_notes_nested in Hcell.
    assert (Hitems' : Forall (λ s, strip_set (lit "; ") s = s)
                        (items ++ [Phase2.notes contact;
                                   Phase2.attempts_note cfg k])).
    { apply Forall_app. split; [exact Hitems |].
      repeat constructor; [exact Hn | apply phase2_attempts_note_clean]. }
    rewrite strip_set_joined in Hcell by exact Hitems'.
    specialize (IH a (S slot) _ row' H
                  ltac:(intros s c Hs; apply Hslots; simpl; lia)
                  Hitems' Hnotes' Hcell).
    rewrite <- app_assoc in IH. exact IH.
Qed.

Lemma slot_col_not_notes (base : string) (k : nat) :
  head (lit base) ≠ Some "n"%char → base ≠ ""%string →
  Phase2.slot_col (lit base) k ≠ OUT_COL_NOTES.
Proof.
  intros Hhead Hne H. apply Hhead. unfold Phase2.slot_col in H.
  destruct base as [|c base]; [congruence |].
  change (lit (String c base)) with (c :: lit base) in *.
  simpl in H. injection H as -> _. reflexivity.
Qed.

Lemma same_index_same_name (a b : str) (header : list str) (i : nat) :
  index_of a header = Some i → index_of b header = Some i → a = b.
Proof. intros Ha%index_of_lookup Hb%index_of_lookup. congruence. Qed.

Lemma phase2_notes_column_apart cfg (header : list str) :
  Phase2.idx_notes (Phase2.build_output_header cfg header).2
  ≠ Phase2.idx_src (Phase2.build_output_header cfg header).2
  ∧ Phase2.idx_notes (Phase2.build_output_header cfg header).2
    ≠ Phase2.idx_conf (Phase2.build_output_header cfg header).2
  ∧ ∀ s cc, 1 ≤ s ≤ Z.to_nat (Phase2.TARGET_CONTACTS cfg) →
      Phase2.contact_cols (Phase2.build_output_header cfg header).2 !! s
      = Some cc →
      Phase2.idx_notes (Phase2.build_output_header cfg header).2
      ≠ Phase2.name cc
      ∧ Phase2.idx_notes (Phase2.build_output_header cfg header).2
        ≠ Phase2.title cc
      ∧ Phase2.idx_notes (Phase2.build_output_header cfg header).2
        ≠ Phase2.linkedin cc
      ∧ Phase2.idx_notes (Phase2.build_output_header cfg header).2
        ≠ Phase2.email cc.
Proof.
  destruct (phase2_build_output_header_cols cfg header)
    as (_ & _ & _ & _ & Hsrc & Hconf & Hnotes & Hslots).
  split.
  { intros Heq. rewrite <- Heq in Hsrc.
    pose proof (same_index_same_name _ _ _ _ Hnotes Hsrc) as H.
    apply lit_inj in H. discriminate. }
  split.
  { intros Heq. rewrite <- Heq in Hconf.
    pose proof (same_index_same_name _ _ _ _ Hnotes Hconf) as H.
    apply lit_inj in H. discriminate. }
  intros s cc Hs Hcc.
  destruct (Hslots s) as (cc' & Hcc' & H1 & H2 & H3 & H4); [lia | lia |].
  rewrite Hcc in Hcc'. injection Hcc' as <-.
  repeat split; intros Heq;
    match goal with
    | H : index_of (Phase2.slot_col _ _) _ = Some ?i |- _ =>
        match type of Heq with
        | _ = i =>
            rewrite <- Heq in H;
            pose proof (same_index_same_name _ _ _ _ H Hnotes) as Hsame;
            revert Hsame; apply slot_col_not_notes; discriminate
        end
    end.
Qed.

(** The notes of a row after phase 2.  For a row with a company name, the
    notes cell holds, joined by ["; "] with the empty ones dropped: the
    notes the row came with, then for every contact written into the row
    its notes followed by the attempts marker.  The marker is appended
    once per contact, not once per row: a row that came without notes and
    got [n] contacts without notes ends with the marker [n] times.  This
    is stated for notes that neither begin nor end with a semicolon or a
    space, which the final strip would remove. *)
Theorem phase2_notes_list_every_contact :
  ∀ json_loads float_of_str agent rand cfg header i row name old,
    let output_header := (Phase2.build_output_header cfg header).1 in
    let cols := (Phase2.build_output_header cfg header).2 in
    let padded := pad_to (length output_header) row in
    let loop := Phase2.attempts json_loads agent rand cfg i in
    let contacts :=
      take (Z.to_nat (Phase2.TARGET_CONTACTS cfg)) (result loop) in
    padded !! Phase2.idx_name cols = Some name →
    strip name ≠ [] →
    padded !! Phase2.idx_notes cols = Some old →
    strip_set (lit "; ") old = old →
    Forall (λ c, strip_set (lit "; ") (Phase2.notes c) = Phase2.notes c)
      contacts →
    ∃ k govuk_url row',
      attempt loop = Some k
      ∧ Phase2.enrich_row json_loads float_of_str agent rand cfg cols
          output_header i row
        = Ok (false, strip name, govuk_url, result loop, row')
      ∧ row' !! Phase2.idx_notes cols
        = Some (join (lit "; ")
                  (filter (λ s, truthy s = true)
                     (old :: flat_map (λ c, [Phase2.notes c;
                                             Phase2.attempts_note cfg k])
                               contacts)))
      ∧ (old = [] → Forall (λ c, Phase2.notes c = []) contacts →
         row' !! Phase2.idx_notes cols
         = Some (join (lit "; ")
                   (replicate (length contacts)
                      (Phase2.attempts_note cfg k)))).
Proof.
  intros json_loads float_of_str agent rand cfg header i row name old
    output_header cols padded loop contacts Hname Hfilled Hold Hclean Hnotes.
  destruct (phase2_attempts_bound json_loads agent rand cfg i) as [k Hk].
  destruct (phase2_enrich_row_ok json_loads float_of_str agent rand cfg header
              i row) as (sk & cn & gv & cs & row' & E & _ & _).
  fold output_header cols in E. pose proof E as Erow.
  destruct (phase2_columns_fit cfg header) as (_ & Hgov & _).
  fold output_header cols in Hgov.
  destruct (phase2_notes_column_apart cfg header) as (N5 & N6 & Hslots).
  fold cols in N5, N6, Hslots.
  unfold Phase2.enrich_row in E. cbv zeta in E. fold padded in E.
  apply get_item_Ok in Hname. rewrite Hname in E. cbn [mbind res_bind] in E.
  destruct (get_item_lt padded (Phase2.idx_govuk cols)) as (g & Hg & _).
  { unfold padded. rewrite length_pad_to. lia. }
  rewrite Hg in E. cbn [mbind res_bind] in E.
  rewrite str_or_nil in E.
  apply truthy_true in Hfilled. rewrite Hfilled in E. cbn [negb] in E.
  rewrite Hk in E. fold loop contacts in E.
  destruct (Phase2.apply_contacts float_of_str cfg cols (Some k) padded 1
              contacts) as [r|] eqn:Eapply; [| discriminate].
  cbn [mbind res_bind mret res_ret] in E. injection E as <- <- <- <- <-.
  assert (Hcell : r !! Phase2.idx_notes cols
                  = Some (join (lit "; ")
                            (filter (λ s, truthy s = true)
                               ([old] ++ flat_map
                                  (λ c, [Phase2.notes c;
                                         Phase2.attempts_note cfg k])
                                  contacts)))).
  { eapply (phase2_apply_contacts_notes float_of_str cfg cols k contacts N5 N6
              padded 1 [old] r Eapply).
    - intros s cc Hs Hcc. apply (Hslots s cc); [| exact Hcc].
      unfold contacts in Hs. rewrite length_take in Hs. lia.
    - repeat constructor. exact Hclean.
    - exact Hnotes.
    - rewrite Hold. destruct old; reflexivity. }
  exists k, (strip (str_or g [])), r.
  split; [exact Hk |]. split; [exact Erow |]. split; [exact Hcell |].
  intros -> Hnone. rewrite Hcell. f_equal. f_equal.
  simpl. rewrite filter_cons_False by (simpl; discriminate).
  clear -Hnone. induction Hnone as [|c rest Hc _ IH]; [reflexivity |].
  simpl. rewrite Hc. rewrite filter_cons_False by (simpl; discriminate).
  rewrite filter_cons_True.
  - f_equal. exact IH.
  - unfold Phase2.attempts_note.
    change (lit "Phase2 attempts: ")
      with ("P"%char :: lit "hase2 attempts: ").
    reflexivity.
Qed.

Lemma phase2_notes_list_every_contact_witness :
  ∃ k govuk_url row',
    Phase2.enrich_row loads_fails float_fails agent_two_directors no_jitter
      phase2_defaults
      (Phase2.build_output_header phase2_defaults [lit "COMPANY NAME"]).2
      (Phase2.build_output_header phase2_defaults [lit "COMPANY NAME"]).1
      1 [lit "Acme Ltd"]
    = Ok (false, lit "Acme Ltd", govuk_url,
          result (Phase2.attempts loads_fails agent_two_directors no_jitter
                    phase2_defaults 1), row')
    ∧ row' !! Phase2.idx_notes
                (Phase2.build_output_header phase2_defaults
                   [lit "COMPANY NAME"]).2
      = Some (join (lit "; ")
                [Phase2.attempts_note phase2_defaults k;
                 Phase2.attempts_note phase2_defaults k]).
Proof.
  destruct (phase2_notes_list_every_contact loads_fails float_fails
              agent_two_directors no_jitter phase2_defaults
              [lit "COMPANY NAME"] 1 [lit "Acme Ltd"] (lit "Acme Ltd") [])
    as (k & govuk_url & row' & _ & Hrow & _ & Hnotes).
  - vm_compute. reflexivity.
  - vm_compute. discriminate.
  - vm_compute. reflexivity.
  - reflexivity.
  - vm_compute. repeat constructor.
  - exists k, govuk_url, row'. split; [exact Hrow |].
    apply Hnotes; [reflexivity |]. vm_compute. repeat constructor.
Defined.

Lemma sniff_dialect_and_header_falls_back_witness :
  ∃ d h,
    sniff_dialect_and_header sniff_fails header_found (lit "input.csv")
      one_row_input
    = (Ok (d, h), one_row_input)
    ∧ delimiter d = COMMA ∧ quotechar d = DQUOTE ∧ h = true.
Proof.
  destruct (sniff_dialect_and_header_falls_back sniff_fails header_found
              (lit "input.csv")
              (lit "ADDRESS,POSTCODE" ++ [LF] ++ lit "10 Main St,AB1 2CD"
               ++ [LF])
              one_row_input)
    as (d & h & Hrun & _ & Hfall).
  - reflexivity.
  - vm_compute. reflexivity.
  - destruct (Hfall eq_refl) as (Hq & _ & _ & _ & _ & Hcomma & Hh).
    exists d, h. split; [exact Hrun |].
    split; [apply Hcomma; vm_compute; lia |].
    split; [exact Hq |]. rewrite Hh. vm_compute. reflexivity.
Defined.

Lemma append_row_safe_as_write_csv_witness :
  ∃ w1,
    UtilsCsv.append_row_safe (lit "out.csv") [lit "a"; lit "b"]
      [lit "3"; lit "4"] None
      (one_file (lit "out.csv") (lit "a,b" ++ [LF] ++ lit "1,2" ++ [LF]))
    = (Ok (), w1)
    ∧ files w1 !! lit "out.csv"
      = Some (lit "a,b" ++ [LF] ++ lit "1,2" ++ [LF] ++ lit "3,4" ++ [LF]).
Proof.
  destruct (append_row_safe_as_write_csv (lit "out.csv") [lit "a"; lit "b"]
              [[lit "1"; lit "2"]] [lit "3"; lit "4"] None
              (one_file (lit "out.csv")
                 (lit "a,b" ++ [LF] ++ lit "1,2" ++ [LF])))
    as (w1 & w2 & Hrun & _ & _ & Hfile).
  - reflexivity.
  - right. vm_compute. reflexivity.
  - exists w1. split; [exact Hrun |]. rewrite Hfile. vm_compute. reflexivity.
Defined.

(** ** The configuration of the phases *)

Lemma getenv_insert_eq (env : Env) (key fallback : string) (v : str) :
  getenv (<[lit key := v]> env) key fallback = v.
Proof. unfold getenv. rewrite lookup_insert_eq. reflexivity. Qed.

Lemma getenv_insert_ne (env : Env) (key key' fallback : string) (v : str) :
  key' ≠ key →
  getenv (<[lit key' := v]> env) key fallback = getenv env key fallback.
Proof.
  intros Hne. unfold getenv. rewrite lookup_insert_ne; [reflexivity |].
  intros H. apply Hne. apply lit_inj. exact H.
Qed.

Lemma load_dotenv_override (values : gmap str (option str)) (env : Env)
    (k : str) :
  load_dotenv true values env !! k
  = match values !! k with
    | Some (Some v) => Some v
    | _ => env !! k
    end.
Proof.
  unfold load_dotenv. cbv zeta.
  destruct (values !! k) as [[v|]|] eqn:E.
  - apply lookup_union_Some_l. rewrite lookup_omap, E. reflexivity.
  - rewrite lookup_union_r; [reflexivity |]. rewrite lookup_omap, E.
    reflexivity.
  - rewrite lookup_union_r; [reflexivity |]. rewrite lookup_omap, E.
    reflexivity.
Qed.

Lemma load_dotenv_keep (values : gmap str (option str)) (env : Env)
    (k : str) :
  load_dotenv false values env !! k
  = match env !! k with
    | Some v => Some v
    | None =>
        match values !! k with
        | Some (Some v) => Some v
        | _ => None
        end
    end.
Proof.
  unfold load_dotenv. cbv zeta.
  destruct (env !! k) as [v|] eqn:E.
  - apply lookup_union_Some_l. exact E.
  - rewrite lookup_union_r by exact E. rewrite lookup_omap.
    destruct (values !! k) as [[v|]|]; reflexivity.
Qed.

Lemma lift_inv {A B} (r : res A) (k : A → IO B) (w w' : world) (b : B) :
  (lift r ≫= k) w = (Ok b, w') → ∃ a, r = Ok a ∧ k a w = (Ok b, w').
Proof.
  unfold lift, mbind, IO_bind. destruct r as [a|e]; [eauto | discriminate].
Qed.

Lemma system_call_inv {B} (k : unit → IO B) (w w' : world) (b : B) :
  (system_call ≫= k) w = (Ok b, w') →
  ∃ w1, files w1 = files w ∧ k () w1 = (Ok b, w').
Proof.
  intros H. pose proof (system_call_files w) as Hf.
  unfold mbind, IO_bind in H.
  destruct (system_call w) as [[[]|e] w1]; [| discriminate].
  exists w1. split; [exact Hf | exact H].
Qed.

(** What an import of phase 1 that went through has bound. *)
Lemma phase1_module_code_ok int_of_str float_of_str dotenv run_id env w m
    env' w' :
  Phase1Import.module_code int_of_str float_of_str dotenv run_id env w
  = (Ok (m, env'), w') →
  Phase1Import.INPUT_CSV m = getenv env "INPUT_CSV" "input.csv"
  ∧ Phase1Import.OUTPUT_CSV m = getenv env "OUTPUT_CSV" "output.core.csv"
  ∧ Phase1Import.PARTIAL_CSV m
    = getenv env "PARTIAL_CSV" "output.core.partial.csv"
  ∧ env' = load_dotenv true (dotenv true env) env
  ∧ files w' = files w.
Proof.
  unfold Phase1Import.module_code. cbv zeta. intros H.
  apply lift_inv in H as (pe & _ & H). apply lift_inv in H as (ms & _ & H).
  apply lift_inv in H as (rr & _ & H). apply lift_inv in H as (bb & _ & H).
  apply lift_inv in H as (ss & _ & H). apply lift_inv in H as (mx & _ & H).
  apply system_call_inv in H as (w1 & Hf & H).
  injection H as <- <- <-. simpl. auto.
Qed.

(** The same for phase 2. *)
Lemma phase2_module_code_ok int_of_str float_of_str dotenv run_id env w m
    env' w' :
  Phase2Import.module_code int_of_str float_of_str dotenv run_id env w
  = (Ok (m, env'), w') →
  env' = load_dotenv false (dotenv false env) env
  ∧ Phase2Import.INPUT_CSV m
    = getenv env' "INPUT_CSV_PHASE2" "output.core.csv"
  ∧ Phase2Import.OUTPUT_CSV m
    = getenv env' "OUTPUT_CSV_PHASE2" "output.with_contacts.csv"
  ∧ Phase2Import.PARTIAL_CSV m
    = getenv env' "PARTIAL_CSV_PHASE2" "output.with_contacts.partial.csv"
  ∧ files w' = files w.
Proof.
  unfold Phase2Import.module_code. cbv zeta. intros H.
  apply lift_inv in H as (pe & _ & H). apply lift_inv in H as (ms & _ & H).
  apply lift_inv in H as (rr & _ & H). apply lift_inv in H as (bb & _ & H).
  apply lift_inv in H as (ss & _ & H). apply lift_inv in H as (mx & _ & H).
  apply lift_inv in H as (tc & _ & H).
  apply system_call_inv in H as (w1 & Hf & H).
  injection H as <- <- <-. simpl. auto.
Qed.

Lemma set_env_for_phases_files (str_of_float : Q → str) (args : Main.Args)
    (env : Env) :
  Main.set_env_for_phases str_of_float args env !! lit "INPUT_CSV"
  = Some (Main.input args)
  ∧ Main.set_env_for_phases str_of_float args env !! lit "OUTPUT_CSV"
    = Some (Main.core_output args)
  ∧ Main.set_env_for_phases str_of_float args env !! lit "INPUT_CSV_PHASE2"
    = Some (Main.core_output args)
  ∧ Main.set_env_for_phases str_of_float args env !! lit "OUTPUT_CSV_PHASE2"
    = Some (Main.final_output args).
Proof.
  unfold Main.set_env_for_phases. cbv zeta.
  repeat split;
    repeat (rewrite lookup_insert_ne by (intros H%lit_inj; discriminate));
    apply lookup_insert_eq.
Qed.

(** Where the phases get their files from.  After [set_env_for_phases] of
    main.py, phase 1 reads [args.input] and writes [args.core_output],
    whatever the [.env] file holds, since its module reads the variables
    before it loads the file.  Phase 2, imported with phase 1 skipped,
    reads [args.core_output] and writes [args.final_output]; imported
    after phase 1 it does so too unless the [.env] file sets
    [INPUT_CSV_PHASE2] or [OUTPUT_CSV_PHASE2], which then win, because the
    import of phase 1 has loaded the file with [override=True].  Phase 2
    never reads [INPUT_CSV] and [OUTPUT_CSV]: with these two and
    [PARTIAL_CSV_PHASE2] set, as [run_phase2] of api_server.py sets them,
    its input and output files are those of [INPUT_CSV_PHASE2] and
    [OUTPUT_CSV_PHASE2] in the environment or in the [.env] file, or else
    [output.core.csv] and [output.with_contacts.csv]; only the partial
    file is the one that was set. *)
Theorem phase_files_configuration :
  ∀ (int_of_str : str → res Z) (float_of_str : str → res Q)
    (str_of_float : Q → str) (dotenv : bool → Env → gmap str (option str)),
    (∀ args env0 run_id w m1 env1 w1,
       Phase1Import.module_code int_of_str float_of_str dotenv run_id
         (Main.set_env_for_phases str_of_float args env0) w
       = (Ok (m1, env1), w1) →
       Phase1Import.INPUT_CSV m1 = Main.input args
       ∧ Phase1Import.OUTPUT_CSV m1 = Main.core_output args
       ∧ ∀ run_id2 m2 env2 w2,
           Phase2Import.module_code int_of_str float_of_str dotenv run_id2
             env1 w1
           = (Ok (m2, env2), w2) →
           Phase2Import.INPUT_CSV m2
           = match dotenv true (Main.set_env_for_phases str_of_float args env0)
                     !! lit "INPUT_CSV_PHASE2" with
             | Some (Some v) => v
             | _ => Main.core_output args
             end
           ∧ Phase2Import.OUTPUT_CSV m2
             = match dotenv true
                       (Main.set_env_for_phases str_of_float args env0)
                       !! lit "OUTPUT_CSV_PHASE2" with
               | Some (Some v) => v
               | _ => Main.final_output args
               end)
    ∧ (∀ args env0 run_id2 w m2 env2 w2,
         Phase2Import.module_code int_of_str float_of_str dotenv run_id2
           (Main.set_env_for_phases str_of_float args env0) w
         = (Ok (m2, env2), w2) →
         Phase2Import.INPUT_CSV m2 = Main.core_output args
         ∧ Phase2Import.OUTPUT_CSV m2 = Main.final_output args)
    ∧ (∀ env input_file output_file partial_file run_id w m env' w',
         let env_job :=
           <[lit "PARTIAL_CSV_PHASE2" := partial_file]>
             (<[lit "OUTPUT_CSV" := output_file]>
                (<[lit "INPUT_CSV" := input_file]> env)) in
         Phase2Import.module_code int_of_str float_of_str dotenv run_id
           env_job w
         = (Ok (m, env'), w') →
         Phase2Import.INPUT_CSV m
         = match env !! lit "INPUT_CSV_PHASE2" with
           | Some v => v
           | None =>
               match dotenv false env_job !! lit "INPUT_CSV_PHASE2" with
               | Some (Some v) => v
               | _ => lit "output.core.csv"
               end
           end
         ∧ Phase2Import.OUTPUT_CSV m
           = match env !! lit "OUTPUT_CSV_PHASE2" with
             | Some v => v
             | None =>
                 match dotenv false env_job !! lit "OUTPUT_CSV_PHASE2" with
                 | Some (Some v) => v
                 | _ => lit "output.with_contacts.csv"
                 end
             end
         ∧ Phase2Import.PARTIAL_CSV m = partial_file).
Proof.
  intros int_of_str float_of_str str_of_float dotenv.
  split.
  { intros args env0 run_id w m1 env1 w1 H1.
    destruct (set_env_for_phases_files str_of_float args env0)
      as (Ei & Eo & Ei2 & Eo2).
    apply phase1_module_code_ok in H1 as (-> & -> & _ & -> & _).
    unfold getenv. rewrite Ei, Eo.
    split; [reflexivity |]. split; [reflexivity |].
    intros run_id2 m2 env2 w2 H2.
    apply phase2_module_code_ok in H2 as (-> & -> & -> & _ & _).
    unfold getenv. rewrite !load_dotenv_keep, !load_dotenv_override, Ei2, Eo2.
    split.
    - destruct (dotenv true _ !! lit "INPUT_CSV_PHASE2") as [[v|]|];
        reflexivity.
    - destruct (dotenv true _ !! lit "OUTPUT_CSV_PHASE2") as [[v|]|];
        reflexivity. }
  split.
  { intros args env0 run_id2 w m2 env2 w2 H2.
    destruct (set_env_for_phases_files str_of_float args env0)
      as (_ & _ & Ei2 & Eo2).
    apply phase2_module_code_ok in H2 as (-> & -> & -> & _ & _).
    unfold getenv. rewrite !load_dotenv_keep, Ei2, Eo2.
    split; reflexivity. }
  intros env input_file output_file partial_file run_id w m env' w' env_job H.
  apply phase2_module_code_ok in H as (-> & -> & -> & -> & _).
  assert (E1 : env_job !! lit "INPUT_CSV_PHASE2"
               = env !! lit "INPUT_CSV_PHASE2").
  { unfold env_job.
    repeat (rewrite lookup_insert_ne by (intros H%lit_inj; discriminate)).
    reflexivity. }
  assert (E2 : env_job !! lit "OUTPUT_CSV_PHASE2"
               = env !! lit "OUTPUT_CSV_PHASE2").
  { unfold env_job.
    repeat (rewrite lookup_insert_ne by (intros H%lit_inj; discriminate)).
    reflexivity. }
  assert (E3 : env_job !! lit "PARTIAL_CSV_PHASE2" = Some partial_file).
  { unfold env_job. apply lookup_insert_eq. }
  unfold getenv. rewrite !load_dotenv_keep, E1, E2, E3.
  split; [| split; [| reflexivity]].
  - destruct (env !! lit "INPUT_CSV_PHASE2"); [reflexivity |].
    destruct (dotenv false env_job !! lit "INPUT_CSV_PHASE2") as [[v|]|];
      reflexivity.
  - destruct (env !! lit "OUTPUT_CSV_PHASE2"); [reflexivity |].
    destruct (dotenv false env_job !! lit "OUTPUT_CSV_PHASE2") as [[v|]|];
      reflexivity.
Qed.

(** ** [run_all] of main.py *)

Lemma phase1_main_no_input sniff has_header json_dumps extract agent rand cfg
    (w : world) :
  truthy_opt (Phase1.GOOGLE_API_KEY cfg) = true →
  files w !! Phase1.INPUT_CSV cfg = None →
  Phase1.main sniff has_header json_dumps extract agent rand cfg w
  = (Raise FileNotFoundError, w).
Proof.
  intros Hkey Hnone. unfold Phase1.main. rewrite Hkey. cbn [negb].
  erewrite IO_bind_Ok by reflexivity. rewrite Hnone.
  rewrite bool_decide_eq_false_2 by (intros [? ?]; discriminate).
  reflexivity.
Qed.

Lemma phase1_main_blank_input sniff has_header json_dumps extract agent rand
    cfg (w : world) text rows :
  truthy_opt (Phase1.GOOGLE_API_KEY cfg) = true → calm w →
  files w !! Phase1.INPUT_CSV cfg = Some text →
  csv_reader (detected sniff has_header text) text = Ok rows →
  filter (λ row, keep_row row = true) rows = [] →
  Phase1.main sniff has_header json_dumps extract agent rand cfg w
  = (Ok (), w).
Proof.
  intros Hkey Hc Htext Hread Hblank. unfold Phase1.main. rewrite Hkey.
  cbn [negb]. erewrite IO_bind_Ok by reflexivity. rewrite Htext.
  rewrite bool_decide_eq_true_2 by eauto. cbn [negb].
  erewrite IO_bind_Ok by (eapply read_rows_calm; eassumption).
  rewrite Hblank. reflexivity.
Qed.

Lemma phase1_main_no_header sniff has_header json_dumps extract agent rand
    cfg (w : world) text rows :
  truthy_opt (Phase1.GOOGLE_API_KEY cfg) = true → calm w →
  files w !! Phase1.INPUT_CSV cfg = Some text →
  csv_reader (detected sniff has_header text) text = Ok rows →
  filter (λ row, keep_row row = true) rows ≠ [] →
  (sniff_sample sniff has_header (sample_text (N.to_nat 8192) text)).2
  = false →
  Phase1.main sniff has_header json_dumps extract agent rand cfg w
  = (Raise ValueError, w).
Proof.
  intros Hkey Hc Htext Hread Hne Hno. unfold Phase1.main. rewrite Hkey.
  cbn [negb]. erewrite IO_bind_Ok by reflexivity. rewrite Htext.
  rewrite bool_decide_eq_true_2 by eauto. cbn [negb].
  erewrite IO_bind_Ok by (eapply read_rows_calm; eassumption).
  destruct (filter _ rows) as [|header data_rows]; [congruence |].
  erewrite IO_bind_Ok by (apply sniff_dialect_and_header_calm; eassumption).
  destruct (sniff_sample _ _ _) as [d h]. simpl in Hno. subst h.
  reflexivity.
Qed.

Lemma system_call_calm_bind {B} (k : unit → IO B) (w : world) :
  calm w → (system_call ≫= k) w = k () w.
Proof. intros Hc. erewrite IO_bind_Ok by (apply system_call_calm; exact Hc). reflexivity. Qed.

Lemma phase1_module_code_calm int_of_str float_of_str dotenv run_id env
    (w : world) m env' w' :
  calm w →
  Phase1Import.module_code int_of_str float_of_str dotenv run_id env w
  = (Ok (m, env'), w') →
  w' = w.
Proof.
  intros Hc. unfold Phase1Import.module_code. cbv zeta. intros H.
  apply lift_inv in H as (pe & _ & H). apply lift_inv in H as (ms & _ & H).
  apply lift_inv in H as (rr & _ & H). apply lift_inv in H as (bb & _ & H).
  apply lift_inv in H as (ss & _ & H). apply lift_inv in H as (mx & _ & H).
  rewrite system_call_calm_bind in H by exact Hc.
  injection H as _ _ <-. reflexivity.
Qed.

(** How [run_all] of main.py ends before phase 1 reaches its rows.  With
    both phases skipped it returns and touches nothing.  When the import
    of phase 1 raises, as it does for a [PARTIAL_EVERY] that is no
    integer, the run exits with code 1.  After an import that went
    through, in a run in which no system call fails: an input file that is
    missing is not an exit but a [FileNotFoundError] that goes up, and so
    is the [ValueError] of an input without a reported header; an input
    whose rows are all blank makes phase 1 return without an output, so
    the run exits with code 1 and phase 2 is not started, unless a core
    output was there before the run, which is then taken for the output
    of phase 1.  [main] itself exits with code 1 when there is no API key
    after the [.env] file is loaded. *)
Theorem run_all_before_the_rows :
  ∀ sniff has_header json_dumps json_loads int_of_str float_of_str
    str_of_float dotenv agent1 agent2 rand1 rand2 run_id1 run_id2 args env w,
    let run := Main.run_all sniff has_header json_dumps json_loads int_of_str
                 float_of_str dotenv agent1 agent2 rand1 rand2 run_id1
                 run_id2 args env in
    let import1 := Phase1Import.module_code int_of_str float_of_str dotenv
                     run_id1 env in
    (Main.skip_phase1 args = true → Main.skip_phase2 args = true →
     run w = (Ok Main.Returned, w))
    ∧ (Main.skip_phase1 args = false →
       ∀ e w1, import1 w = (Raise e, w1) → run w = (Ok (Main.Exited 1), w1))
    ∧ (Main.skip_phase1 args = false → calm w →
       ∀ m env1 w1,
         import1 w = (Ok (m, env1), w1) →
         truthy_opt (env1 !! lit "GOOGLE_API_KEY") = true →
         (files w !! Phase1Import.INPUT_CSV m = None →
          run w = (Raise FileNotFoundError, w))
         ∧ ∀ text rows,
             files w !! Phase1Import.INPUT_CSV m = Some text →
             csv_reader (detected sniff has_header text) text = Ok rows →
             (filter (λ row, keep_row row = true) rows = [] →
              files w !! Main.core_output args = None →
              run w = (Ok (Main.Exited 1), w))
             ∧ (filter (λ row, keep_row row = true) rows = [] →
                is_Some (files w !! Main.core_output args) →
                Main.skip_phase2 args = true →
                run w = (Ok Main.Returned, w))
             ∧ (filter (λ row, keep_row row = true) rows ≠ [] →
                (sniff_sample sniff has_header
                   (sample_text (N.to_nat 8192) text)).2 = false →
                run w = (Raise ValueError, w)))
    ∧ (truthy_opt (load_dotenv true (dotenv true env) env
                     !! lit "GOOGLE_API_KEY") = false →
       Main.main sniff has_header json_dumps json_loads int_of_str
         float_of_str str_of_float dotenv agent1 agent2 rand1 rand2 run_id1
         run_id2 args env w
       = (Ok (Main.Exited 1), w)).
Proof.
  intros sniff has_header json_dumps json_loads int_of_str float_of_str
    str_of_float dotenv agent1 agent2 rand1 rand2 run_id1 run_id2 args env w
    run import1. subst run import1.
  split.
  { intros H1 H2. unfold Main.run_all. rewrite H1, H2. reflexivity. }
  split.
  { intros H1 e w1 Himport. unfold Main.run_all. rewrite H1. cbn [negb].
    unfold mbind, IO_bind, try_except, mret, IO_ret. rewrite Himport. reflexivity. }
  split.
  { intros H1 Hc m env1 w1 Himport Hkey.
    pose proof (phase1_module_code_calm _ _ _ _ _ _ _ _ _ Hc Himport) as ->.
    assert (Hraise : ∀ e,
              Phase1.main sniff has_header json_dumps
                extract_company_from_address agent1 rand1
                (Phase1Import.config m env1) w = (Raise e, w) →
              Main.run_all sniff has_header json_dumps json_loads int_of_str
                float_of_str dotenv agent1 agent2 rand1 rand2 run_id1 run_id2
                args env w
              = (Raise e, w)).
    { intros e Hmain. unfold Main.run_all. rewrite H1. cbn [negb].
      unfold mbind, IO_bind, try_except, mret, IO_ret. rewrite Himport. cbv beta iota.
      rewrite Hmain. reflexivity. }
    assert (Hreturn : Phase1.main sniff has_header json_dumps
                        extract_company_from_address agent1 rand1
                        (Phase1Import.config m env1) w = (Ok (), w) →
              (files w !! Main.core_output args = None →
               Main.run_all sniff has_header json_dumps json_loads int_of_str
                 float_of_str dotenv agent1 agent2 rand1 rand2 run_id1
                 run_id2 args env w
               = (Ok (Main.Exited 1), w))
              ∧ (is_Some (files w !! Main.core_output args) →
                 Main.skip_phase2 args = true →
                 Main.run_all sniff has_header json_dumps json_loads
                   int_of_str float_of_str dotenv agent1 agent2 rand1 rand2
                   run_id1 run_id2 args env w
                 = (Ok Main.Returned, w))).
    { intros Hmain. split.
      - intros Hcore. unfold Main.run_all. rewrite H1. cbn [negb].
        unfold mbind, IO_bind, try_except, mret, IO_ret. rewrite Himport. cbv beta iota.
        rewrite Hmain. cbv beta iota. unfold path_exists. rewrite Hcore.
        rewrite bool_decide_eq_false_2 by (intros [? ?]; discriminate).
        reflexivity.
      - intros Hcore H2. unfold Main.run_all. rewrite H1, H2. cbn [negb].
        unfold mbind, IO_bind, try_except, mret, IO_ret. rewrite Himport. cbv beta iota.
        rewrite Hmain. cbv beta iota. unfold path_exists.
        rewrite bool_decide_eq_true_2 by exact Hcore. reflexivity. }
    split.
    { intros Hnone. apply Hraise.
      apply phase1_main_no_input; [exact Hkey | exact Hnone]. }
    intros text rows Htext Hread. split.
    { intros Hblank Hcore. apply Hreturn; [| exact Hcore].
      eapply phase1_main_blank_input; eassumption. }
    split.
    { intros Hblank Hcore H2. apply Hreturn; [| exact Hcore | exact H2].
      eapply phase1_main_blank_input; eassumption. }
    intros Hne Hno. apply Hraise.
    eapply phase1_main_no_header; eassumption. }
  intros Hkey. unfold Main.main. cbv zeta. rewrite Hkey. reflexivity.
Qed.

(** The import of phase 1 goes through when its numbers parse and the
    [mkdir] does not fail. *)
Lemma phase1_module_code_returns int_of_str float_of_str dotenv run_id env
    (w : world) every steps retries base start most :
  calm w →
  int_of_str (getenv env "PARTIAL_EVERY" "20") = Ok every →
  int_of_str (getenv env "MAX_STEPS" "120") = Ok steps →
  int_of_str (getenv env "ROW_RETRIES" "5") = Ok retries →
  float_of_str (getenv env "RETRY_BACKOFF_BASE" "1.8") = Ok base →
  float_of_str (getenv env "RETRY_START_SLEEP" "1.0") = Ok start →
  float_of_str (getenv env "RETRY_MAX_SLEEP" "12.0") = Ok most →
  ∃ m,
    Phase1Import.module_code int_of_str float_of_str dotenv run_id env w
    = (Ok (m, load_dotenv true (dotenv true env) env), w).
Proof.
  intros Hc H1 H2 H3 H4 H5 H6. unfold Phase1Import.module_code. cbv zeta.
  rewrite H1, H2, H3, H4, H5, H6. unfold lift.
  do 6 (erewrite IO_bind_Ok by reflexivity).
  rewrite system_call_calm_bind by exact Hc.
  eexists. reflexivity.
Qed.

Lemma phase_files_configuration_witness :
  ∃ m1 env1,
    Phase1Import.module_code int_of_digits float_of_digits no_dotenv
      (lit "20260101-120000") whole_env blank_input
    = (Ok (m1, env1), blank_input)
    ∧ Phase1Import.INPUT_CSV m1 = lit "input.csv"
    ∧ Phase1Import.OUTPUT_CSV m1 = lit "output.core.csv".
Proof.
  destruct (phase1_module_code_returns int_of_digits float_of_digits
              no_dotenv (lit "20260101-120000") whole_env blank_input
              20 120 5 2 1 12) as [m1 E1].
  - reflexivity.
  - vm_compute. reflexivity.
  - vm_compute. reflexivity.
  - vm_compute. reflexivity.
  - vm_compute. reflexivity.
  - vm_compute. reflexivity.
  - vm_compute. reflexivity.
  - destruct (proj1 (phase_files_configuration int_of_digits float_of_digits
                       str_of_whole no_dotenv)
                whole_args {[ lit "GOOGLE_API_KEY" := lit "key" ]}
                (lit "20260101-120000") blank_input m1 _ blank_input E1)
      as (Hin & Hout & _).
    exists m1, (load_dotenv true (no_dotenv true whole_env) whole_env).
    split; [exact E1 |]. split; [exact Hin | exact Hout].
Defined.

Lemma run_all_before_the_rows_witness :
  Main.run_all sniff_comma header_found dumps_braces loads_fails
    int_of_digits float_of_digits no_dotenv agent_down agent_nameless
    no_jitter no_jitter (lit "20260101-120000") (lit "20260101-120500")
    whole_args whole_env blank_input
  = (Ok (Main.Exited 1), blank_input).
Proof.
  destruct (phase1_module_code_returns int_of_digits float_of_digits
              no_dotenv (lit "20260101-120000") whole_env blank_input
              20 120 5 2 1 12) as [m1 E1];
    [reflexivity | vm_compute; reflexivity ..|].
  destruct (phase1_module_code_ok _ _ _ _ _ _ _ _ _ E1) as (Hin & _).
  destruct (run_all_before_the_rows sniff_comma header_found dumps_braces
              loads_fails int_of_digits float_of_digits str_of_whole no_dotenv
              agent_down agent_nameless no_jitter no_jitter
              (lit "20260101-120000") (lit "20260101-120500")
              whole_args whole_env blank_input)
    as (_ & _ & Hrun & _).
  destruct (Hrun eq_refl eq_refl m1 _ blank_input E1) as [_ Hrows].
  { vm_compute. reflexivity. }
  destruct (Hrows (lit "  " ++ [LF]) [[lit "  "]]) as (Hblank & _).
  { rewrite Hin. vm_compute. reflexivity. }
  { vm_compute. reflexivity. }
  apply Hblank; vm_compute; reflexivity.
Defined.
